(** * NNUE training pipeline: feature sets, layers, shared trainer,
      sample generator and learner: a shallow embedding and its properties *)

From Stdlib Require Import ZArith List Bool Lia Permutation PrimFloat.
From Stdlib Require Uint63 Ascii Sorted.
From stdpp Require Import base list list_numbers.
Import ListNotations.

Local Open Scope Z_scope.

(* ===================================================================== *)
(** * Part I: the embedding *)
(* ===================================================================== *)

(** ** Machine integers *)

(** [IndexType] and [std::uint32_t]: arithmetic is modulo 2^32. *)
Definition wrap32 (z : Z) : Z := z mod 2 ^ 32.

(** [uint64_t]: arithmetic is modulo 2^64. *)
Definition wrap64 (z : Z) : Z := z mod 2 ^ 64.

(** [int8_t]: the value an [int] converts to (two's complement). *)
Definition wrap_int8 (z : Z) : Z := (z + 128) mod 256 - 128.

(** The indices [0, 1, ..., n-1] of a counting [for] loop. *)
Definition indices (n : Z) : list Z := seqZ 0 n.

(** ** Board types used by the feature code *)

(** Modelled from the spec: types.h is not part of the sources at hand.
    The two perspectives (sides to move). *)
Inductive Color := WHITE | BLACK.

(** [~c] *)
Definition flip_color (c : Color) : Color :=
  match c with WHITE => BLACK | BLACK => WHITE end.

(** Modelled from the spec: types.h is not part of the sources at hand.
    The feature code only asks whether a piece type is the king. *)
Inductive PieceType := KING | NON_KING (id : Z).

(** Modelled from the spec: types.h is not part of the sources at hand.
    A piece is represented by what [make_piece] and [type_of] expose: its
    colour and its type. *)
Inductive Piece := NO_PIECE | make_piece (c : Color) (pt : PieceType).

Definition type_of (pc : Piece) : option PieceType :=
  match pc with NO_PIECE => None | make_piece _ pt => Some pt end.

Definition color_eqb (a b : Color) : bool :=
  match a, b with WHITE, WHITE | BLACK, BLACK => true | _, _ => false end.

Definition piece_type_eqb (a b : PieceType) : bool :=
  match a, b with
  | KING, KING => true
  | NON_KING x, NON_KING y => x =? y
  | _, _ => false
  end.

Definition piece_eqb (a b : Piece) : bool :=
  match a, b with
  | NO_PIECE, NO_PIECE => true
  | make_piece c1 t1, make_piece c2 t2 => color_eqb c1 c2 && piece_type_eqb t1 t2
  | _, _ => false
  end.

Definition is_king (pc : Piece) : bool :=
  match type_of pc with Some KING => true | _ => false end.

(** Modelled from the spec: position.h is not part of the sources at hand.
    The most recent piece-movement delta: the number of pieces moved and
    the pieces ([from] and [to] are not read by the code embedded here). *)
Record DirtyPiece := {
  dirty_num : Z;
  piece : list Piece
}.

(** Modelled from the spec: position.h is not part of the sources at hand.
    The fields of a [StateInfo] that the feature code reads. *)
Record StateInfo := {
  castlingRights : Z;
  dirtyPiece : DirtyPiece
}.

(** Modelled from the spec: position.h is not part of the sources at hand.
    A position is represented by the two states the feature code reaches:
    [pos.state()] and [pos.state()->previous]. *)
Record Position := {
  state : StateInfo;            (* pos.state() *)
  state_previous : StateInfo    (* pos.state()->previous *)
}.

(** Modelled from the spec: index_list.h is not part of the sources at
    hand.  An [IndexList] is the list of its elements; [push_back] appends
    at the end. *)
Definition IndexList := list Z.

Definition push_back {A} (l : list A) (x : A) : list A := l ++ [x].

(** A C array of two elements indexed by a colour. *)
Definition get2 {A} (c : Color) (p : A * A) : A :=
  match c with WHITE => fst p | BLACK => snd p end.

Definition set2 {A} (c : Color) (v : A) (p : A * A) : A * A :=
  match c with WHITE => (v, snd p) | BLACK => (fst p, v) end.

(** ** Refresh triggers and the interface of a feature extractor *)

(** Modelled from the spec: features_common.h is not part of the sources at
    hand.  The event classes are those of the spec and of the [switch] in
    [append_changed_indices]. *)
Inductive TriggerEvent :=
  kNone | kFriendKingMoved | kEnemyKingMoved | kAnyKingMoved | kAnyPieceMoved.

Definition trigger_eqb (a b : TriggerEvent) : bool :=
  match a, b with
  | kNone, kNone | kFriendKingMoved, kFriendKingMoved
  | kEnemyKingMoved, kEnemyKingMoved | kAnyKingMoved, kAnyKingMoved
  | kAnyPieceMoved, kAnyPieceMoved => true
  | _, _ => false
  end.

Module Feature.
(** What the [FeatureSet] template uses of a feature type. *)
Record t := {
  kHashValue : Z;
  kDimensions : Z;
  kMaxActiveDimensions : Z;
  kRefreshTrigger : TriggerEvent;
  append_active_indices : Position -> Color -> IndexList -> IndexList;
  append_changed_indices :
    Position -> Color -> IndexList -> IndexList -> IndexList * IndexList
}.

(** The constants are values of [IndexType]. *)
Definition in_range (f : t) : Prop :=
  0 <= kDimensions f < 2 ^ 32 /\ 0 <= kMaxActiveDimensions f < 2 ^ 32.
End Feature.

(** ** castling_right.cpp *)

Module CastlingRight.
Definition kHashValue : Z := 0x913968AA.
Definition kDimensions : Z := 4.
Definition kMaxActiveDimensions : Z := 4.
Definition kRefreshTrigger : TriggerEvent := kNone.

(** [relative_castling_rights]: the rights themselves for WHITE, the
    "inverted" expression for BLACK. *)
Definition relative (perspective : Color) (castling_rights : Z) : Z :=
  match perspective with
  | WHITE => castling_rights
  | BLACK =>
      Z.land (Z.shiftl (Z.land castling_rights 3) 2)
             (Z.land (Z.shiftr castling_rights 2) 3)
  end.

(** [RawFeatures::kMaxActiveDimensions] belongs to the selected network
    architecture; it is a parameter here. *)
Definition append_active_indices (raw_kMaxActiveDimensions : Z)
    (pos : Position) (perspective : Color) (active : IndexList) : IndexList :=
  if raw_kMaxActiveDimensions <? kMaxActiveDimensions then active
  else
    let relative_castling_rights :=
      relative perspective (castlingRights (state pos)) in
    fold_left
      (fun active i =>
         if negb (Z.land relative_castling_rights (Z.shiftl 1 i) =? 0)
         then push_back active i else active)
      (indices kDimensions) active.

Definition append_changed_indices
    (pos : Position) (perspective : Color)
    (removed added : IndexList) : IndexList * IndexList :=
  let previous_castling_rights := castlingRights (state_previous pos) in
  let current_castling_rights := castlingRights (state pos) in
  let relative_previous_castling_rights :=
    relative perspective previous_castling_rights in
  let relative_current_castling_rights :=
    relative perspective current_castling_rights in
  (fold_left
     (fun removed i =>
        if negb (Z.land relative_previous_castling_rights (Z.shiftl 1 i) =? 0)
           && (Z.land relative_current_castling_rights (Z.shiftl 1 i) =? 0)
        then push_back removed i else removed)
     (indices kDimensions) removed,
   added).

Definition feature (raw_kMaxActiveDimensions : Z) : Feature.t :=
  {| Feature.kHashValue := kHashValue;
     Feature.kDimensions := kDimensions;
     Feature.kMaxActiveDimensions := kMaxActiveDimensions;
     Feature.kRefreshTrigger := kRefreshTrigger;
     Feature.append_active_indices :=
       append_active_indices raw_kMaxActiveDimensions;
     Feature.append_changed_indices := append_changed_indices |}.
End CastlingRight.

(** ** feature_set.h *)

Module FeatureSet.
(** [FeatureSet<FeatureType>] and
    [FeatureSet<FirstFeatureType, RemainingFeatureTypes...>]. *)
Inductive t :=
| Single (FeatureType : Feature.t)
| Cons (Head : Feature.t) (Tail : t).

(** The template arguments, in order. *)
Fixpoint members (fs : t) : list Feature.t :=
  match fs with
  | Single f => [f]
  | Cons h tl => h :: members tl
  end.

Fixpoint kDimensions (fs : t) : Z :=
  match fs with
  | Single f => Feature.kDimensions f
  | Cons h tl => wrap32 (Feature.kDimensions h + kDimensions tl)
  end.

Fixpoint kMaxActiveDimensions (fs : t) : Z :=
  match fs with
  | Single f => Feature.kMaxActiveDimensions f
  | Cons h tl =>
      wrap32 (Feature.kMaxActiveDimensions h + kMaxActiveDimensions tl)
  end.

(** The loop that adds [d] to every element from position [start] on. *)
Definition offset_from (start : nat) (d : Z) (l : IndexList) : IndexList :=
  firstn start l ++ map (fun x => wrap32 (x + d)) (skipn start l).

Fixpoint collect_active_indices (fs : t) (pos : Position)
    (trigger : TriggerEvent) (perspective : Color)
    (active : IndexList) : IndexList :=
  match fs with
  | Single f =>
      if trigger_eqb (Feature.kRefreshTrigger f) trigger
      then Feature.append_active_indices f pos perspective active
      else active
  | Cons h tl =>
      let active := collect_active_indices tl pos trigger perspective active in
      if trigger_eqb (Feature.kRefreshTrigger h) trigger then
        let start := length active in
        let active := Feature.append_active_indices h pos perspective active in
        offset_from start (kDimensions tl) active
      else active
  end.

Fixpoint collect_changed_indices (fs : t) (pos : Position)
    (trigger : TriggerEvent) (perspective : Color)
    (removed added : IndexList) : IndexList * IndexList :=
  match fs with
  | Single f =>
      if trigger_eqb (Feature.kRefreshTrigger f) trigger
      then Feature.append_changed_indices f pos perspective removed added
      else (removed, added)
  | Cons h tl =>
      let '(removed, added) :=
        collect_changed_indices tl pos trigger perspective removed added in
      if trigger_eqb (Feature.kRefreshTrigger h) trigger then
        let start_removed := length removed in
        let start_added := length added in
        let '(removed, added) :=
          Feature.append_changed_indices h pos perspective removed added in
        (offset_from start_removed (kDimensions tl) removed,
         offset_from start_added (kDimensions tl) added)
      else (removed, added)
  end.

(** The three output arrays of [append_changed_indices]. *)
Record Changed := {
  removed : IndexList * IndexList;
  added : IndexList * IndexList;
  reset : bool * bool
}.

Definition set_reset (perspective : Color) (b : bool) (o : Changed) : Changed :=
  {| removed := removed o; added := added o;
     reset := set2 perspective b (reset o) |}.

(** The code after the [switch]. *)
Definition collect (fs : t) (pos : Position) (trigger : TriggerEvent)
    (perspective : Color) (o : Changed) : Changed :=
  if get2 perspective (reset o) then
    {| removed := removed o;
       added := set2 perspective
                  (collect_active_indices fs pos trigger perspective
                     (get2 perspective (added o)))
                  (added o);
       reset := reset o |}
  else
    let '(r, a) :=
      collect_changed_indices fs pos trigger perspective
        (get2 perspective (removed o)) (get2 perspective (added o)) in
    {| removed := set2 perspective r (removed o);
       added := set2 perspective a (added o);
       reset := reset o |}.

(** One iteration of the loop over the perspectives; [continue] leaves
    the outputs as they are. *)
Definition changed_for (fs : t) (pos : Position) (trigger : TriggerEvent)
    (perspective : Color) (o : Changed) : Changed :=
  let dp := dirtyPiece (state pos) in
  let piece0 := nth 0 (piece dp) NO_PIECE in
  match trigger with
  | kNone => collect fs pos trigger perspective o
  | kFriendKingMoved =>
      if dirty_num dp =? 0 then o
      else collect fs pos trigger perspective
             (set_reset perspective
                (piece_eqb piece0 (make_piece perspective KING)) o)
  | kEnemyKingMoved =>
      if dirty_num dp =? 0 then o
      else collect fs pos trigger perspective
             (set_reset perspective
                (piece_eqb piece0 (make_piece (flip_color perspective) KING)) o)
  | kAnyKingMoved =>
      if dirty_num dp =? 0 then o
      else collect fs pos trigger perspective
             (set_reset perspective (is_king piece0) o)
  | kAnyPieceMoved =>
      collect fs pos trigger perspective (set_reset perspective true o)
  end.

Definition append_active_indices (fs : t) (pos : Position)
    (trigger : TriggerEvent) (active : IndexList * IndexList)
    : IndexList * IndexList :=
  fold_left
    (fun active perspective =>
       set2 perspective
         (collect_active_indices fs pos trigger perspective
            (get2 perspective active))
         active)
    [WHITE; BLACK] active.

Definition append_changed_indices (fs : t) (pos : Position)
    (trigger : TriggerEvent) (o : Changed) : Changed :=
  fold_left (fun o perspective => changed_for fs pos trigger perspective o)
    [WHITE; BLACK] o.
End FeatureSet.

(** Sum of a list of integers. *)
Definition sumZ (l : list Z) : Z := fold_right Z.add 0 l.

(** ** layers/sum.h: reading the parameters of a sum of sub-graphs *)

Module Sum.
Section WithStream.
(** The state of a [std::istream]. *)
Variable Stream : Type.

(** What [Sum] uses of a summand layer: [read_parameters] consumes part of
    the stream and reports success. *)
Record Layer := {
  layer_read_parameters : Stream -> bool * Stream
}.

(** [Sum<PreviousLayer>] and [Sum<FirstPreviousLayer, Remaining...>]. *)
Inductive t :=
| Single (previous_layer_ : Layer)
| Cons (previous_layer_ : Layer) (Tail : t).

(** The summands, in template order. *)
Fixpoint summands (s : t) : list Layer :=
  match s with
  | Single p => [p]
  | Cons p tl => p :: summands tl
  end.

(** The stream together with the record of the summand reads made so far,
    each with its outcome. *)
Record Reader := {
  stream : Stream;
  attempts : list (Layer * bool)
}.

(** [previous_layer_.read_parameters(stream)] *)
Definition call_read (p : Layer) (r : Reader) : bool * Reader :=
  let (ok, s) := layer_read_parameters p (stream r) in
  (ok, {| stream := s; attempts := attempts r ++ [(p, ok)] |}).

Fixpoint read_parameters (s : t) (r : Reader) : bool * Reader :=
  match s with
  | Single p => call_read p r
  | Cons p tl =>
      let (ok, r) := read_parameters tl r in
      if negb ok then (false, r)
      else call_read p r
  end.

(** The order in which the summands are read: the tail first. *)
Definition read_order (s : t) : list Layer := rev (summands s).

(** Reading a list of layers one after the other, up to and including the
    first whose read fails. *)
Fixpoint read_until_failure (ls : list Layer) (r : Reader) : bool * Reader :=
  match ls with
  | [] => (true, r)
  | p :: ls =>
      let (ok, r) := call_read p r in
      if ok then read_until_failure ls r else (false, r)
  end.
(** Every layer of [ls] is read in turn with success, which takes the
    stream from [a] to [b]. *)
Fixpoint all_read (ls : list Layer) (a b : Stream) : Prop :=
  match ls with
  | [] => a = b
  | p :: ls =>
      exists m, layer_read_parameters p a = (true, m) /\ all_read ls m b
  end.
End WithStream.
End Sum.

Arguments Sum.layer_read_parameters {Stream} _ _.
Arguments Sum.Single {Stream} _.
Arguments Sum.Cons {Stream} _ _.
Arguments Sum.summands {Stream} _.
Arguments Sum.stream {Stream} _.
Arguments Sum.attempts {Stream} _.
Arguments Sum.call_read {Stream} _ _.
Arguments Sum.read_parameters {Stream} _ _.
Arguments Sum.read_order {Stream} _.
Arguments Sum.read_until_failure {Stream} _ _.
Arguments Sum.all_read {Stream} _ _ _.

(** ** misc.h: the pseudo-random number generator and the shuffle *)

Module PRNG.
(** The state [s] of the xorshift64star generator, a [uint64_t]. *)
Definition t := Z.

Definition rand64 (s : t) : Z * t :=
  let s := Z.lxor s (Z.shiftr s 12) in
  let s := Z.lxor s (wrap64 (Z.shiftl s 25)) in
  let s := Z.lxor s (Z.shiftr s 27) in
  (wrap64 (s * 2685821657736338717), s).

(** [rand(n)]: [rand64() % n].  The C++ is undefined for [n = 0]; [Z.modulo]
    returns the dividend there. *)
Definition rand (n : Z) (s : t) : Z * t :=
  let (r, s) := rand64 s in (r mod n, s).
End PRNG.

Module Algo.
(** [std::swap(buf[i], buf[j])]; the C++ is undefined when an index is out
    of range, the model leaves the vector as it is. *)
Definition swap {T} (i j : nat) (buf : list T) : list T :=
  match buf !! i, buf !! j with
  | Some x, Some y => <[i := y]> (<[j := x]> buf)
  | _, _ => buf
  end.

(** One iteration of the Fisher-Yates loop. *)
Definition shuffle_step {T} (size : Z) (st : list T * PRNG.t) (i : Z)
    : list T * PRNG.t :=
  let (buf, prng) := st in
  let (r, prng) := PRNG.rand (wrap64 (size - i)) prng in
  (swap (Z.to_nat i) (Z.to_nat (wrap64 (r + i))) buf, prng).

Definition shuffle {T} (buf : list T) (prng : PRNG.t) : list T * PRNG.t :=
  let size := Z.of_nat (length buf) in
  fold_left (shuffle_step size) (indices size) (buf, prng).
End Algo.

(** learn.cpp, [SfenReader::file_read_worker]: the block just read is
    shuffled unless shuffling is switched off. *)
Definition shuffle_block {T} (no_shuffle : bool) (sfens : list T)
    (prng : PRNG.t) : list T * PRNG.t :=
  if negb no_shuffle then Algo.shuffle sfens prng else (sfens, prng).

(** ** gensfen.cpp: the self-play sample generator *)

Module Gensfen.

(** Modelled from the spec: packed_sfen.h is not part of the sources at
    hand.  A [PackedSfenValue] has the fields of the spec's sample record,
    which are the fields the generator assigns. *)
Record PackedSfenValue := {
  sfen : list Z;
  score : Z;
  move : Z;
  gamePly : Z;
  game_result : Z
}.

Definition set_game_result (p : PackedSfenValue) (r : Z) : PackedSfenValue :=
  {| sfen := sfen p; score := score p; move := move p;
     gamePly := gamePly p; game_result := r |}.

(** *** [commit_psv] *)

Section WithLoopCounter.
(** [MultiThink::get_next_loop_count] (multi_think.h, shared by all worker
    threads) is a parameter: the state of the counter and the value the next
    call returns. *)
Variable LoopState : Type.
Variable get_next_loop_count : LoopState -> Z * LoopState.
Variable LOOP_COUNT_FINISHED : Z.

(** The loop over [sfens.rbegin() .. sfens.rend()]: [rsfens] is the buffer
    in reverse.  Returns the buffer (still reversed) with the results
    filled in, [quit], [num_sfens_to_commit] and the counter. *)
Fixpoint backfill (rsfens : list PackedSfenValue) (is_win : Z)
    (num_sfens_to_commit : nat) (ls : LoopState)
    : list PackedSfenValue * bool * nat * LoopState :=
  match rsfens with
  | [] => ([], false, num_sfens_to_commit, ls)
  | it :: rest =>
      let is_win := wrap_int8 (- is_win) in
      let it := set_game_result it is_win in
      let (now_loop_count, ls) := get_next_loop_count ls in
      if now_loop_count =? LOOP_COUNT_FINISHED then
        (it :: rest, true, num_sfens_to_commit, ls)
      else
        let '(rest, quit, n, ls) :=
          backfill rest is_win (S num_sfens_to_commit) ls in
        (it :: rest, quit, n, ls)
  end.

(** What [commit_psv] leaves behind. *)
Record Committed := {
  quit : bool;                       (* the return value *)
  sfens_after : list PackedSfenValue; (* the buffer, passed by reference *)
  written : list PackedSfenValue;    (* the calls of sfen_writer.write *)
  counter_after : LoopState
}.

Definition commit_psv (write_out_draw_game_in_training_data_generation : bool)
    (sfens : list PackedSfenValue) (lastTurnIsWin : Z) (ls : LoopState)
    : Committed :=
  if negb write_out_draw_game_in_training_data_generation
     && (lastTurnIsWin =? 0)
  then {| quit := false; sfens_after := sfens; written := [];
          counter_after := ls |}
  else
    let '(rsfens, quit, num_sfens_to_commit, ls) :=
      backfill (rev sfens) lastTurnIsWin 0 ls in
    let sfens := rev rsfens in
    {| quit := quit; sfens_after := sfens;
       written := skipn (length sfens - num_sfens_to_commit) sfens;
       counter_after := ls |}.
End WithLoopCounter.

(** *** The record collection of [thread_worker] *)

(** [GENSFEN_HASH_SIZE] *)
Definition GENSFEN_HASH_SIZE : Z := 64 * 1024 * 1024.

(** What one ply of a game contributes to the buffer: the position key, the
    packed position, the search score and the first move of the PV. *)
Record PlyData := {
  ply_key : Z;
  ply_sfen : list Z;
  ply_search_value : Z;
  ply_pv_move : Z
}.

(** The part of the ply loop between "Discard stuff before write_minply"
    and [SKIP_SAVE], as one worker thread executes it: [hash] is the table
    of position keys.  The table is a member of [MultiThinkGenSfen] that
    all worker threads use; what the other threads store in it meanwhile
    is added in [record_ply_shared] below. *)
Definition record_ply (write_minply : Z) (ply : Z) (d : PlyData)
    (st : list PackedSfenValue * (Z -> Z)) : list PackedSfenValue * (Z -> Z) :=
  let (a_psv, hash) := st in
  if ply <? write_minply - 1 then ([], hash)
  else
    let key := ply_key d in
    let hash_index := Z.land key (GENSFEN_HASH_SIZE - 1) in
    let old_key := hash hash_index in
    if key =? old_key then (a_psv, hash)
    else
      (a_psv ++ [ {| sfen := ply_sfen d; score := ply_search_value d;
                     move := ply_pv_move d; gamePly := ply;
                     game_result := 0 |} ],
       fun i => if i =? hash_index then key else hash i).

(** The buffer after the plies [ply], [ply + 1], ... of [game], when no
    other thread stores a key during the game (a run with one thread, or a
    schedule in which the others are busy elsewhere). *)
Fixpoint record_game (write_minply : Z) (ply : Z) (game : list PlyData)
    (st : list PackedSfenValue * (Z -> Z)) : list PackedSfenValue * (Z -> Z) :=
  match game with
  | [] => st
  | d :: game =>
      record_game write_minply (ply + 1) game (record_ply write_minply ply d st)
  end.

(** *** Game-end adjudication *)

(** The answers of the position to the queries of
    [get_current_game_result], taken as inputs (the position and the search
    are external): [is_game_end] is [Some v] when [pos.is_game_end(v)]
    holds and stores [v]; [rootMoves_empty] is
    [pos.this_thread()->rootMoves.empty()]. *)
Record PositionView := {
  is_game_end : option Z;
  rootMoves_empty : bool;
  checkers : bool;
  checkmate_value : Z;
  stalemate_value : Z;
  hasInsufficientMaterial : Color -> bool
}.

(** The settings of the generator that adjudication reads; [VALUE_KNOWN_WIN]
    is a constant of types.h. *)
Record Settings := {
  write_maxply : Z;
  eval_limit : Z;
  detect_draw_by_consecutive_low_score : bool;
  detect_draw_by_insufficient_mating_material : bool;
  VALUE_KNOWN_WIN : Z
}.

Definition VALUE_DRAW : Z := 0.
Definition adj_draw_ply : Z := 80.
Definition adj_draw_cnt : Z := 8.
Definition adj_draw_score : Z := 0.

Definition sign (v : Z) : Z :=
  if v >? 0 then 1 else if v <? 0 then -1 else 0.

(** The loop over [move_hist_scores.rbegin() ..]: [rscores] is the history
    in reverse; the result is [is_adj_draw]. *)
Fixpoint consecutive_low_scores (rscores : list Z)
    (num_cons_plies_within_draw_score : Z) : bool :=
  match rscores with
  | [] => false
  | it :: rest =>
      if Z.abs it <=? adj_draw_score then
        let num := num_cons_plies_within_draw_score + 1 in
        if num >=? adj_draw_cnt then true
        else consecutive_low_scores rest num
      else false
  end.

Definition get_current_game_result (cfg : Settings) (pos : PositionView)
    (move_hist_scores : list Z) : option Z :=
  let ply := Z.of_nat (length move_hist_scores) in
  if ply >=? write_maxply cfg then Some (sign VALUE_DRAW)
  else
  match is_game_end pos with
  | Some v => Some (sign v)
  | None =>
  if rootMoves_empty pos then
    Some (if checkers pos then sign (checkmate_value pos)
          else sign (stalemate_value pos))
  else
  if detect_draw_by_consecutive_low_score cfg
     && (ply >=? adj_draw_ply)
     && consecutive_low_scores (rev move_hist_scores) 0
  then Some 0
  else
  if detect_draw_by_insufficient_mating_material cfg
     && hasInsufficientMaterial pos WHITE
     && hasInsufficientMaterial pos BLACK
  then Some 0
  else None
  end.

(** The adjudication at the head of one iteration of the ply loop of
    [thread_worker]: the result handed to [flush_psv], if the game ends
    here, and the resign counter afterwards. *)
Definition adjudicate (cfg : Settings) (should_resign : bool)
    (pos : PositionView) (move_hist_scores : list Z) (search_value : Z)
    (resign_counter : Z) : option Z * Z :=
  match get_current_game_result cfg pos move_hist_scores with
  | Some result => (Some result, resign_counter)
  | None =>
      if Z.abs search_value >=? eval_limit cfg then
        let resign_counter := resign_counter + 1 in
        if (should_resign && (resign_counter >=? 4))
           || (Z.abs search_value >=? VALUE_KNOWN_WIN cfg)
        then (Some (if search_value >=? eval_limit cfg then 1 else -1),
              resign_counter)
        else (None, resign_counter)
      else (None, 0)
  end.

End Gensfen.

Arguments Gensfen.backfill {LoopState} _ _ _ _ _ _.
Arguments Gensfen.commit_psv {LoopState} _ _ _ _ _ _.
Arguments Gensfen.quit {LoopState} _.
Arguments Gensfen.sfens_after {LoopState} _.
Arguments Gensfen.written {LoopState} _.
Arguments Gensfen.counter_after {LoopState} _.

(** ** learn.cpp: checkpoints and the newbob schedule *)

Module Learner.

(** [double(n)] for a [uint64_t]: below 2^63 the conversion of the
    primitive integer; above, halve with a sticky bit and double. *)
Definition double_of_uint64 (n : Z) : float :=
  if n <? 2 ^ 63 then PrimFloat.of_uint63 (Uint63.of_Z n)
  else PrimFloat.mul
         (PrimFloat.of_uint63
            (Uint63.of_Z (Z.lor (Z.shiftr n 1) (Z.land n 1))))
         (PrimFloat.of_uint63 (Uint63.of_Z 2)).

(** The argument of [Eval::NNUE::save_eval]: [""], ["final"] or the decimal
    form of the directory number. *)
Inductive SaveName := save_plain | save_final | save_numbered (dir_number : Z).

(** The options of the [learn] command that the checkpoint code reads. *)
Record Options := {
  save_only_once : bool;
  newbob_decay : float;
  newbob_num_trials : Z;
  auto_lr_drop : Z;
  mini_batch_size : Z;
  eval_save_interval : Z
}.

(** The variables the checkpoint code reads and writes.  [dir_number] and
    [trials] are the function-local statics of [save]; [trials] is [None]
    until its initialiser has run.  [best_nn_directory] is kept as the
    argument of the [save_eval] call it names. *)
Record State := {
  global_learning_rate : float;
  best_loss : float;
  latest_loss_sum : float;
  latest_loss_count : Z;
  last_lr_drop : Z;
  total_done : Z;
  best_nn_directory : option SaveName;
  dir_number : Z;
  trials : option Z;
  saved : list SaveName;
  save_count : Z;
  stop_flag : bool;
  sr_stop_flag : bool
}.

Definition with_saved (name : SaveName) (st : State) : State :=
  {| global_learning_rate := global_learning_rate st;
     best_loss := best_loss st;
     latest_loss_sum := latest_loss_sum st;
     latest_loss_count := latest_loss_count st;
     last_lr_drop := last_lr_drop st;
     total_done := total_done st;
     best_nn_directory := best_nn_directory st;
     dir_number := dir_number st;
     trials := trials st;
     saved := saved st ++ [name];
     save_count := save_count st;
     stop_flag := stop_flag st;
     sr_stop_flag := sr_stop_flag st |}.

(** [LearnerThink::save]: the return value and the state afterwards. *)
Definition save (opt : Options) (is_final : bool) (st : State) : bool * State :=
  if save_only_once opt then (false, with_saved save_plain st)
  else if is_final then (true, with_saved save_final st)
  else
    let dir_name := save_numbered (dir_number st) in
    if negb (PrimFloat.eqb (newbob_decay opt) 1%float)
       && (latest_loss_count st >? 0)
    then
      let trials0 :=
        match trials st with Some t => t | None => newbob_num_trials opt end in
      let latest_loss :=
        PrimFloat.div (latest_loss_sum st)
          (double_of_uint64 (latest_loss_count st)) in
      let tot := total_done st in
      let '(best_loss', trials', last_lr_drop', rate') :=
        if negb (auto_lr_drop opt =? 0) then
          if tot >=? wrap64 (last_lr_drop st + auto_lr_drop opt)
          then (latest_loss, newbob_num_trials opt, tot,
                PrimFloat.mul (global_learning_rate st) (newbob_decay opt))
          else (latest_loss, newbob_num_trials opt, last_lr_drop st,
                global_learning_rate st)
        else if PrimFloat.ltb latest_loss (best_loss st) then
          (latest_loss, newbob_num_trials opt, last_lr_drop st,
           global_learning_rate st)
        else
          let trials1 := trials0 - 1 in
          (best_loss st, trials1, last_lr_drop st,
           if (trials1 >? 0) && negb is_final
           then PrimFloat.mul (global_learning_rate st) (newbob_decay opt)
           else global_learning_rate st) in
      (trials' =? 0,
       {| global_learning_rate := rate';
          best_loss := best_loss';
          latest_loss_sum := 0%float;
          latest_loss_count := 0;
          last_lr_drop := last_lr_drop';
          total_done := total_done st;
          best_nn_directory := Some dir_name;
          dir_number := dir_number st + 1;
          trials := Some trials';
          saved := saved st ++ [dir_name];
          save_count := save_count st;
          stop_flag := stop_flag st;
          sr_stop_flag := sr_stop_flag st |})
    else
      (false,
       {| global_learning_rate := global_learning_rate st;
          best_loss := best_loss st;
          latest_loss_sum := latest_loss_sum st;
          latest_loss_count := latest_loss_count st;
          last_lr_drop := last_lr_drop st;
          total_done := total_done st;
          best_nn_directory := best_nn_directory st;
          dir_number := dir_number st + 1;
          trials := trials st;
          saved := saved st ++ [dir_name];
          save_count := save_count st;
          stop_flag := stop_flag st;
          sr_stop_flag := sr_stop_flag st |}).

Definition with_save_count (n : Z) (st : State) : State :=
  {| global_learning_rate := global_learning_rate st;
     best_loss := best_loss st;
     latest_loss_sum := latest_loss_sum st;
     latest_loss_count := latest_loss_count st;
     last_lr_drop := last_lr_drop st;
     total_done := total_done st;
     best_nn_directory := best_nn_directory st;
     dir_number := dir_number st;
     trials := trials st;
     saved := saved st;
     save_count := n;
     stop_flag := stop_flag st;
     sr_stop_flag := sr_stop_flag st |}.

Definition with_stop_flags (st : State) : State :=
  {| global_learning_rate := global_learning_rate st;
     best_loss := best_loss st;
     latest_loss_sum := latest_loss_sum st;
     latest_loss_count := latest_loss_count st;
     last_lr_drop := last_lr_drop st;
     total_done := total_done st;
     best_nn_directory := best_nn_directory st;
     dir_number := dir_number st;
     trials := trials st;
     saved := saved st;
     save_count := save_count st;
     stop_flag := true;
     sr_stop_flag := true |}.

(** [LearnerThink::thread_worker], thread 0 after a weight update: the
    periodic checkpoint.  The boolean is true when the worker leaves its
    loop ([break]). *)
Definition checkpoint (opt : Options) (st : State) : bool * State :=
  let count := wrap64 (save_count st + 1) in
  if wrap64 (count * mini_batch_size opt) >=? eval_save_interval opt then
    let (converged, st) := save opt false (with_save_count 0 st) in
    if converged then (true, with_stop_flags st) else (false, st)
  else (false, with_save_count count st).

End Learner.

(** ** trainer/trainer_input_slice.h: the shared input trainer *)

Module SharedInputTrainer.

(** [enum class Operation] *)
Inductive Operation :=
  kNone | kSendMessage | kInitialize | kPropagate | kBackPropagate.

Definition operation_eqb (a b : Operation) : bool :=
  match a, b with
  | kNone, kNone | kSendMessage, kSendMessage | kInitialize, kInitialize
  | kPropagate, kPropagate | kBackPropagate, kBackPropagate => true
  | _, _ => false
  end.

Section WithTypes.
(** [LearnFloatType] with its zero and its addition, the elements of a
    mini-batch and the messages are parameters, as is
    [FeatureTransformer::kOutputDimensions]. *)
Variable F : Type.
Variable fzero : F.
Variable fadd : F -> F -> F.
Variable Example : Type.
Variable Message : Type.
Variable kInputDimensions : Z.

(** The underlying [Trainer<FeatureTransformer>] is external: it is
    represented by the calls made on [feature_transformer_trainer_].  An
    array argument is recorded by the contents of the array the pointer
    refers to. *)
Inductive FtCall :=
| ft_send_message (message : Message)
| ft_initialize
| ft_propagate (batch : list Example)
| ft_backpropagate (gradients : list F) (learning_rate : F).

Record t := {
  batch_size_ : Z;
  num_referrers_ : Z;
  num_calls_ : Z;
  current_operation_ : Operation;
  (* the feature transformer the underlying trainer was created for *)
  feature_transformer_ : Z;
  (* the calls received by feature_transformer_trainer_ so far *)
  ft_calls : list FtCall;
  (* the propagate call whose result output_ points to *)
  output_ : option nat;
  gradients_ : list F
}.

(** The constructor. *)
Definition construct (ft : Z) : t :=
  {| batch_size_ := 0; num_referrers_ := 0; num_calls_ := 0;
     current_operation_ := kNone; feature_transformer_ := ft;
     ft_calls := []; output_ := None; gradients_ := [] |}.

Definition with_referrers (n : Z) (s : t) : t :=
  {| batch_size_ := batch_size_ s; num_referrers_ := n;
     num_calls_ := num_calls_ s; current_operation_ := current_operation_ s;
     feature_transformer_ := feature_transformer_ s; ft_calls := ft_calls s;
     output_ := output_ s; gradients_ := gradients_ s |}.

Definition with_counter (calls : Z) (op : Operation) (s : t) : t :=
  {| batch_size_ := batch_size_ s; num_referrers_ := num_referrers_ s;
     num_calls_ := calls; current_operation_ := op;
     feature_transformer_ := feature_transformer_ s; ft_calls := ft_calls s;
     output_ := output_ s; gradients_ := gradients_ s |}.

Definition with_call (c : FtCall) (s : t) : t :=
  {| batch_size_ := batch_size_ s; num_referrers_ := num_referrers_ s;
     num_calls_ := num_calls_ s; current_operation_ := current_operation_ s;
     feature_transformer_ := feature_transformer_ s;
     ft_calls := ft_calls s ++ [c];
     output_ := output_ s; gradients_ := gradients_ s |}.

Definition with_gradients (g : list F) (s : t) : t :=
  {| batch_size_ := batch_size_ s; num_referrers_ := num_referrers_ s;
     num_calls_ := num_calls_ s; current_operation_ := current_operation_ s;
     feature_transformer_ := feature_transformer_ s; ft_calls := ft_calls s;
     output_ := output_ s; gradients_ := g |}.

Definition with_batch (size : Z) (g : list F) (s : t) : t :=
  {| batch_size_ := size; num_referrers_ := num_referrers_ s;
     num_calls_ := num_calls_ s; current_operation_ := current_operation_ s;
     feature_transformer_ := feature_transformer_ s; ft_calls := ft_calls s;
     output_ := output_ s; gradients_ := g |}.

Definition with_output (o : option nat) (s : t) : t :=
  {| batch_size_ := batch_size_ s; num_referrers_ := num_referrers_ s;
     num_calls_ := num_calls_ s; current_operation_ := current_operation_ s;
     feature_transformer_ := feature_transformer_ s; ft_calls := ft_calls s;
     output_ := o; gradients_ := gradients_ s |}.

(** The function-local static [instance] of [create], together with the
    constructions ([new SharedInputTrainer(ft)]) made so far, each recorded
    by its argument. *)
Record Static := {
  instance : option t;
  constructions : list Z
}.

Definition no_instance : Static := {| instance := None; constructions := [] |}.

(** [create(ft)]: the static afterwards; the pointer returned is the
    static [instance]. *)
Definition create (ft : Z) (st : Static) : Static :=
  let (inst, made) :=
    match instance st with
    | Some s => (s, constructions st)
    | None => (construct ft, constructions st ++ [ft])
    end in
  {| instance := Some (with_referrers (wrap32 (num_referrers_ inst + 1)) inst);
     constructions := made |}.

(** The [create] calls of a trainer-graph construction, one per trainer
    path, each with the feature-transformer pointer it passes. *)
Definition create_all (fts : list Z) (st : Static) : Static :=
  fold_left (fun st ft => create ft st) fts st.

(** [if (++num_calls_ == num_referrers_) { num_calls_ = 0;
    current_operation_ = Operation::kNone; }] *)
Definition count_call (s : t) : t :=
  let calls := wrap32 (num_calls_ s + 1) in
  if calls =? num_referrers_ s then with_counter 0 kNone s
  else with_counter calls (current_operation_ s) s.

(** A failed [assert] is the result [None]. *)
Definition send_message (message : Message) (s : t) : option t :=
  let s :=
    if num_calls_ s =? 0
    then with_call (ft_send_message message)
           (with_counter (num_calls_ s) kSendMessage s)
    else s in
  if operation_eqb (current_operation_ s) kSendMessage
  then Some (count_call s) else None.

Definition initialize (s : t) : option t :=
  let s :=
    if num_calls_ s =? 0
    then with_call ft_initialize (with_counter (num_calls_ s) kInitialize s)
    else s in
  if operation_eqb (current_operation_ s) kInitialize
  then Some (count_call s) else None.

Definition propagate (batch : list Example) (s : t) : option t :=
  let size := Z.of_nat (length batch) in
  let needed := wrap64 (kInputDimensions * size) in
  let g :=
    if Z.of_nat (length (gradients_ s)) <? needed
    then resize (Z.to_nat needed) fzero (gradients_ s)
    else gradients_ s in
  let s := with_batch (wrap32 size) g s in
  let s :=
    if num_calls_ s =? 0
    then with_output (Some (length (ft_calls s)))
           (with_call (ft_propagate batch)
              (with_counter (num_calls_ s) kPropagate s))
    else s in
  if operation_eqb (current_operation_ s) kPropagate
  then Some (count_call s) else None.

(** The two nested loops over the samples [b] and the dimensions [i] of
    [backpropagate]: [body] is applied at each index [batch_offset + i].
    Index arithmetic is that of [IndexType]. *)
Definition for_each_cell (batch_size : Z) (body : Z -> list F -> list F)
    (g : list F) : list F :=
  fold_left
    (fun g b =>
       let batch_offset := wrap32 (kInputDimensions * b) in
       fold_left (fun g i => body (wrap32 (batch_offset + i)) g)
         (indices kInputDimensions) g)
    (indices batch_size) g.

(** [gradients_[index] = 0]; an index outside the vector, undefined in
    C++, leaves it as it is. *)
Definition clear_cell (index : Z) (g : list F) : list F :=
  <[Z.to_nat index := fzero]> g.

(** [gradients_[index] += gradients[index]] *)
Definition add_cell (gradients : list F) (index : Z) (g : list F) : list F :=
  match g !! Z.to_nat index, gradients !! Z.to_nat index with
  | Some x, Some y => <[Z.to_nat index := fadd x y]> g
  | _, _ => g
  end.

Definition backpropagate (gradients : list F) (learning_rate : F) (s : t)
    : option t :=
  if num_referrers_ s =? 1 then
    Some (with_call (ft_backpropagate gradients learning_rate) s)
  else
    let s :=
      if num_calls_ s =? 0
      then with_gradients
             (for_each_cell (batch_size_ s) clear_cell (gradients_ s))
             (with_counter (num_calls_ s) kBackPropagate s)
      else s in
    if operation_eqb (current_operation_ s) kBackPropagate then
      let s :=
        with_gradients
          (for_each_cell (batch_size_ s) (add_cell gradients) (gradients_ s))
          s in
      let calls := wrap32 (num_calls_ s + 1) in
      if calls =? num_referrers_ s then
        Some (with_counter 0 kNone
                (with_call (ft_backpropagate (gradients_ s) learning_rate) s))
      else Some (with_counter calls (current_operation_ s) s)
    else None.

(** The referrers of one mini-batch calling [backpropagate] one after the
    other, each with its gradient array and learning rate. *)
Fixpoint backpropagate_all (calls : list (list F * F)) (s : t) : option t :=
  match calls with
  | [] => Some s
  | (gradients, learning_rate) :: calls =>
      match backpropagate gradients learning_rate s with
      | Some s => backpropagate_all calls s
      | None => None
      end
  end.

(** The element-wise sum of the first [n] entries of the arrays [gs],
    accumulated from zero in the order of the arrays. *)
Definition gradient_sum (n : nat) (gs : list (list F)) : list F :=
  fold_left (fun acc g => zip_with fadd acc (take n g)) gs (replicate n fzero).

End WithTypes.
End SharedInputTrainer.

Arguments SharedInputTrainer.ft_send_message {F Example Message} _.
Arguments SharedInputTrainer.ft_initialize {F Example Message}.
Arguments SharedInputTrainer.ft_propagate {F Example Message} _.
Arguments SharedInputTrainer.ft_backpropagate {F Example Message} _ _.
Arguments SharedInputTrainer.batch_size_ {F Example Message} _.
Arguments SharedInputTrainer.num_referrers_ {F Example Message} _.
Arguments SharedInputTrainer.num_calls_ {F Example Message} _.
Arguments SharedInputTrainer.current_operation_ {F Example Message} _.
Arguments SharedInputTrainer.feature_transformer_ {F Example Message} _.
Arguments SharedInputTrainer.ft_calls {F Example Message} _.
Arguments SharedInputTrainer.output_ {F Example Message} _.
Arguments SharedInputTrainer.gradients_ {F Example Message} _.
Arguments SharedInputTrainer.construct {F Example Message} _.
Arguments SharedInputTrainer.with_referrers {F Example Message} _ _.
Arguments SharedInputTrainer.with_counter {F Example Message} _ _ _.
Arguments SharedInputTrainer.with_call {F Example Message} _ _.
Arguments SharedInputTrainer.with_gradients {F Example Message} _ _.
Arguments SharedInputTrainer.with_batch {F Example Message} _ _ _.
Arguments SharedInputTrainer.with_output {F Example Message} _ _.
Arguments SharedInputTrainer.instance {F Example Message} _.
Arguments SharedInputTrainer.constructions {F Example Message} _.
Arguments SharedInputTrainer.no_instance {F Example Message}.
Arguments SharedInputTrainer.create {F Example Message} _ _.
Arguments SharedInputTrainer.create_all {F Example Message} _ _.
Arguments SharedInputTrainer.count_call {F Example Message} _.
Arguments SharedInputTrainer.send_message {F Example Message} _ _.
Arguments SharedInputTrainer.initialize {F Example Message} _.
Arguments SharedInputTrainer.propagate {F} _ {Example Message} _ _ _.
Arguments SharedInputTrainer.for_each_cell {F} _ _ _ _.
Arguments SharedInputTrainer.clear_cell {F} _ _ _.
Arguments SharedInputTrainer.add_cell {F} _ _ _ _.
Arguments SharedInputTrainer.backpropagate {F} _ _ {Example Message} _ _ _ _.
Arguments SharedInputTrainer.backpropagate_all {F} _ _ {Example Message} _ _ _.
Arguments SharedInputTrainer.gradient_sum {F} _ _ _ _.

(** ** trainer_sum.h, trainer_input_slice.h: construction of the trainer
    graph *)

Module TrainerGraph.

(** The layers whose trainers are among the sources: [InputSlice], and
    [Sum<PreviousLayer>] and [Sum<FirstPreviousLayer,
    RemainingPreviousLayers...>] over such layers. *)
Inductive Layer :=
| InputSlice
| Sum (summands : Summands)
with Summands :=
| Single (PreviousLayer : Layer)
| Cons (FirstPreviousLayer : Layer) (RemainingPreviousLayers : Summands).

Scheme Layer_mutual := Induction for Layer Sort Prop
  with Summands_mutual := Induction for Summands Sort Prop.

Section WithTypes.
Variable F : Type.
Variable Example : Type.
Variable Message : Type.

(** The state of a construction: the function-local static of
    [SharedInputTrainer::create] and, for each [SharedInputTrainer::create]
    call made so far, the static as the call left it (the call returns the
    static [instance]). *)
Record State := {
  static : SharedInputTrainer.Static F Example Message;
  created : list (SharedInputTrainer.Static F Example Message)
}.

Definition fresh : State :=
  {| static := SharedInputTrainer.no_instance; created := [] |}.

(** [Trainer<LayerType>::create(target_layer, ft)], which constructs the
    trainer: [Trainer<InputSlice>(ft)] initialises [shared_input_trainer_]
    with [SharedInputTrainer::create(ft)]; the trainer of a sum constructs
    its base class [Tail(target_layer, ft)] and then
    [previous_layer_trainer_] with [Trainer<FirstPreviousLayer>::create(...,
    ft)]. *)
Fixpoint create (l : Layer) (ft : Z) (st : State) : State :=
  match l with
  | InputSlice =>
      let static' := SharedInputTrainer.create ft (static st) in
      {| static := static'; created := created st ++ [static'] |}
  | Sum s => create_sum s ft st
  end
with create_sum (s : Summands) (ft : Z) (st : State) : State :=
  match s with
  | Single p => create p ft st
  | Cons p tl => create p ft (create_sum tl ft st)
  end.

(** The trainer paths of a graph that end in the feature transformer: its
    [Trainer<InputSlice>] objects. *)
Fixpoint paths (l : Layer) : nat :=
  match l with
  | InputSlice => 1
  | Sum s => paths_sum s
  end
with paths_sum (s : Summands) : nat :=
  match s with
  | Single p => paths p
  | Cons p tl => (paths_sum tl + paths p)%nat
  end.

End WithTypes.
End TrainerGraph.

Arguments TrainerGraph.static {F Example Message} _.
Arguments TrainerGraph.created {F Example Message} _.
Arguments TrainerGraph.fresh {F Example Message}.
Arguments TrainerGraph.create {F Example Message} _ _ _.
Arguments TrainerGraph.create_sum {F Example Message} _ _ _.

(* ===================================================================== *)
(** * Further code of the cited files *)
(* ===================================================================== *)

(** ** misc.h: integer helpers *)

Module Misc.

(** [mul_hi64], the branch for compilers with a 128-bit integer:
    [((uint128)a * (uint128)b) >> 64]. *)
Definition mul_hi64_int128 (a b : Z) : Z :=
  Z.shiftr ((a * b) mod 2 ^ 128) 64.

(** [mul_hi64], the portable branch, in [uint64_t] arithmetic. *)
Definition mul_hi64 (a b : Z) : Z :=
  let aL := wrap32 a in
  let aH := Z.shiftr a 32 in
  let bL := wrap32 b in
  let bH := Z.shiftr b 32 in
  let c1 := Z.shiftr (wrap64 (aL * bL)) 32 in
  let c2 := wrap64 (wrap64 (aH * bL) + c1) in
  let c3 := wrap64 (wrap64 (aL * bH) + wrap32 c2) in
  wrap64 (wrap64 (wrap64 (aH * bH) + Z.shiftr c2 32) + Z.shiftr c3 32).

(** [align_ptr_up<Alignment>]: the address as a [uintptr_t] (64 bits),
    rounded up to a multiple of [Alignment].  Division by zero, undefined
    in C++, is [Z.div]'s 0. *)
Definition align_ptr_up (Alignment : Z) (ptrint : Z) : Z :=
  wrap64 (wrap64 (ptrint + (Alignment - 1)) / Alignment * Alignment).

End Misc.

(** ** misc.h: file names *)

Module Path.

Local Abbreviation ascii := Ascii.ascii.

(** [std::string::npos] *)
Definition npos : Z := 2 ^ 64 - 1.

(** The position of the last occurrence of [c], if there is one. *)
Fixpoint last_index (c : ascii) (s : list ascii) : option nat :=
  match s with
  | [] => None
  | x :: t =>
      match last_index c t with
      | Some i => Some (S i)
      | None => if Ascii.eqb x c then Some 0%nat else None
      end
  end.

(** [s.find_last_of(c)] for a one-character argument. *)
Definition find_last_of (c : ascii) (s : list ascii) : Z :=
  match last_index c s with
  | Some i => Z.of_nat i
  | None => npos
  end.

Definition slash : ascii := Ascii.ascii_of_nat 47.
Definition backslash : ascii := Ascii.ascii_of_nat 92.

(** [Path::combine] *)
Definition combine (folder filename : list ascii) : list ascii :=
  match last folder with
  | Some c =>
      if negb (Ascii.eqb c slash) && negb (Ascii.eqb c backslash)
      then folder ++ [slash] ++ filename
      else folder ++ filename
  | None => folder ++ filename
  end.

(** [path.substr(pos)]: [None] stands for [std::out_of_range]. *)
Definition substr (path : list ascii) (pos : Z) : option (list ascii) :=
  if pos >? Z.of_nat (length path) then None
  else Some (drop (Z.to_nat pos) path).

(** [Path::get_file_name] *)
Definition get_file_name (path : list ascii) : option (list ascii) :=
  let path_index1 := wrap64 (find_last_of backslash path + 1) in
  let path_index2 := wrap64 (find_last_of slash path + 1) in
  let path_index := Z.max path_index1 path_index2 in
  substr path path_index.

End Path.

(** ** feature_set.h: compile-time lists and the trigger set *)

Module CompileTimeList.
Section WithValues.
Context {T : Type}.
(** [operator==] and [operator<] of the value type. *)
Variable eqb : T -> T -> bool.
Variable ltb : T -> T -> bool.

(** [CompileTimeList<T, Values...>::contains] *)
Fixpoint contains (Values : list T) (value : T) : bool :=
  match Values with
  | [] => false
  | First :: Remaining => eqb value First || contains Remaining value
  end.

(** [AppendToList]: adds to the beginning of the list. *)
Definition AppendToList (Values : list T) (AnotherValue : T) : list T :=
  AnotherValue :: Values.

(** [InsertToSet]: adds to a sorted, unique list. *)
Fixpoint InsertToSet (Values : list T) (AnotherValue : T) : list T :=
  match Values with
  | [] => [AnotherValue]
  | First :: Remaining =>
      if contains (First :: Remaining) AnotherValue then First :: Remaining
      else if ltb AnotherValue First then AnotherValue :: First :: Remaining
      else AppendToList (InsertToSet Remaining AnotherValue) First
  end.
End WithValues.
End CompileTimeList.

(** [FeatureSet::SortedTriggerSet], whose values are [kRefreshTriggers].
    [<] on [TriggerEvent] compares the enumerators' values, which
    features_common.h declares: [value] stands for them. *)
Fixpoint SortedTriggerSet (value : TriggerEvent -> Z) (fs : FeatureSet.t)
    : list TriggerEvent :=
  match fs with
  | FeatureSet.Single f => [Feature.kRefreshTrigger f]
  | FeatureSet.Cons h tl =>
      CompileTimeList.InsertToSet trigger_eqb
        (fun a b => value a <? value b)
        (SortedTriggerSet value tl) (Feature.kRefreshTrigger h)
  end.

(** A feature extractor as [FeatureSet] expects it: [append_active_indices]
    leaves the list it is given in place and appends indices below
    [kDimensions]; likewise [append_changed_indices]. *)
Definition appends_in_range (f : Feature.t) : Prop :=
  (forall pos perspective active,
     exists new,
       Feature.append_active_indices f pos perspective active = active ++ new /\
       Forall (fun x => 0 <= x < Feature.kDimensions f) new) /\
  (forall pos perspective removed added,
     exists new_removed new_added,
       Feature.append_changed_indices f pos perspective removed added =
         (removed ++ new_removed, added ++ new_added) /\
       Forall (fun x => 0 <= x < Feature.kDimensions f) new_removed /\
       Forall (fun x => 0 <= x < Feature.kDimensions f) new_added).

(** The list without the indices that occur in [removed]. *)
Definition without (removed : IndexList) (l : IndexList) : IndexList :=
  List.filter (fun i => negb (existsb (Z.eqb i) removed)) l.

(** The position one move earlier, as far as the castling-right feature
    reads it: its current state is this position's previous state. *)
Definition previous_position (pos : Position) : Position :=
  {| state := state_previous pos; state_previous := state_previous pos |}.

(** ** trainer_input_slice.h: the rounds of the shared trainer *)

(** The three operations that the shared trainer forwards when a round
    begins, as a referrer calls them. *)
Inductive SharedCall (Example Message : Type) :=
| call_send_message (message : Message)
| call_initialize
| call_propagate (batch : list Example).

Arguments call_send_message {Example Message} _.
Arguments call_initialize {Example Message}.
Arguments call_propagate {Example Message} _.

Definition shared_call {F Example Message : Type} (fzero : F)
    (kInputDimensions : Z) (c : SharedCall Example Message)
    (s : SharedInputTrainer.t F Example Message)
    : option (SharedInputTrainer.t F Example Message) :=
  match c with
  | call_send_message message => SharedInputTrainer.send_message message s
  | call_initialize => SharedInputTrainer.initialize s
  | call_propagate batch =>
      SharedInputTrainer.propagate fzero kInputDimensions batch s
  end.

(** The value [current_operation_] takes during a round of these calls. *)
Definition operation_of {Example Message : Type}
    (c : SharedCall Example Message) : SharedInputTrainer.Operation :=
  match c with
  | call_send_message _ => SharedInputTrainer.kSendMessage
  | call_initialize => SharedInputTrainer.kInitialize
  | call_propagate _ => SharedInputTrainer.kPropagate
  end.

(** The call on the underlying trainer that belongs to a referrer's call. *)
Definition forwarded {F Example Message : Type}
    (c : SharedCall Example Message)
    : SharedInputTrainer.FtCall F Example Message :=
  match c with
  | call_send_message message => SharedInputTrainer.ft_send_message message
  | call_initialize => SharedInputTrainer.ft_initialize
  | call_propagate batch => SharedInputTrainer.ft_propagate batch
  end.

(** [n] calls one after the other; a failed assertion ends the run. *)
Fixpoint repeat_call {S : Type} (n : nat) (f : S -> option S) (s : S)
    : option S :=
  match n with
  | O => Some s
  | Datatypes.S n =>
      match f s with
      | Some s => repeat_call n f s
      | None => None
      end
  end.

(** ** trainer_input_slice.h: Trainer<Layers::InputSlice<OutputDimensions, Offset>> *)

Module InputSliceTrainer.

(** The value of an [IndexType] converted to [int]. *)
Definition to_int (z : Z) : Z := (z + 2 ^ 31) mod 2 ^ 32 - 2 ^ 31.

Section WithTypes.
Variable F : Type.
Variable fzero : F.
Variable fadd : F -> F -> F.
Variable Example : Type.
Variable Message : Type.
(** [FeatureTransformer::kOutputDimensions] and the template arguments. *)
Variable kInputDimensions : Z.
Variable kOutputDimensions : Z.
Variable Offset : Z.

Record t := {
  batch_size_ : Z;
  output_ : list F;
  gradients_ : list F
}.

(** The constructor; the shared trainer comes from
    [SharedInputTrainer::create]. *)
Definition construct : t :=
  {| batch_size_ := 0; output_ := []; gradients_ := [] |}.

(** The loop over the samples [b] of the mini-batch with the loop over
    [dims] dimensions [i] inside. *)
Definition for_each_sample (batch_size dims : Z)
    (body : Z -> Z -> list F -> list F) (g : list F) : list F :=
  fold_left
    (fun g b => fold_left (fun g i => body b i g) (indices dims) g)
    (indices batch_size) g.

(** [output_[output_offset + i] = input[input_offset + Offset + i]]; an
    index outside an array, undefined in C++, leaves [output_] as it
    is. *)
Definition copy_slice (input : list F) (b i : Z) (output : list F) : list F :=
  let input_offset := wrap32 (kInputDimensions * b) in
  let output_offset := wrap32 (kOutputDimensions * b) in
  match input !! Z.to_nat (wrap32 (wrap32 (input_offset + Offset) + i)) with
  | Some x => <[Z.to_nat (wrap32 (output_offset + i)) := x]> output
  | None => output
  end.

(** The body of the loops of [backpropagate]. *)
Definition scatter (gradients : list F) (b i : Z) (g : list F) : list F :=
  let input_offset := wrap32 (kInputDimensions * b) in
  let output_offset := wrap32 (kOutputDimensions * b) in
  if (to_int i <? to_int Offset)
     || (i >=? wrap32 (Offset + kOutputDimensions))
  then <[Z.to_nat (wrap32 (input_offset + i)) := fzero]> g
  else
    match gradients !! Z.to_nat (wrap32 (wrap32 (output_offset + i) - Offset)) with
    | Some y => <[Z.to_nat (wrap32 (input_offset + i)) := y]> g
    | None => g
    end.

(** [propagate]: [input] is the array the shared trainer returns a
    pointer to.  A failed assertion of the shared trainer is [None]. *)
Definition propagate (batch : list Example) (input : list F)
    (st : t * SharedInputTrainer.t F Example Message)
    : option (t * SharedInputTrainer.t F Example Message) :=
  let (s, shared) := st in
  let size := Z.of_nat (length batch) in
  let '(o, g) :=
    if Z.of_nat (length (output_ s)) <? wrap64 (kOutputDimensions * size)
    then (resize (Z.to_nat (wrap64 (kOutputDimensions * size))) fzero
            (output_ s),
          resize (Z.to_nat (wrap64 (kInputDimensions * size))) fzero
            (gradients_ s))
    else (output_ s, gradients_ s) in
  let batch_size := wrap32 size in
  match SharedInputTrainer.propagate fzero kInputDimensions batch shared with
  | None => None
  | Some shared =>
      Some ({| batch_size_ := batch_size;
               output_ := for_each_sample batch_size kOutputDimensions
                            (copy_slice input) o;
               gradients_ := g |},
            shared)
  end.

(** The array [gradients_] after the loops of [backpropagate]. *)
Definition scattered (gradients : list F) (s : t) : list F :=
  for_each_sample (batch_size_ s) kInputDimensions (scatter gradients)
    (gradients_ s).

Definition backpropagate (gradients : list F) (learning_rate : F)
    (st : t * SharedInputTrainer.t F Example Message)
    : option (t * SharedInputTrainer.t F Example Message) :=
  let (s, shared) := st in
  let g := scattered gradients s in
  match SharedInputTrainer.backpropagate fzero fadd kInputDimensions
          g learning_rate shared with
  | None => None
  | Some shared =>
      Some ({| batch_size_ := batch_size_ s; output_ := output_ s;
               gradients_ := g |},
            shared)
  end.

End WithTypes.
End InputSliceTrainer.

Arguments InputSliceTrainer.batch_size_ {F} _.
Arguments InputSliceTrainer.output_ {F} _.
Arguments InputSliceTrainer.gradients_ {F} _.
Arguments InputSliceTrainer.construct {F}.
Arguments InputSliceTrainer.for_each_sample {F} _ _ _ _.
Arguments InputSliceTrainer.copy_slice {F} _ _ _ _ _ _ _.
Arguments InputSliceTrainer.scatter {F} _ _ _ _ _ _ _ _.
Arguments InputSliceTrainer.propagate {F} _ {Example Message} _ _ _ _ _ _.
Arguments InputSliceTrainer.scattered {F} _ _ _ _ _ _.
Arguments InputSliceTrainer.backpropagate {F} _ _ {Example Message} _ _ _ _ _ _.

(** ** trainer_sum.h: Trainer<Layers::Sum<...>> *)

Module TrainerSum.
Section WithTypes.
Variable F : Type.
Variable fzero : F.
Variable fadd : F -> F -> F.
Variable Example : Type.
(** [LayerType::kOutputDimensions] *)
Variable kOutputDimensions : Z.

(** The trainer of a summand is external: what [Trainer<Sum>] uses of it
    is the array its [propagate] returns a pointer to. *)
Record Summand := {
  summand_propagate : list Example -> list F
}.

(** [Trainer<Sum<PreviousLayer>>], which owns the buffer [output_], and
    [Trainer<Sum<FirstPreviousLayer, Remaining...>>], which derives from
    the trainer of the remaining summands. *)
Inductive t :=
| Single (previous_layer_trainer_ : Summand) (batch_size_ : Z)
    (output_ : list F)
| Cons (previous_layer_trainer_ : Summand) (batch_size_ : Z) (Tail : t).

(** The summand trainers, in template order. *)
Fixpoint summands (s : t) : list Summand :=
  match s with
  | Single p _ _ => [p]
  | Cons p _ tl => p :: summands tl
  end.

(** The buffer [output_] of the innermost base class: the array that the
    pointer returned by [propagate] refers to. *)
Fixpoint output (s : t) : list F :=
  match s with
  | Single _ _ o => o
  | Cons _ _ tl => output tl
  end.

(** A write through that pointer. *)
Fixpoint with_output (f : list F -> list F) (s : t) : t :=
  match s with
  | Single p b o => Single p b (f o)
  | Cons p b tl => Cons p b (with_output f tl)
  end.

(** [output_[index] = output[index]]; an index outside an array leaves
    [output_] as it is. *)
Definition copy_cell (source : list F) (index : Z) (o : list F) : list F :=
  match source !! Z.to_nat index with
  | Some x => <[Z.to_nat index := x]> o
  | None => o
  end.

(** [propagate]: the loops are those of the shared trainer, over
    [kOutputDimensions]. *)
Fixpoint propagate (batch : list Example) (s : t) : t :=
  let size := Z.of_nat (length batch) in
  match s with
  | Single p _ o =>
      let o :=
        if Z.of_nat (length o) <? wrap64 (kOutputDimensions * size)
        then resize (Z.to_nat (wrap64 (kOutputDimensions * size))) fzero o
        else o in
      let batch_size := wrap32 size in
      let output := summand_propagate p batch in
      Single p batch_size
        (SharedInputTrainer.for_each_cell kOutputDimensions batch_size
           (copy_cell output) o)
  | Cons p _ tl =>
      let batch_size := wrap32 size in
      let tl := propagate batch tl in
      let head_output := summand_propagate p batch in
      Cons p batch_size
        (with_output
           (SharedInputTrainer.for_each_cell kOutputDimensions batch_size
              (SharedInputTrainer.add_cell fadd head_output))
           tl)
  end.

(** The element-wise sum of the first [n] entries of the summands'
    outputs, added up as [propagate] does: from the last summand to the
    first. *)
Fixpoint output_sum (n : nat) (batch : list Example) (s : t) : list F :=
  match s with
  | Single p _ _ => take n (summand_propagate p batch)
  | Cons p _ tl =>
      zip_with fadd (output_sum n batch tl) (take n (summand_propagate p batch))
  end.

End WithTypes.
End TrainerSum.

Arguments TrainerSum.summand_propagate {F Example} _ _.
Arguments TrainerSum.Single {F Example} _ _ _.
Arguments TrainerSum.Cons {F Example} _ _ _.
Arguments TrainerSum.summands {F Example} _.
Arguments TrainerSum.output {F Example} _.
Arguments TrainerSum.with_output {F Example} _ _.
Arguments TrainerSum.copy_cell {F} _ _ _.
Arguments TrainerSum.propagate {F} _ _ {Example} _ _ _.
Arguments TrainerSum.output_sum {F} _ {Example} _ _ _.

(** ** learn.cpp: validation and checkpoints in sequence *)

(** The end of [calc_loss]: [latest_loss_sum += test_sum_cross_entropy -
    test_sum_entropy; latest_loss_count += sr.sfen_for_mse.size();].
    [loss] is the difference added, [count] the size of the validation
    set. *)
Definition calc_loss_update (loss : float) (count : Z) (st : Learner.State)
    : Learner.State :=
  {| Learner.global_learning_rate := Learner.global_learning_rate st;
     Learner.best_loss := Learner.best_loss st;
     Learner.latest_loss_sum := PrimFloat.add (Learner.latest_loss_sum st) loss;
     Learner.latest_loss_count := wrap64 (Learner.latest_loss_count st + count);
     Learner.last_lr_drop := Learner.last_lr_drop st;
     Learner.total_done := Learner.total_done st;
     Learner.best_nn_directory := Learner.best_nn_directory st;
     Learner.dir_number := Learner.dir_number st;
     Learner.trials := Learner.trials st;
     Learner.saved := Learner.saved st;
     Learner.save_count := Learner.save_count st;
     Learner.stop_flag := Learner.stop_flag st;
     Learner.sr_stop_flag := Learner.sr_stop_flag st |}.

(** Periodic checkpoints one after the other, each after a validation
    pass: [save(false)] is called until it reports convergence, as thread
    0 does in [thread_worker]. *)
Fixpoint checkpoints (opt : Learner.Options) (rounds : list (float * Z))
    (st : Learner.State) : bool * Learner.State :=
  match rounds with
  | [] => (false, st)
  | (loss, count) :: rounds =>
      let (converged, st) :=
        Learner.save opt false (calc_loss_update loss count st) in
      if converged then (true, st) else checkpoints opt rounds st
  end.

(** ** gensfen.cpp: the plies of the random moves *)

(** One iteration of the loop of [generate_random_move_flags]:
    [swap(a[i], a[prng.rand((uint64_t)a.size() - i) + i]);
     random_move_flag[a[i]] = true;].  The swap is the step of the
    Fisher-Yates shuffle; an index outside the flag vector, undefined in
    C++, leaves the vector as it is. *)
Definition flag_step (size : Z) (st : list Z * PRNG.t * list bool) (i : Z)
    : list Z * PRNG.t * list bool :=
  let '(a_prng, random_move_flag) := st in
  let (a, prng) := Algo.shuffle_step size a_prng i in
  match a !! Z.to_nat i with
  | Some ply => (a, prng, <[Z.to_nat ply := true]> random_move_flag)
  | None => (a, prng, random_move_flag)
  end.

(** [MultiThinkGenSfen::generate_random_move_flags]: the flag vector and
    the generator afterwards. *)
Definition generate_random_move_flags
    (random_move_minply random_move_maxply random_move_count : Z)
    (prng : PRNG.t) : list bool * PRNG.t :=
  let first := Z.max (random_move_minply - 1) 0 in
  let a := seqZ first (random_move_maxply - first) in
  let random_move_flag :=
    replicate
      (Z.to_nat (wrap64 (wrap64 random_move_maxply + random_move_count)))
      false in
  let size := Z.of_nat (length a) in
  let '(_, prng, random_move_flag) :=
    fold_left (flag_step size)
      (indices (Z.min random_move_count (InputSliceTrainer.to_int size)))
      (a, prng, random_move_flag) in
  (random_move_flag, prng).

(** The number of flags set. *)
Definition count_flags (random_move_flag : list bool) : nat :=
  length (List.filter (fun b : bool => b) random_move_flag).

(** ** gensfen.cpp: a random move among the best of a multi-PV search *)

(** The number [s] of root moves [choose_random_move] draws from: the
    first [random_multi_pv] root moves, cut off at the first whose score is
    more than [random_multi_pv_diff] below the score of the best.  [scores]
    are the scores of [rootMoves] in order; [found] is [Some i] once the
    loop has left by [break] with [s = i]. *)
Definition multi_pv_candidates (scores : list Z)
    (random_multi_pv random_multi_pv_diff : Z) : Z :=
  let s := Z.min (Z.of_nat (length scores)) (wrap64 random_multi_pv) in
  from_option id s
    (fold_left
       (fun found i =>
          match found with
          | Some _ => found
          | None =>
              if nth 0 scores 0 >? nth (Z.to_nat i) scores 0 + random_multi_pv_diff
              then Some i else None
          end)
       (seqZ 1 (s - 1)) None).

(** [rm[prng.rand(s)]]: the index of the root move chosen. *)
Definition choose_multi_pv (scores : list Z)
    (random_multi_pv random_multi_pv_diff : Z) (prng : PRNG.t) : Z * PRNG.t :=
  PRNG.rand (multi_pv_candidates scores random_multi_pv random_multi_pv_diff)
    prng.

(** ** gensfen.cpp: SfenWriter *)

Module SfenWriter.

(** Amount of sfens required to flush the buffer. *)
Definition SFEN_WRITE_SIZE : Z := 5000.
Definition STATUS_OUTPUT_PERIOD : Z := 40.

Section WithRecord.
(** [PackedSfenValue] *)
Variable PSV : Type.

(** [sfen_buffers] holds one buffer per thread ([None] is the null
    pointer); [files] are the output files in the order they were opened,
    the last being the one [output_file_stream] writes to.  [died] is set
    when the process has been killed by the division by zero of
    [file_write_worker] (undefined behaviour in C++, a fatal signal on the
    usual targets): from then on no thread takes a step. *)
Record t := {
  sfen_buffers : list (option (list PSV));
  sfen_buffers_pool : list (list PSV);
  files : list (list PSV);
  save_every : Z;
  sfen_write_count : Z;
  sfen_write_count_current_file : Z;
  batch_counter : Z;
  died : bool
}.

(** The constructor, followed by [set_save_interval]. *)
Definition construct (thread_num : nat) (save_every : Z) : t :=
  {| sfen_buffers := replicate thread_num None;
     sfen_buffers_pool := [];
     files := [[]];
     save_every := save_every;
     sfen_write_count := 0;
     sfen_write_count_current_file := 0;
     batch_counter := 0;
     died := false |}.

Definition with_buffers (buffers : list (option (list PSV)))
    (pool : list (list PSV)) (w : t) : t :=
  {| sfen_buffers := buffers;
     sfen_buffers_pool := pool;
     files := files w;
     save_every := save_every w;
     sfen_write_count := sfen_write_count w;
     sfen_write_count_current_file := sfen_write_count_current_file w;
     batch_counter := batch_counter w;
     died := died w |}.

(** [write]: a [thread_id] outside [sfen_buffers], undefined in C++,
    leaves the writer as it is. *)
Definition write (thread_id : nat) (psv : PSV) (w : t) : t :=
  match sfen_buffers w !! thread_id with
  | None => w
  | Some buf =>
      let buf := from_option id [] buf ++ [psv] in
      if Z.of_nat (length buf) >=? SFEN_WRITE_SIZE
      then with_buffers (<[thread_id := None]> (sfen_buffers w))
             (sfen_buffers_pool w ++ [buf]) w
      else with_buffers (<[thread_id := Some buf]> (sfen_buffers w))
             (sfen_buffers_pool w) w
  end.

Definition finalize (thread_id : nat) (w : t) : t :=
  match sfen_buffers w !! thread_id with
  | Some (Some buf) =>
      if negb (length buf =? 0)%nat
      then with_buffers (<[thread_id := None]> (sfen_buffers w))
             (sfen_buffers_pool w ++ [buf]) w
      else w
  | _ => w
  end.

(** [output_file_stream->write( *buf)] *)
Definition append_to_current_file (buf : list PSV) (fs : list (list PSV))
    : list (list PSV) :=
  match fs with
  | [] => [buf]
  | _ => removelast fs ++ [List.last fs [] ++ buf]
  end.

(** The body of the [for] loop of [file_write_worker] for one buffer.
    When the file is full, [sfen_write_count_current_file] is reset and the
    number of the next file is computed as [(int)(sfen_write_count /
    save_every)]: with [save_every = 0] this division kills the process,
    after the buffer has been written and the counters updated; the
    buffers the worker still holds are lost with it. *)
Definition write_buffer (w : t) (buf : list PSV) : t :=
  if died w then w
  else
    let fs := append_to_current_file buf (files w) in
    let count := wrap64 (sfen_write_count w + Z.of_nat (length buf)) in
    let current :=
      wrap64 (sfen_write_count_current_file w + Z.of_nat (length buf)) in
    if current >=? save_every w then
      if save_every w =? 0 then
        {| sfen_buffers := sfen_buffers w;
           sfen_buffers_pool := sfen_buffers_pool w;
           files := fs;
           save_every := save_every w;
           sfen_write_count := count;
           sfen_write_count_current_file := 0;
           batch_counter := batch_counter w;
           died := true |}
      else
        let n := InputSliceTrainer.to_int (count / save_every w) in
        {| sfen_buffers := sfen_buffers w;
           sfen_buffers_pool := sfen_buffers_pool w;
           (* the file [filename + "_" + std::to_string(n)] is opened *)
           files := fs ++ [[]];
           save_every := save_every w;
           sfen_write_count := count;
           sfen_write_count_current_file := 0;
           batch_counter := wrap64 (batch_counter w + 1);
           died := false |}
    else
      {| sfen_buffers := sfen_buffers w;
         sfen_buffers_pool := sfen_buffers_pool w;
         files := fs;
         save_every := save_every w;
         sfen_write_count := count;
         sfen_write_count_current_file := current;
         batch_counter := wrap64 (batch_counter w + 1);
         died := false |}.

(** One pass of the [while] loop of [file_write_worker]: the pool is
    taken and its buffers are written in order. *)
Definition file_write_worker_pass (w : t) : t :=
  fold_left write_buffer (sfen_buffers_pool w)
    (with_buffers (sfen_buffers w) [] w).

(** What the generator threads and the writer thread do, one action at a
    time: the pool is accessed under the mutex and a thread's buffer by
    that thread only, so a run of the program is a sequence of these.  In
    a process that has died nothing happens any more. *)
Inductive Event :=
| ev_write (thread_id : nat) (psv : PSV)
| ev_finalize (thread_id : nat)
| ev_worker_pass.

Definition step (w : t) (e : Event) : t :=
  if died w then w
  else
    match e with
    | ev_write thread_id psv => write thread_id psv w
    | ev_finalize thread_id => finalize thread_id w
    | ev_worker_pass => file_write_worker_pass w
    end.

Definition run (events : list Event) (w : t) : t := fold_left step events w.

(** The records passed to [write] by the [thread_num] threads, in the
    order of the calls. *)
Fixpoint written (thread_num : nat) (events : list Event) : list PSV :=
  match events with
  | [] => []
  | ev_write thread_id psv :: events =>
      if (thread_id <? thread_num)%nat
      then psv :: written thread_num events
      else written thread_num events
  | _ :: events => written thread_num events
  end.

(** The records a writer holds: in the files, in the pool and in the
    buffers of the threads. *)
Definition buffered (w : t) : list PSV :=
  concat (map (from_option id []) (sfen_buffers w)).

Definition stored (w : t) : list PSV :=
  concat (files w) ++ concat (sfen_buffers_pool w) ++ buffered w.

(** The end of a run: every thread calls [finalize], and the writer
    thread, which the destructor joins, makes its last pass. *)
Definition shutdown (thread_num : nat) : list Event :=
  map ev_finalize (seq 0 thread_num) ++ [ev_worker_pass].

End WithRecord.
End SfenWriter.

Arguments SfenWriter.sfen_buffers {PSV} _.
Arguments SfenWriter.sfen_buffers_pool {PSV} _.
Arguments SfenWriter.files {PSV} _.
Arguments SfenWriter.save_every {PSV} _.
Arguments SfenWriter.sfen_write_count {PSV} _.
Arguments SfenWriter.sfen_write_count_current_file {PSV} _.
Arguments SfenWriter.batch_counter {PSV} _.
Arguments SfenWriter.died {PSV} _.
Arguments SfenWriter.construct {PSV} _ _.
Arguments SfenWriter.with_buffers {PSV} _ _ _.
Arguments SfenWriter.write {PSV} _ _ _.
Arguments SfenWriter.finalize {PSV} _ _.
Arguments SfenWriter.append_to_current_file {PSV} _ _.
Arguments SfenWriter.write_buffer {PSV} _ _.
Arguments SfenWriter.file_write_worker_pass {PSV} _.
Arguments SfenWriter.ev_write {PSV} _ _.
Arguments SfenWriter.ev_finalize {PSV} _.
Arguments SfenWriter.ev_worker_pass {PSV}.
Arguments SfenWriter.step {PSV} _ _.
Arguments SfenWriter.run {PSV} _ _.
Arguments SfenWriter.written {PSV} _ _.
Arguments SfenWriter.buffered {PSV} _.
Arguments SfenWriter.stored {PSV} _.
Arguments SfenWriter.shutdown {PSV} _.

(** ** learn.cpp: SfenReader *)

Module SfenReader.

(** Number of phases buffered by each thread. *)
Definition THREAD_BUFFER_SIZE : Z := 10 * 1000.

Section WithRecord.
(** [PackedSfenValue] *)
Variable PSV : Type.
(** [SFEN_READ_SIZE], that is [LEARN_SFEN_READ_SIZE] of learn.h. *)
Variable SFEN_READ_SIZE : Z.

(** The buffers [file_read_worker] makes of a block: buffer [i] is a copy
    of the [THREAD_BUFFER_SIZE] records from [sfens[i * THREAD_BUFFER_SIZE]]
    on. *)
Definition split_block (sfens : list PSV) : list (list PSV) :=
  map (fun i =>
         take (Z.to_nat THREAD_BUFFER_SIZE)
           (drop (Z.to_nat (wrap64 (i * THREAD_BUFFER_SIZE))) sfens))
      (indices (SFEN_READ_SIZE / THREAD_BUFFER_SIZE)).

(** The outer loop of [file_read_worker] with [stop_flag] clear.  [stream]
    holds the records that the input files still deliver, in the order
    they are read; the worker ends, setting [end_of_files], when fewer
    than [SFEN_READ_SIZE] are left.  Every iteration consumes
    [SFEN_READ_SIZE] records, so [fuel] iterations suffice for a stream of
    [fuel] records when [SFEN_READ_SIZE] is positive.  The result is the
    pool and the generator. *)
Fixpoint file_read_worker_loop (fuel : nat) (no_shuffle : bool)
    (stream : list PSV) (prng : PRNG.t) (packed_sfens_pool : list (list PSV))
    : list (list PSV) * PRNG.t :=
  match fuel with
  | O => (packed_sfens_pool, prng)
  | S fuel =>
      if Z.of_nat (length stream) <? SFEN_READ_SIZE
      then (packed_sfens_pool, prng)
      else
        let sfens := take (Z.to_nat SFEN_READ_SIZE) stream in
        let (sfens, prng) := shuffle_block no_shuffle sfens prng in
        file_read_worker_loop fuel no_shuffle
          (drop (Z.to_nat SFEN_READ_SIZE) stream) prng
          (packed_sfens_pool ++ split_block sfens)
  end.

(** [file_read_worker] on the files [filenames], given by their contents:
    the file names are taken from the back of the vector. *)
Definition file_read_worker (no_shuffle : bool) (files : list (list PSV))
    (prng : PRNG.t) : list (list PSV) * PRNG.t :=
  let stream := concat (rev files) in
  file_read_worker_loop (length stream) no_shuffle stream prng [].

(** The reader as the learner threads see it once the file worker has
    ended. *)
Record t := {
  packed_sfens : list (option (list PSV));
  packed_sfens_pool : list (list PSV);
  total_read : Z;
  end_of_files : bool
}.

(** The result of [read_to_thread_buffer]: a record, [false], or a wait
    that does not end while the pool stays empty. *)
Inductive Result := Got (ps : PSV) | Failed | Waiting.

(** [read_to_thread_buffer_impl]: [None] is the wait. *)
Definition read_to_thread_buffer_impl (thread_id : nat) (r : t)
    : option (bool * t) :=
  match packed_sfens_pool r with
  | front :: pool =>
      Some (true,
            {| packed_sfens := <[thread_id := Some front]> (packed_sfens r);
               packed_sfens_pool := pool;
               total_read := wrap64 (total_read r + THREAD_BUFFER_SIZE);
               end_of_files := end_of_files r |})
  | [] => if end_of_files r then Some (false, r) else None
  end.

(** [thread_ps->back()] and [pop_back()], then the reset of an empty
    buffer.  A buffer that is null or empty here, undefined in C++, gives
    [Failed]. *)
Definition take_back (thread_id : nat) (r : t) : Result * t :=
  match packed_sfens r !! thread_id with
  | Some (Some thread_ps) =>
      match List.last (map Some thread_ps) None with
      | Some ps =>
          let rest := removelast thread_ps in
          (Got ps,
           {| packed_sfens :=
                <[thread_id := if (length rest =? 0)%nat then None
                               else Some rest]> (packed_sfens r);
              packed_sfens_pool := packed_sfens_pool r;
              total_read := total_read r;
              end_of_files := end_of_files r |})
      | None => (Failed, r)
      end
  | _ => (Failed, r)
  end.

Definition read_to_thread_buffer (thread_id : nat) (r : t) : Result * t :=
  let empty :=
    match packed_sfens r !! thread_id with
    | Some (Some thread_ps) => (length thread_ps =? 0)%nat
    | _ => true
    end in
  if empty then
    match read_to_thread_buffer_impl thread_id r with
    | None => (Waiting, r)
    | Some (false, r) => (Failed, r)
    | Some (true, r) => take_back thread_id r
    end
  else take_back thread_id r.

(** Calls of [read_to_thread_buffer] by the threads [thread_ids], one
    after the other: the records obtained and the reader afterwards. *)
Fixpoint read_all (thread_ids : list nat) (r : t) : list PSV * t :=
  match thread_ids with
  | [] => ([], r)
  | thread_id :: thread_ids =>
      let (result, r) := read_to_thread_buffer thread_id r in
      let (got, r) := read_all thread_ids r in
      (match result with Got ps => ps :: got | _ => got end, r)
  end.

(** The records a reader holds: in the pool and in the buffers of the
    threads. *)
Definition held (r : t) : list PSV :=
  concat (packed_sfens_pool r)
  ++ concat (map (from_option id []) (packed_sfens r)).

End WithRecord.
End SfenReader.

Arguments SfenReader.split_block {PSV} _ _.
Arguments SfenReader.file_read_worker_loop {PSV} _ _ _ _ _ _.
Arguments SfenReader.file_read_worker {PSV} _ _ _ _.
Arguments SfenReader.packed_sfens {PSV} _.
Arguments SfenReader.packed_sfens_pool {PSV} _.
Arguments SfenReader.total_read {PSV} _.
Arguments SfenReader.end_of_files {PSV} _.
Arguments SfenReader.Got {PSV} _.
Arguments SfenReader.Failed {PSV}.
Arguments SfenReader.Waiting {PSV}.
Arguments SfenReader.read_to_thread_buffer_impl {PSV} _ _.
Arguments SfenReader.take_back {PSV} _ _.
Arguments SfenReader.read_to_thread_buffer {PSV} _ _.
Arguments SfenReader.read_all {PSV} _ _.
Arguments SfenReader.held {PSV} _.

(** ** learn.cpp: the shuffle command *)

Module Shuffle.
Section WithRecord.
(** [PackedSfenValue] *)
Variable PSV : Type.

(** [while (sfen_count_in_file[i] <= r) r -= sfen_count_in_file[i++];]
    over the counts from position [i] on.  [None]: the loop has run off
    the end of the vector, which is undefined in C++. *)
Fixpoint pick_file (counts : list Z) (r : Z) (i : nat) : option nat :=
  match counts with
  | [] => None
  | c :: counts =>
      if c <=? r then pick_file counts (wrap64 (r - c)) (S i) else Some i
  end.

(** The streams, their counts, the number of records left, the generator
    and the output file. *)
Record State := {
  sfen_file_streams : list (list PSV);
  sfen_count_in_file : list Z;
  sfen_count_left : Z;
  prng : PRNG.t;
  output : list PSV
}.

(** One iteration of the outer loop of [shuffle_write]. *)
Definition shuffle_write_step (st : State) : option State :=
  let (r, prng) := PRNG.rand (sfen_count_left st) (prng st) in
  match pick_file (sfen_count_in_file st) r 0 with
  | None => None
  | Some i =>
      let counts :=
        alter (fun c => wrap64 (c - 1)) i (sfen_count_in_file st) in
      let left := wrap64 (sfen_count_left st - 1) in
      match sfen_file_streams st !! i with
      | Some (psv :: rest) =>
          Some {| sfen_file_streams := <[i := rest]> (sfen_file_streams st);
                  sfen_count_in_file := counts;
                  sfen_count_left := left;
                  prng := prng;
                  output := output st ++ [psv] |}
      | Some [] =>
          (* the read fails: nothing is written *)
          Some {| sfen_file_streams := sfen_file_streams st;
                  sfen_count_in_file := counts;
                  sfen_count_left := left;
                  prng := prng;
                  output := output st |}
      | None => None
      end
  end.

(** The outer loop; it makes [sfen_count_left] iterations, [fuel] bounds
    them. *)
Fixpoint shuffle_write_loop (fuel : nat) (st : State) : option State :=
  if sfen_count_left st =? 0 then Some st
  else
    match fuel with
    | O => None
    | S fuel =>
        match shuffle_write_step st with
        | Some st => shuffle_write_loop fuel st
        | None => None
        end
    end.

(** [shuffle_write]: the records written to the output file and the
    generator afterwards.  The streams are given by their contents. *)
Definition shuffle_write (generator : PRNG.t)
    (streams : list (list PSV)) (counts : list Z)
    : option (list PSV * PRNG.t) :=
  let total_sfen_count :=
    fold_left (fun total c => wrap64 (total + c)) counts 0 in
  match shuffle_write_loop (Z.to_nat total_sfen_count)
          {| sfen_file_streams := streams;
             sfen_count_in_file := counts;
             sfen_count_left := total_sfen_count;
             prng := generator;
             output := [] |} with
  | Some st => Some (output st, prng st)
  | None => None
  end.

(** The state of the first pass of [shuffle_files]: the buffer and its
    marker, the temporary files written with their record counts, the
    generator. *)
Record Pass := {
  buf : list PSV;
  buf_write_marker : Z;
  tmp_files : list (list PSV);
  a_count : list Z;
  pass_prng : PRNG.t
}.

(** The lambda [write_buffer] of [shuffle_files]. *)
Definition write_buffer (size : Z) (p : Pass) : Pass :=
  let (shuffled, prng) := Algo.shuffle (buf p) (pass_prng p) in
  {| buf := shuffled;
     buf_write_marker := 0;
     tmp_files := tmp_files p ++ [take (Z.to_nat size) shuffled];
     a_count := a_count p ++ [size];
     pass_prng := prng |}.

(** One record read into [buf[buf_write_marker]]. *)
Definition read_record (buffer_size : Z) (p : Pass) (psv : PSV) : Pass :=
  let p :=
    {| buf := <[Z.to_nat (buf_write_marker p) := psv]> (buf p);
       buf_write_marker := wrap64 (buf_write_marker p + 1);
       tmp_files := tmp_files p;
       a_count := a_count p;
       pass_prng := pass_prng p |} in
  if buf_write_marker p =? buffer_size then write_buffer buffer_size p else p.

(** [shuffle_files]: [files] are the contents of the files [filenames],
    [zero] is the value of the records of a fresh [PSVector]. *)
Definition shuffle_files (zero : PSV) (files : list (list PSV))
    (buffer_size : Z) (generator : PRNG.t) : option (list PSV * PRNG.t) :=
  let p :=
    fold_left (read_record buffer_size) (concat files)
      {| buf := replicate (Z.to_nat buffer_size) zero;
         buf_write_marker := 0;
         tmp_files := [];
         a_count := [];
         pass_prng := generator |} in
  let p :=
    if negb (buf_write_marker p =? 0)
    then write_buffer (buf_write_marker p) p else p in
  shuffle_write (pass_prng p) (tmp_files p) (a_count p).

End WithRecord.
End Shuffle.

Arguments Shuffle.sfen_file_streams {PSV} _.
Arguments Shuffle.sfen_count_in_file {PSV} _.
Arguments Shuffle.sfen_count_left {PSV} _.
Arguments Shuffle.prng {PSV} _.
Arguments Shuffle.output {PSV} _.
Arguments Shuffle.shuffle_write_step {PSV} _.
Arguments Shuffle.shuffle_write_loop {PSV} _ _.
Arguments Shuffle.shuffle_write {PSV} _ _ _.
Arguments Shuffle.buf {PSV} _.
Arguments Shuffle.buf_write_marker {PSV} _.
Arguments Shuffle.tmp_files {PSV} _.
Arguments Shuffle.a_count {PSV} _.
Arguments Shuffle.pass_prng {PSV} _.
Arguments Shuffle.write_buffer {PSV} _ _.
Arguments Shuffle.read_record {PSV} _ _ _.
Arguments Shuffle.shuffle_files {PSV} _ _ _ _.

(** ** gensfen.cpp: the table of position keys, shared by the worker threads *)

(** The slot of a position key in the table ([hash_index] in
    [thread_worker]) and the table after [hash[hash_index] = key]. *)
Definition hash_index (key : Z) : Z :=
  Z.land key (Gensfen.GENSFEN_HASH_SIZE - 1).

Definition replace_key (hash : Z -> Z) (key : Z) : Z -> Z :=
  fun i => if i =? hash_index key then key else hash i.

(** [hash] is read and written by every worker thread, without a lock.
    The only writes are those of [thread_worker], each storing the key of
    a position in the slot of that key, so what the other threads do to
    the table between two accesses of one thread is a sequence of such
    stores.  An access to a slot, an aligned 64-bit word, is taken to be
    atomic. *)
Definition store_keys (keys : list Z) (hash : Z -> Z) : Z -> Z :=
  fold_left replace_key keys hash.

(** One ply of the game of a thread together with the keys the other
    threads store meanwhile: before the thread reads the slot of its
    position, and between this read and its own store. *)
Record SharedPly := {
  stored_before_read : list Z;
  stored_before_write : list Z;
  ply_data : Gensfen.PlyData
}.

(** The record the ply loop appends for a ply. *)
Definition packed (ply : Z) (d : Gensfen.PlyData) : Gensfen.PackedSfenValue :=
  {| Gensfen.sfen := Gensfen.ply_sfen d;
     Gensfen.score := Gensfen.ply_search_value d;
     Gensfen.move := Gensfen.ply_pv_move d; Gensfen.gamePly := ply;
     Gensfen.game_result := 0 |}.

(** [Gensfen.record_ply] with the stores of the other threads.  Before
    [write_minply] the thread does not touch the table. *)
Definition record_ply_shared (write_minply : Z) (ply : Z) (p : SharedPly)
    (st : list Gensfen.PackedSfenValue * (Z -> Z))
    : list Gensfen.PackedSfenValue * (Z -> Z) :=
  let (a_psv, hash) := st in
  if ply <? write_minply - 1 then
    ([], store_keys (stored_before_write p)
           (store_keys (stored_before_read p) hash))
  else
    let hash := store_keys (stored_before_read p) hash in
    let key := Gensfen.ply_key (ply_data p) in
    let old_key := hash (hash_index key) in
    let hash := store_keys (stored_before_write p) hash in
    if key =? old_key then (a_psv, hash)
    else (a_psv ++ [packed ply (ply_data p)], replace_key hash key).

Fixpoint record_game_shared (write_minply : Z) (ply : Z)
    (game : list SharedPly) (st : list Gensfen.PackedSfenValue * (Z -> Z))
    : list Gensfen.PackedSfenValue * (Z -> Z) :=
  match game with
  | [] => st
  | p :: game =>
      record_game_shared write_minply (ply + 1) game
        (record_ply_shared write_minply ply p st)
  end.

(** A ply during which no other thread stores a key. *)
Definition undisturbed (d : Gensfen.PlyData) : SharedPly :=
  {| stored_before_read := []; stored_before_write := []; ply_data := d |}.

(* ===================================================================== *)
(** * Predicates used in the statements *)
(* ===================================================================== *)

(** The assumption the comment in [commit_psv] states: the buffered
    records are consecutive plies. *)
Definition consecutive_plies (sfens : list Gensfen.PackedSfenValue) : Prop :=
  forall (i : nat) p q,
    sfens !! i = Some p -> sfens !! S i = Some q ->
    Gensfen.gamePly q = Gensfen.gamePly p + 1.

(** A score within the band of the draw adjudication. *)
Definition low_score (s : Z) : Prop := Z.abs s <= Gensfen.adj_draw_score.

(** The shared input trainer in the middle of a back-propagation round that
    started in state [s0]: [j] referrers have called, their arrays [gs] are
    summed in the first [n] entries of the buffer, and the underlying
    trainer has not been called. *)
Definition accumulating {F Example Message : Type} (fzero : F)
    (fadd : F -> F -> F) (s0 : SharedInputTrainer.t F Example Message)
    (n : nat) (j : Z) (gs : list (list F))
    (s : SharedInputTrainer.t F Example Message) : Prop :=
  SharedInputTrainer.num_calls_ s = j
  /\ SharedInputTrainer.current_operation_ s = SharedInputTrainer.kBackPropagate
  /\ SharedInputTrainer.batch_size_ s = SharedInputTrainer.batch_size_ s0
  /\ SharedInputTrainer.num_referrers_ s = SharedInputTrainer.num_referrers_ s0
  /\ SharedInputTrainer.ft_calls s = SharedInputTrainer.ft_calls s0
  /\ length (SharedInputTrainer.gradients_ s)
     = length (SharedInputTrainer.gradients_ s0)
  /\ take n (SharedInputTrainer.gradients_ s)
     = SharedInputTrainer.gradient_sum fzero fadd n gs.

(** The static of [SharedInputTrainer::create] when one instance has been
    constructed, for the feature transformer [ft], and counts [referrers]
    referrers. *)
Definition one_instance {F Example Message : Type} (ft : Z) (referrers : Z)
    : SharedInputTrainer.Static F Example Message :=
  {| SharedInputTrainer.instance :=
       Some (SharedInputTrainer.with_referrers referrers
               (SharedInputTrainer.construct ft));
     SharedInputTrainer.constructions := [ft] |}.

(** A construction of a trainer graph for the feature transformer [ft]
    after [n] calls of [SharedInputTrainer::create]. *)
Definition constructing {F Example Message : Type} (ft : Z) (n : nat)
    (st : TrainerGraph.State F Example Message) : Prop :=
  length (TrainerGraph.created st) = n
  /\ (forall k : nat, (k < n)%nat ->
        TrainerGraph.created st !! k
        = Some (one_instance ft (wrap32 (Z.of_nat (S k)))))
  /\ TrainerGraph.static st
     = match n with
       | O => SharedInputTrainer.no_instance
       | S _ => one_instance ft (wrap32 (Z.of_nat n))
       end.

(* ===================================================================== *)
(** * Concrete inputs used by the examples *)
(* ===================================================================== *)

(** A position reached without a piece move (empty delta list), all
    castling rights present. *)
Definition quiet_position : Position :=
  {| state := {| castlingRights := 15;
                 dirtyPiece := {| dirty_num := 0; piece := [] |} |};
     state_previous := {| castlingRights := 15;
                 dirtyPiece := {| dirty_num := 0; piece := [] |} |} |}.

(** The castling-right feature in an architecture with room for 30 active
    indices, alone and composed with itself. *)
Definition castling_only : FeatureSet.t :=
  FeatureSet.Single (CastlingRight.feature 30).

Definition castling_twice : FeatureSet.t :=
  FeatureSet.Cons (CastlingRight.feature 30) castling_only.

(** Empty output lists and cleared reset flags. *)
Definition no_changes : FeatureSet.Changed :=
  {| FeatureSet.removed := ([], []);
     FeatureSet.added := ([], []);
     FeatureSet.reset := (false, false) |}.

(** A loop counter that hands out 0, 1, 2, ... and never reaches the end
    marker [UINT64_MAX]. *)
Definition counting (c : Z) : Z * Z := (c, c + 1).
Definition UINT64_MAX : Z := 2 ^ 64 - 1.

(** Six plies of a game whose fifth position repeats the first one (same
    position key): the table of keys filters it out of the buffer. *)
Definition ply_with_key (k : Z) : Gensfen.PlyData :=
  {| Gensfen.ply_key := k; Gensfen.ply_sfen := [k];
     Gensfen.ply_search_value := 0; Gensfen.ply_pv_move := 1 |}.

Definition repeating_game : list Gensfen.PlyData :=
  map ply_with_key [100; 101; 102; 103; 100; 105].

Definition repeating_game_buffer : list Gensfen.PackedSfenValue :=
  fst (Gensfen.record_game 1 0 repeating_game ([], fun _ => 0)).

(** Six plies without a repetition. *)
Definition plain_game_buffer : list Gensfen.PackedSfenValue :=
  fst (Gensfen.record_game 1 0
         (map ply_with_key [100; 101; 102; 103; 104; 105]) ([], fun _ => 0)).

(** Generator settings: positions are recorded up to ply 400, resignation
    at 3000 centipawns. *)
Definition sample_settings : Gensfen.Settings :=
  {| Gensfen.write_maxply := 400; Gensfen.eval_limit := 3000;
     Gensfen.detect_draw_by_consecutive_low_score := true;
     Gensfen.detect_draw_by_insufficient_mating_material := true;
     Gensfen.VALUE_KNOWN_WIN := 10000 |}.

(** A position in the middle of a game, and the same position with the
    side to move checkmated and with bare kings. *)
Definition midgame : Gensfen.PositionView :=
  {| Gensfen.is_game_end := None; Gensfen.rootMoves_empty := false;
     Gensfen.checkers := false; Gensfen.checkmate_value := -32000;
     Gensfen.stalemate_value := 0;
     Gensfen.hasInsufficientMaterial := fun _ => false |}.

Definition mated : Gensfen.PositionView :=
  {| Gensfen.is_game_end := None; Gensfen.rootMoves_empty := true;
     Gensfen.checkers := true; Gensfen.checkmate_value := -32000;
     Gensfen.stalemate_value := 0;
     Gensfen.hasInsufficientMaterial := fun _ => true |}.

Definition bare_kings : Gensfen.PositionView :=
  {| Gensfen.is_game_end := None; Gensfen.rootMoves_empty := false;
     Gensfen.checkers := false; Gensfen.checkmate_value := -32000;
     Gensfen.stalemate_value := 0;
     Gensfen.hasInsufficientMaterial := fun _ => true |}.

(** Newbob scheduling with decay 0.5, for a given number of trials and a
    given [auto_lr_drop]; a checkpoint is due at every weight update. *)
Definition newbob_options (num_trials auto_lr_drop : Z) : Learner.Options :=
  {| Learner.save_only_once := false;
     Learner.newbob_decay := 0.5%float;
     Learner.newbob_num_trials := num_trials;
     Learner.auto_lr_drop := auto_lr_drop;
     Learner.mini_batch_size := 1000;
     Learner.eval_save_interval := 1000 |}.

(** A learner at its first checkpoint: learning rate 1, best loss 0.5, and
    a validation loss of 2 / 2 = 1, which is no improvement. *)
Definition learner_not_improving : Learner.State :=
  {| Learner.global_learning_rate := 1%float;
     Learner.best_loss := 0.5%float;
     Learner.latest_loss_sum := 2%float;
     Learner.latest_loss_count := 2;
     Learner.last_lr_drop := 0;
     Learner.total_done := 5000;
     Learner.best_nn_directory := None;
     Learner.dir_number := 0;
     Learner.trials := None;
     Learner.saved := [];
     Learner.save_count := 0;
     Learner.stop_flag := false;
     Learner.sr_stop_flag := false |}.

(** A shared input trainer over integers (standing in for the floats), with
    two input dimensions, three referrers and a mini-batch of two samples;
    its buffer is longer than the batch needs and holds stale values. *)
Definition sample_trainer : SharedInputTrainer.t Z unit unit :=
  {| SharedInputTrainer.batch_size_ := 2;
     SharedInputTrainer.num_referrers_ := 3;
     SharedInputTrainer.num_calls_ := 0;
     SharedInputTrainer.current_operation_ := SharedInputTrainer.kNone;
     SharedInputTrainer.feature_transformer_ := 1;
     SharedInputTrainer.ft_calls := [];
     SharedInputTrainer.output_ := None;
     SharedInputTrainer.gradients_ := [9; 9; 9; 9; 9] |}.

Definition sample_calls : list (list Z * Z) :=
  [([1; 2; 3; 4], 10); ([10; 20; 30; 40], 10); ([100; 200; 300; 400], 10)].

(** The same trainer over binary64 floats; the second entry of every
    array of the round is -0. *)
Definition float_trainer : SharedInputTrainer.t float unit unit :=
  {| SharedInputTrainer.batch_size_ := 2;
     SharedInputTrainer.num_referrers_ := 3;
     SharedInputTrainer.num_calls_ := 0;
     SharedInputTrainer.current_operation_ := SharedInputTrainer.kNone;
     SharedInputTrainer.feature_transformer_ := 1;
     SharedInputTrainer.ft_calls := [];
     SharedInputTrainer.output_ := None;
     SharedInputTrainer.gradients_ := [9; 9; 9; 9; 9]%float |}.

Definition float_calls : list (list float * float) :=
  [([1; PrimFloat.neg_zero; 3; 4]%float, 0.5%float);
   ([10; PrimFloat.neg_zero; 30; 40]%float, 0.5%float);
   ([100; PrimFloat.neg_zero; 300; 400]%float, 0.5%float)].

(** A network whose output is the sum of three sub-graphs, the first of
    them again a sum: four paths lead to the feature transformer. *)
Definition four_paths : TrainerGraph.Layer :=
  TrainerGraph.Sum
    (TrainerGraph.Cons
       (TrainerGraph.Sum
          (TrainerGraph.Cons TrainerGraph.InputSlice
             (TrainerGraph.Single TrainerGraph.InputSlice)))
       (TrainerGraph.Cons TrainerGraph.InputSlice
          (TrainerGraph.Single TrainerGraph.InputSlice))).

(** Positions that report the end of the game themselves: as [midgame]
    but drawn by rule (a repetition, say), and as [bare_kings] but lost by a
    rule of the variant played. *)
Definition drawn_by_rule : Gensfen.PositionView :=
  {| Gensfen.is_game_end := Some 0; Gensfen.rootMoves_empty := false;
     Gensfen.checkers := false; Gensfen.checkmate_value := -32000;
     Gensfen.stalemate_value := 0;
     Gensfen.hasInsufficientMaterial := fun _ => false |}.

Definition lost_by_rule : Gensfen.PositionView :=
  {| Gensfen.is_game_end := Some (-32000); Gensfen.rootMoves_empty := false;
     Gensfen.checkers := false; Gensfen.checkmate_value := -32000;
     Gensfen.stalemate_value := 0;
     Gensfen.hasInsufficientMaterial := fun _ => true |}.

(** The enumerators of [TriggerEvent] numbered in the order of the
    [switch] of [append_changed_indices]. *)
Definition trigger_value (t : TriggerEvent) : Z :=
  match t with
  | kNone => 0
  | kFriendKingMoved => 1
  | kEnemyKingMoved => 2
  | kAnyKingMoved => 3
  | kAnyPieceMoved => 4
  end.

(** A feature that is refreshed when the own king moves and always reports
    index 7 of its 10 dimensions. *)
Definition king_feature : Feature.t :=
  {| Feature.kHashValue := 0x5D69D5B9;
     Feature.kDimensions := 10;
     Feature.kMaxActiveDimensions := 1;
     Feature.kRefreshTrigger := kFriendKingMoved;
     Feature.append_active_indices := fun _ _ active => active ++ [7];
     Feature.append_changed_indices :=
       fun _ _ removed added => (removed ++ [7], added ++ [7]) |}.

(** Two copies of it: the dimensions 0..9 belong to the second, 10..19 to
    the first. *)
Definition king_twice : FeatureSet.t :=
  FeatureSet.Cons king_feature (FeatureSet.Single king_feature).

(** The king feature composed with the castling-right feature. *)
Definition king_and_castling : FeatureSet.t :=
  FeatureSet.Cons king_feature castling_only.

(** A position in which the castling rights 2 and 8 have just been lost. *)
Definition rights_lost : Position :=
  {| state := {| castlingRights := 5;
                 dirtyPiece := {| dirty_num := 0; piece := [] |} |};
     state_previous := {| castlingRights := 15;
                 dirtyPiece := {| dirty_num := 0; piece := [] |} |} |}.

(** Calls of a referrer of [sample_trainer]: a forward propagation of a
    mini-batch of two samples, and a message. *)
Definition sample_propagate : SharedCall unit unit := call_propagate [tt; tt].
Definition sample_message : SharedCall unit unit := call_send_message tt.

(** The buffers of an input-slice trainer are allocated in step, for the
    largest mini-batch seen so far, which the current one does not
    exceed. *)
Definition buffers_in_step {F : Type} (kInputDimensions kOutputDimensions : Z)
    (s : InputSliceTrainer.t F) : Prop :=
  exists m,
    0 <= InputSliceTrainer.batch_size_ s <= m /\
    Z.of_nat (length (InputSliceTrainer.output_ s)) = kOutputDimensions * m /\
    Z.of_nat (length (InputSliceTrainer.gradients_ s)) = kInputDimensions * m.

(** Both buffers hold the current mini-batch. *)
Definition buffers_fit {F : Type} (kInputDimensions kOutputDimensions : Z)
    (s : InputSliceTrainer.t F) : Prop :=
  kOutputDimensions * InputSliceTrainer.batch_size_ s
    <= Z.of_nat (length (InputSliceTrainer.output_ s)) /\
  kInputDimensions * InputSliceTrainer.batch_size_ s
    <= Z.of_nat (length (InputSliceTrainer.gradients_ s)).

(** An input-slice trainer for the dimensions 1..2 of a feature transformer
    with four output dimensions, after the forward propagation of a
    mini-batch of two samples. *)
Definition slice_trainer : InputSliceTrainer.t Z :=
  {| InputSliceTrainer.batch_size_ := 2;
     InputSliceTrainer.output_ := [0; 0; 0; 0];
     InputSliceTrainer.gradients_ := [9; 9; 9; 9; 9; 9; 9; 9] |}.

(** A sum trainer over three summands whose trainers return fixed arrays
    (two output dimensions, mini-batches of two samples). *)
Definition sum_trainer : TrainerSum.t Z unit :=
  TrainerSum.Cons
    {| TrainerSum.summand_propagate := fun _ => [1; 2; 3; 4] |} 0
    (TrainerSum.Cons
       {| TrainerSum.summand_propagate := fun _ => [10; 20; 30; 40; 50] |} 0
       (TrainerSum.Single
          {| TrainerSum.summand_propagate := fun _ => [100; 200; 300; 400] |}
          0 [])).

(** A validation pass that does not improve on the best loss of the
    learner: the loss accumulated since the last checkpoint, divided by the
    number of validation samples, is not below [best_loss]. *)
Definition rejected (st : Learner.State) (round : float * Z) : Prop :=
  0 < snd round < 2 ^ 64 /\
  PrimFloat.ltb
    (PrimFloat.div (PrimFloat.add 0%float (fst round))
       (Learner.double_of_uint64 (snd round)))
    (Learner.best_loss st) = false.

(** A learner before its first checkpoint, the validation counters
    cleared. *)
Definition learner_fresh : Learner.State :=
  {| Learner.global_learning_rate := 1%float;
     Learner.best_loss := 0.5%float;
     Learner.latest_loss_sum := 0%float;
     Learner.latest_loss_count := 0;
     Learner.last_lr_drop := 0;
     Learner.total_done := 5000;
     Learner.best_nn_directory := None;
     Learner.dir_number := 0;
     Learner.trials := None;
     Learner.saved := [];
     Learner.save_count := 0;
     Learner.stop_flag := false;
     Learner.sr_stop_flag := false |}.

(** A buffer of a thread below the flush size, a buffer of the pool at
    most of that size. *)
Definition buffers_bounded {PSV : Type} (w : SfenWriter.t PSV) : Prop :=
  Forall (fun ob => match ob with
                    | Some buf => 0 < Z.of_nat (length buf)
                                  < SfenWriter.SFEN_WRITE_SIZE
                    | None => True
                    end) (SfenWriter.sfen_buffers w) /\
  Forall (fun buf => 0 < Z.of_nat (length buf) <= SfenWriter.SFEN_WRITE_SIZE)
         (SfenWriter.sfen_buffers_pool w).


(** Two sample files, read in the order second, first: 10000 records,
    then 5 more, which do not fill a block of 10000. *)
Definition sample_files : list (list Z) := [seqZ 10000 5; seqZ 0 10000].

(** A reader whose file worker has ended: two threads, the first with two
    records left in its buffer, and one buffer in the pool. *)
Definition sample_reader : SfenReader.t Z :=
  {| SfenReader.packed_sfens := [Some [1; 2]; None];
     SfenReader.packed_sfens_pool := [[3; 4; 5]];
     SfenReader.total_read := 0;
     SfenReader.end_of_files := true |}.

(** The counts are the numbers of records left in the streams. *)
Definition counts_match {PSV : Type} (st : Shuffle.State PSV) : Prop :=
  Shuffle.sfen_count_in_file st
  = map (fun s => Z.of_nat (length s)) (Shuffle.sfen_file_streams st) /\
  Shuffle.sfen_count_left st = sumZ (Shuffle.sfen_count_in_file st) /\
  Shuffle.sfen_count_left st < 2 ^ 64.

(** The first pass of [shuffle_files] after the records [done ++ pending]:
    the records [pending] sit at the front of the buffer, the records
    [done] are in the temporary files, which are full. *)
Definition pass_invariant {PSV : Type} (buffer_size : Z) (p : Shuffle.Pass PSV)
    (done pending : list PSV) : Prop :=
  Z.of_nat (length (Shuffle.buf p)) = buffer_size /\
  Shuffle.buf_write_marker p = Z.of_nat (length pending) /\
  Shuffle.buf_write_marker p < buffer_size /\
  take (length pending) (Shuffle.buf p) = pending /\
  concat (Shuffle.tmp_files p) ≡ₚ done /\
  Shuffle.a_count p
  = map (fun s => Z.of_nat (length s)) (Shuffle.tmp_files p) /\
  Z.of_nat (length done)
  = buffer_size * Z.of_nat (length (Shuffle.tmp_files p)).

(** The buffer holds a record of the position at [ply]. *)
Definition recorded_at (ply : Z) (a_psv : list Gensfen.PackedSfenValue)
    : Prop :=
  In ply (map Gensfen.gamePly a_psv).

(** Between the plies [i] and [j] of [game], after the thread has stored
    the key of ply [i] and before it reads the table at ply [j], another
    thread stores a key other than [key] in the slot of [key]. *)
Definition slot_taken_by_other_thread (game : list SharedPly) (i j : nat)
    (key : Z) : Prop :=
  exists (k : nat) (pk : SharedPly) (other : Z),
    (i < k <= j)%nat /\ game !! k = Some pk /\
    (In other (stored_before_read pk)
     \/ (k < j)%nat /\ In other (stored_before_write pk)) /\
    hash_index other = hash_index key /\ other <> key.

(** The table as the thread reads it at a ply, whether the ply is
    recorded, and the table after the ply. *)
Definition table_read (p : SharedPly) (hash : Z -> Z) : Z -> Z :=
  store_keys (stored_before_read p) hash.

Definition is_recorded (p : SharedPly) (hash : Z -> Z) : bool :=
  negb (Gensfen.ply_key (ply_data p)
        =? table_read p hash (hash_index (Gensfen.ply_key (ply_data p)))).

Definition table_after (p : SharedPly) (hash : Z -> Z) : Z -> Z :=
  let later := store_keys (stored_before_write p) (table_read p hash) in
  if is_recorded p hash then replace_key later (Gensfen.ply_key (ply_data p))
  else later.

(** Three plies: the third position repeats the first, and the key of the
    second falls into the same slot of the table. *)
Definition colliding_game : list Gensfen.PlyData :=
  map ply_with_key [5; 5 + Gensfen.GENSFEN_HASH_SIZE; 5].

(** Three plies, the third position repeating the first; before the
    thread reaches the third, another thread stores a key that falls into
    the same slot. *)
Definition disturbed_game : list SharedPly :=
  [undisturbed (ply_with_key 5); undisturbed (ply_with_key 6);
   {| stored_before_read := [5 + Gensfen.GENSFEN_HASH_SIZE];
      stored_before_write := []; ply_data := ply_with_key 5 |}].

(** Writes of two generator threads with a pass of the writer thread in
    between; the last write names a thread that does not exist. *)
Definition sample_writes : list (SfenWriter.Event Z) :=
  [SfenWriter.ev_write 0 1; SfenWriter.ev_write 1 2;
   SfenWriter.ev_write 0 3; SfenWriter.ev_finalize 0;
   SfenWriter.ev_worker_pass; SfenWriter.ev_write 1 4;
   SfenWriter.ev_write 5 9].

(* ===================================================================== *)
(** * Part II: properties *)
(* ===================================================================== *)

(** ** Machine integers *)

Lemma wrap32_small (z : Z) : 0 <= z < 2 ^ 32 -> wrap32 z = z.
Proof. intros H. unfold wrap32. apply Z.mod_small. exact H. Qed.

Lemma wrap32_add_l (a b : Z) : wrap32 (wrap32 a + b) = wrap32 (a + b).
Proof. unfold wrap32. apply Zplus_mod_idemp_l. Qed.

Lemma wrap64_small (z : Z) : 0 <= z < 2 ^ 64 -> wrap64 z = z.
Proof. intros H. unfold wrap64. apply Z.mod_small. exact H. Qed.

Lemma sumZ_app (l1 l2 : list Z) : sumZ (l1 ++ l2) = sumZ l1 + sumZ l2.
Proof. induction l1 as [|x l1 IH]; simpl; [reflexivity | rewrite IH; lia]. Qed.

Lemma sumZ_nonneg (l : list Z) : Forall (fun x => 0 <= x) l -> 0 <= sumZ l.
Proof. induction 1; simpl; lia. Qed.

(** ** The castling-right feature *)

Lemma testbit_3_high (n : Z) : 2 <= n -> Z.testbit 3 n = false.
Proof.
  intros Hn. change 3 with (Z.ones 2). apply Z.ones_spec_high. lia.
Qed.

(** The two operands of the BLACK expression occupy bits 2..3 and bits
    0..1: their conjunction has no bit set. *)
Lemma relative_black_zero (castling_rights : Z) :
  CastlingRight.relative BLACK castling_rights = 0.
Proof.
  unfold CastlingRight.relative. apply Z.bits_inj'. intros n Hn.
  rewrite Z.land_spec, Z.bits_0.
  destruct (Z_lt_ge_dec n 2) as [Hlt | Hge].
  - rewrite Z.shiftl_spec by exact Hn.
    rewrite (Z.testbit_neg_r _ (n - 2)) by lia. reflexivity.
  - rewrite (Z.land_spec (Z.shiftr castling_rights 2) 3).
    rewrite testbit_3_high by lia.
    rewrite !andb_false_r. reflexivity.
Qed.

Lemma fold_left_id {A B} (f : A -> B -> A) (l : list B) (a : A) :
  (forall a b, f a b = a) -> fold_left f l a = a.
Proof.
  intros Hf. revert a. induction l as [|b l IH]; intros a; simpl.
  - reflexivity.
  - rewrite Hf. apply IH.
Qed.

(** C9. From BLACK's perspective the castling-right feature is inert: the
    inversion expression is 0 for every value of the castling rights, so
    [append_active_indices] appends no index and [append_changed_indices]
    removes (and adds) none, whatever the position. *)
Theorem CastlingRight_black_appends_nothing :
  forall (raw_kMaxActiveDimensions : Z) (pos : Position)
         (active removed added : IndexList),
    CastlingRight.relative BLACK (castlingRights (state pos)) = 0
    /\ CastlingRight.append_active_indices raw_kMaxActiveDimensions pos BLACK active
       = active
    /\ CastlingRight.append_changed_indices pos BLACK removed added
       = (removed, added).
Proof.
  intros raw pos active removed added. split; [apply relative_black_zero|]. split.
  - unfold CastlingRight.append_active_indices.
    destruct (raw <? CastlingRight.kMaxActiveDimensions); [reflexivity|].
    rewrite relative_black_zero. apply fold_left_id.
    intros a i. rewrite Z.land_0_l. reflexivity.
  - unfold CastlingRight.append_changed_indices.
    rewrite !relative_black_zero. f_equal.
Qed.

(** The same feature does report indices from WHITE's perspective, so the
    statement above is not vacuous. *)
Example CastlingRight_white_reports :
  CastlingRight.append_active_indices 30
    {| state := {| castlingRights := 5;
                   dirtyPiece := {| dirty_num := 0; piece := [] |} |};
       state_previous := {| castlingRights := 15;
                   dirtyPiece := {| dirty_num := 0; piece := [] |} |} |}
    WHITE [] = [0; 2].
Proof. reflexivity. Qed.

(** ** Feature-set composition *)

Lemma FeatureSet_kDimensions_mod (fs : FeatureSet.t) :
  Forall Feature.in_range (FeatureSet.members fs) ->
  FeatureSet.kDimensions fs
  = wrap32 (sumZ (map Feature.kDimensions (FeatureSet.members fs))).
Proof.
  induction fs as [f | h tl IH]; simpl; intros Hr.
  - inversion Hr as [|? ? [Hd _] _]; subst.
    rewrite Z.add_0_r. symmetry. apply wrap32_small. exact Hd.
  - inversion Hr as [|? ? _ Htl]; subst. rewrite (IH Htl).
    unfold wrap32. rewrite Zplus_mod_idemp_r. reflexivity.
Qed.

Lemma FeatureSet_kMaxActiveDimensions_mod (fs : FeatureSet.t) :
  Forall Feature.in_range (FeatureSet.members fs) ->
  FeatureSet.kMaxActiveDimensions fs
  = wrap32 (sumZ (map Feature.kMaxActiveDimensions (FeatureSet.members fs))).
Proof.
  induction fs as [f | h tl IH]; simpl; intros Hr.
  - inversion Hr as [|? ? [_ Hd] _]; subst.
    rewrite Z.add_0_r. symmetry. apply wrap32_small. exact Hd.
  - inversion Hr as [|? ? _ Htl]; subst. rewrite (IH Htl).
    unfold wrap32. rewrite Zplus_mod_idemp_r. reflexivity.
Qed.

Lemma in_range_sums_nonneg (l : list Feature.t) :
  Forall Feature.in_range l ->
  0 <= sumZ (map Feature.kDimensions l)
  /\ 0 <= sumZ (map Feature.kMaxActiveDimensions l).
Proof.
  induction 1 as [|f l [Hd Hm] _ [IHd IHm]]; simpl; lia.
Qed.

(** C5. Additivity of the composed constants: for a feature set whose
    members' constants are [IndexType] values and whose totals are
    representable in [IndexType], [kDimensions] is the sum of the members'
    [kDimensions] and [kMaxActiveDimensions] is the sum of the members'
    [kMaxActiveDimensions]. *)
Theorem FeatureSet_dimensions_additive :
  forall fs : FeatureSet.t,
    Forall Feature.in_range (FeatureSet.members fs) ->
    sumZ (map Feature.kDimensions (FeatureSet.members fs)) < 2 ^ 32 ->
    sumZ (map Feature.kMaxActiveDimensions (FeatureSet.members fs)) < 2 ^ 32 ->
    FeatureSet.kDimensions fs
    = sumZ (map Feature.kDimensions (FeatureSet.members fs))
    /\ FeatureSet.kMaxActiveDimensions fs
       = sumZ (map Feature.kMaxActiveDimensions (FeatureSet.members fs)).
Proof.
  intros fs Hr Hd Hm.
  destruct (in_range_sums_nonneg _ Hr) as [Hd0 Hm0].
  rewrite FeatureSet_kDimensions_mod, FeatureSet_kMaxActiveDimensions_mod by exact Hr.
  split; apply wrap32_small; lia.
Qed.

Lemma FeatureSet_dimensions_additive_witness :
  FeatureSet.kDimensions castling_twice = 8
  /\ FeatureSet.kMaxActiveDimensions castling_twice = 8.
Proof.
  apply (FeatureSet_dimensions_additive castling_twice).
  - repeat apply Forall_cons_2; try apply Forall_nil_2;
      unfold Feature.in_range; cbn;
      unfold CastlingRight.kDimensions, CastlingRight.kMaxActiveDimensions; lia.
  - cbn. unfold CastlingRight.kDimensions. lia.
  - cbn. unfold CastlingRight.kMaxActiveDimensions. lia.
Defined.

(** Without the representability condition the composed constant is the
    sum reduced modulo 2^32. *)
Example FeatureSet_dimensions_wrap :
  let big := {| Feature.kHashValue := 0; Feature.kDimensions := 2 ^ 31;
                Feature.kMaxActiveDimensions := 1;
                Feature.kRefreshTrigger := kNone;
                Feature.append_active_indices := fun _ _ l => l;
                Feature.append_changed_indices := fun _ _ r a => (r, a) |} in
  FeatureSet.kDimensions (FeatureSet.Cons big (FeatureSet.Single big)) = 0.
Proof. reflexivity. Qed.

(** ** Changed indices and the empty delta list *)

(** C6, as the code has it. For the three king-move triggers
    ([kFriendKingMoved], [kEnemyKingMoved], [kAnyKingMoved]) an empty
    piece-movement delta list makes [append_changed_indices] skip each
    perspective: the removed and added lists and the reset flags come back
    as they went in. *)
Theorem append_changed_indices_skips_empty_delta :
  forall (fs : FeatureSet.t) (pos : Position) (trigger : TriggerEvent)
         (o : FeatureSet.Changed),
    trigger = kFriendKingMoved \/ trigger = kEnemyKingMoved
      \/ trigger = kAnyKingMoved ->
    dirty_num (dirtyPiece (state pos)) = 0 ->
    (forall perspective : Color,
        FeatureSet.changed_for fs pos trigger perspective o = o)
    /\ FeatureSet.append_changed_indices fs pos trigger o = o.
Proof.
  intros fs pos trigger o Htr Hdp.
  assert (Hstep : forall perspective o',
             FeatureSet.changed_for fs pos trigger perspective o' = o').
  { intros perspective o'. unfold FeatureSet.changed_for. rewrite Hdp.
    destruct Htr as [-> | [-> | ->]]; reflexivity. }
  split.
  - intros perspective. apply Hstep.
  - unfold FeatureSet.append_changed_indices. simpl. rewrite !Hstep. reflexivity.
Qed.

Lemma append_changed_indices_skips_empty_delta_witness :
  (forall perspective : Color,
      FeatureSet.changed_for castling_only quiet_position kFriendKingMoved
        perspective no_changes = no_changes)
  /\ FeatureSet.append_changed_indices castling_only quiet_position
       kFriendKingMoved no_changes = no_changes.
Proof.
  apply (append_changed_indices_skips_empty_delta
           castling_only quiet_position kFriendKingMoved no_changes).
  - left. reflexivity.
  - reflexivity.
Defined.

(** C6, as stated, fails for the trigger [kAnyPieceMoved]: with an empty
    delta list the perspective is not skipped, its reset flag is set. *)
Lemma append_changed_indices_any_piece_moved_not_skipped :
  dirty_num (dirtyPiece (state quiet_position)) = 0
  /\ FeatureSet.reset no_changes = (false, false)
  /\ FeatureSet.reset
       (FeatureSet.changed_for castling_only quiet_position kAnyPieceMoved
          WHITE no_changes) = (true, false)
  /\ FeatureSet.reset
       (FeatureSet.append_changed_indices castling_only quiet_position
          kAnyPieceMoved no_changes) = (true, true).
Proof. repeat split. Qed.

(** With the trigger [kNone] the delta list is not consulted either: the
    perspective is processed according to the incoming reset flag. *)
Lemma changed_for_kNone_ignores_delta (fs : FeatureSet.t) (pos : Position)
    (perspective : Color) (o : FeatureSet.Changed) :
  FeatureSet.changed_for fs pos kNone perspective o
  = FeatureSet.collect fs pos kNone perspective o.
Proof. reflexivity. Qed.

(** ** Reading the parameters of a sum layer *)

Section SumRead.
Context {Stream : Type}.
Implicit Types (p : Sum.Layer Stream) (s : Sum.t Stream) (r : Sum.Reader Stream).

Lemma read_until_failure_app (l1 l2 : list (Sum.Layer Stream)) r :
  Sum.read_until_failure (l1 ++ l2) r
  = (let (ok, r') := Sum.read_until_failure l1 r in
     if ok then Sum.read_until_failure l2 r' else (false, r')).
Proof.
  revert r. induction l1 as [|p l1 IH]; intros r; simpl.
  - reflexivity.
  - destruct (Sum.call_read p r) as [[|] r1]; [apply IH | reflexivity].
Qed.

(** [Sum::read_parameters] is the sequential read of the summands, tail
    first, that stops at the first failure. *)
Lemma read_parameters_sequential s r :
  Sum.read_parameters s r = Sum.read_until_failure (Sum.read_order s) r.
Proof.
  revert r. induction s as [p | p tl IH]; intros r.
  - simpl. destruct (Sum.call_read p r) as [[|] r1]; reflexivity.
  - unfold Sum.read_order. simpl. rewrite read_until_failure_app.
    fold (Sum.read_order tl). rewrite <- IH.
    destruct (Sum.read_parameters tl r) as [[|] r1]; simpl; [|reflexivity].
    destruct (Sum.call_read p r1) as [[|] r2]; reflexivity.
Qed.

(** A sequential read that succeeds has read every layer with success. *)
Lemma read_until_failure_true (ls : list (Sum.Layer Stream)) r r' :
  Sum.read_until_failure ls r = (true, r') ->
  Sum.all_read ls (Sum.stream r) (Sum.stream r')
  /\ Sum.attempts r' = Sum.attempts r ++ map (fun p => (p, true)) ls.
Proof.
  revert r. induction ls as [|p ls IH]; intros r Hrun.
  - injection Hrun as <-. split; [reflexivity|]. cbn. rewrite app_nil_r.
    reflexivity.
  - cbn [Sum.read_until_failure] in Hrun. unfold Sum.call_read in Hrun.
    destruct (Sum.layer_read_parameters p (Sum.stream r)) as [ok m] eqn:Hread.
    destruct ok; [|discriminate].
    destruct (IH _ Hrun) as [Hall Hatt]. cbn in Hall, Hatt. split.
    + exists m. split; [exact Hread | exact Hall].
    + rewrite Hatt. cbn. rewrite <- app_assoc. reflexivity.
Qed.

(** A sequential read that meets a failing read after successful ones ends
    there, whatever layers follow. *)
Lemma read_until_failure_stops (before after : list (Sum.Layer Stream)) p r
    (mid final : Stream) :
  Sum.all_read before (Sum.stream r) mid ->
  Sum.layer_read_parameters p mid = (false, final) ->
  Sum.read_until_failure (before ++ p :: after) r
  = (false, {| Sum.stream := final;
               Sum.attempts := Sum.attempts r
                               ++ map (fun p => (p, true)) before
                               ++ [(p, false)] |}).
Proof.
  revert r. induction before as [|q before IH]; intros r Hall Hfail.
  - cbn in Hall. subst mid. cbn. unfold Sum.call_read. rewrite Hfail.
    reflexivity.
  - destruct Hall as (m & Hread & Hall).
    cbn [app Sum.read_until_failure]. unfold Sum.call_read. rewrite Hread.
    rewrite (IH {| Sum.stream := m;
                   Sum.attempts := Sum.attempts r ++ [(q, true)] |} Hall Hfail).
    cbn. rewrite <- app_assoc. reflexivity.
Qed.

(** A sequential read that fails has met a failing read after successful
    ones. *)
Lemma read_until_failure_false (ls : list (Sum.Layer Stream)) r r' :
  Sum.read_until_failure ls r = (false, r') ->
  exists before p after mid,
    ls = before ++ p :: after
    /\ Sum.all_read before (Sum.stream r) mid
    /\ Sum.layer_read_parameters p mid = (false, Sum.stream r').
Proof.
  revert r. induction ls as [|p ls IH]; intros r Hrun; [discriminate|].
  cbn [Sum.read_until_failure] in Hrun. unfold Sum.call_read in Hrun.
  destruct (Sum.layer_read_parameters p (Sum.stream r)) as [ok m] eqn:Hread.
  destruct ok.
  - destruct (IH _ Hrun) as (before & q & after & mid & -> & Hall & Hfail).
    exists (p :: before), q, after, mid. split; [reflexivity|].
    split; [|exact Hfail]. exists m. split; [exact Hread | exact Hall].
  - injection Hrun as <-. exists [], p, ls, (Sum.stream r).
    split; [reflexivity|]. split; [reflexivity | exact Hread].
Qed.

(** C8. [Sum::read_parameters] passes the stream to the summands one after
    the other (tail first).  It returns true only if the read of every
    summand, each on the stream as the read before left it, returned true.
    It returns false exactly when one of these reads returns false: the
    summands before it in the read order were read with success, and the
    stream and the reads made are as this failing read left them,
    whatever summands follow it in the read order: they are not read and
    have no influence on the result.  Failure is the returned boolean. *)
Theorem Sum_read_parameters_stops_at_first_failure :
  forall s r,
    (fst (Sum.read_parameters s r) = true ->
     Sum.all_read (Sum.read_order s) (Sum.stream r)
       (Sum.stream (snd (Sum.read_parameters s r)))
     /\ Sum.attempts (snd (Sum.read_parameters s r))
        = Sum.attempts r ++ map (fun p => (p, true)) (Sum.read_order s))
    /\ (fst (Sum.read_parameters s r) = false ->
        exists before p after mid,
          Sum.read_order s = before ++ p :: after
          /\ Sum.all_read before (Sum.stream r) mid
          /\ Sum.layer_read_parameters p mid
             = (false, Sum.stream (snd (Sum.read_parameters s r)))
          /\ Sum.attempts (snd (Sum.read_parameters s r))
             = Sum.attempts r ++ map (fun p => (p, true)) before
               ++ [(p, false)]
          /\ forall s' after',
               Sum.read_order s' = before ++ p :: after' ->
               Sum.read_parameters s' r = Sum.read_parameters s r).
Proof.
  intros s r. rewrite read_parameters_sequential.
  destruct (Sum.read_until_failure (Sum.read_order s) r) as [ok r'] eqn:Hrun.
  cbn [fst snd]. split; intros ->.
  - apply read_until_failure_true. exact Hrun.
  - destruct (read_until_failure_false _ _ _ Hrun)
      as (before & p & after & mid & Horder & Hall & Hfail).
    exists before, p, after, mid. split; [exact Horder|].
    split; [exact Hall|]. split; [exact Hfail|].
    rewrite Horder in Hrun.
    rewrite (read_until_failure_stops _ _ _ _ _ _ Hall Hfail) in Hrun.
    injection Hrun as <-. split; [reflexivity|].
    intros s' after' Horder'.
    rewrite read_parameters_sequential, Horder'.
    apply (read_until_failure_stops _ _ _ _ _ _ Hall Hfail).
Qed.
End SumRead.

(** A sum of three summands whose middle one (in read order) meets a short
    read: the first read is made and succeeds, the second fails, the third
    is never made, and the stream is as the failing read left it. *)
Example Sum_read_short :
  let good := {| Sum.layer_read_parameters := fun s : list Z => (true, skipn 2 s) |} in
  let short := {| Sum.layer_read_parameters := fun s : list Z => (false, []) |} in
  let res := Sum.read_parameters (Sum.Cons good (Sum.Cons short (Sum.Single good)))
               {| Sum.stream := [1; 2; 3]; Sum.attempts := [] |} in
  fst res = false /\ map snd (Sum.attempts (snd res)) = [true; false]
  /\ Sum.stream (snd res) = [].
Proof. repeat split. Qed.

(** With enough input all three reads are made, each on what the read
    before left. *)
Example Sum_read_complete :
  let good := {| Sum.layer_read_parameters :=
                   fun s : list Z => ((2 <=? length s)%nat, skipn 2 s) |} in
  let res := Sum.read_parameters (Sum.Cons good (Sum.Cons good (Sum.Single good)))
               {| Sum.stream := [1; 2; 3; 4; 5; 6; 7]; Sum.attempts := [] |} in
  fst res = true /\ map snd (Sum.attempts (snd res)) = [true; true; true]
  /\ Sum.stream (snd res) = [7].
Proof. repeat split. Qed.

(** ** The Fisher-Yates shuffle *)

Lemma rand_below (n : Z) (s : PRNG.t) :
  0 < n -> 0 <= fst (PRNG.rand n s) < n.
Proof.
  intros Hn. unfold PRNG.rand. destruct (PRNG.rand64 s) as [r s']. simpl.
  apply Z.mod_pos_bound. exact Hn.
Qed.

(** The index drawn at step [i] lies in [i, size): the swap never reaches
    outside the vector. *)
Lemma shuffle_index_in_range (size i : Z) (s : PRNG.t) :
  0 <= i < size -> size < 2 ^ 64 ->
  i <= wrap64 (fst (PRNG.rand (wrap64 (size - i)) s) + i) < size.
Proof.
  intros Hi Hsize.
  rewrite (wrap64_small (size - i)) by lia.
  pose proof (rand_below (size - i) s ltac:(lia)) as Hr.
  rewrite wrap64_small by lia. lia.
Qed.

(** Overwriting position [j], which holds [y], by [x] and putting [y] in
    front permutes [x :: l]. *)
Lemma replace_front_Permutation {T} (l : list T) (j : nat) (x y : T) :
  l !! j = Some y -> Permutation (y :: <[j := x]> l) (x :: l).
Proof.
  revert j. induction l as [|b l IH]; intros j Hj.
  - destruct j; discriminate.
  - destruct j as [|k]; simpl in *.
    + injection Hj as ->. apply perm_swap.
    + eapply perm_trans; [apply perm_swap|].
      eapply perm_trans; [apply perm_skip, (IH k Hj)|]. apply perm_swap.
Qed.

Lemma swap_Permutation {T} (i j : nat) (buf : list T) :
  Permutation (Algo.swap i j buf) buf.
Proof.
  unfold Algo.swap.
  destruct (buf !! i) as [x|] eqn:Hi; [|reflexivity].
  destruct (buf !! j) as [y|] eqn:Hj; [|reflexivity].
  revert i j Hi Hj. induction buf as [|a l IH]; intros i j Hi Hj.
  - destruct i; discriminate.
  - destruct i as [|i], j as [|j]; simpl in *.
    + injection Hj as ->. reflexivity.
    + injection Hi as ->. apply replace_front_Permutation. exact Hj.
    + injection Hj as ->. apply replace_front_Permutation. exact Hi.
    + apply perm_skip. apply IH; assumption.
Qed.

Lemma swap_length {T} (i j : nat) (buf : list T) :
  length (Algo.swap i j buf) = length buf.
Proof.
  unfold Algo.swap.
  destruct (buf !! i); [|reflexivity]. destruct (buf !! j); [|reflexivity].
  rewrite !length_insert. reflexivity.
Qed.

Lemma shuffle_step_Permutation {T} (size : Z) (st : list T * PRNG.t) (i : Z) :
  Permutation (fst (Algo.shuffle_step size st i)) (fst st).
Proof.
  unfold Algo.shuffle_step. destruct st as [buf prng].
  destruct (PRNG.rand (wrap64 (size - i)) prng) as [r prng']. simpl.
  apply swap_Permutation.
Qed.

Lemma shuffle_loop_Permutation {T} (size : Z) (steps : list Z)
    (st : list T * PRNG.t) :
  Permutation (fst (fold_left (Algo.shuffle_step size) steps st)) (fst st).
Proof.
  revert st. induction steps as [|i steps IH]; intros st; simpl.
  - reflexivity.
  - eapply perm_trans; [apply IH | apply shuffle_step_Permutation].
Qed.

(** C10. [Algo::shuffle] permutes the vector: whatever the vector and the
    state of the generator, the shuffled vector has the same elements with
    the same multiplicities (and so the same length) as the input, and the
    block shuffling of the sample reader neither drops nor duplicates a
    sample. *)
Theorem Algo_shuffle_is_permutation :
  forall (T : Type) (buf : list T) (prng : PRNG.t),
    Permutation (fst (Algo.shuffle buf prng)) buf
    /\ length (fst (Algo.shuffle buf prng)) = length buf
    /\ forall no_shuffle : bool,
         Permutation (fst (shuffle_block no_shuffle buf prng)) buf.
Proof.
  intros T buf prng.
  assert (Hperm : Permutation (fst (Algo.shuffle buf prng)) buf).
  { unfold Algo.shuffle. apply (shuffle_loop_Permutation _ _ (buf, prng)). }
  split; [exact Hperm|]. split.
  - apply Permutation_length. exact Hperm.
  - intros [|]; simpl; [reflexivity | exact Hperm].
Qed.

(** The generator and the shuffle on a small vector. *)
Example Algo_shuffle_run :
  fst (Algo.shuffle [10; 20; 30; 40; 50] 88172645463325252)
  = [50; 30; 20; 10; 40].
Proof. vm_compute. reflexivity. Qed.

(** ** Backfilling the game result *)

Lemma wrap_int8_small (z : Z) : -128 <= z <= 127 -> wrap_int8 z = z.
Proof. intros H. unfold wrap_int8. rewrite Z.mod_small by lia. lia. Qed.

Lemma pow_m1_succ (k : nat) : (-1) ^ Z.of_nat (S k) = - (-1) ^ Z.of_nat k.
Proof. rewrite Nat2Z.inj_succ, Z.pow_succ_r by lia. lia. Qed.

Section Backfill.
Context {LoopState : Type}.
Variable get_next_loop_count : LoopState -> Z * LoopState.
Variable LOOP_COUNT_FINISHED : Z.

Local Abbreviation backfill := (Gensfen.backfill get_next_loop_count LOOP_COUNT_FINISHED).
Local Abbreviation commit_psv := (Gensfen.commit_psv get_next_loop_count LOOP_COUNT_FINISHED).

(** The reverse walk: the [k]-th record visited receives the incoming
    result negated [k + 1] times, and nothing else of it changes. *)
Lemma backfill_spec (rsfens : list Gensfen.PackedSfenValue) :
  forall (is_win : Z) (num : nat) (ls : LoopState) out q n ls',
    -127 <= is_win <= 127 ->
    backfill rsfens is_win num ls = (out, q, n, ls') ->
    (num <= n <= num + length rsfens)%nat
    /\ length out = length rsfens
    /\ forall (k : nat) p, (k < n - num)%nat -> out !! k = Some p ->
         exists p0, rsfens !! k = Some p0
           /\ p = Gensfen.set_game_result p0 (- is_win * (-1) ^ Z.of_nat k).
Proof.
  induction rsfens as [|it rest IH]; intros is_win num ls out q n ls' Hr Hb.
  - simpl in Hb. injection Hb as <- <- <- <-. simpl.
    split; [lia|]. split; [reflexivity|]. intros k p Hk. lia.
  - simpl in Hb. rewrite wrap_int8_small in Hb by lia.
    destruct (get_next_loop_count ls) as [now ls1].
    destruct (now =? LOOP_COUNT_FINISHED).
    + injection Hb as <- <- <- <-. simpl.
      split; [lia|]. split; [reflexivity|]. intros k p Hk. lia.
    + destruct (backfill rest (- is_win) (S num) ls1)
        as [[[out1 q1] n1] ls2] eqn:Hrec.
      injection Hb as <- <- <- <-.
      destruct (IH (- is_win) (S num) ls1 out1 q1 n1 ls2 ltac:(lia) Hrec)
        as (Hn & Hlen & Hk).
      simpl. split; [lia|]. split; [rewrite Hlen; reflexivity|].
      intros [|k] p Hlt Hp; simpl in Hp.
      * injection Hp as <-. exists it. split; [reflexivity|].
        f_equal. simpl. lia.
      * destruct (Hk k p ltac:(lia) Hp) as (p0 & Hp0 & ->).
        exists p0. split; [exact Hp0|]. f_equal.
        rewrite pow_m1_succ. lia.
Qed.

(** The records written are the last [n] of the buffer: read backwards they
    are the first [n] records of the reverse walk. *)
Lemma written_reversed (wd : bool) (sfens : list Gensfen.PackedSfenValue)
    (lastTurnIsWin : Z) (ls : LoopState) out q n ls' :
  -127 <= lastTurnIsWin <= 127 ->
  (negb wd && (lastTurnIsWin =? 0)) = false ->
  backfill (rev sfens) lastTurnIsWin 0 ls = (out, q, n, ls') ->
  rev (Gensfen.written (commit_psv wd sfens lastTurnIsWin ls)) = firstn n out.
Proof.
  intros Hr Hwd Hb. unfold Gensfen.commit_psv. rewrite Hwd, Hb. simpl.
  destruct (backfill_spec _ _ _ _ _ _ _ _ Hr Hb) as (Hn & Hlen & _).
  rewrite length_rev.
  rewrite <- (rev_involutive (skipn _ _)) at 1. rewrite rev_involutive.
  rewrite skipn_rev, rev_involutive. f_equal. lia.
Qed.

(** What [commit_psv] does in terms of positions in the buffer: counting
    back from the last record written, the [N]-th record carries the result
    of the last record multiplied by (-1)^N, whatever plies the records
    belong to. *)
Lemma commit_psv_alternates_by_position (wd : bool)
    (sfens : list Gensfen.PackedSfenValue) (lastTurnIsWin : Z) (ls : LoopState) :
  -127 <= lastTurnIsWin <= 127 ->
  forall (N : nat) p,
    rev (Gensfen.written (commit_psv wd sfens lastTurnIsWin ls)) !! N = Some p ->
    Gensfen.game_result p = - lastTurnIsWin * (-1) ^ Z.of_nat N.
Proof.
  intros Hr N p Hp.
  destruct (negb wd && (lastTurnIsWin =? 0)) eqn:Hwd.
  { unfold Gensfen.commit_psv in Hp. rewrite Hwd in Hp. simpl in Hp.
    rewrite lookup_nil in Hp. discriminate. }
  destruct (backfill (rev sfens) lastTurnIsWin 0 ls) as [[[out q] n] ls'] eqn:Hb.
  rewrite (written_reversed wd sfens lastTurnIsWin ls out q n ls' Hr Hwd Hb) in Hp.
  destruct (backfill_spec _ _ _ _ _ _ _ _ Hr Hb) as (Hn & Hlen & Hk).
  apply lookup_take_Some in Hp. destruct Hp as [Hp HN].
  destruct (Hk N p ltac:(lia) Hp) as (p0 & _ & ->). reflexivity.
Qed.

(** Only [game_result] is assigned: the plies of the records written are
    those of the buffer. *)
Lemma written_plies (wd : bool) (sfens : list Gensfen.PackedSfenValue)
    (lastTurnIsWin : Z) (ls : LoopState) :
  -127 <= lastTurnIsWin <= 127 ->
  forall (N : nat) p,
    rev (Gensfen.written (commit_psv wd sfens lastTurnIsWin ls)) !! N = Some p ->
    exists p0, rev sfens !! N = Some p0 /\ Gensfen.gamePly p = Gensfen.gamePly p0.
Proof.
  intros Hr N p Hp.
  destruct (negb wd && (lastTurnIsWin =? 0)) eqn:Hwd.
  { unfold Gensfen.commit_psv in Hp. rewrite Hwd in Hp. simpl in Hp.
    rewrite lookup_nil in Hp. discriminate. }
  destruct (backfill (rev sfens) lastTurnIsWin 0 ls) as [[[out q] n] ls'] eqn:Hb.
  rewrite (written_reversed wd sfens lastTurnIsWin ls out q n ls' Hr Hwd Hb) in Hp.
  destruct (backfill_spec _ _ _ _ _ _ _ _ Hr Hb) as (Hn & Hlen & Hk).
  apply lookup_take_Some in Hp. destruct Hp as [Hp HN].
  destruct (Hk N p ltac:(lia) Hp) as (p0 & Hp0 & ->).
  exists p0. split; [exact Hp0 | reflexivity].
Qed.
End Backfill.

Lemma rev_lookup_Some {A} (l : list A) (i : nat) (x : A) :
  rev l !! i = Some x <-> l !! (length l - S i)%nat = Some x /\ (i < length l)%nat.
Proof. rewrite rev_alt. apply (reverse_lookup_Some l i x). Qed.

Lemma consecutive_plies_back (sfens : list Gensfen.PackedSfenValue) :
  consecutive_plies sfens ->
  forall (k : nat) l0 p0,
    rev sfens !! 0%nat = Some l0 -> rev sfens !! k = Some p0 ->
    Gensfen.gamePly p0 = Gensfen.gamePly l0 - Z.of_nat k.
Proof.
  intros Hc k. induction k as [|k IH]; intros l0 p0 H0 Hk.
  - rewrite H0 in Hk. injection Hk as ->. simpl. lia.
  - apply rev_lookup_Some in Hk. destruct Hk as [Hk Hlt].
    destruct (lookup_lt_is_Some_2 (rev sfens) k) as [p1 Hp1].
    { rewrite length_rev. lia. }
    specialize (IH l0 p1 H0 Hp1).
    apply rev_lookup_Some in Hp1. destruct Hp1 as [Hp1 _].
    replace (length sfens - S k)%nat with (S (length sfens - S (S k)))
      in Hp1 by lia.
    rewrite (Hc _ _ _ Hk Hp1) in IH. lia.
Qed.

Section BackfillPlies.
Context {LoopState : Type}.
Variable get_next_loop_count : LoopState -> Z * LoopState.
Variable LOOP_COUNT_FINISHED : Z.

Local Abbreviation commit_psv :=
  (Gensfen.commit_psv get_next_loop_count LOOP_COUNT_FINISHED).

(** When the buffered records are consecutive plies, the record written
    [N] plies before the last one carries the last record's result
    multiplied by (-1)^N. *)
Lemma commit_psv_alternates_by_ply_when_consecutive (wd : bool)
    (sfens : list Gensfen.PackedSfenValue) (lastTurnIsWin : Z) (ls : LoopState) :
  -127 <= lastTurnIsWin <= 127 ->
  consecutive_plies sfens ->
  forall last_record p (N : nat),
    rev (Gensfen.written (commit_psv wd sfens lastTurnIsWin ls)) !! 0%nat
      = Some last_record ->
    In p (Gensfen.written (commit_psv wd sfens lastTurnIsWin ls)) ->
    Gensfen.gamePly p = Gensfen.gamePly last_record - Z.of_nat N ->
    Gensfen.game_result p
    = Gensfen.game_result last_record * (-1) ^ Z.of_nat N.
Proof.
  intros Hr Hc last_record p N Hlast Hin Hply.
  apply in_rev, list_elem_of_In, list_elem_of_lookup in Hin.
  destruct Hin as [k Hk].
  destruct (written_plies _ _ wd sfens lastTurnIsWin ls Hr _ _ Hk)
    as (p0 & Hp0 & Hg).
  destruct (written_plies _ _ wd sfens lastTurnIsWin ls Hr _ _ Hlast)
    as (l0 & Hl0 & Hgl).
  pose proof (consecutive_plies_back sfens Hc k l0 p0 Hl0 Hp0) as Hback.
  assert (N = k) as -> by lia.
  rewrite (commit_psv_alternates_by_position _ _ wd sfens lastTurnIsWin ls Hr _ _ Hk).
  rewrite (commit_psv_alternates_by_position _ _ wd sfens lastTurnIsWin ls Hr _ _ Hlast).
  simpl. lia.
Qed.
End BackfillPlies.

(** A game without repetition: the buffer holds consecutive plies and the
    results alternate ply by ply. *)
Example commit_psv_plain_game :
  map (fun p => (Gensfen.gamePly p, Gensfen.game_result p))
      (Gensfen.written
         (Gensfen.commit_psv counting UINT64_MAX true plain_game_buffer 1 0))
  = [(0, 1); (1, -1); (2, 1); (3, -1); (4, 1); (5, -1)].
Proof. vm_compute. reflexivity. Qed.

(** C3 fails on a buffer with a skipped ply.  In [repeating_game] the
    position of ply 4 has the key of ply 0 and is filtered out, so the
    buffer holds the plies 0, 1, 2, 3, 5.  The game is then committed with
    [lastTurnIsWin = 1]: the last record (ply 5) receives r = -1, and the
    record two plies earlier (ply 3) receives +1, not r * (-1)^2 = -1; the
    same holds for every record before the gap. *)
Theorem commit_psv_skipped_ply_breaks_alternation :
  map Gensfen.gamePly repeating_game_buffer = [0; 1; 2; 3; 5]
  /\ map (fun p => (Gensfen.gamePly p, Gensfen.game_result p))
       (Gensfen.written
          (Gensfen.commit_psv counting UINT64_MAX true repeating_game_buffer 1 0))
     = [(0, -1); (1, 1); (2, -1); (3, 1); (5, -1)]
  /\ ~ consecutive_plies repeating_game_buffer.
Proof.
  split; [vm_compute; reflexivity|]. split; [vm_compute; reflexivity|].
  intros Hc.
  specialize (Hc 3%nat
    {| Gensfen.sfen := [103]; Gensfen.score := 0; Gensfen.move := 1;
       Gensfen.gamePly := 3; Gensfen.game_result := 0 |}
    {| Gensfen.sfen := [105]; Gensfen.score := 0; Gensfen.move := 1;
       Gensfen.gamePly := 5; Gensfen.game_result := 0 |}
    eq_refl eq_refl).
  simpl in Hc. lia.
Qed.

(** ** Game-end adjudication *)

(** The backward scan answers true exactly when the scores it still needs
    are there and all lie within the band. *)
Lemma consecutive_low_scores_spec (rscores : list Z) :
  forall n : Z, 0 <= n < Gensfen.adj_draw_cnt ->
    Gensfen.consecutive_low_scores rscores n = true
    <-> (Z.to_nat (Gensfen.adj_draw_cnt - n) <= length rscores)%nat
        /\ Forall low_score (firstn (Z.to_nat (Gensfen.adj_draw_cnt - n)) rscores).
Proof.
  unfold Gensfen.adj_draw_cnt.
  induction rscores as [|it rest IH]; intros n Hn; simpl.
  - split; [discriminate|]. intros [Hlen _]. lia.
  - replace (Z.to_nat (8 - n)) with (S (Z.to_nat (8 - (n + 1)))) by lia.
    simpl. change Gensfen.adj_draw_cnt with 8.
    destruct (Z.abs it <=? Gensfen.adj_draw_score) eqn:Hlow.
    + apply Z.leb_le in Hlow. destruct (n + 1 >=? 8) eqn:Hcnt.
      * assert (n = 7) as -> by lia. simpl. split; [|reflexivity].
        intros _. split; [lia|]. apply Forall_cons_2; [exact Hlow|].
        apply Forall_nil_2.
      * etransitivity; [apply (IH (n + 1)); lia|]. split.
        -- intros [Hlen Hall]. split; [lia|].
           apply Forall_cons_2; [exact Hlow | exact Hall].
        -- intros [Hlen Hall]. split; [lia|].
           apply Forall_cons_1 in Hall. apply Hall.
    + apply Z.leb_gt in Hlow. split; [discriminate|]. intros [_ Hall].
      apply Forall_cons_1 in Hall. destruct Hall as [Hit _].
      unfold low_score in Hit. lia.
Qed.

(** The resign counter counts the consecutive plies whose score is at or
    above the resign threshold: while the game goes on, it is incremented
    on such a ply and cleared on any other. *)
Lemma adjudicate_resign_counter (cfg : Gensfen.Settings) (should_resign : bool)
    (pos : Gensfen.PositionView) (scores : list Z) (search_value rc : Z) :
  fst (Gensfen.adjudicate cfg should_resign pos scores search_value rc) = None ->
  snd (Gensfen.adjudicate cfg should_resign pos scores search_value rc)
  = if Z.abs search_value >=? Gensfen.eval_limit cfg then rc + 1 else 0.
Proof.
  unfold Gensfen.adjudicate.
  destruct (Gensfen.get_current_game_result cfg pos scores); [discriminate|].
  destruct (Z.abs search_value >=? Gensfen.eval_limit cfg); [|reflexivity].
  destruct (_ || _); [discriminate | reflexivity].
Qed.

(** C4, as the code has it.  The game-end outcomes in their order of
    precedence, for one ply of a generator game ([ply] is the number of
    scores recorded so far):
    (1) at the maximum recorded ply the game is a draw whatever else holds;
        below it, a game end reported by the position itself
        ([pos.is_game_end]) gives the sign of the value it reports,
        whatever else holds;
    (2) otherwise no legal move gives the sign of the checkmate or
        stalemate value whatever the scores and the material;
    (3) otherwise, when the last [adj_draw_cnt] scores all lie within the
        band (detection on, from ply [adj_draw_ply]) the game is a draw;
    (4) insufficient material on both sides (detection on) is a draw as
        well, whether or not (3) applies;
    (5) only when none of these applies does the score decide: at or above
        the resign threshold for the fourth consecutive ply, with the
        per-game permission to resign, the result is decisive (+1 or -1);
    and any result of (1)-(4) is passed on unchanged whatever the score. *)
Theorem adjudication_priority_order :
  forall (cfg : Gensfen.Settings) (should_resign : bool)
         (pos : Gensfen.PositionView) (move_hist_scores : list Z)
         (search_value resign_counter : Z),
    let ply := Z.of_nat (length move_hist_scores) in
    let outcome :=
      fst (Gensfen.adjudicate cfg should_resign pos move_hist_scores
             search_value resign_counter) in
    let low_score_draw :=
      Gensfen.detect_draw_by_consecutive_low_score cfg = true
      /\ Gensfen.adj_draw_ply <= ply
      /\ Forall low_score
           (firstn (Z.to_nat Gensfen.adj_draw_cnt) (rev move_hist_scores)) in
    (Gensfen.write_maxply cfg <= ply -> outcome = Some 0)
    /\ (forall v,
          ply < Gensfen.write_maxply cfg ->
          Gensfen.is_game_end pos = Some v ->
          outcome = Some (Gensfen.sign v))
    /\ (ply < Gensfen.write_maxply cfg ->
        Gensfen.is_game_end pos = None ->
        Gensfen.rootMoves_empty pos = true ->
        outcome = Some (Gensfen.sign
                          (if Gensfen.checkers pos
                           then Gensfen.checkmate_value pos
                           else Gensfen.stalemate_value pos)))
    /\ (ply < Gensfen.write_maxply cfg ->
        Gensfen.is_game_end pos = None ->
        Gensfen.rootMoves_empty pos = false ->
        low_score_draw ->
        outcome = Some 0)
    /\ (ply < Gensfen.write_maxply cfg ->
        Gensfen.is_game_end pos = None ->
        Gensfen.rootMoves_empty pos = false ->
        Gensfen.detect_draw_by_insufficient_mating_material cfg = true ->
        Gensfen.hasInsufficientMaterial pos WHITE = true ->
        Gensfen.hasInsufficientMaterial pos BLACK = true ->
        outcome = Some 0)
    /\ (Gensfen.get_current_game_result cfg pos move_hist_scores = None ->
        Gensfen.eval_limit cfg <= Z.abs search_value ->
        should_resign = true ->
        4 <= resign_counter + 1 ->
        (outcome = Some 1 /\ Gensfen.eval_limit cfg <= search_value)
        \/ (outcome = Some (-1) /\ search_value < Gensfen.eval_limit cfg))
    /\ (forall result,
          Gensfen.get_current_game_result cfg pos move_hist_scores = Some result ->
          outcome = Some result).
Proof.
  intros cfg should_resign pos scores search_value rc ply outcome low_score_draw.
  subst outcome low_score_draw. unfold Gensfen.adjudicate.
  assert (Hscan :
    Gensfen.adj_draw_ply <= ply ->
    (Gensfen.consecutive_low_scores (rev scores) 0 = true
     <-> Forall low_score (firstn (Z.to_nat Gensfen.adj_draw_cnt) (rev scores)))).
  { intros Hply. rewrite consecutive_low_scores_spec by (unfold Gensfen.adj_draw_cnt; lia).
    rewrite Z.sub_0_r, length_rev. unfold Gensfen.adj_draw_ply, Gensfen.adj_draw_cnt in *.
    subst ply. split; [intros [_ H]; exact H | intros H; split; [lia | exact H]]. }
  repeat split.
  - intros Hmax. unfold Gensfen.get_current_game_result. fold ply.
    destruct (Z.geb_spec ply (Gensfen.write_maxply cfg)); [reflexivity | lia].
  - intros v Hmax Hend. unfold Gensfen.get_current_game_result. fold ply.
    destruct (Z.geb_spec ply (Gensfen.write_maxply cfg)); [lia|].
    rewrite Hend. reflexivity.
  - intros Hmax Hend Hmoves. unfold Gensfen.get_current_game_result. fold ply.
    destruct (Z.geb_spec ply (Gensfen.write_maxply cfg)); [lia|].
    rewrite Hend, Hmoves. destruct (Gensfen.checkers pos); reflexivity.
  - intros Hmax Hend Hmoves (Hdet & Hply & Hall).
    unfold Gensfen.get_current_game_result. fold ply.
    destruct (Z.geb_spec ply (Gensfen.write_maxply cfg)); [lia|].
    rewrite Hend, Hmoves, Hdet.
    destruct (Z.geb_spec ply Gensfen.adj_draw_ply); [|lia].
    apply (Hscan Hply) in Hall. rewrite Hall. reflexivity.
  - intros Hmax Hend Hmoves Hdet Hw Hb.
    unfold Gensfen.get_current_game_result. fold ply.
    destruct (Z.geb_spec ply (Gensfen.write_maxply cfg)); [lia|].
    rewrite Hend, Hmoves, Hdet, Hw, Hb.
    destruct (Gensfen.detect_draw_by_consecutive_low_score cfg
              && (ply >=? Gensfen.adj_draw_ply)
              && Gensfen.consecutive_low_scores (rev scores) 0) eqn:Hlow;
      reflexivity.
  - intros Hnone Hlim Hsr Hrc. rewrite Hnone, Hsr.
    destruct (Z.geb_spec (Z.abs search_value) (Gensfen.eval_limit cfg)); [|lia].
    destruct (Z.geb_spec (rc + 1) 4); [|lia]. simpl.
    destruct (Z.geb_spec search_value (Gensfen.eval_limit cfg));
      [left | right]; split; (reflexivity || lia).
  - intros result Hres. rewrite Hres. reflexivity.
Qed.

(** C4, as stated, fails when the position itself reports the end of the
    game (repetition, the move-count rule, a rule of the variant played):
    that report is tested together with the maximum ply and wins over
    everything after it.  Below the maximum ply, (a) a game drawn by rule
    is a draw even on the fourth consecutive ply with a score above the
    resign threshold and the permission to resign, where the same position
    without the report is resigned; (b) a game lost by rule is a loss even
    with insufficient material on both sides and eight scores of zero,
    where the same position without the report is a draw. *)
Lemma adjudication_game_end_report_comes_first :
  Z.of_nat (length (repeat 0 80)) < Gensfen.write_maxply sample_settings
  /\ fst (Gensfen.adjudicate sample_settings true drawn_by_rule [10; 20] 5000 3)
     = Some 0
  /\ fst (Gensfen.adjudicate sample_settings true midgame [10; 20] 5000 3)
     = Some 1
  /\ fst (Gensfen.adjudicate sample_settings true lost_by_rule (repeat 0 80) 0 0)
     = Some (-1)
  /\ fst (Gensfen.adjudicate sample_settings true bare_kings (repeat 0 80) 0 0)
     = Some 0.
Proof. repeat split. Qed.

(** Adjudication on concrete plies: each outcome of the list occurs, and an
    earlier one wins over a later one. *)
Example adjudicate_max_ply_over_mate :
  fst (Gensfen.adjudicate sample_settings true mated (repeat 50 400) (-32000) 3)
  = Some 0.
Proof. vm_compute. reflexivity. Qed.

Example adjudicate_mate :
  fst (Gensfen.adjudicate sample_settings true mated (repeat 0 100) 0 0)
  = Some (-1).
Proof. vm_compute. reflexivity. Qed.

Example adjudicate_low_scores_over_resign :
  fst (Gensfen.adjudicate sample_settings true midgame (repeat 0 80) 5000 3)
  = Some 0
  /\ fst (Gensfen.adjudicate sample_settings true midgame (repeat 0 79) 5000 3)
     = Some 1.
Proof. split; vm_compute; reflexivity. Qed.

Example adjudicate_material_over_resign :
  fst (Gensfen.adjudicate sample_settings true bare_kings [10; 20] (-5000) 3)
  = Some 0.
Proof. vm_compute. reflexivity. Qed.

Example adjudicate_resign :
  Gensfen.adjudicate sample_settings true midgame [10; 20] (-5000) 3
  = (Some (-1), 4)
  /\ Gensfen.adjudicate sample_settings true midgame [10; 20] (-5000) 2
     = (None, 3)
  /\ Gensfen.adjudicate sample_settings false midgame [10; 20] (-5000) 3
     = (None, 4)
  /\ Gensfen.adjudicate sample_settings true midgame [10; 20] 100 3
     = (None, 0).
Proof. repeat split. Qed.

(** A score of [VALUE_KNOWN_WIN] or more ends the game at once, without
    the permission to resign and whatever the counter. *)
Example adjudicate_known_win :
  Gensfen.adjudicate sample_settings false midgame [10; 20] 10000 0
  = (Some 1, 1).
Proof. reflexivity. Qed.

(** ** Checkpoints and the newbob schedule *)

(** When [save] reports convergence at a periodic checkpoint, thread 0 sets
    both stop flags and leaves its loop. *)
Lemma checkpoint_converged_stops (opt : Learner.Options) (st0 : Learner.State) :
  wrap64 (wrap64 (Learner.save_count st0 + 1) * Learner.mini_batch_size opt)
    >= Learner.eval_save_interval opt ->
  fst (Learner.save opt false (Learner.with_save_count 0 st0)) = true ->
  Learner.checkpoint opt st0
  = (true, Learner.with_stop_flags
             (snd (Learner.save opt false (Learner.with_save_count 0 st0)))).
Proof.
  intros Hint Hconv. unfold Learner.checkpoint.
  destruct (Z.geb_spec
              (wrap64 (wrap64 (Learner.save_count st0 + 1)
                       * Learner.mini_batch_size opt))
              (Learner.eval_save_interval opt)); [|lia].
  destruct (Learner.save opt false (Learner.with_save_count 0 st0))
    as [converged st1]. simpl in Hconv. subst converged. reflexivity.
Qed.

(** C7, as the code has it.  At a periodic (non-final) checkpoint with
    newbob scheduling enabled (decay different from 1, at least one
    validation-loss sample, not save-only-once) and [auto_lr_drop] off:
    - if the new validation loss is below the best loss, the checkpoint is
      accepted (it becomes the best loss and the best directory), the trial
      counter is reset to [newbob_num_trials] and the learning rate stays;
    - otherwise the best loss stays, the trial counter is decremented, and
      the learning rate is multiplied by the decay factor if the counter is
      still positive;
    - [save] reports convergence exactly when the counter is zero
      afterwards, and the checkpoint step of thread 0 that called [save]
      then sets both stop flags and leaves the worker loop. *)
Theorem newbob_schedule :
  forall (opt : Learner.Options) (st : Learner.State),
    Learner.save_only_once opt = false ->
    PrimFloat.eqb (Learner.newbob_decay opt) 1%float = false ->
    0 < Learner.latest_loss_count st ->
    Learner.auto_lr_drop opt = 0 ->
    let trials0 :=
      match Learner.trials st with
      | Some t => t
      | None => Learner.newbob_num_trials opt
      end in
    let latest_loss :=
      PrimFloat.div (Learner.latest_loss_sum st)
        (Learner.double_of_uint64 (Learner.latest_loss_count st)) in
    let converged := fst (Learner.save opt false st) in
    let st' := snd (Learner.save opt false st) in
    (PrimFloat.ltb latest_loss (Learner.best_loss st) = true ->
       Learner.best_loss st' = latest_loss
       /\ Learner.best_nn_directory st'
          = Some (Learner.save_numbered (Learner.dir_number st))
       /\ Learner.trials st' = Some (Learner.newbob_num_trials opt)
       /\ Learner.global_learning_rate st' = Learner.global_learning_rate st)
    /\ (PrimFloat.ltb latest_loss (Learner.best_loss st) = false ->
       Learner.best_loss st' = Learner.best_loss st
       /\ Learner.trials st' = Some (trials0 - 1)
       /\ Learner.global_learning_rate st'
          = if trials0 - 1 >? 0
            then PrimFloat.mul (Learner.global_learning_rate st)
                   (Learner.newbob_decay opt)
            else Learner.global_learning_rate st)
    /\ (converged = true <-> Learner.trials st' = Some 0)
    /\ (forall st0,
          st = Learner.with_save_count 0 st0 ->
          wrap64 (wrap64 (Learner.save_count st0 + 1) * Learner.mini_batch_size opt)
            >= Learner.eval_save_interval opt ->
          converged = true ->
          Learner.checkpoint opt st0 = (true, Learner.with_stop_flags st')
          /\ Learner.stop_flag (snd (Learner.checkpoint opt st0)) = true
          /\ Learner.sr_stop_flag (snd (Learner.checkpoint opt st0)) = true).
Proof.
  intros opt st Honce Hdecay Hcount Hauto trials0 latest_loss converged st'.
  assert (Hstop : forall st0,
             st = Learner.with_save_count 0 st0 ->
             wrap64 (wrap64 (Learner.save_count st0 + 1)
                     * Learner.mini_batch_size opt)
               >= Learner.eval_save_interval opt ->
             converged = true ->
             Learner.checkpoint opt st0 = (true, Learner.with_stop_flags st')
             /\ Learner.stop_flag (snd (Learner.checkpoint opt st0)) = true
             /\ Learner.sr_stop_flag (snd (Learner.checkpoint opt st0)) = true).
  { intros st0 -> Hint Hconv. subst converged st'.
    rewrite (checkpoint_converged_stops opt st0 Hint Hconv). repeat split. }
  split; [|split; [|split; [|exact Hstop]]]; clear Hstop;
    subst converged st'; unfold Learner.save;
    rewrite Honce, Hdecay, Hauto; simpl;
    (destruct (Z.gtb_spec (Learner.latest_loss_count st) 0) as [_|]; [|lia]);
    fold trials0; fold latest_loss;
    destruct (PrimFloat.ltb latest_loss (Learner.best_loss st)) eqn:Hlt; simpl.
  - intros _. repeat split.
  - discriminate.
  - discriminate.
  - intros _. rewrite andb_true_r. repeat split.
  - split; intros H.
    + apply Z.eqb_eq in H. rewrite H. reflexivity.
    + injection H as ->. reflexivity.
  - split; intros H.
    + apply Z.eqb_eq in H. rewrite H. reflexivity.
    + injection H as ->. reflexivity.
Qed.

Lemma newbob_schedule_witness :
  Learner.trials
    (snd (Learner.save (newbob_options 4 0) false learner_not_improving))
  = Some 3
  /\ Learner.global_learning_rate
       (snd (Learner.save (newbob_options 4 0) false learner_not_improving))
     = 0.5%float.
Proof.
  pose proof (newbob_schedule (newbob_options 4 0) learner_not_improving
                eq_refl eq_refl eq_refl eq_refl) as H.
  cbv zeta in H. destruct H as (_ & H & _).
  destruct (H eq_refl) as (_ & Htrials & Hrate).
  split; [exact Htrials | exact Hrate].
Defined.

(** C7, as stated, fails in two ways.  (a) On the last trial the counter
    is decremented to zero and [save] reports convergence, but the
    learning rate is not multiplied by the decay factor.  (b) With
    [auto_lr_drop] set, a checkpoint whose loss did not improve is accepted
    all the same: it becomes the best loss and the trial counter is reset,
    not decremented. *)
Lemma newbob_as_stated_fails :
  let st := learner_not_improving in
  let latest_loss :=
    PrimFloat.div (Learner.latest_loss_sum st)
      (Learner.double_of_uint64 (Learner.latest_loss_count st)) in
  let last_trial := Learner.save (newbob_options 1 0) false st in
  let auto_drop := Learner.save (newbob_options 4 1000) false st in
  PrimFloat.ltb latest_loss (Learner.best_loss st) = false
  /\ (Learner.trials (snd last_trial) = Some 0
      /\ fst last_trial = true
      /\ Learner.global_learning_rate (snd last_trial) = 1%float
      /\ Learner.global_learning_rate (snd last_trial)
         <> PrimFloat.mul (Learner.global_learning_rate st) 0.5%float)
  /\ (Learner.trials (snd auto_drop) = Some 4
      /\ Learner.best_loss (snd auto_drop) = latest_loss
      /\ Learner.best_loss (snd auto_drop) <> Learner.best_loss st).
Proof.
  cbv zeta. split; [reflexivity|]. split.
  - split; [reflexivity|]. split; [reflexivity|]. split; [reflexivity|].
    intros H. apply (f_equal (fun x => PrimFloat.eqb x 1%float)) in H.
    vm_compute in H. discriminate.
  - split; [reflexivity|]. split; [reflexivity|].
    intros H. apply (f_equal (fun x => PrimFloat.eqb x 1%float)) in H.
    vm_compute in H. discriminate.
Qed.

(** On the last trial the checkpoint step of thread 0 ends the training. *)
Example checkpoint_last_trial_stops :
  let r := Learner.checkpoint (newbob_options 1 0) learner_not_improving in
  fst r = true
  /\ Learner.stop_flag (snd r) = true
  /\ Learner.sr_stop_flag (snd r) = true
  /\ Learner.saved (snd r) = [Learner.save_numbered 0].
Proof. repeat split. Qed.

(** ** The shared input trainer: construction *)

Section SharedCreate.
Context {F Example Message : Type}.
Local Abbreviation Static := (SharedInputTrainer.Static F Example Message).

Lemma create_all_existing (fts : list Z) :
  forall (ft : Z) (st : Static) s,
    SharedInputTrainer.instance st = Some s ->
    SharedInputTrainer.create_all (ft :: fts) st
    = {| SharedInputTrainer.instance :=
           Some (SharedInputTrainer.with_referrers
                   (wrap32 (SharedInputTrainer.num_referrers_ s + 1
                            + Z.of_nat (length fts))) s);
         SharedInputTrainer.constructions := SharedInputTrainer.constructions st |}.
Proof.
  induction fts as [|ft' fts IH]; intros ft st s Hs.
  - simpl. unfold SharedInputTrainer.create. rewrite Hs, Z.add_0_r. reflexivity.
  - change (SharedInputTrainer.create_all (ft :: ft' :: fts) st)
      with (SharedInputTrainer.create_all (ft' :: fts)
              (SharedInputTrainer.create ft st)).
    erewrite IH; [|unfold SharedInputTrainer.create; rewrite Hs; reflexivity].
    unfold SharedInputTrainer.create. rewrite Hs. simpl.
    unfold SharedInputTrainer.with_referrers. simpl. do 3 f_equal.
    rewrite <- Z.add_assoc, wrap32_add_l. f_equal. lia.
Qed.

(** The first [create] constructs the instance, the later ones find it. *)
Lemma create_all_first (ft : Z) (fts : list Z) :
  SharedInputTrainer.create_all (ft :: fts)
    (SharedInputTrainer.no_instance (F:=F) (Example:=Example) (Message:=Message))
  = {| SharedInputTrainer.instance :=
         Some (SharedInputTrainer.with_referrers
                 (wrap32 (Z.of_nat (length (ft :: fts))))
                 (SharedInputTrainer.construct ft));
       SharedInputTrainer.constructions := [ft] |}.
Proof.
  destruct fts as [|ft' fts].
  - reflexivity.
  - change (SharedInputTrainer.create_all (ft :: ft' :: fts)
              SharedInputTrainer.no_instance)
      with (SharedInputTrainer.create_all (ft' :: fts)
              (SharedInputTrainer.create ft
                 (SharedInputTrainer.no_instance (F:=F) (Example:=Example)
                    (Message:=Message)))).
    erewrite create_all_existing by reflexivity. simpl.
    unfold SharedInputTrainer.with_referrers. simpl. do 3 f_equal.
    rewrite <- Z.add_assoc, wrap32_add_l. f_equal. lia.
Qed.

(** One more [SharedInputTrainer::create] call of a construction. *)
Lemma constructing_create (ft : Z) (n : nat)
    (st : TrainerGraph.State F Example Message) :
  constructing ft n st ->
  constructing ft (S n) (TrainerGraph.create TrainerGraph.InputSlice ft st).
Proof.
  intros (Hlen & Hcreated & Hstatic).
  assert (Hnew : SharedInputTrainer.create ft (TrainerGraph.static st)
                 = one_instance ft (wrap32 (Z.of_nat (S n)))).
  { rewrite Hstatic. destruct n as [|n]; [reflexivity|].
    unfold SharedInputTrainer.create, one_instance. cbn.
    unfold SharedInputTrainer.with_referrers. cbn. do 3 f_equal.
    rewrite wrap32_add_l. f_equal. lia. }
  unfold constructing.
  cbn [TrainerGraph.create TrainerGraph.static TrainerGraph.created].
  rewrite Hnew. split; [|split].
  - rewrite length_app, Hlen. cbn. lia.
  - intros k Hk. destruct (Nat.eq_dec k n) as [->|Hne].
    + rewrite lookup_app_r by lia. rewrite Hlen, Nat.sub_diag. reflexivity.
    + rewrite lookup_app_l by lia. apply Hcreated. lia.
  - reflexivity.
Qed.

(** The construction of a graph makes one [SharedInputTrainer::create]
    call per path, each with the feature transformer of the graph. *)
Lemma constructing_graph (ft : Z) (l : TrainerGraph.Layer) :
  forall (n : nat) (st : TrainerGraph.State F Example Message),
    constructing ft n st ->
    constructing ft (n + TrainerGraph.paths l) (TrainerGraph.create l ft st).
Proof.
  induction l using TrainerGraph.Layer_mutual
    with (P0 := fun s =>
                  forall (n : nat) (st : TrainerGraph.State F Example Message),
                    constructing ft n st ->
                    constructing ft (n + TrainerGraph.paths_sum s)
                      (TrainerGraph.create_sum s ft st));
    intros n st Hst.
  - cbn [TrainerGraph.paths]. rewrite Nat.add_1_r.
    apply constructing_create. exact Hst.
  - cbn [TrainerGraph.paths TrainerGraph.create]. apply IHl. exact Hst.
  - cbn [TrainerGraph.paths_sum TrainerGraph.create_sum]. apply IHl. exact Hst.
  - cbn [TrainerGraph.paths_sum TrainerGraph.create_sum].
    rewrite Nat.add_assoc. apply IHl. apply IHl0. exact Hst.
Qed.

End SharedCreate.


(** The construction of [four_paths] evaluated: the referrer counts the
    four [SharedInputTrainer::create] calls return, and the one
    construction. *)
Example create_four_paths_run :
  let st : TrainerGraph.State Z unit unit :=
    TrainerGraph.create four_paths 7 TrainerGraph.fresh in
  map (fun s => option_map SharedInputTrainer.num_referrers_
                  (SharedInputTrainer.instance s))
    (TrainerGraph.created st)
  = [Some 1; Some 2; Some 3; Some 4]
  /\ SharedInputTrainer.constructions (TrainerGraph.static st) = [7].
Proof. split; reflexivity. Qed.

(** The [create] calls taken by themselves: when every call passes the
    same feature transformer, the referrer count is the number of
    calls. *)
Lemma create_same_feature_transformer {F Example Message : Type}
    (ft : Z) (paths : nat) :
  Z.of_nat (S paths) < 2 ^ 32 ->
  SharedInputTrainer.instance
    (SharedInputTrainer.create_all (replicate (S paths) ft)
       (SharedInputTrainer.no_instance (F:=F) (Example:=Example)
          (Message:=Message)))
  = Some (SharedInputTrainer.with_referrers (Z.of_nat (S paths))
            (SharedInputTrainer.construct ft)).
Proof.
  intros Hfit. change (replicate (S paths) ft) with (ft :: replicate paths ft).
  rewrite create_all_first. simpl. rewrite length_replicate.
  rewrite wrap32_small by lia. reflexivity.
Qed.

(** ** The shared input trainer: back-propagation *)

Lemma fold_left_over_map {A B C} (f : C -> B) (body : B -> A -> A)
    (l : list C) (a : A) :
  fold_left (fun a c => body (f c) a) l a
  = fold_left (fun a b => body b a) (map f l) a.
Proof. revert a. induction l as [|c l IH]; intros a; simpl; [reflexivity | apply IH]. Qed.

Lemma fold_left_ext {A B} (f f' : A -> B -> A) (l : list B) (a : A) :
  (forall a b, f a b = f' a b) -> fold_left f l a = fold_left f' l a.
Proof.
  intros Hf. revert a. induction l as [|b l IH]; intros a; simpl;
    [reflexivity | rewrite Hf; apply IH].
Qed.

Section CellLoops.
Context {F : Type} (kInputDimensions : Z).

Local Abbreviation for_each_cell :=
  (SharedInputTrainer.for_each_cell kInputDimensions).

(** Without overflow of the index type, the nested loops visit the cells
    0, 1, ..., kInputDimensions * batch_size - 1 in this order. *)
Lemma for_each_cell_flat (batch_size : Z) (body : Z -> list F -> list F)
    (g : list F) :
  0 <= kInputDimensions -> 0 <= batch_size ->
  kInputDimensions * batch_size < 2 ^ 32 ->
  for_each_cell batch_size body g
  = fold_left (fun g index => body index g)
      (seqZ 0 (kInputDimensions * batch_size)) g.
Proof.
  intros Hk HB. rewrite <- (Z2Nat.id batch_size HB).
  generalize (Z.to_nat batch_size) as m. clear batch_size HB.
  unfold SharedInputTrainer.for_each_cell, indices.
  induction m as [|m IH]; intros Hlt.
  - rewrite Z.mul_0_r. reflexivity.
  - rewrite seqZ_S, fold_left_app, IH by nia. simpl. rewrite Z.add_0_l.
    replace (kInputDimensions * Z.of_nat (S m))
      with (kInputDimensions * Z.of_nat m + kInputDimensions) by lia.
    rewrite seqZ_app, fold_left_app, Z.add_0_l by nia.
    rewrite (fold_left_over_map
               (fun i => wrap32 (wrap32 (kInputDimensions * Z.of_nat m) + i))
               body).
    replace (map (fun i => wrap32 (wrap32 (kInputDimensions * Z.of_nat m) + i))
               (seqZ 0 kInputDimensions))
      with (seqZ (kInputDimensions * Z.of_nat m) kInputDimensions);
      [reflexivity|].
    rewrite <- (Z.add_0_r (kInputDimensions * Z.of_nat m)) at 1.
    rewrite <- fmap_add_seqZ.
    apply map_ext_in. intros i Hi.
    apply list_elem_of_In, elem_of_seqZ in Hi.
    rewrite (wrap32_small (kInputDimensions * Z.of_nat m)) by nia.
    symmetry. apply wrap32_small. nia.
Qed.

Lemma for_each_cell_length (batch_size : Z) (body : Z -> list F -> list F)
    (g : list F) :
  (forall index g, length (body index g) = length g) ->
  length (for_each_cell batch_size body g) = length g.
Proof.
  intros Hbody. unfold SharedInputTrainer.for_each_cell.
  generalize (indices batch_size) as bs. intros bs. revert g.
  induction bs as [|b bs IH]; intros g; simpl; [reflexivity|].
  rewrite IH. generalize (indices kInputDimensions) as ds. intros ds.
  revert g. induction ds as [|d ds IHd]; intros g; simpl; [reflexivity|].
  rewrite IHd. apply Hbody.
Qed.

(** A loop that alters the cells 0 .. n-1 one after the other, seen cell
    by cell. *)
Lemma alter_loop_lookup (h : nat -> F -> F) (n : nat) (g : list F) (k : nat) :
  fold_left (fun g index => alter (h (Z.to_nat index)) (Z.to_nat index) g)
    (seqZ 0 (Z.of_nat n)) g !! k
  = if decide (k < n)%nat then h k <$> g !! k else g !! k.
Proof.
  induction n as [|n IH].
  - rewrite seqZ_nil by lia. simpl. reflexivity.
  - rewrite seqZ_S, fold_left_app. simpl.
    replace (Z.to_nat (0 + Z.of_nat n)) with n by lia.
    rewrite list_lookup_alter.
    destruct (decide (n = k)) as [<-|Hne].
    + rewrite IH. repeat case_decide; try lia. reflexivity.
    + rewrite IH. repeat case_decide; try lia; reflexivity.
Qed.

(** The nested loops with a body that alters its cell, seen cell by cell. *)
Lemma for_each_cell_alter_lookup (batch_size : Z) (h : nat -> F -> F)
    (body : Z -> list F -> list F) (g : list F) (k : nat) :
  0 <= kInputDimensions -> 0 <= batch_size ->
  kInputDimensions * batch_size < 2 ^ 32 ->
  (forall index g, body index g = alter (h (Z.to_nat index)) (Z.to_nat index) g) ->
  for_each_cell batch_size body g !! k
  = if decide (k < Z.to_nat (kInputDimensions * batch_size))%nat
    then h k <$> g !! k else g !! k.
Proof.
  intros Hdim Hbatch Hfit Hbody.
  rewrite for_each_cell_flat by assumption.
  rewrite <- (Z2Nat.id (kInputDimensions * batch_size)) at 1 by nia.
  rewrite (fold_left_ext _ _ _ _ (fun g index => Hbody index g)).
  apply alter_loop_lookup.
Qed.
End CellLoops.

Lemma clear_cell_alter {F} (fzero : F) (index : Z) (g : list F) :
  SharedInputTrainer.clear_cell fzero index g
  = alter (fun _ => fzero) (Z.to_nat index) g.
Proof. apply list_insert_alter. Qed.

Lemma add_cell_alter {F} (fadd : F -> F -> F) (gradients : list F)
    (index : Z) (g : list F) :
  SharedInputTrainer.add_cell fadd gradients index g
  = alter (fun x => from_option (fadd x) x (gradients !! Z.to_nat index))
      (Z.to_nat index) g.
Proof.
  unfold SharedInputTrainer.add_cell.
  destruct (g !! Z.to_nat index) as [x|] eqn:Hx.
  - destruct (gradients !! Z.to_nat index) as [y|] eqn:Hy; simpl.
    + apply list_eq. intros j. rewrite list_lookup_insert, list_lookup_alter.
      pose proof (lookup_lt_Some _ _ _ Hx) as Hlt.
      destruct (decide (Z.to_nat index = j)) as [<-|Hne].
      * rewrite decide_True by auto. rewrite Hx. reflexivity.
      * rewrite decide_False by tauto. reflexivity.
    + symmetry. apply list_alter_id. reflexivity.
  - apply list_eq. intros j. rewrite list_lookup_alter.
    destruct (decide (Z.to_nat index = j)) as [<-|Hne]; [|reflexivity].
    rewrite Hx. reflexivity.
Qed.

(** Clearing: the first [kInputDimensions * batch_size] entries become
    zero, the length stays. *)
Lemma clear_cells_take {F} (fzero : F) (kInputDimensions batch_size : Z)
    (g : list F) :
  0 <= kInputDimensions -> 0 <= batch_size ->
  kInputDimensions * batch_size < 2 ^ 32 ->
  (Z.to_nat (kInputDimensions * batch_size) <= length g)%nat ->
  take (Z.to_nat (kInputDimensions * batch_size))
    (SharedInputTrainer.for_each_cell kInputDimensions batch_size
       (SharedInputTrainer.clear_cell fzero) g)
  = replicate (Z.to_nat (kInputDimensions * batch_size)) fzero.
Proof.
  intros Hdim Hbatch Hfit Hlen. apply list_eq. intros k.
  rewrite lookup_take.
  rewrite (for_each_cell_alter_lookup _ _ (fun _ _ => fzero))
    by (try assumption; intros; apply clear_cell_alter).
  destruct (decide (k < Z.to_nat (kInputDimensions * batch_size))%nat)
    as [Hk|Hk].
  - rewrite lookup_replicate_2 by exact Hk.
    destruct (lookup_lt_is_Some_2 g k ltac:(lia)) as [x ->]. reflexivity.
  - symmetry. apply lookup_replicate_None. lia.
Qed.

(** Accumulating: the first [kInputDimensions * batch_size] entries
    receive the entries of the referrer's array. *)
Lemma add_cells_take {F} (fadd : F -> F -> F) (kInputDimensions batch_size : Z)
    (gradients g : list F) :
  0 <= kInputDimensions -> 0 <= batch_size ->
  kInputDimensions * batch_size < 2 ^ 32 ->
  (Z.to_nat (kInputDimensions * batch_size) <= length g)%nat ->
  (Z.to_nat (kInputDimensions * batch_size) <= length gradients)%nat ->
  take (Z.to_nat (kInputDimensions * batch_size))
    (SharedInputTrainer.for_each_cell kInputDimensions batch_size
       (SharedInputTrainer.add_cell fadd gradients) g)
  = zip_with fadd (take (Z.to_nat (kInputDimensions * batch_size)) g)
      (take (Z.to_nat (kInputDimensions * batch_size)) gradients).
Proof.
  intros Hdim Hbatch Hfit Hlen Hgr. apply list_eq. intros k.
  rewrite lookup_take.
  rewrite (for_each_cell_alter_lookup _ _
             (fun k x => from_option (fadd x) x (gradients !! k)))
    by (try assumption; intros; apply add_cell_alter).
  rewrite lookup_zip_with, !lookup_take.
  destruct (decide (k < Z.to_nat (kInputDimensions * batch_size))%nat)
    as [Hk|Hk]; [|reflexivity].
  destruct (lookup_lt_is_Some_2 g k ltac:(lia)) as [x ->].
  destruct (lookup_lt_is_Some_2 gradients k ltac:(lia)) as [y ->].
  reflexivity.
Qed.

Lemma clear_cells_length {F} (fzero : F) (kInputDimensions batch_size : Z)
    (g : list F) :
  length (SharedInputTrainer.for_each_cell kInputDimensions batch_size
            (SharedInputTrainer.clear_cell fzero) g) = length g.
Proof.
  apply for_each_cell_length. intros index g'.
  rewrite clear_cell_alter. apply length_alter.
Qed.

Lemma add_cells_length {F} (fadd : F -> F -> F) (kInputDimensions batch_size : Z)
    (gradients g : list F) :
  length (SharedInputTrainer.for_each_cell kInputDimensions batch_size
            (SharedInputTrainer.add_cell fadd gradients) g) = length g.
Proof.
  apply for_each_cell_length. intros index g'.
  rewrite add_cell_alter. apply length_alter.
Qed.

Section SharedBackpropagate.
Context {F Example Message : Type}.
Local Arguments Z.eqb : simpl never.
Local Arguments wrap32 : simpl never.
Variable fzero : F.
Variable fadd : F -> F -> F.
Variable kInputDimensions : Z.

Local Abbreviation T := (SharedInputTrainer.t F Example Message).
Local Abbreviation backpropagate :=
  (SharedInputTrainer.backpropagate fzero fadd (Example:=Example)
     (Message:=Message) kInputDimensions).
Local Abbreviation backpropagate_all :=
  (SharedInputTrainer.backpropagate_all fzero fadd (Example:=Example)
     (Message:=Message) kInputDimensions).
Local Abbreviation gradient_sum := (SharedInputTrainer.gradient_sum fzero fadd).

Lemma backpropagate_all_app (l1 l2 : list (list F * F)) (s : T) :
  backpropagate_all (l1 ++ l2) s
  = match backpropagate_all l1 s with
    | Some s' => backpropagate_all l2 s'
    | None => None
    end.
Proof using Type.
  revert s. induction l1 as [|[g lr] l1 IH]; intros s; simpl; [reflexivity|].
  destruct (backpropagate g lr s); [apply IH | reflexivity].
Qed.

Lemma gradient_sum_snoc (n : nat) (gs : list (list F)) (g : list F) :
  gradient_sum n (gs ++ [g]) = zip_with fadd (gradient_sum n gs) (take n g).
Proof using Type.
  unfold SharedInputTrainer.gradient_sum. rewrite fold_left_app. reflexivity.
Qed.

Section Round.
Variable s0 : T.
Hypothesis Hdim : 0 <= kInputDimensions.
Hypothesis Hbatch : 0 <= SharedInputTrainer.batch_size_ s0.
Hypothesis Hfit : kInputDimensions * SharedInputTrainer.batch_size_ s0 < 2 ^ 32.

Local Abbreviation cells :=
  (Z.to_nat (kInputDimensions * SharedInputTrainer.batch_size_ s0)).

Hypothesis Hbuffer : (cells <= length (SharedInputTrainer.gradients_ s0))%nat.
Hypothesis Hcalls : SharedInputTrainer.num_calls_ s0 = 0.
Hypothesis Hmany : 2 <= SharedInputTrainer.num_referrers_ s0 < 2 ^ 32.

(** The first referrer of a round: the buffer is cleared and receives the
    referrer's array. *)
Lemma backpropagate_first (g : list F) (lr : F) :
  (cells <= length g)%nat ->
  exists s1, backpropagate g lr s0 = Some s1
             /\ accumulating fzero fadd s0 cells 1 [g] s1.
Proof using Hdim Hbatch Hfit Hbuffer Hcalls Hmany.
  intros Hg. unfold SharedInputTrainer.backpropagate.
  destruct (Z.eqb_spec (SharedInputTrainer.num_referrers_ s0) 1); [lia|].
  rewrite Hcalls. simpl.
  destruct (Z.eqb_spec (wrap32 (0 + 1)) (SharedInputTrainer.num_referrers_ s0))
    as [Heq|_].
  { rewrite wrap32_small in Heq by lia. lia. }
  eexists. split; [reflexivity|].
  unfold accumulating. simpl.
  split; [apply wrap32_small; lia|]. repeat split.
  - rewrite add_cells_length, clear_cells_length. reflexivity.
  - rewrite add_cells_take; try assumption;
      [|rewrite clear_cells_length; assumption].
    rewrite clear_cells_take by assumption. reflexivity.
Qed.

(** A referrer that is not the last one of the round. *)
Lemma backpropagate_middle (j : Z) (gs : list (list F)) (sj : T)
    (g : list F) (lr : F) :
  accumulating fzero fadd s0 cells j gs sj ->
  1 <= j -> j + 1 < SharedInputTrainer.num_referrers_ s0 ->
  (cells <= length g)%nat ->
  exists s', backpropagate g lr sj = Some s'
             /\ accumulating fzero fadd s0 cells (j + 1) (gs ++ [g]) s'.
Proof using Hdim Hbatch Hfit Hbuffer Hmany.
  intros (Hj & Hop & Hb & Hn & Hft & Hlen & Hsum) Hj1 HjN Hg.
  unfold SharedInputTrainer.backpropagate. rewrite Hn.
  destruct (Z.eqb_spec (SharedInputTrainer.num_referrers_ s0) 1); [lia|].
  rewrite Hj. destruct (Z.eqb_spec j 0); [lia|].
  rewrite Hop. simpl. rewrite Hn, Hj, Hb.
  destruct (Z.eqb_spec (wrap32 (j + 1)) (SharedInputTrainer.num_referrers_ s0))
    as [Heq|_].
  { rewrite wrap32_small in Heq by lia. lia. }
  eexists. split; [reflexivity|].
  unfold accumulating. simpl.
  split; [apply wrap32_small; lia|]. split; [exact Hop|].
  split; [exact Hb|]. split; [exact Hn|]. split; [exact Hft|]. split.
  - rewrite add_cells_length. exact Hlen.
  - rewrite add_cells_take by (try assumption; lia).
    rewrite Hsum, gradient_sum_snoc. reflexivity.
Qed.

(** The last referrer of the round: the sum goes to the underlying
    trainer and the state machine returns to idle. *)
Lemma backpropagate_last (j : Z) (gs : list (list F)) (sj : T)
    (g : list F) (lr : F) :
  accumulating fzero fadd s0 cells j gs sj ->
  1 <= j -> j + 1 = SharedInputTrainer.num_referrers_ s0 ->
  (cells <= length g)%nat ->
  exists s' G,
    backpropagate g lr sj = Some s'
    /\ SharedInputTrainer.ft_calls s'
       = SharedInputTrainer.ft_calls s0
         ++ [SharedInputTrainer.ft_backpropagate G lr]
    /\ take cells G = gradient_sum cells (gs ++ [g])
    /\ SharedInputTrainer.num_calls_ s' = 0
    /\ SharedInputTrainer.current_operation_ s' = SharedInputTrainer.kNone.
Proof using Hdim Hbatch Hfit Hbuffer Hmany.
  intros (Hj & Hop & Hb & Hn & Hft & Hlen & Hsum) Hj1 HjN Hg.
  unfold SharedInputTrainer.backpropagate. rewrite Hn.
  destruct (Z.eqb_spec (SharedInputTrainer.num_referrers_ s0) 1); [lia|].
  rewrite Hj. destruct (Z.eqb_spec j 0); [lia|].
  rewrite Hop. simpl. rewrite Hn, Hj, Hb.
  destruct (Z.eqb_spec (wrap32 (j + 1)) (SharedInputTrainer.num_referrers_ s0))
    as [_|Hne].
  2:{ rewrite wrap32_small in Hne by lia. lia. }
  eexists. eexists. split; [reflexivity|]. simpl.
  split; [rewrite Hft; reflexivity|]. split; [|split; reflexivity].
  rewrite add_cells_take by (try assumption; lia).
  rewrite Hsum, gradient_sum_snoc. reflexivity.
Qed.

(** Before the last referrer has called, the round is accumulating. *)
Lemma round_prefix (calls : list (list F * F)) :
  Z.of_nat (length calls) = SharedInputTrainer.num_referrers_ s0 ->
  Forall (fun c => (cells <= length (fst c))%nat) calls ->
  forall k : nat, (1 <= k < length calls)%nat ->
    exists sk,
      backpropagate_all (take k calls) s0 = Some sk
      /\ accumulating fzero fadd s0 cells (Z.of_nat k)
           (map fst (take k calls)) sk.
Proof using Hdim Hbatch Hfit Hbuffer Hcalls Hmany.
  intros HN Hall k. induction k as [|k IH]; intros Hk; [lia|].
  destruct (lookup_lt_is_Some_2 calls k ltac:(lia)) as [[g lr] Hc].
  assert (Hg : (cells <= length g)%nat).
  { rewrite Forall_lookup in Hall. apply (Hall k (g, lr) Hc). }
  rewrite (take_S_r _ _ _ Hc), backpropagate_all_app.
  destruct k as [|k].
  - simpl. destruct (backpropagate_first g lr Hg) as (s1 & -> & Hacc).
    exists s1. split; [reflexivity | exact Hacc].
  - destruct (IH ltac:(lia)) as (sk & -> & Hacc). simpl.
    destruct (backpropagate_middle _ _ _ g lr Hacc ltac:(lia) ltac:(lia) Hg)
      as (s' & -> & Hacc').
    exists s'. split; [reflexivity|]. rewrite List.map_app.
    replace (Z.of_nat (S (S k))) with (Z.of_nat (S k) + 1) by lia.
    exact Hacc'.
Qed.
End Round.

(** C1. A shared input trainer with N >= 1 registered referrers, idle at
    the start of the round, whose buffer holds the mini-batch (as
    [propagate] leaves it): when the N referrers call [backpropagate] once
    each, every call succeeds; the underlying feature-transformer trainer
    receives no call before the last of them, and on the last one it
    receives exactly one [backpropagate] call, with the learning rate of
    that call and the sum of the referrers' arrays; afterwards the call
    counter is 0 and the operation is [kNone].  The sum is the one the code
    computes, whatever the addition of [LearnFloatType] is: with a single
    referrer its array is passed on as it is, with several referrers the
    first [kInputDimensions * batch_size] entries are accumulated from
    zero in the order of the calls. *)
Theorem shared_backpropagate_once_per_batch :
  forall (s0 : T) (calls : list (list F * F)),
    0 <= kInputDimensions ->
    0 <= SharedInputTrainer.batch_size_ s0 ->
    kInputDimensions * SharedInputTrainer.batch_size_ s0 < 2 ^ 32 ->
    (Z.to_nat (kInputDimensions * SharedInputTrainer.batch_size_ s0)
     <= length (SharedInputTrainer.gradients_ s0))%nat ->
    SharedInputTrainer.num_calls_ s0 = 0 ->
    SharedInputTrainer.current_operation_ s0 = SharedInputTrainer.kNone ->
    1 <= SharedInputTrainer.num_referrers_ s0 < 2 ^ 32 ->
    Z.of_nat (length calls) = SharedInputTrainer.num_referrers_ s0 ->
    Forall (fun c =>
              (Z.to_nat (kInputDimensions * SharedInputTrainer.batch_size_ s0)
               <= length (fst c))%nat) calls ->
    (forall k : nat, (k < length calls)%nat ->
       exists sk,
         backpropagate_all (take k calls) s0 = Some sk
         /\ SharedInputTrainer.ft_calls sk = SharedInputTrainer.ft_calls s0)
    /\ exists s' G last_gradients last_learning_rate,
         backpropagate_all calls s0 = Some s'
         /\ last calls = Some (last_gradients, last_learning_rate)
         /\ SharedInputTrainer.ft_calls s'
            = SharedInputTrainer.ft_calls s0
              ++ [SharedInputTrainer.ft_backpropagate G last_learning_rate]
         /\ (SharedInputTrainer.num_referrers_ s0 = 1 -> G = last_gradients)
         /\ (2 <= SharedInputTrainer.num_referrers_ s0 ->
             take (Z.to_nat (kInputDimensions
                             * SharedInputTrainer.batch_size_ s0)) G
             = gradient_sum
                 (Z.to_nat (kInputDimensions
                            * SharedInputTrainer.batch_size_ s0))
                 (map fst calls))
         /\ SharedInputTrainer.num_calls_ s' = 0
         /\ SharedInputTrainer.current_operation_ s' = SharedInputTrainer.kNone.
Proof using Type.
  intros s0 calls Hdim Hbatch Hfit Hbuffer Hcalls Hidle HN Hlen Hall.
  destruct (Z.eq_dec (SharedInputTrainer.num_referrers_ s0) 1) as [Hone|Hmore].
  - (* a single referrer: the call is passed on as it is *)
    destruct calls as [|[g lr] [|c calls]]; simpl in Hlen; try lia.
    split.
    + intros k Hk. simpl in Hk. assert (k = 0%nat) as -> by lia.
      exists s0. split; reflexivity.
    + exists (SharedInputTrainer.with_call
                (SharedInputTrainer.ft_backpropagate g lr) s0), g, g, lr.
      simpl. unfold SharedInputTrainer.backpropagate.
      destruct (Z.eqb_spec (SharedInputTrainer.num_referrers_ s0) 1); [|lia].
      split; [reflexivity|]. split; [reflexivity|]. split; [reflexivity|].
      split; [reflexivity|]. split; [lia|]. split; assumption.
  - (* several referrers *)
    assert (Hmany : 2 <= SharedInputTrainer.num_referrers_ s0 < 2 ^ 32) by lia.
    pose proof (round_prefix s0 Hdim Hbatch Hfit Hbuffer Hcalls Hmany calls
                  Hlen Hall) as Hprefix.
    split.
    + intros k Hk. destruct k as [|k].
      * exists s0. split; reflexivity.
      * destruct (Hprefix (S k) ltac:(lia)) as (sk & Hrun & Hacc).
        exists sk. split; [exact Hrun|]. apply Hacc.
    + destruct (Hprefix (length calls - 1)%nat ltac:(lia)) as (sk & Hrun & Hacc).
      destruct (lookup_lt_is_Some_2 calls (length calls - 1)%nat ltac:(lia))
        as [[g lr] Hc].
      assert (Hg : (Z.to_nat (kInputDimensions * SharedInputTrainer.batch_size_ s0)
                    <= length g)%nat).
      { rewrite Forall_lookup in Hall. apply (Hall _ (g, lr) Hc). }
      destruct (backpropagate_last s0 Hdim Hbatch Hfit Hbuffer Hmany
                  _ _ _ g lr Hacc ltac:(lia) ltac:(lia) Hg)
        as (s' & G & Hlast & Hft & Hsum & Hcnt & Hop).
      assert (Hsplit : calls = take (length calls - 1) calls ++ [(g, lr)]).
      { rewrite <- (take_drop (length calls - 1) calls) at 1. f_equal.
        apply list_eq. intros i. rewrite lookup_drop.
        destruct i as [|i]; simpl.
        - rewrite Nat.add_0_r. exact Hc.
        - apply lookup_ge_None_2. lia. }
      exists s', G, g, lr.
      split.
      { rewrite Hsplit, backpropagate_all_app, Hrun. simpl. rewrite Hlast.
        reflexivity. }
      split.
      { rewrite Hsplit. apply last_snoc. }
      split; [exact Hft|]. split; [intros H1; lia|].
      split; [|split; assumption].
      intros _. rewrite Hsum. f_equal.
      transitivity (map fst (take (length calls - 1) calls ++ [(g, lr)]));
        [rewrite List.map_app; reflexivity | rewrite <- Hsplit; reflexivity].
Qed.
End SharedBackpropagate.

Lemma shared_backpropagate_once_per_batch_witness :
  exists s' G,
    SharedInputTrainer.backpropagate_all 0%float PrimFloat.add 2 float_calls
      float_trainer = Some s'
    /\ SharedInputTrainer.ft_calls s'
       = [SharedInputTrainer.ft_backpropagate G 0.5%float]
    /\ take 4 G
       = SharedInputTrainer.gradient_sum 0%float PrimFloat.add 4
           (map fst float_calls)
    /\ SharedInputTrainer.num_calls_ s' = 0
    /\ SharedInputTrainer.current_operation_ s' = SharedInputTrainer.kNone.
Proof.
  destruct (shared_backpropagate_once_per_batch 0%float PrimFloat.add 2
              float_trainer float_calls)
    as [_ (s' & G & lg & lr & Hrun & Hlast & Hft & _ & Hsum & Hcnt & Hop)].
  - lia.
  - simpl. lia.
  - simpl. lia.
  - simpl. lia.
  - reflexivity.
  - reflexivity.
  - simpl. lia.
  - reflexivity.
  - repeat apply Forall_cons_2; try apply Forall_nil_2; simpl; lia.
  - simpl in Hlast. injection Hlast as <- <-.
    exists s', G. split; [exact Hrun|]. split; [exact Hft|].
    split; [apply Hsum; simpl; lia|]. split; [exact Hcnt | exact Hop].
Defined.

(** The round of [float_trainer] evaluated in binary64 arithmetic: the
    third call hands the sums to the underlying trainer; the second entry,
    which is -0 in every array, has become +0 because the accumulation
    starts from +0. *)
Example shared_backpropagate_float_round :
  option_map SharedInputTrainer.ft_calls
    (SharedInputTrainer.backpropagate_all 0%float PrimFloat.add 2 float_calls
       float_trainer)
  = Some [SharedInputTrainer.ft_backpropagate
            [111; 0; 333; 444; 9]%float 0.5%float].
Proof. vm_compute. reflexivity. Qed.

(** A single referrer: its array reaches the underlying trainer as it is,
    the -0 included, and beyond the batch. *)
Example shared_backpropagate_single_referrer :
  option_map SharedInputTrainer.ft_calls
    (SharedInputTrainer.backpropagate_all 0%float PrimFloat.add 2
       [([1; PrimFloat.neg_zero; 3; 4; 5]%float, 0.5%float)]
       (SharedInputTrainer.with_referrers 1 float_trainer))
  = Some [SharedInputTrainer.ft_backpropagate
            [1; PrimFloat.neg_zero; 3; 4; 5]%float 0.5%float].
Proof. vm_compute. reflexivity. Qed.

(** The same round evaluated: the first two calls leave the underlying
    trainer alone, the third hands it the sums; the entry of the buffer
    beyond the batch is untouched. *)
Example shared_backpropagate_round :
  option_map SharedInputTrainer.ft_calls
    (SharedInputTrainer.backpropagate_all 0 Z.add 2 (take 2 sample_calls)
       sample_trainer) = Some []
  /\ option_map SharedInputTrainer.ft_calls
       (SharedInputTrainer.backpropagate_all 0 Z.add 2 sample_calls
          sample_trainer)
     = Some [SharedInputTrainer.ft_backpropagate [111; 222; 333; 444; 9] 10].
Proof. split; vm_compute; reflexivity. Qed.

(** [propagate] leaves the batch size and a buffer that holds the batch,
    which is what a back-propagation round starts from. *)
Lemma propagate_prepares_buffer {F Example Message : Type} (fzero : F)
    (kInputDimensions : Z) (batch : list Example)
    (s s' : SharedInputTrainer.t F Example Message) :
  SharedInputTrainer.propagate fzero kInputDimensions batch s = Some s' ->
  SharedInputTrainer.batch_size_ s' = wrap32 (Z.of_nat (length batch))
  /\ wrap64 (kInputDimensions * Z.of_nat (length batch))
     <= Z.of_nat (length (SharedInputTrainer.gradients_ s')).
Proof.
  unfold SharedInputTrainer.propagate, SharedInputTrainer.count_call.
  set (needed := wrap64 (kInputDimensions * Z.of_nat (length batch))).
  assert (Hlen :
    needed <= Z.of_nat (length
      (if Z.of_nat (length (SharedInputTrainer.gradients_ s)) <? needed
       then resize (Z.to_nat needed) fzero (SharedInputTrainer.gradients_ s)
       else SharedInputTrainer.gradients_ s))).
  { destruct (Z.ltb_spec (Z.of_nat (length (SharedInputTrainer.gradients_ s)))
                needed); [rewrite length_resize; lia | lia]. }
  intros H.
  repeat match type of H with
         | context [if ?b then _ else _] => destruct b; simpl in H
         end; try discriminate; injection H as <-; simpl; split;
    (reflexivity || exact Hlen).
Qed.


(* ===================================================================== *)
(** * Further properties of the code *)
(* ===================================================================== *)

(** ** misc.h *)

Lemma split_word (a : Z) :
  0 <= a < 2 ^ 64 ->
  a = 2 ^ 32 * (a / 2 ^ 32) + a mod 2 ^ 32 /\
  0 <= a mod 2 ^ 32 < 2 ^ 32 /\ 0 <= a / 2 ^ 32 < 2 ^ 32.
Proof.
  intros Ha. split; [apply Z.div_mod; lia|]. split.
  - apply Z.mod_pos_bound. lia.
  - split; [apply Z.div_pos; lia|]. apply Z.div_lt_upper_bound; lia.
Qed.

Lemma div_mod_bounds (c : Z) :
  0 <= c < 2 ^ 64 ->
  c = 2 ^ 32 * (c / 2 ^ 32) + c mod 2 ^ 32 /\
  0 <= c mod 2 ^ 32 < 2 ^ 32 /\ 0 <= c / 2 ^ 32 < 2 ^ 32.
Proof. apply split_word. Qed.

(** X1. [mul_hi64] returns the high 64 bits of the 128-bit product of its
    two 64-bit arguments: the portable branch, which works on 32-bit
    halves in 64-bit arithmetic, never overflows and agrees with the
    128-bit branch. *)
Theorem mul_hi64_is_high_word (a b : Z) :
  0 <= a < 2 ^ 64 -> 0 <= b < 2 ^ 64 ->
  Misc.mul_hi64 a b = a * b / 2 ^ 64 /\
  Misc.mul_hi64_int128 a b = Misc.mul_hi64 a b /\
  0 <= Misc.mul_hi64 a b < 2 ^ 64.
Proof.
  intros Ha Hb.
  assert (Hhi : Misc.mul_hi64 a b = a * b / 2 ^ 64).
  { unfold Misc.mul_hi64, wrap32, wrap64.
    rewrite !Z.shiftr_div_pow2 by lia.
    destruct (split_word a Ha) as (Ea & HaL & HaH).
    destruct (split_word b Hb) as (Eb & HbL & HbH).
    set (aL := a mod 2 ^ 32) in *. set (aH := a / 2 ^ 32) in *.
    set (bL := b mod 2 ^ 32) in *. set (bH := b / 2 ^ 32) in *.
    assert (HB : 2 ^ 64 = 2 ^ 32 * 2 ^ 32) by reflexivity.
    assert (H32 : 2 ^ 32 = 4294967296) by reflexivity.
    rewrite (Z.mod_small (aL * bL)) by nia.
    assert (Hc1 : 0 <= aL * bL / 2 ^ 32 < 2 ^ 32).
    { split; [apply Z.div_pos; nia|]. apply Z.div_lt_upper_bound; nia. }
    pose proof (Z.div_mod (aL * bL) (2 ^ 32) ltac:(lia)) as E1.
    pose proof (Z.mod_pos_bound (aL * bL) (2 ^ 32) ltac:(lia)) as R1.
    set (c1 := aL * bL / 2 ^ 32) in *. set (r0 := (aL * bL) mod 2 ^ 32) in *.
    rewrite (Z.mod_small (aH * bL)) by nia.
    rewrite (Z.mod_small (aH * bL + c1)) by nia.
    assert (Hc2 : 0 <= aH * bL + c1 < 2 ^ 64) by nia.
    destruct (div_mod_bounds _ Hc2) as (E2 & R2 & Q2).
    set (q2 := (aH * bL + c1) / 2 ^ 32) in *.
    set (r2 := (aH * bL + c1) mod 2 ^ 32) in *.
    rewrite (Z.mod_small (aL * bH)) by nia.
    rewrite (Z.mod_small (aL * bH + r2)) by nia.
    assert (Hc3 : 0 <= aL * bH + r2 < 2 ^ 64) by nia.
    destruct (div_mod_bounds _ Hc3) as (E3 & R3 & Q3).
    set (q3 := (aL * bH + r2) / 2 ^ 32) in *.
    set (r3 := (aL * bH + r2) mod 2 ^ 32) in *.
    assert (Eprod : a * b = (aH * bH + q2 + q3) * 2 ^ 64 + (r3 * 2 ^ 32 + r0)).
    { rewrite Ea, Eb, HB. nia. }
    assert (Hrem : 0 <= r3 * 2 ^ 32 + r0 < 2 ^ 64) by nia.
    assert (Hq : a * b / 2 ^ 64 = aH * bH + q2 + q3).
    { symmetry. apply (Z.div_unique_pos _ _ _ (r3 * 2 ^ 32 + r0)); lia. }
    assert (Hqb : 0 <= aH * bH + q2 + q3 < 2 ^ 64).
    { rewrite <- Hq. split; [apply Z.div_pos; nia|].
      apply Z.div_lt_upper_bound; nia. }
    rewrite (Z.mod_small (aH * bH)) by nia.
    rewrite (Z.mod_small (aH * bH + q2)) by nia.
    rewrite (Z.mod_small (aH * bH + q2 + q3)) by lia.
    lia. }
  split; [exact Hhi|]. split.
  - rewrite Hhi. unfold Misc.mul_hi64_int128.
    rewrite Z.shiftr_div_pow2 by lia. rewrite Z.mod_small; [reflexivity|].
    change (2 ^ 128) with (2 ^ 64 * 2 ^ 64). nia.
  - rewrite Hhi. split; [apply Z.div_pos; nia|].
    apply Z.div_lt_upper_bound; nia.
Qed.

Lemma mul_hi64_is_high_word_witness :
  Misc.mul_hi64 (2 ^ 64 - 1) (2 ^ 64 - 1) = (2 ^ 64 - 1) * (2 ^ 64 - 1) / 2 ^ 64 /\
  Misc.mul_hi64_int128 (2 ^ 64 - 1) (2 ^ 64 - 1) = Misc.mul_hi64 (2 ^ 64 - 1) (2 ^ 64 - 1) /\
  0 <= Misc.mul_hi64 (2 ^ 64 - 1) (2 ^ 64 - 1) < 2 ^ 64.
Proof. apply (mul_hi64_is_high_word (2 ^ 64 - 1) (2 ^ 64 - 1)); lia. Defined.

(** X2. [align_ptr_up] returns the smallest multiple of [Alignment] that
    is not below the address: it never moves the pointer down and moves
    it up by less than [Alignment], so a buffer with [Alignment] spare
    bytes (as the comment in the source asks) still holds the array. *)
Theorem align_ptr_up_smallest_aligned (Alignment ptrint : Z) :
  0 < Alignment -> 0 <= ptrint -> ptrint + (Alignment - 1) < 2 ^ 64 ->
  let p := Misc.align_ptr_up Alignment ptrint in
  p mod Alignment = 0 /\ ptrint <= p < ptrint + Alignment /\
  (forall q, ptrint <= q -> q mod Alignment = 0 -> p <= q) /\
  (ptrint mod Alignment = 0 -> p = ptrint).
Proof.
  intros HA Hp Hfit. cbn zeta. unfold Misc.align_ptr_up, wrap64.
  rewrite (Z.mod_small (ptrint + (Alignment - 1))) by lia.
  pose proof (Z.div_mod (ptrint + (Alignment - 1)) Alignment ltac:(lia)) as E.
  pose proof (Z.mod_pos_bound (ptrint + (Alignment - 1)) Alignment HA) as R.
  set (k := (ptrint + (Alignment - 1)) / Alignment) in *.
  assert (Hk : 0 <= k) by (apply Z.div_pos; lia).
  rewrite (Z.mod_small (k * Alignment)) by nia.
  split; [apply Z.mod_mul; lia|]. split; [nia|]. split.
  - intros q Hq Hm.
    apply Z.mod_divide in Hm; [|lia]. destruct Hm as [j Hj]. subst q.
    assert (k <= j); [|nia].
    destruct (Z_lt_le_dec j k) as [Hlt|]; [|assumption]. exfalso. nia.
  - intros Hm. apply Z.mod_divide in Hm; [|lia]. destruct Hm as [j Hj].
    subst ptrint. assert (Hkj : k = j); [|rewrite Hkj; reflexivity].
    destruct (Z_lt_le_dec j k); destruct (Z_lt_le_dec k j); nia.
Qed.

Lemma align_ptr_up_smallest_aligned_witness :
  let p := Misc.align_ptr_up 64 1000 in
  p mod 64 = 0 /\ 1000 <= p < 1000 + 64 /\
  (forall q, 1000 <= q -> q mod 64 = 0 -> p <= q) /\
  (1000 mod 64 = 0 -> p = 1000).
Proof. apply (align_ptr_up_smallest_aligned 64 1000); lia. Defined.


Lemma last_index_spec (c : Ascii.ascii) (s : list Ascii.ascii) :
  match Path.last_index c s with
  | Some i => (i < length s)%nat /\ s !! i = Some c /\ c ∉ drop (S i) s
  | None => c ∉ s
  end.
Proof.
  induction s as [|x t IH]; simpl.
  - apply not_elem_of_nil.
  - destruct (Path.last_index c t) as [i|].
    + destruct IH as (Hlt & Hat & Hno). repeat split; [lia | exact Hat | exact Hno].
    + destruct (Ascii.eqb_spec x c) as [->|Hne].
      * repeat split; [simpl; lia | exact IH].
      * apply not_elem_of_cons. split; [congruence | exact IH].
Qed.

Lemma last_index_absent (c : Ascii.ascii) (s : list Ascii.ascii) :
  c ∉ s -> Path.last_index c s = None.
Proof.
  intros Hno. pose proof (last_index_spec c s) as H.
  destruct (Path.last_index c s) as [i|]; [|reflexivity].
  destruct H as (_ & Hat & _). exfalso. apply Hno.
  eapply list_elem_of_lookup_2, Hat.
Qed.

Lemma last_index_app (c : Ascii.ascii) (l1 l2 : list Ascii.ascii) :
  c ∉ l2 -> Path.last_index c (l1 ++ l2) = Path.last_index c l1.
Proof.
  intros Hno. induction l1 as [|x l1 IH]; simpl.
  - apply last_index_absent, Hno.
  - rewrite IH. reflexivity.
Qed.

Lemma last_index_app_cons (c : Ascii.ascii) (l1 l2 : list Ascii.ascii) :
  c ∉ l2 -> Path.last_index c (l1 ++ c :: l2) = Some (length l1).
Proof.
  intros Hno. induction l1 as [|x l1 IH]; simpl.
  - rewrite (last_index_absent c l2 Hno), Ascii.eqb_refl. reflexivity.
  - rewrite IH. reflexivity.
Qed.

(** The index after the last occurrence of [c], as [get_file_name]
    computes it: [npos + 1] wraps around to 0. *)
Lemma find_last_of_next (c : Ascii.ascii) (path : list Ascii.ascii) :
  Z.of_nat (length path) < 2 ^ 64 ->
  wrap64 (Path.find_last_of c path + 1) =
  match Path.last_index c path with
  | Some i => Z.of_nat (S i)
  | None => 0
  end.
Proof.
  intros Hlen. unfold Path.find_last_of.
  pose proof (last_index_spec c path) as H.
  destruct (Path.last_index c path) as [i|].
  - destruct H as (Hlt & _). unfold wrap64. rewrite Z.mod_small; lia.
  - reflexivity.
Qed.

Lemma get_file_name_after_separator
  (sep other : Ascii.ascii) (pre name : list Ascii.ascii) :
  sep ∉ name -> other ∉ name -> other <> sep ->
  Z.of_nat (length (pre ++ sep :: name)) < 2 ^ 64 ->
  Z.max (wrap64 (Path.find_last_of sep (pre ++ sep :: name) + 1))
        (wrap64 (Path.find_last_of other (pre ++ sep :: name) + 1)) =
  Z.of_nat (S (length pre)).
Proof.
  intros Hsep Hother Hne Hlen.
  rewrite !find_last_of_next by exact Hlen.
  rewrite last_index_app_cons by exact Hsep.
  rewrite (last_index_app other pre (sep :: name)).
  2:{ apply not_elem_of_cons. split; assumption. }
  pose proof (last_index_spec other pre) as H.
  destruct (Path.last_index other pre) as [i|]; [destruct H as (Hlt & _)|]; lia.
Qed.

Lemma substr_after_separator (sep : Ascii.ascii) (pre name : list Ascii.ascii) :
  Path.substr (pre ++ sep :: name) (Z.of_nat (S (length pre))) = Some name.
Proof.
  unfold Path.substr. rewrite length_app. simpl length.
  destruct (Z.gtb_spec (Z.of_nat (S (length pre)))
              (Z.of_nat (length pre + S (length name)))) as [Hgt|_]; [lia|].
  rewrite Nat2Z.id. f_equal.
  change (pre ++ sep :: name) with (pre ++ [sep] ++ name).
  rewrite app_assoc. apply drop_app_length'. rewrite length_app. simpl. lia.
Qed.

Lemma separators_differ : Path.backslash <> Path.slash.
Proof. discriminate. Qed.

(** X3. Round trip of the file-name helpers: for a file name without
    [/] and [\], [get_file_name (combine folder filename)] is the file
    name again, whatever the folder is (empty, ending in a separator or
    not). *)
Theorem get_file_name_combine (folder filename : list Ascii.ascii) :
  Path.slash ∉ filename -> Path.backslash ∉ filename ->
  Z.of_nat (length folder + length filename) + 1 < 2 ^ 64 ->
  Path.get_file_name (Path.combine folder filename) = Some filename.
Proof.
  intros Hs Hb Hlen. unfold Path.get_file_name, Path.combine.
  destruct folder as [|c pre _] using rev_ind.
  - simpl last. simpl app.
    change (length [] + length filename)%nat with (length filename) in Hlen.
    rewrite !find_last_of_next by lia.
    rewrite !last_index_absent by assumption.
    change (Z.max 0 0) with 0. unfold Path.substr.
    destruct (Z.gtb_spec 0 (Z.of_nat (length filename))); [lia|reflexivity].
  - rewrite last_snoc. rewrite length_app in Hlen.
    change (length [c]) with 1%nat in Hlen.
    destruct (Ascii.eqb_spec c Path.slash) as [->|Hns]; cbn [negb andb].
    + rewrite <- app_assoc. simpl app.
      rewrite Z.max_comm.
      rewrite (get_file_name_after_separator Path.slash Path.backslash);
        try assumption; [apply substr_after_separator | apply separators_differ |].
      rewrite length_app. simpl. lia.
    + destruct (Ascii.eqb_spec c Path.backslash) as [->|Hnb]; cbn [negb andb].
      * rewrite <- app_assoc. simpl app.
        rewrite (get_file_name_after_separator Path.backslash Path.slash);
          try assumption; [apply substr_after_separator | |].
        -- intros E. symmetry in E. exact (separators_differ E).
        -- rewrite length_app. simpl. lia.
      * change ((pre ++ [c]) ++ [Path.slash] ++ filename)
          with ((pre ++ [c]) ++ Path.slash :: filename).
        rewrite Z.max_comm.
        rewrite (get_file_name_after_separator Path.slash Path.backslash);
          try assumption; [apply substr_after_separator | apply separators_differ |].
        rewrite !length_app. simpl. lia.
Qed.

Lemma get_file_name_combine_witness :
  Path.get_file_name
    (Path.combine [Ascii.ascii_of_nat 101; Ascii.ascii_of_nat 118]
                  [Ascii.ascii_of_nat 110; Ascii.ascii_of_nat 110]) =
  Some [Ascii.ascii_of_nat 110; Ascii.ascii_of_nat 110].
Proof.
  apply get_file_name_combine.
  - intros H. apply list_elem_of_In in H. simpl in H.
    destruct H as [H|[H|[]]]; discriminate H.
  - intros H. apply list_elem_of_In in H. simpl in H.
    destruct H as [H|[H|[]]]; discriminate H.
  - simpl. lia.
Defined.

(** X4. [get_file_name] never throws: the index it passes to [substr] is
    at most the length of the path (a missing separator gives [npos],
    which [+ 1] wraps to 0), and the name returned is the part of the path
    after its last separator: a suffix of the path with no [/] and no [\]
    in it, preceded by a separator unless it is the whole path. *)
Theorem get_file_name_is_last_component (path : list Ascii.ascii) :
  Z.of_nat (length path) < 2 ^ 64 ->
  exists dir name,
    Path.get_file_name path = Some name /\ path = dir ++ name /\
    (Path.slash ∉ name) /\ (Path.backslash ∉ name) /\
    (dir = [] \/ last dir = Some Path.slash \/ last dir = Some Path.backslash).
Proof.
  intros Hlen. unfold Path.get_file_name.
  rewrite !find_last_of_next by exact Hlen.
  pose proof (last_index_spec Path.backslash path) as H1.
  pose proof (last_index_spec Path.slash path) as H2.
  set (i1 := match Path.last_index Path.backslash path with
             | Some i => Z.of_nat (S i) | None => 0 end) in *.
  set (i2 := match Path.last_index Path.slash path with
             | Some i => Z.of_nat (S i) | None => 0 end) in *.
  assert (Hno : forall (c : Ascii.ascii) (n : nat),
             match Path.last_index c path with
             | Some i => (i < length path)%nat /\ path !! i = Some c /\
                         c ∉ drop (S i) path
             | None => c ∉ path end ->
             (match Path.last_index c path with
              | Some i => Z.of_nat (S i) | None => 0 end <= Z.of_nat n) ->
             c ∉ drop n path).
  { intros c n Hc Hle. destruct (Path.last_index c path) as [i|].
    - destruct Hc as (_ & _ & Hd). intros Hin. apply Hd.
      replace n with (S i + (n - S i))%nat in Hin by lia.
      rewrite <- drop_drop in Hin. eapply subseteq_drop, Hin.
    - intros Hin. apply Hc. eapply subseteq_drop, Hin. }
  assert (Hb1 : 0 <= i1 <= Z.of_nat (length path)).
  { subst i1. destruct (Path.last_index Path.backslash path); lia. }
  assert (Hb2 : 0 <= i2 <= Z.of_nat (length path)).
  { subst i2. destruct (Path.last_index Path.slash path); lia. }
  exists (take (Z.to_nat (Z.max i1 i2)) path), (drop (Z.to_nat (Z.max i1 i2)) path).
  split; [|split; [|split; [|split]]].
  - unfold Path.substr.
    destruct (Z.gtb_spec (Z.max i1 i2) (Z.of_nat (length path))); [lia|reflexivity].
  - symmetry. apply take_drop.
  - apply Hno; [exact H2|]. fold i2. lia.
  - apply Hno; [exact H1|]. fold i1. lia.
  - destruct (Z.max_spec i1 i2) as [[Hlt ->]|[Hle ->]].
    + subst i2. destruct (Path.last_index Path.slash path) as [i|].
      * right. left. destruct H2 as (Hi & Hat & _). rewrite Nat2Z.id.
        rewrite (take_S_r _ _ _ Hat). apply last_snoc.
      * left. reflexivity.
    + subst i1. destruct (Path.last_index Path.backslash path) as [i|].
      * right. right. destruct H1 as (Hi & Hat & _). rewrite Nat2Z.id.
        rewrite (take_S_r _ _ _ Hat). apply last_snoc.
      * left. reflexivity.
Qed.

Lemma get_file_name_is_last_component_witness :
  exists dir name,
    Path.get_file_name [Ascii.ascii_of_nat 97; Path.slash; Ascii.ascii_of_nat 98]
      = Some name /\
    [Ascii.ascii_of_nat 97; Path.slash; Ascii.ascii_of_nat 98] = dir ++ name /\
    (Path.slash ∉ name) /\ (Path.backslash ∉ name) /\
    (dir = [] \/ last dir = Some Path.slash \/ last dir = Some Path.backslash).
Proof.
  apply (get_file_name_is_last_component
           [Ascii.ascii_of_nat 97; Path.slash; Ascii.ascii_of_nat 98]).
  simpl. lia.
Defined.


(** ** feature_set.h: trigger set, index ranges, hash value *)

Lemma trigger_eqb_eq (a b : TriggerEvent) : trigger_eqb a b = true <-> a = b.
Proof. destruct a, b; simpl; split; intros H; congruence. Qed.

Lemma contains_elem (l : list TriggerEvent) (v : TriggerEvent) :
  CompileTimeList.contains trigger_eqb l v = true <-> v ∈ l.
Proof.
  induction l as [|x l IH]; simpl.
  - split; [discriminate | intros H; inversion H].
  - rewrite orb_true_iff, trigger_eqb_eq, IH, elem_of_cons. reflexivity.
Qed.

Lemma InsertToSet_elem (ltb : TriggerEvent -> TriggerEvent -> bool)
    (l : list TriggerEvent) (v x : TriggerEvent) :
  x ∈ CompileTimeList.InsertToSet trigger_eqb ltb l v <-> x = v \/ x ∈ l.
Proof.
  induction l as [|y l IH].
  - simpl. rewrite list_elem_of_singleton. split; [tauto|].
    intros [H|H]; [exact H | inversion H].
  - cbn [CompileTimeList.InsertToSet].
    destruct (CompileTimeList.contains trigger_eqb (y :: l) v) eqn:Hc.
    + apply contains_elem in Hc. split; [tauto|]. intros [->|H]; assumption.
    + destruct (ltb v y).
      * rewrite elem_of_cons. reflexivity.
      * unfold CompileTimeList.AppendToList.
        rewrite !elem_of_cons, IH. tauto.
Qed.

Lemma SortedTriggerSet_elem (value : TriggerEvent -> Z) (fs : FeatureSet.t)
    (x : TriggerEvent) :
  x ∈ SortedTriggerSet value fs <->
  exists f, f ∈ FeatureSet.members fs /\ Feature.kRefreshTrigger f = x.
Proof.
  induction fs as [f|h tl IH]; simpl.
  - rewrite list_elem_of_singleton. split.
    + intros ->. exists f. split; [apply list_elem_of_here | reflexivity].
    + intros (g & Hg & <-). apply list_elem_of_singleton in Hg. subst g.
      reflexivity.
  - rewrite InsertToSet_elem, IH. split.
    + intros [->|(f & Hf & <-)].
      * exists h. split; [apply list_elem_of_here | reflexivity].
      * exists f. split; [apply list_elem_of_further, Hf | reflexivity].
    + intros (f & Hf & <-). apply elem_of_cons in Hf as [->|Hf].
      * left. reflexivity.
      * right. exists f. split; [exact Hf | reflexivity].
Qed.

Lemma InsertToSet_sorted (value : TriggerEvent -> Z)
    (l : list TriggerEvent) (v : TriggerEvent) :
  (forall a b, value a = value b -> a = b) ->
  Sorted.StronglySorted (fun a b => value a < value b) l ->
  Sorted.StronglySorted (fun a b => value a < value b)
    (CompileTimeList.InsertToSet trigger_eqb
       (fun a b => value a <? value b) l v).
Proof.
  intros Hinj. induction 1 as [|y l Hs IH Hall].
  - simpl. constructor; constructor.
  - cbn [CompileTimeList.InsertToSet].
    destruct (CompileTimeList.contains trigger_eqb (y :: l) v) eqn:Hc.
    + constructor; assumption.
    + destruct (Z.ltb_spec (value v) (value y)) as [Hlt|Hge].
      * constructor; [constructor; assumption|].
        constructor; [exact Hlt|].
        eapply Forall_impl; [exact Hall|]. simpl. intros z Hz. lia.
      * unfold CompileTimeList.AppendToList. constructor; [exact IH|].
        apply Forall_forall. intros z Hz.
        apply InsertToSet_elem in Hz as [->|Hz].
        -- assert (Hne : value v <> value y).
           { intros E. apply Hinj in E. subst v.
             assert (Hin : y ∈ y :: l) by apply list_elem_of_here.
             apply contains_elem in Hin. congruence. }
           lia.
        -- rewrite Forall_forall in Hall. apply Hall, Hz.
Qed.

(** X5. [kRefreshTriggers] of a feature set is what its name says: it
    holds exactly the refresh triggers of the member features, each one
    once, in strictly ascending order of the enumerators' values. *)
Theorem SortedTriggerSet_sorted_unique (value : TriggerEvent -> Z)
    (fs : FeatureSet.t) :
  (forall a b, value a = value b -> a = b) ->
  Sorted.StronglySorted (fun a b => value a < value b)
    (SortedTriggerSet value fs) /\
  NoDup (SortedTriggerSet value fs) /\
  (forall x, x ∈ SortedTriggerSet value fs <->
             exists f, f ∈ FeatureSet.members fs /\
                       Feature.kRefreshTrigger f = x).
Proof.
  intros Hinj.
  assert (Hs : Sorted.StronglySorted (fun a b => value a < value b)
                 (SortedTriggerSet value fs)).
  { induction fs as [f|h tl IH]; simpl.
    - constructor; constructor.
    - apply InsertToSet_sorted; assumption. }
  split; [exact Hs|]. split; [|apply SortedTriggerSet_elem].
  induction Hs as [|y l Hs IH Hall]; constructor; [|exact IH].
  intros Hin. rewrite Forall_forall in Hall. specialize (Hall _ Hin). lia.
Qed.

Lemma SortedTriggerSet_sorted_unique_witness :
  Sorted.StronglySorted (fun a b => trigger_value a < trigger_value b)
    (SortedTriggerSet trigger_value king_and_castling) /\
  NoDup (SortedTriggerSet trigger_value king_and_castling) /\
  (forall x, x ∈ SortedTriggerSet trigger_value king_and_castling <->
             exists f, f ∈ FeatureSet.members king_and_castling /\
                       Feature.kRefreshTrigger f = x).
Proof.
  apply (SortedTriggerSet_sorted_unique trigger_value king_and_castling).
  intros [] []; simpl; intros H; try reflexivity; discriminate H.
Defined.


Lemma members_triggers_differ (value : TriggerEvent -> Z) (fs : FeatureSet.t)
    (trigger : TriggerEvent) :
  trigger ∉ SortedTriggerSet value fs ->
  forall f, f ∈ FeatureSet.members fs ->
            trigger_eqb (Feature.kRefreshTrigger f) trigger = false.
Proof.
  intros Hno f Hf.
  destruct (trigger_eqb (Feature.kRefreshTrigger f) trigger) eqn:E;
    [|reflexivity].
  apply trigger_eqb_eq in E. exfalso. apply Hno.
  apply SortedTriggerSet_elem. exists f. split; assumption.
Qed.

(** X6. [kRefreshTriggers] is complete for the collectors: for a trigger
    that is not in the set, a feature set appends no active index and no
    changed index, whatever the position; iterating over
    [kRefreshTriggers] therefore misses no index. *)
Theorem collect_nothing_for_unused_trigger (value : TriggerEvent -> Z)
    (fs : FeatureSet.t) (pos : Position) (trigger : TriggerEvent)
    (perspective : Color) (active removed added : IndexList) :
  trigger ∉ SortedTriggerSet value fs ->
  FeatureSet.collect_active_indices fs pos trigger perspective active = active /\
  FeatureSet.collect_changed_indices fs pos trigger perspective removed added
  = (removed, added).
Proof.
  intros Hno. pose proof (members_triggers_differ value fs trigger Hno) as Hm.
  clear Hno. revert active removed added.
  induction fs as [f|h tl IH]; intros active removed added; simpl in *.
  - rewrite (Hm f) by apply list_elem_of_here. split; reflexivity.
  - assert (Htl : forall f, f ∈ FeatureSet.members tl ->
                   trigger_eqb (Feature.kRefreshTrigger f) trigger = false).
    { intros f Hf. apply Hm, list_elem_of_further, Hf. }
    destruct (IH Htl active removed added) as [Ha Hc].
    rewrite Ha, Hc, (Hm h) by apply list_elem_of_here. split; reflexivity.
Qed.

Lemma collect_nothing_for_unused_trigger_witness :
  FeatureSet.collect_active_indices king_and_castling rights_lost
    kAnyPieceMoved WHITE [3] = [3] /\
  FeatureSet.collect_changed_indices king_and_castling rights_lost
    kAnyPieceMoved WHITE [1] [2] = ([1], [2]).
Proof.
  apply (collect_nothing_for_unused_trigger trigger_value).
  intros H. apply list_elem_of_In in H. simpl in H.
  destruct H as [H|[H|[]]]; discriminate H.
Defined.

Lemma FeatureSet_kDimensions_sum (fs : FeatureSet.t) :
  Forall Feature.in_range (FeatureSet.members fs) ->
  sumZ (map Feature.kDimensions (FeatureSet.members fs)) < 2 ^ 32 ->
  FeatureSet.kDimensions fs
  = sumZ (map Feature.kDimensions (FeatureSet.members fs)).
Proof.
  intros Hr Hd. rewrite FeatureSet_kDimensions_mod by exact Hr.
  apply wrap32_small. destruct (in_range_sums_nonneg _ Hr). lia.
Qed.

Lemma offset_from_app (l new : IndexList) (d : Z) :
  FeatureSet.offset_from (length l) d (l ++ new)
  = l ++ map (fun x => wrap32 (x + d)) new.
Proof.
  unfold FeatureSet.offset_from.
  rewrite take_app_length, drop_app_length. reflexivity.
Qed.

Lemma shifted_in_range (new : IndexList) (dh dt : Z) :
  0 <= dt -> dh + dt < 2 ^ 32 ->
  Forall (fun x => 0 <= x < dh) new ->
  Forall (fun x => dt <= x < dh + dt) (map (fun x => wrap32 (x + dt)) new).
Proof.
  intros Hdt Hsum Hnew. apply Forall_map.
  eapply Forall_impl; [exact Hnew|]. simpl. intros x Hx.
  rewrite wrap32_small by lia. lia.
Qed.

Lemma collect_active_in_range (fs : FeatureSet.t) (pos : Position)
    (trigger : TriggerEvent) (perspective : Color) (active : IndexList) :
  Forall Feature.in_range (FeatureSet.members fs) ->
  Forall appends_in_range (FeatureSet.members fs) ->
  sumZ (map Feature.kDimensions (FeatureSet.members fs)) < 2 ^ 32 ->
  exists new,
    FeatureSet.collect_active_indices fs pos trigger perspective active
    = active ++ new /\
    Forall (fun x => 0 <= x < FeatureSet.kDimensions fs) new.
Proof.
  revert active. induction fs as [f|h tl IH]; intros active Hr Ha Hsum.
  - simpl. destruct (trigger_eqb (Feature.kRefreshTrigger f) trigger).
    + apply Forall_inv in Ha. destruct Ha as [Hact _].
      apply (Hact pos perspective active).
    + exists []. rewrite app_nil_r. split; [reflexivity | constructor].
  - simpl in Hr, Ha, Hsum.
    pose proof (Forall_inv Hr) as [Hdh _].
    pose proof (Forall_inv_tail Hr) as Hrt.
    pose proof (Forall_inv Ha) as [Hact _].
    pose proof (Forall_inv_tail Ha) as Hat.
    destruct (in_range_sums_nonneg _ Hrt) as [Hnn _].
    assert (Hkt : FeatureSet.kDimensions tl
                  = sumZ (map Feature.kDimensions (FeatureSet.members tl))).
    { apply FeatureSet_kDimensions_sum; [exact Hrt | lia]. }
    destruct (IH active Hrt Hat ltac:(lia)) as (new_tl & Etl & Htl).
    cbn [FeatureSet.collect_active_indices FeatureSet.kDimensions].
    rewrite Etl, wrap32_small by lia.
    destruct (trigger_eqb (Feature.kRefreshTrigger h) trigger).
    + destruct (Hact pos perspective (active ++ new_tl)) as (new_h & Eh & Hh).
      rewrite Eh, offset_from_app, <- app_assoc.
      eexists. split; [reflexivity|]. apply Forall_app. split.
      * eapply Forall_impl; [exact Htl|]. simpl. intros x Hx. lia.
      * eapply Forall_impl;
          [apply (shifted_in_range new_h (Feature.kDimensions h)); [lia | lia | exact Hh]|].
        simpl. intros x Hx. lia.
    + exists new_tl. split; [reflexivity|].
      eapply Forall_impl; [exact Htl|]. simpl. intros x Hx. lia.
Qed.

Lemma collect_changed_in_range (fs : FeatureSet.t) (pos : Position)
    (trigger : TriggerEvent) (perspective : Color) (removed added : IndexList) :
  Forall Feature.in_range (FeatureSet.members fs) ->
  Forall appends_in_range (FeatureSet.members fs) ->
  sumZ (map Feature.kDimensions (FeatureSet.members fs)) < 2 ^ 32 ->
  exists new_removed new_added,
    FeatureSet.collect_changed_indices fs pos trigger perspective removed added
    = (removed ++ new_removed, added ++ new_added) /\
    Forall (fun x => 0 <= x < FeatureSet.kDimensions fs) new_removed /\
    Forall (fun x => 0 <= x < FeatureSet.kDimensions fs) new_added.
Proof.
  revert removed added.
  induction fs as [f|h tl IH]; intros removed added Hr Ha Hsum.
  - simpl. destruct (trigger_eqb (Feature.kRefreshTrigger f) trigger).
    + apply Forall_inv in Ha. destruct Ha as [_ Hch].
      apply (Hch pos perspective removed added).
    + exists [], []. rewrite !app_nil_r.
      split; [reflexivity | split; constructor].
  - simpl in Hr, Ha, Hsum.
    pose proof (Forall_inv Hr) as [Hdh _].
    pose proof (Forall_inv_tail Hr) as Hrt.
    pose proof (Forall_inv Ha) as [_ Hch].
    pose proof (Forall_inv_tail Ha) as Hat.
    destruct (in_range_sums_nonneg _ Hrt) as [Hnn _].
    assert (Hkt : FeatureSet.kDimensions tl
                  = sumZ (map Feature.kDimensions (FeatureSet.members tl))).
    { apply FeatureSet_kDimensions_sum; [exact Hrt | lia]. }
    destruct (IH removed added Hrt Hat ltac:(lia))
      as (r_tl & a_tl & Etl & Hrtl & Hatl).
    cbn [FeatureSet.collect_changed_indices FeatureSet.kDimensions].
    rewrite Etl, wrap32_small by lia.
    destruct (trigger_eqb (Feature.kRefreshTrigger h) trigger).
    + destruct (Hch pos perspective (removed ++ r_tl) (added ++ a_tl))
        as (r_h & a_h & Eh & Hrh & Hah).
      rewrite Eh, !offset_from_app, <- !app_assoc.
      eexists _, _. split; [reflexivity|].
      split; apply Forall_app; split.
      * eapply Forall_impl; [exact Hrtl|]. simpl. intros x Hx. lia.
      * eapply Forall_impl;
          [apply (shifted_in_range r_h (Feature.kDimensions h)); [lia | lia | exact Hrh]|].
        simpl. intros x Hx. lia.
      * eapply Forall_impl; [exact Hatl|]. simpl. intros x Hx. lia.
      * eapply Forall_impl;
          [apply (shifted_in_range a_h (Feature.kDimensions h)); [lia | lia | exact Hah]|].
        simpl. intros x Hx. lia.
    + exists r_tl, a_tl. split; [reflexivity|].
      split; (eapply Forall_impl; [eassumption|]; simpl; intros x Hx; lia).
Qed.

(** X7. Composed indices stay inside the composed feature space: if every
    member extractor only appends indices below its own [kDimensions] and
    the dimensions add up within [IndexType], then a feature set leaves
    the entries already in the lists untouched and every index it appends,
    active, removed or added, lies in [0, kDimensions) of the set. *)
Theorem FeatureSet_indices_in_range (fs : FeatureSet.t) (pos : Position)
    (trigger : TriggerEvent) (perspective : Color)
    (active removed added : IndexList) :
  Forall Feature.in_range (FeatureSet.members fs) ->
  Forall appends_in_range (FeatureSet.members fs) ->
  sumZ (map Feature.kDimensions (FeatureSet.members fs)) < 2 ^ 32 ->
  (exists new,
     FeatureSet.collect_active_indices fs pos trigger perspective active
     = active ++ new /\
     Forall (fun x => 0 <= x < FeatureSet.kDimensions fs) new) /\
  (exists new_removed new_added,
     FeatureSet.collect_changed_indices fs pos trigger perspective removed added
     = (removed ++ new_removed, added ++ new_added) /\
     Forall (fun x => 0 <= x < FeatureSet.kDimensions fs) new_removed /\
     Forall (fun x => 0 <= x < FeatureSet.kDimensions fs) new_added).
Proof.
  intros Hr Ha Hsum. split.
  - apply collect_active_in_range; assumption.
  - apply collect_changed_in_range; assumption.
Qed.

Lemma king_feature_appends_in_range : appends_in_range king_feature.
Proof.
  split.
  - intros pos perspective active. exists [7].
    split; [reflexivity|]. apply Forall_cons_2; [simpl; lia | apply Forall_nil_2].
  - intros pos perspective removed added. exists [7], [7].
    split; [reflexivity|].
    split; (apply Forall_cons_2; [simpl; lia | apply Forall_nil_2]).
Qed.

Lemma king_feature_in_range : Feature.in_range king_feature.
Proof. unfold Feature.in_range. simpl. lia. Qed.

Lemma FeatureSet_indices_in_range_witness :
  (exists new,
     FeatureSet.collect_active_indices king_twice quiet_position
       kFriendKingMoved WHITE [1] = [1] ++ new /\
     Forall (fun x => 0 <= x < FeatureSet.kDimensions king_twice) new) /\
  (exists new_removed new_added,
     FeatureSet.collect_changed_indices king_twice quiet_position
       kFriendKingMoved WHITE [2] [3] = ([2] ++ new_removed, [3] ++ new_added) /\
     Forall (fun x => 0 <= x < FeatureSet.kDimensions king_twice) new_removed /\
     Forall (fun x => 0 <= x < FeatureSet.kDimensions king_twice) new_added).
Proof.
  apply (FeatureSet_indices_in_range king_twice).
  - repeat apply Forall_cons_2; try apply Forall_nil_2;
      apply king_feature_in_range.
  - repeat apply Forall_cons_2; try apply Forall_nil_2;
      apply king_feature_appends_in_range.
  - simpl. lia.
Defined.

(** X8. The members of a feature set own disjoint index ranges: in
    [FeatureSet<Head, Tail...>] the indices the tail appends lie in
    [0, Tail::kDimensions) and come first, and the indices of the head
    follow them, shifted into
    [Tail::kDimensions, Tail::kDimensions + Head::kDimensions). *)
Theorem FeatureSet_head_above_tail (h : Feature.t) (tl : FeatureSet.t)
    (pos : Position) (trigger : TriggerEvent) (perspective : Color)
    (active : IndexList) :
  Forall Feature.in_range (FeatureSet.members (FeatureSet.Cons h tl)) ->
  Forall appends_in_range (FeatureSet.members (FeatureSet.Cons h tl)) ->
  sumZ (map Feature.kDimensions (FeatureSet.members (FeatureSet.Cons h tl)))
    < 2 ^ 32 ->
  exists new_tail new_head,
    FeatureSet.collect_active_indices tl pos trigger perspective active
    = active ++ new_tail /\
    FeatureSet.collect_active_indices (FeatureSet.Cons h tl) pos trigger
      perspective active = active ++ new_tail ++ new_head /\
    Forall (fun x => 0 <= x < FeatureSet.kDimensions tl) new_tail /\
    Forall (fun x => FeatureSet.kDimensions tl <= x
                     < FeatureSet.kDimensions tl + Feature.kDimensions h)
           new_head /\
    (Feature.kRefreshTrigger h <> trigger -> new_head = []).
Proof.
  intros Hr Ha Hsum. simpl in Hr, Ha, Hsum.
  pose proof (Forall_inv Hr) as [Hdh _].
  pose proof (Forall_inv_tail Hr) as Hrt.
  pose proof (Forall_inv Ha) as [Hact _].
  pose proof (Forall_inv_tail Ha) as Hat.
  destruct (in_range_sums_nonneg _ Hrt) as [Hnn _].
  assert (Hkt : FeatureSet.kDimensions tl
                = sumZ (map Feature.kDimensions (FeatureSet.members tl))).
  { apply FeatureSet_kDimensions_sum; [exact Hrt | lia]. }
  destruct (collect_active_in_range tl pos trigger perspective active
              Hrt Hat ltac:(lia)) as (new_tl & Etl & Htl).
  cbn [FeatureSet.collect_active_indices]. rewrite Etl.
  destruct (trigger_eqb (Feature.kRefreshTrigger h) trigger) eqn:Etr.
  - destruct (Hact pos perspective (active ++ new_tl)) as (new_h & Eh & Hh).
    rewrite Eh, offset_from_app, <- app_assoc.
    eexists _, _. split; [reflexivity|]. split; [reflexivity|].
    split; [exact Htl|]. split.
    + eapply Forall_impl;
        [apply (shifted_in_range new_h (Feature.kDimensions h)); [lia | lia | exact Hh]|].
      simpl. intros x Hx. lia.
    + intros Hne. apply trigger_eqb_eq in Etr. contradiction.
  - exists new_tl, []. rewrite app_nil_r.
    split; [reflexivity|]. split; [reflexivity|].
    split; [exact Htl|]. split; [constructor | reflexivity].
Qed.

Lemma FeatureSet_head_above_tail_witness :
  exists new_tail new_head,
    FeatureSet.collect_active_indices (FeatureSet.Single king_feature)
      quiet_position kFriendKingMoved WHITE [1] = [1] ++ new_tail /\
    FeatureSet.collect_active_indices
      (FeatureSet.Cons king_feature (FeatureSet.Single king_feature))
      quiet_position kFriendKingMoved WHITE [1] = [1] ++ new_tail ++ new_head /\
    Forall (fun x => 0 <= x < FeatureSet.kDimensions (FeatureSet.Single king_feature))
           new_tail /\
    Forall (fun x => FeatureSet.kDimensions (FeatureSet.Single king_feature) <= x
                     < FeatureSet.kDimensions (FeatureSet.Single king_feature)
                       + Feature.kDimensions king_feature)
           new_head /\
    (Feature.kRefreshTrigger king_feature <> kFriendKingMoved -> new_head = []).
Proof.
  apply (FeatureSet_head_above_tail king_feature (FeatureSet.Single king_feature)).
  - repeat apply Forall_cons_2; try apply Forall_nil_2;
      apply king_feature_in_range.
  - repeat apply Forall_cons_2; try apply Forall_nil_2;
      apply king_feature_appends_in_range.
  - simpl. lia.
Defined.


(** ** castling_right.cpp: the indices are the bits of the rights *)

Lemma land_bit (r i : Z) :
  0 <= i -> (Z.land r (Z.shiftl 1 i) =? 0) = negb (Z.testbit r i).
Proof.
  intros Hi. rewrite Z.shiftl_1_l. destruct (Z.testbit r i) eqn:E; simpl.
  - apply Z.eqb_neq. intros H0.
    assert (H : Z.testbit (Z.land r (2 ^ i)) i = true).
    { rewrite Z.land_spec, E, Z.pow2_bits_true by lia. reflexivity. }
    rewrite H0, Z.bits_0 in H. discriminate H.
  - apply Z.eqb_eq. apply Z.bits_inj'. intros n Hn.
    rewrite Z.land_spec, Z.bits_0.
    destruct (Z.eq_dec n i) as [->|Hne].
    + rewrite E. reflexivity.
    + rewrite Z.pow2_bits_false by lia. apply andb_false_r.
Qed.

Lemma fold_left_push_back_filter (p : Z -> bool) (l : list Z) (a : IndexList) :
  fold_left (fun a i => if p i then push_back a i else a) l a
  = a ++ List.filter p l.
Proof.
  revert a. induction l as [|x l IH]; intros a; simpl.
  - rewrite app_nil_r. reflexivity.
  - rewrite IH. destruct (p x); [|reflexivity].
    unfold push_back. rewrite <- app_assoc. reflexivity.
Qed.

Lemma fold_left_ext_in {A B} (f f' : A -> B -> A) (l : list B) (a : A) :
  (forall a b, In b l -> f a b = f' a b) -> fold_left f l a = fold_left f' l a.
Proof.
  revert a. induction l as [|b l IH]; intros a H; simpl; [reflexivity|].
  rewrite H by (left; reflexivity). apply IH.
  intros a' b' Hb. apply H. right. exact Hb.
Qed.

Lemma castling_indices : indices CastlingRight.kDimensions = [0; 1; 2; 3].
Proof. reflexivity. Qed.

Lemma castling_active_bits (raw : Z) (pos : Position) (perspective : Color)
    (active : IndexList) :
  CastlingRight.kMaxActiveDimensions <= raw ->
  CastlingRight.append_active_indices raw pos perspective active
  = active ++ List.filter
                (Z.testbit (CastlingRight.relative perspective
                              (castlingRights (state pos))))
                [0; 1; 2; 3].
Proof.
  intros Hraw. unfold CastlingRight.append_active_indices.
  destruct (Z.ltb_spec raw CastlingRight.kMaxActiveDimensions); [lia|].
  rewrite castling_indices.
  rewrite <- fold_left_push_back_filter. apply fold_left_ext_in.
  intros a i Hi. rewrite land_bit, negb_involutive; [reflexivity|].
  simpl in Hi. lia.
Qed.

Lemma castling_removed_bits (pos : Position) (perspective : Color)
    (removed added : IndexList) :
  CastlingRight.append_changed_indices pos perspective removed added
  = (removed ++
       List.filter
         (fun i =>
            Z.testbit (CastlingRight.relative perspective
                         (castlingRights (state_previous pos))) i
            && negb (Z.testbit (CastlingRight.relative perspective
                                  (castlingRights (state pos))) i))
         [0; 1; 2; 3],
     added).
Proof.
  unfold CastlingRight.append_changed_indices. rewrite castling_indices.
  f_equal. rewrite <- fold_left_push_back_filter. apply fold_left_ext_in.
  intros a i Hi. rewrite !land_bit, negb_involutive; [reflexivity| |];
    simpl in Hi; lia.
Qed.

(** X9. From the perspective it serves, the castling-right feature reports
    exactly the set bits of the relative castling rights: the active
    indices appended are the bit positions 0..3 that are set, in ascending
    order, so at most [kMaxActiveDimensions] of them, each below
    [kDimensions]; the list passed in is kept in front.  In an
    architecture with fewer than 4 active dimensions the feature appends
    nothing. *)
Theorem CastlingRight_active_indices_are_set_bits :
  forall (raw : Z) (pos : Position) (perspective : Color) (active : IndexList),
  exists new,
    CastlingRight.append_active_indices raw pos perspective active
    = active ++ new /\
    new = (if raw <? CastlingRight.kMaxActiveDimensions then []
           else List.filter
                  (Z.testbit (CastlingRight.relative perspective
                                (castlingRights (state pos))))
                  [0; 1; 2; 3]) /\
    Z.of_nat (length new) <= CastlingRight.kMaxActiveDimensions /\
    Forall (fun x => 0 <= x < CastlingRight.kDimensions) new.
Proof.
  intros raw pos perspective active.
  destruct (Z.ltb_spec raw CastlingRight.kMaxActiveDimensions) as [Hlt|Hge].
  - exists []. unfold CastlingRight.append_active_indices.
    destruct (Z.ltb_spec raw CastlingRight.kMaxActiveDimensions); [|lia].
    rewrite app_nil_r. repeat split; [|constructor].
    unfold CastlingRight.kMaxActiveDimensions. simpl. lia.
  - eexists. split; [apply castling_active_bits; exact Hge|].
    split; [reflexivity|].
    set (r := CastlingRight.relative perspective (castlingRights (state pos))).
    unfold CastlingRight.kMaxActiveDimensions, CastlingRight.kDimensions.
    split.
    + cbn [List.filter].
      destruct (Z.testbit r 0), (Z.testbit r 1), (Z.testbit r 2),
        (Z.testbit r 3); cbn [length]; lia.
    + apply Forall_forall. intros x Hx. apply list_elem_of_In in Hx.
      apply filter_In in Hx as [Hx _]. simpl in Hx. lia.
Qed.

Ltac split_bit r i H :=
  destruct (Z.testbit r i); [rewrite H by reflexivity | clear H].

(** X10. Incremental and full computation agree for the castling-right
    feature: when no castling right is gained by the move (rights are
    only ever lost), the active indices of the position before the move,
    without the indices [append_changed_indices] reports as removed, are
    the active indices of the position after the move; nothing is ever
    reported as added.  This holds for both perspectives. *)
Theorem CastlingRight_incremental_matches_full (raw : Z) (pos : Position)
    (perspective : Color) :
  CastlingRight.kMaxActiveDimensions <= raw ->
  (forall i, 0 <= i < CastlingRight.kDimensions ->
             Z.testbit (castlingRights (state pos)) i = true ->
             Z.testbit (castlingRights (state_previous pos)) i = true) ->
  snd (CastlingRight.append_changed_indices pos perspective [] []) = [] /\
  without (fst (CastlingRight.append_changed_indices pos perspective [] []))
    (CastlingRight.append_active_indices raw (previous_position pos)
       perspective [])
  = CastlingRight.append_active_indices raw pos perspective [].
Proof.
  intros Hraw Hlost.
  rewrite castling_removed_bits, !castling_active_bits by exact Hraw.
  split; [reflexivity|]. cbn [fst state previous_position app].
  set (rp := CastlingRight.relative perspective
               (castlingRights (state_previous pos))).
  set (rc := CastlingRight.relative perspective (castlingRights (state pos))).
  assert (Hbits : forall i, In i [0; 1; 2; 3] ->
             Z.testbit rc i = true -> Z.testbit rp i = true).
  { intros i Hi. subst rp rc. destruct perspective.
    - apply Hlost. unfold CastlingRight.kDimensions. simpl in Hi. lia.
    - rewrite !relative_black_zero, Z.bits_0. discriminate. }
  pose proof (Hbits 0 ltac:(simpl; tauto)) as H0.
  pose proof (Hbits 1 ltac:(simpl; tauto)) as H1.
  pose proof (Hbits 2 ltac:(simpl; tauto)) as H2.
  pose proof (Hbits 3 ltac:(simpl; tauto)) as H3.
  clear Hbits. unfold without. cbn [List.filter].
  split_bit rc 0 H0; split_bit rc 1 H1; split_bit rc 2 H2; split_bit rc 3 H3;
  repeat match goal with
         | |- context [Z.testbit rp ?i] => destruct (Z.testbit rp i)
         end;
  reflexivity.
Qed.

Lemma CastlingRight_incremental_matches_full_witness :
  snd (CastlingRight.append_changed_indices rights_lost WHITE [] []) = [] /\
  without (fst (CastlingRight.append_changed_indices rights_lost WHITE [] []))
    (CastlingRight.append_active_indices 30 (previous_position rights_lost)
       WHITE [])
  = CastlingRight.append_active_indices 30 rights_lost WHITE [].
Proof.
  apply (CastlingRight_incremental_matches_full 30 rights_lost WHITE).
  - unfold CastlingRight.kMaxActiveDimensions. lia.
  - unfold CastlingRight.kDimensions. intros i Hi.
    assert (Hc : i = 0 \/ i = 1 \/ i = 2 \/ i = 3) by lia.
    destruct Hc as [-> | [-> | [-> | ->]]]; simpl; intros H;
      first [reflexivity | discriminate H].
Defined.


(** ** The shared input trainer: rounds of the other operations *)

Lemma operation_eqb_refl (o : SharedInputTrainer.Operation) :
  SharedInputTrainer.operation_eqb o o = true.
Proof. destruct o; reflexivity. Qed.

Lemma operation_eqb_eq (a b : SharedInputTrainer.Operation) :
  SharedInputTrainer.operation_eqb a b = true <-> a = b.
Proof. destruct a, b; simpl; split; intros H; congruence. Qed.

(** One call of a referrer when [j] calls of the round have been made. *)
Lemma shared_call_step {F Example Message : Type} (fzero : F)
    (kInputDimensions : Z) (c : SharedCall Example Message)
    (s : SharedInputTrainer.t F Example Message) (j : Z) :
  1 <= SharedInputTrainer.num_referrers_ s < 2 ^ 32 ->
  SharedInputTrainer.num_calls_ s = j ->
  0 <= j < SharedInputTrainer.num_referrers_ s ->
  (j = 0 \/ SharedInputTrainer.current_operation_ s = operation_of c) ->
  exists s',
    shared_call fzero kInputDimensions c s = Some s' /\
    SharedInputTrainer.num_referrers_ s' = SharedInputTrainer.num_referrers_ s /\
    SharedInputTrainer.ft_calls s'
    = (if j =? 0 then SharedInputTrainer.ft_calls s ++ [forwarded c]
       else SharedInputTrainer.ft_calls s) /\
    SharedInputTrainer.num_calls_ s'
    = (if j + 1 =? SharedInputTrainer.num_referrers_ s then 0 else j + 1) /\
    SharedInputTrainer.current_operation_ s'
    = (if j + 1 =? SharedInputTrainer.num_referrers_ s
       then SharedInputTrainer.kNone else operation_of c) /\
    SharedInputTrainer.output_ s'
    = (match c with
       | call_propagate _ =>
           if j =? 0 then Some (length (SharedInputTrainer.ft_calls s))
           else SharedInputTrainer.output_ s
       | _ => SharedInputTrainer.output_ s
       end).
Proof.
  intros HN Hj Hlt Hop.
  assert (Hw : wrap32 (j + 1) = j + 1) by (apply wrap32_small; lia).
  destruct c as [message| |batch];
    unfold shared_call, SharedInputTrainer.send_message,
      SharedInputTrainer.initialize, SharedInputTrainer.propagate,
      SharedInputTrainer.count_call;
    cbn [SharedInputTrainer.num_calls_ SharedInputTrainer.with_batch];
    rewrite Hj;
    (destruct (Z.eqb_spec j 0) as [Hz|Hnz];
     [ cbn; rewrite ?Hj, Hw;
       destruct (Z.eqb_spec (j + 1) (SharedInputTrainer.num_referrers_ s));
       eexists; (split; [reflexivity|]); cbn; repeat split
     | destruct Hop as [Hop|Hop]; [contradiction|];
       cbn; rewrite Hop; cbn; rewrite ?Hj, Hw;
       destruct (Z.eqb_spec (j + 1) (SharedInputTrainer.num_referrers_ s));
       eexists; (split; [reflexivity|]); cbn; repeat split ]).
Qed.

(** The state after [k] further calls of a round in which [j] calls have
    been made. *)
Lemma shared_round_from {F Example Message : Type} (fzero : F)
    (kInputDimensions : Z) (c : SharedCall Example Message) (k : nat) :
  forall (s : SharedInputTrainer.t F Example Message) (j : Z),
  1 <= SharedInputTrainer.num_referrers_ s < 2 ^ 32 ->
  SharedInputTrainer.num_calls_ s = j -> 0 <= j ->
  (1 <= k)%nat -> j + Z.of_nat k <= SharedInputTrainer.num_referrers_ s ->
  (j = 0 \/ SharedInputTrainer.current_operation_ s = operation_of c) ->
  exists s',
    repeat_call k (shared_call fzero kInputDimensions c) s = Some s' /\
    SharedInputTrainer.num_referrers_ s' = SharedInputTrainer.num_referrers_ s /\
    SharedInputTrainer.ft_calls s'
    = (if j =? 0 then SharedInputTrainer.ft_calls s ++ [forwarded c]
       else SharedInputTrainer.ft_calls s) /\
    SharedInputTrainer.num_calls_ s'
    = (if j + Z.of_nat k =? SharedInputTrainer.num_referrers_ s
       then 0 else j + Z.of_nat k) /\
    SharedInputTrainer.current_operation_ s'
    = (if j + Z.of_nat k =? SharedInputTrainer.num_referrers_ s
       then SharedInputTrainer.kNone else operation_of c) /\
    SharedInputTrainer.output_ s'
    = (match c with
       | call_propagate _ =>
           if j =? 0 then Some (length (SharedInputTrainer.ft_calls s))
           else SharedInputTrainer.output_ s
       | _ => SharedInputTrainer.output_ s
       end).
Proof.
  induction k as [|k IH]; intros s j HN Hj Hj0 Hk Hsum Hop; [lia|].
  destruct (shared_call_step fzero kInputDimensions c s j HN Hj ltac:(lia) Hop)
    as (s1 & E1 & HN1 & Hft1 & Hc1 & Ho1 & Hout1).
  cbn [repeat_call]. rewrite E1.
  destruct k as [|k'].
  - exists s1. cbn [repeat_call]. replace (j + Z.of_nat 1) with (j + 1) by lia.
    repeat split; assumption.
  - destruct (Z.eqb_spec (j + 1) (SharedInputTrainer.num_referrers_ s)); [lia|].
    destruct (IH s1 (j + 1)) as (s' & E & HN' & Hft' & Hc' & Ho' & Hout');
      try lia; try (rewrite HN1; lia); [right; exact Ho1|].
    exists s'. split; [exact E|]. rewrite HN1 in *.
    destruct (Z.eqb_spec (j + 1) 0); [lia|].
    replace (j + Z.of_nat (S (S k'))) with (j + 1 + Z.of_nat (S k')) by lia.
    split; [exact HN'|]. split; [rewrite Hft', Hft1; reflexivity|].
    split; [exact Hc'|]. split; [exact Ho'|].
    rewrite Hout'. destruct c; exact Hout1.
Qed.

(** X11. A round of [send_message], [initialize] or [propagate] on the
    shared input trainer: when the N referrers call the operation one
    after the other, every call passes its assertion, the underlying
    trainer is called exactly once, on the first call (for
    back-propagation it is the last), every referrer of a [propagate]
    round is handed the output of that one call, and after the N-th call
    the trainer is idle again. *)
Theorem shared_round_forwards_first_call {F Example Message : Type}
    (fzero : F) (kInputDimensions : Z) (c : SharedCall Example Message)
    (s : SharedInputTrainer.t F Example Message) (k : nat) :
  1 <= SharedInputTrainer.num_referrers_ s < 2 ^ 32 ->
  SharedInputTrainer.num_calls_ s = 0 ->
  (1 <= k)%nat -> Z.of_nat k <= SharedInputTrainer.num_referrers_ s ->
  exists s',
    repeat_call k (shared_call fzero kInputDimensions c) s = Some s' /\
    SharedInputTrainer.ft_calls s'
    = SharedInputTrainer.ft_calls s ++ [forwarded c] /\
    (forall batch, c = call_propagate batch ->
       SharedInputTrainer.output_ s'
       = Some (length (SharedInputTrainer.ft_calls s))) /\
    (Z.of_nat k < SharedInputTrainer.num_referrers_ s ->
       SharedInputTrainer.num_calls_ s' = Z.of_nat k /\
       SharedInputTrainer.current_operation_ s' = operation_of c) /\
    (Z.of_nat k = SharedInputTrainer.num_referrers_ s ->
       SharedInputTrainer.num_calls_ s' = 0 /\
       SharedInputTrainer.current_operation_ s' = SharedInputTrainer.kNone).
Proof.
  intros HN Hidle Hk HkN.
  destruct (shared_round_from fzero kInputDimensions c k s 0 HN Hidle
              ltac:(lia) Hk ltac:(lia) ltac:(left; reflexivity))
    as (s' & E & _ & Hft & Hc & Ho & Hout).
  exists s'. split; [exact E|]. split; [exact Hft|]. split; [|split].
  - intros batch ->. exact Hout.
  - intros Hlt. rewrite Hc, Ho.
    destruct (Z.eqb_spec (0 + Z.of_nat k) (SharedInputTrainer.num_referrers_ s));
      [lia|]. split; [lia | reflexivity].
  - intros Heq. rewrite Hc, Ho.
    destruct (Z.eqb_spec (0 + Z.of_nat k) (SharedInputTrainer.num_referrers_ s));
      [|lia]. split; reflexivity.
Qed.

Lemma shared_round_forwards_first_call_witness :
  exists s',
    repeat_call 3 (shared_call 0 2 sample_propagate) sample_trainer
      = Some s' /\
    SharedInputTrainer.ft_calls s'
    = SharedInputTrainer.ft_calls sample_trainer
      ++ [forwarded sample_propagate] /\
    (forall batch, sample_propagate = call_propagate batch ->
       SharedInputTrainer.output_ s'
       = Some (length (SharedInputTrainer.ft_calls sample_trainer))) /\
    (Z.of_nat 3 < SharedInputTrainer.num_referrers_ sample_trainer ->
       SharedInputTrainer.num_calls_ s' = Z.of_nat 3 /\
       SharedInputTrainer.current_operation_ s'
       = operation_of sample_propagate) /\
    (Z.of_nat 3 = SharedInputTrainer.num_referrers_ sample_trainer ->
       SharedInputTrainer.num_calls_ s' = 0 /\
       SharedInputTrainer.current_operation_ s' = SharedInputTrainer.kNone).
Proof.
  apply (shared_round_forwards_first_call 0 2 sample_propagate
           sample_trainer 3).
  - simpl. lia.
  - reflexivity.
  - lia.
  - simpl. lia.
Defined.

(** X12. The assertions of the shared input trainer enforce whole rounds:
    while a round of one operation is under way (some but not all of the
    N referrers have called), a call of any other of the operations
    [send_message], [initialize], [propagate] fails its assertion, and so
    does [backpropagate]. *)
Theorem shared_round_rejects_other_operation {F Example Message : Type}
    (fzero : F) (fadd : F -> F -> F) (kInputDimensions : Z)
    (c c' : SharedCall Example Message)
    (s : SharedInputTrainer.t F Example Message) (k : nat)
    (gradients : list F) (learning_rate : F) :
  1 <= SharedInputTrainer.num_referrers_ s < 2 ^ 32 ->
  SharedInputTrainer.num_calls_ s = 0 ->
  (1 <= k)%nat -> Z.of_nat k < SharedInputTrainer.num_referrers_ s ->
  operation_of c' <> operation_of c ->
  exists s',
    repeat_call k (shared_call fzero kInputDimensions c) s = Some s' /\
    shared_call fzero kInputDimensions c' s' = None /\
    SharedInputTrainer.backpropagate fzero fadd kInputDimensions
      gradients learning_rate s' = None.
Proof.
  intros HN Hidle Hk HkN Hdiff.
  destruct (shared_round_from fzero kInputDimensions c k s 0 HN Hidle
              ltac:(lia) Hk ltac:(lia) ltac:(left; reflexivity))
    as (s' & E & HN' & _ & Hc & Ho & _).
  destruct (Z.eqb_spec (0 + Z.of_nat k) (SharedInputTrainer.num_referrers_ s))
    as [|_]; [lia|].
  exists s'. split; [exact E|].
  assert (Hcalls : (SharedInputTrainer.num_calls_ s' =? 0) = false).
  { apply Z.eqb_neq. lia. }
  split.
  - destruct c'; unfold shared_call, SharedInputTrainer.send_message,
      SharedInputTrainer.initialize, SharedInputTrainer.propagate;
      cbn [SharedInputTrainer.num_calls_ SharedInputTrainer.with_batch
           SharedInputTrainer.current_operation_];
      rewrite Hcalls;
      cbn [SharedInputTrainer.current_operation_ SharedInputTrainer.with_batch];
      rewrite Ho;
      destruct c; simpl in *; congruence.
  - unfold SharedInputTrainer.backpropagate.
    destruct (Z.eqb_spec (SharedInputTrainer.num_referrers_ s') 1); [lia|].
    rewrite Hcalls. cbn [SharedInputTrainer.current_operation_]. rewrite Ho.
    destruct c; reflexivity.
Qed.

Lemma shared_round_rejects_other_operation_witness :
  exists s',
    repeat_call 2 (shared_call 0 2 sample_propagate) sample_trainer
      = Some s' /\
    shared_call 0 2 sample_message s' = None /\
    SharedInputTrainer.backpropagate 0 Z.add 2 [1; 2; 3; 4] 10 s' = None.
Proof.
  apply (shared_round_rejects_other_operation 0 Z.add 2
           sample_propagate sample_message sample_trainer 2).
  - simpl. lia.
  - reflexivity.
  - lia.
  - simpl. lia.
  - discriminate.
Defined.


(** ** The input-slice trainer *)

Lemma to_int_small (z : Z) : 0 <= z < 2 ^ 31 -> InputSliceTrainer.to_int z = z.
Proof.
  intros Hz. unfold InputSliceTrainer.to_int.
  rewrite Z.mod_small; lia.
Qed.

(** The nested loops visit the pairs (sample, dimension) in the order of
    the flat index [dims * b + i]. *)
Lemma for_each_sample_flat {F : Type} (batch_size dims : Z)
    (body : Z -> Z -> list F -> list F) (g : list F) :
  0 < dims -> 0 <= batch_size ->
  InputSliceTrainer.for_each_sample batch_size dims body g
  = fold_left (fun g k => body (k / dims) (k mod dims) g)
      (seqZ 0 (dims * batch_size)) g.
Proof.
  intros Hd HB. rewrite <- (Z2Nat.id batch_size HB).
  generalize (Z.to_nat batch_size) as m. clear batch_size HB.
  unfold InputSliceTrainer.for_each_sample, indices.
  induction m as [|m IH].
  - rewrite Z.mul_0_r. reflexivity.
  - rewrite seqZ_S, fold_left_app, IH. simpl. rewrite Z.add_0_l.
    replace (dims * Z.of_nat (S m)) with (dims * Z.of_nat m + dims) by lia.
    rewrite seqZ_app, fold_left_app, Z.add_0_l by nia.
    rewrite <- (Z.add_0_r (dims * Z.of_nat m)) at 2.
    rewrite <- fmap_add_seqZ.
    rewrite <- (fold_left_over_map (Z.add (dims * Z.of_nat m))
                  (fun k g => body (k / dims) (k mod dims) g)).
    apply fold_left_ext_in. intros a i Hi.
    apply list_elem_of_In, elem_of_seqZ in Hi.
    replace ((dims * Z.of_nat m + i) / dims) with (Z.of_nat m).
    2:{ apply (Z.div_unique_pos _ _ _ i); lia. }
    replace ((dims * Z.of_nat m + i) mod dims) with i.
    2:{ apply (Z.mod_unique_pos _ _ (Z.of_nat m)); lia. }
    reflexivity.
Qed.

Lemma for_each_sample_length {F : Type} (batch_size dims : Z)
    (body : Z -> Z -> list F -> list F) (g : list F) :
  (forall b i g, length (body b i g) = length g) ->
  length (InputSliceTrainer.for_each_sample batch_size dims body g) = length g.
Proof.
  intros Hbody. unfold InputSliceTrainer.for_each_sample.
  generalize (indices batch_size) as bs. intros bs. revert g.
  induction bs as [|b bs IH]; intros g; simpl; [reflexivity|].
  rewrite IH. generalize (indices dims) as ds. intros ds.
  revert g. induction ds as [|d ds IHd]; intros g; simpl; [reflexivity|].
  rewrite IHd. apply Hbody.
Qed.

(** The nested loops with a body that alters the cell [dims * b + i], seen
    cell by cell. *)
Lemma for_each_sample_alter_lookup {F : Type} (batch_size dims : Z)
    (h : Z -> Z -> F -> F) (body : Z -> Z -> list F -> list F)
    (g : list F) (k : nat) :
  0 < dims -> 0 <= batch_size ->
  (forall b i g, 0 <= b < batch_size -> 0 <= i < dims ->
     body b i g = alter (h b i) (Z.to_nat (dims * b + i)) g) ->
  InputSliceTrainer.for_each_sample batch_size dims body g !! k
  = if decide (k < Z.to_nat (dims * batch_size))%nat
    then h (Z.of_nat k / dims) (Z.of_nat k mod dims) <$> g !! k
    else g !! k.
Proof.
  intros Hd HB Hbody. rewrite for_each_sample_flat by assumption.
  rewrite (fold_left_ext_in _
             (fun g index =>
                alter ((fun n => h (Z.of_nat n / dims) (Z.of_nat n mod dims))
                         (Z.to_nat index))
                      (Z.to_nat index) g)).
  - rewrite <- (Z2Nat.id (dims * batch_size)) at 1 by nia.
    apply (alter_loop_lookup
             (fun n => h (Z.of_nat n / dims) (Z.of_nat n mod dims))).
  - intros a index Hi. apply list_elem_of_In, elem_of_seqZ in Hi.
    assert (Hq : 0 <= index / dims < batch_size).
    { split; [apply Z.div_pos; lia|]. apply Z.div_lt_upper_bound; lia. }
    pose proof (Z.mod_pos_bound index dims Hd) as Hr.
    rewrite Hbody by assumption.
    rewrite <- Z.div_mod by lia. rewrite Z2Nat.id by lia. reflexivity.
Qed.

Section InputSlice.
Context {F : Type} (fzero : F).
Variables kInputDimensions kOutputDimensions Offset : Z.
Hypothesis Offset_nonneg : 0 <= Offset.
Hypothesis kOutputDimensions_nonneg : 0 <= kOutputDimensions.
(** The [static_assert] of the class. *)
Hypothesis slice_inside : Offset + kOutputDimensions <= kInputDimensions.
Hypothesis kInputDimensions_int : kInputDimensions < 2 ^ 31.

(** The value [backpropagate] stores at dimension [i] of sample [b]. *)
Local Abbreviation scatter_value gradients := (fun (b i : Z) (x : F) =>
  if (i <? Offset) || (i >=? Offset + kOutputDimensions) then fzero
  else from_option id x
         (gradients !! Z.to_nat (kOutputDimensions * b + i - Offset))).

Lemma scatter_alter (batch_size : Z) (gradients : list F) (b i : Z)
    (g : list F) :
  kInputDimensions * batch_size < 2 ^ 32 ->
  0 <= b < batch_size -> 0 <= i < kInputDimensions ->
  InputSliceTrainer.scatter fzero kInputDimensions kOutputDimensions Offset
    gradients b i g
  = alter (scatter_value gradients b i) (Z.to_nat (kInputDimensions * b + i)) g.
Proof using Offset_nonneg kOutputDimensions_nonneg slice_inside
  kInputDimensions_int.
  intros Hfit Hb Hi. unfold InputSliceTrainer.scatter.
  rewrite (to_int_small i), (to_int_small Offset) by lia.
  rewrite (wrap32_small (Offset + kOutputDimensions)) by lia.
  rewrite (wrap32_small (kInputDimensions * b)) by nia.
  rewrite (wrap32_small (kInputDimensions * b + i)) by nia.
  destruct ((i <? Offset) || (i >=? Offset + kOutputDimensions)) eqn:Hc.
  - apply list_insert_alter.
  - apply orb_false_iff in Hc as [Hc1 Hc2].
    apply Z.ltb_ge in Hc1. rewrite Z.geb_leb in Hc2. apply Z.leb_gt in Hc2.
    rewrite (wrap32_small (kOutputDimensions * b)) by nia.
    rewrite (wrap32_small (kOutputDimensions * b + i)) by nia.
    rewrite (wrap32_small (kOutputDimensions * b + i - Offset)) by nia.
    destruct (gradients !! Z.to_nat (kOutputDimensions * b + i - Offset))
      as [y|]; simpl.
    + apply list_insert_alter.
    + symmetry. apply list_alter_id. reflexivity.
Qed.

Lemma scattered_lookup (gradients : list F) (s : InputSliceTrainer.t F)
    (b i : Z) :
  0 <= InputSliceTrainer.batch_size_ s ->
  kInputDimensions * InputSliceTrainer.batch_size_ s < 2 ^ 32 ->
  kInputDimensions * InputSliceTrainer.batch_size_ s
    <= Z.of_nat (length (InputSliceTrainer.gradients_ s)) ->
  kOutputDimensions * InputSliceTrainer.batch_size_ s
    <= Z.of_nat (length gradients) ->
  0 <= b < InputSliceTrainer.batch_size_ s -> 0 <= i < kInputDimensions ->
  InputSliceTrainer.scattered fzero kInputDimensions kOutputDimensions Offset
    gradients s !! Z.to_nat (kInputDimensions * b + i)
  = if (Offset <=? i) && (i <? Offset + kOutputDimensions)
    then gradients !! Z.to_nat (kOutputDimensions * b + i - Offset)
    else Some fzero.
Proof using Offset_nonneg kOutputDimensions_nonneg slice_inside
  kInputDimensions_int.
  intros HB Hfit Hlen Hgr Hb Hi. unfold InputSliceTrainer.scattered.
  rewrite (for_each_sample_alter_lookup _ _ (scatter_value gradients))
    by (try lia; intros;
        apply (scatter_alter (InputSliceTrainer.batch_size_ s)); assumption).
  rewrite decide_True by nia.
  rewrite Z2Nat.id by nia.
  replace ((kInputDimensions * b + i) / kInputDimensions) with b.
  2:{ apply (Z.div_unique_pos _ _ _ i); lia. }
  replace ((kInputDimensions * b + i) mod kInputDimensions) with i.
  2:{ apply (Z.mod_unique_pos _ _ b); lia. }
  destruct (lookup_lt_is_Some_2 (InputSliceTrainer.gradients_ s)
              (Z.to_nat (kInputDimensions * b + i)) ltac:(nia)) as [x ->].
  simpl.
  destruct (Z.ltb_spec i Offset) as [Hlo|Hlo];
    destruct (Z.leb_spec Offset i); try lia; simpl; [reflexivity|].
  rewrite Z.geb_leb.
  destruct (Z.leb_spec (Offset + kOutputDimensions) i);
    destruct (Z.ltb_spec i (Offset + kOutputDimensions)); try lia;
    [reflexivity|].
  destruct (lookup_lt_is_Some_2 gradients
              (Z.to_nat (kOutputDimensions * b + i - Offset)) ltac:(nia))
    as [y ->].
  reflexivity.
Qed.

Lemma copy_slice_alter (batch_size : Z) (input : list F) (b i : Z)
    (output : list F) :
  kInputDimensions * batch_size < 2 ^ 32 ->
  0 <= b < batch_size -> 0 <= i < kOutputDimensions ->
  InputSliceTrainer.copy_slice kInputDimensions kOutputDimensions Offset
    input b i output
  = alter (fun x => from_option id x
                      (input !! Z.to_nat (kInputDimensions * b + (Offset + i))))
      (Z.to_nat (kOutputDimensions * b + i)) output.
Proof using Offset_nonneg kOutputDimensions_nonneg slice_inside
  kInputDimensions_int.
  intros Hfit Hb Hi. unfold InputSliceTrainer.copy_slice.
  rewrite (wrap32_small (kInputDimensions * b)) by nia.
  rewrite (wrap32_small (kInputDimensions * b + Offset)) by nia.
  rewrite (wrap32_small (kInputDimensions * b + Offset + i)) by nia.
  rewrite (wrap32_small (kOutputDimensions * b)) by nia.
  rewrite (wrap32_small (kOutputDimensions * b + i)) by nia.
  rewrite <- Z.add_assoc.
  destruct (input !! Z.to_nat (kInputDimensions * b + (Offset + i))) as [x|];
    simpl.
  - apply list_insert_alter.
  - symmetry. apply list_alter_id. reflexivity.
Qed.

(** X13. What [Trainer<InputSlice>::backpropagate] hands to the shared
    trainer: for every sample of the mini-batch, the dimensions of the
    slice [Offset, Offset + kOutputDimensions) carry the sample's incoming
    gradient and every other dimension of the feature transformer's
    output carries zero; the buffer keeps its length.  Forward propagation
    reads the slice back: taking the slice of the scattered array as
    [propagate] does returns the incoming gradients. *)
Theorem InputSlice_backpropagate_scatters (gradients : list F)
    (s : InputSliceTrainer.t F) (output : list F) :
  0 <= InputSliceTrainer.batch_size_ s ->
  kInputDimensions * InputSliceTrainer.batch_size_ s < 2 ^ 32 ->
  kInputDimensions * InputSliceTrainer.batch_size_ s
    <= Z.of_nat (length (InputSliceTrainer.gradients_ s)) ->
  kOutputDimensions * InputSliceTrainer.batch_size_ s
    <= Z.of_nat (length gradients) ->
  kOutputDimensions * InputSliceTrainer.batch_size_ s
    <= Z.of_nat (length output) ->
  let scattered :=
    InputSliceTrainer.scattered fzero kInputDimensions kOutputDimensions
      Offset gradients s in
  (forall b i,
     0 <= b < InputSliceTrainer.batch_size_ s -> 0 <= i < kInputDimensions ->
     scattered !! Z.to_nat (kInputDimensions * b + i)
     = if (Offset <=? i) && (i <? Offset + kOutputDimensions)
       then gradients !! Z.to_nat (kOutputDimensions * b + i - Offset)
       else Some fzero) /\
  length scattered = length (InputSliceTrainer.gradients_ s) /\
  take (Z.to_nat (kOutputDimensions * InputSliceTrainer.batch_size_ s))
    (InputSliceTrainer.for_each_sample (InputSliceTrainer.batch_size_ s)
       kOutputDimensions
       (InputSliceTrainer.copy_slice kInputDimensions kOutputDimensions
          Offset scattered)
       output)
  = take (Z.to_nat (kOutputDimensions * InputSliceTrainer.batch_size_ s))
      gradients.
Proof using Offset_nonneg kOutputDimensions_nonneg slice_inside
  kInputDimensions_int.
  intros HB Hfit Hlen Hgr Hout scattered.
  assert (Hlook : forall b i,
     0 <= b < InputSliceTrainer.batch_size_ s -> 0 <= i < kInputDimensions ->
     scattered !! Z.to_nat (kInputDimensions * b + i)
     = if (Offset <=? i) && (i <? Offset + kOutputDimensions)
       then gradients !! Z.to_nat (kOutputDimensions * b + i - Offset)
       else Some fzero).
  { intros b i Hb Hi. apply scattered_lookup; assumption. }
  split; [exact Hlook|]. split.
  - subst scattered. unfold InputSliceTrainer.scattered.
    apply for_each_sample_length. intros b i g.
    unfold InputSliceTrainer.scatter.
    destruct ((InputSliceTrainer.to_int i <? InputSliceTrainer.to_int Offset)
              || (i >=? wrap32 (Offset + kOutputDimensions)));
      [apply length_insert|].
    destruct (gradients !! _); [apply length_insert | reflexivity].
  - destruct (Z.eq_dec kOutputDimensions 0) as [Hz|Hnz].
    { rewrite Hz, Z.mul_0_l. reflexivity. }
    apply list_eq. intros k. rewrite !lookup_take.
    rewrite (for_each_sample_alter_lookup _ _
               (fun b i x => from_option id x
                  (scattered !! Z.to_nat (kInputDimensions * b + (Offset + i)))))
      by (try lia; intros; apply (copy_slice_alter
                                    (InputSliceTrainer.batch_size_ s));
          assumption).
    destruct (decide (k < Z.to_nat (kOutputDimensions
                                    * InputSliceTrainer.batch_size_ s))%nat)
      as [Hk|Hk]; [|reflexivity].
    assert (Hq : 0 <= Z.of_nat k / kOutputDimensions
                 < InputSliceTrainer.batch_size_ s).
    { split; [apply Z.div_pos; lia|]. apply Z.div_lt_upper_bound; lia. }
    pose proof (Z.mod_pos_bound (Z.of_nat k) kOutputDimensions ltac:(lia)) as Hr.
    pose proof (Z.div_mod (Z.of_nat k) kOutputDimensions Hnz) as Ek.
    rewrite Hlook by lia.
    destruct (Z.leb_spec Offset (Offset + Z.of_nat k mod kOutputDimensions));
      [|lia].
    destruct (Z.ltb_spec (Offset + Z.of_nat k mod kOutputDimensions)
                (Offset + kOutputDimensions)); [|lia].
    simpl.
    replace (Z.to_nat (kOutputDimensions * (Z.of_nat k / kOutputDimensions)
                       + (Offset + Z.of_nat k mod kOutputDimensions) - Offset))
      with k by lia.
    destruct (lookup_lt_is_Some_2 output k ltac:(lia)) as [x ->].
    destruct (lookup_lt_is_Some_2 gradients k ltac:(lia)) as [y ->].
    reflexivity.
Qed.

End InputSlice.

Lemma InputSlice_backpropagate_scatters_witness :
  let scattered := InputSliceTrainer.scattered 0 4 2 1 [1; 2; 3; 4] slice_trainer in
  (forall b i,
     0 <= b < InputSliceTrainer.batch_size_ slice_trainer -> 0 <= i < 4 ->
     scattered !! Z.to_nat (4 * b + i)
     = if (1 <=? i) && (i <? 1 + 2)
       then [1; 2; 3; 4] !! Z.to_nat (2 * b + i - 1)
       else Some 0) /\
  length scattered = length (InputSliceTrainer.gradients_ slice_trainer) /\
  take (Z.to_nat (2 * InputSliceTrainer.batch_size_ slice_trainer))
    (InputSliceTrainer.for_each_sample
       (InputSliceTrainer.batch_size_ slice_trainer) 2
       (InputSliceTrainer.copy_slice 4 2 1 scattered) [0; 0; 0; 0])
  = take (Z.to_nat (2 * InputSliceTrainer.batch_size_ slice_trainer))
      [1; 2; 3; 4].
Proof.
  apply (InputSlice_backpropagate_scatters 0 4 2 1); simpl; lia.
Defined.

(** The array the shared trainer receives from the sample trainer. *)
Example InputSlice_scattered_run :
  InputSliceTrainer.scattered 0 4 2 1 [1; 2; 3; 4] slice_trainer
  = [0; 1; 2; 0; 0; 3; 4; 0].
Proof. reflexivity. Qed.

Lemma copy_slice_length {F : Type} (kInputDimensions kOutputDimensions Offset : Z)
    (input : list F) (b i : Z) (output : list F) :
  length (InputSliceTrainer.copy_slice kInputDimensions kOutputDimensions
            Offset input b i output) = length output.
Proof.
  unfold InputSliceTrainer.copy_slice.
  destruct (input !! _); [apply length_insert | reflexivity].
Qed.

(** X14. The buffers of an input-slice trainer always hold the current
    mini-batch: [propagate] resizes the gradient buffer only together with
    the output buffer, and since the slice is not empty this keeps both
    allocated for the largest mini-batch seen so far.  So after every
    successful [propagate], whatever the sizes of the earlier mini-batches,
    the loops of [backpropagate] over [kInputDimensions * batch_size_]
    cells stay inside [gradients_]. *)
Theorem InputSlice_propagate_keeps_buffers {F Example Message : Type}
    (fzero : F) (kInputDimensions kOutputDimensions Offset : Z)
    (batch : list Example) (input : list F) (s : InputSliceTrainer.t F)
    (shared : SharedInputTrainer.t F Example Message) :
  0 < kOutputDimensions < 2 ^ 32 -> 0 <= kInputDimensions < 2 ^ 32 ->
  Z.of_nat (length batch) < 2 ^ 32 ->
  buffers_in_step kInputDimensions kOutputDimensions s ->
  is_Some (SharedInputTrainer.propagate fzero kInputDimensions batch shared) ->
  buffers_in_step kInputDimensions kOutputDimensions
    (@InputSliceTrainer.construct F) /\
  exists s' shared',
    InputSliceTrainer.propagate fzero kInputDimensions kOutputDimensions
      Offset batch input (s, shared) = Some (s', shared') /\
    InputSliceTrainer.batch_size_ s' = Z.of_nat (length batch) /\
    buffers_in_step kInputDimensions kOutputDimensions s' /\
    buffers_fit kInputDimensions kOutputDimensions s'.
Proof.
  intros HkO HkI Hsize (m & Hbs & Ho & Hg) [shared' Hshared]. split.
  { exists 0. simpl. lia. }
  unfold InputSliceTrainer.propagate. rewrite Hshared.
  set (size := Z.of_nat (length batch)) in *.
  assert (Hsz : 0 <= size) by (subst size; lia).
  rewrite (wrap64_small (kOutputDimensions * size))
    by (change (2 ^ 64) with (2 ^ 32 * 2 ^ 32); nia).
  rewrite (wrap64_small (kInputDimensions * size))
    by (change (2 ^ 64) with (2 ^ 32 * 2 ^ 32); nia).
  rewrite (wrap32_small size) by lia.
  destruct (Z.ltb_spec (Z.of_nat (length (InputSliceTrainer.output_ s)))
              (kOutputDimensions * size)) as [Hsmall|Hbig].
  - eexists _, _. split; [reflexivity|]. cbn. split; [reflexivity|].
    assert (Hlo : Z.of_nat (length
               (InputSliceTrainer.for_each_sample size kOutputDimensions
                  (InputSliceTrainer.copy_slice kInputDimensions
                     kOutputDimensions Offset input)
                  (resize (Z.to_nat (kOutputDimensions * size)) fzero
                     (InputSliceTrainer.output_ s))))
             = kOutputDimensions * size).
    { rewrite for_each_sample_length by (intros; apply copy_slice_length).
      rewrite length_resize. nia. }
    assert (Hlg : Z.of_nat (length
               (resize (Z.to_nat (kInputDimensions * size)) fzero
                  (InputSliceTrainer.gradients_ s)))
             = kInputDimensions * size).
    { rewrite length_resize. nia. }
    split.
    + exists size. cbn. rewrite Hlo, Hlg. lia.
    + unfold buffers_fit. cbn. rewrite Hlo, Hlg. lia.
  - eexists _, _. split; [reflexivity|]. cbn. split; [reflexivity|].
    assert (Hlo : Z.of_nat (length
               (InputSliceTrainer.for_each_sample size kOutputDimensions
                  (InputSliceTrainer.copy_slice kInputDimensions
                     kOutputDimensions Offset input)
                  (InputSliceTrainer.output_ s)))
             = kOutputDimensions * m).
    { rewrite for_each_sample_length by (intros; apply copy_slice_length).
      exact Ho. }
    assert (Hm : size <= m) by nia.
    split.
    + exists m. cbn. rewrite Hlo, Hg. lia.
    + unfold buffers_fit. cbn. rewrite Hlo, Hg. nia.
Qed.

Lemma InputSlice_propagate_keeps_buffers_witness :
  buffers_in_step 4 2 (@InputSliceTrainer.construct Z) /\
  exists s' shared',
    InputSliceTrainer.propagate 0 4 2 1 [tt; tt; tt]
      [1; 2; 3; 4; 5; 6; 7; 8; 9; 10; 11; 12]
      (InputSliceTrainer.construct, sample_trainer) = Some (s', shared') /\
    InputSliceTrainer.batch_size_ s' = Z.of_nat (length [tt; tt; tt]) /\
    buffers_in_step 4 2 s' /\
    buffers_fit 4 2 s'.
Proof.
  apply (InputSlice_propagate_keeps_buffers 0 4 2 1 [tt; tt; tt]
           [1; 2; 3; 4; 5; 6; 7; 8; 9; 10; 11; 12]
           InputSliceTrainer.construct sample_trainer).
  - lia.
  - lia.
  - simpl. lia.
  - exists 0. simpl. lia.
  - eexists. reflexivity.
Defined.

(** Two forward propagations from the constructed trainer, of three
    samples and then of one: the buffers stay allocated for three. *)
Example InputSlice_propagate_run :
  match InputSliceTrainer.propagate 0 4 2 1 [tt; tt; tt]
          [1; 2; 3; 4; 5; 6; 7; 8; 9; 10; 11; 12]
          (InputSliceTrainer.construct,
           SharedInputTrainer.with_referrers 1
             (SharedInputTrainer.construct (F:=Z) (Example:=unit)
                (Message:=unit) 1)) with
  | Some st =>
      match InputSliceTrainer.propagate 0 4 2 1 [tt] [1; 2; 3; 4] st with
      | Some (s, _) =>
          InputSliceTrainer.batch_size_ s = 1 /\
          InputSliceTrainer.output_ s = [2; 3; 6; 7; 10; 11] /\
          length (InputSliceTrainer.gradients_ s) = 12%nat
      | None => False
      end
  | None => False
  end.
Proof. vm_compute. repeat split. Qed.


(** ** The trainer of the sum layer *)

Lemma copy_cell_alter {F : Type} (source : list F) (index : Z) (o : list F) :
  TrainerSum.copy_cell source index o
  = alter (fun x => from_option id x (source !! Z.to_nat index))
      (Z.to_nat index) o.
Proof.
  unfold TrainerSum.copy_cell.
  destruct (source !! Z.to_nat index) as [x|]; simpl.
  - apply list_insert_alter.
  - symmetry. apply list_alter_id. reflexivity.
Qed.

Lemma copy_cells_take {F : Type} (kOutputDimensions batch_size : Z)
    (source o : list F) :
  0 <= kOutputDimensions -> 0 <= batch_size ->
  kOutputDimensions * batch_size < 2 ^ 32 ->
  (Z.to_nat (kOutputDimensions * batch_size) <= length o)%nat ->
  (Z.to_nat (kOutputDimensions * batch_size) <= length source)%nat ->
  take (Z.to_nat (kOutputDimensions * batch_size))
    (SharedInputTrainer.for_each_cell kOutputDimensions batch_size
       (TrainerSum.copy_cell source) o)
  = take (Z.to_nat (kOutputDimensions * batch_size)) source.
Proof.
  intros Hdim Hbatch Hfit Hlen Hsrc. apply list_eq. intros k.
  rewrite !lookup_take.
  rewrite (for_each_cell_alter_lookup _ _
             (fun k x => from_option id x (source !! k)))
    by (try assumption; intros; apply copy_cell_alter).
  destruct (decide (k < Z.to_nat (kOutputDimensions * batch_size))%nat)
    as [Hk|Hk]; [|reflexivity].
  destruct (lookup_lt_is_Some_2 o k ltac:(lia)) as [x ->].
  destruct (lookup_lt_is_Some_2 source k ltac:(lia)) as [y ->].
  reflexivity.
Qed.

Lemma copy_cells_length {F : Type} (kOutputDimensions batch_size : Z)
    (source o : list F) :
  length (SharedInputTrainer.for_each_cell kOutputDimensions batch_size
            (TrainerSum.copy_cell source) o) = length o.
Proof.
  apply for_each_cell_length. intros index g'.
  rewrite copy_cell_alter. apply length_alter.
Qed.

Lemma output_with_output {F Example : Type} (f : list F -> list F)
    (s : TrainerSum.t F Example) :
  TrainerSum.output (TrainerSum.with_output f s) = f (TrainerSum.output s).
Proof. induction s as [p b o|p b tl IH]; simpl; [reflexivity | exact IH]. Qed.

(** X15. Forward propagation through the trainer of a sum layer returns
    the element-wise sum of the summand trainers' outputs: after
    [propagate], the first [kOutputDimensions * batch size] entries of the
    returned array are the summands' entries added up (from the last
    summand to the first), and the buffer has grown to that size if it was
    smaller. *)
Theorem TrainerSum_propagate_sums_outputs {F Example : Type} (fzero : F)
    (fadd : F -> F -> F) (kOutputDimensions : Z) (batch : list Example)
    (s : TrainerSum.t F Example) :
  0 <= kOutputDimensions -> Z.of_nat (length batch) < 2 ^ 32 ->
  kOutputDimensions * Z.of_nat (length batch) < 2 ^ 32 ->
  Forall (fun p =>
            (Z.to_nat (kOutputDimensions * Z.of_nat (length batch))
             <= length (TrainerSum.summand_propagate p batch))%nat)
         (TrainerSum.summands s) ->
  take (Z.to_nat (kOutputDimensions * Z.of_nat (length batch)))
    (TrainerSum.output
       (TrainerSum.propagate fzero fadd kOutputDimensions batch s))
  = TrainerSum.output_sum fadd
      (Z.to_nat (kOutputDimensions * Z.of_nat (length batch))) batch s /\
  length (TrainerSum.output
            (TrainerSum.propagate fzero fadd kOutputDimensions batch s))
  = Nat.max (length (TrainerSum.output s))
      (Z.to_nat (kOutputDimensions * Z.of_nat (length batch))).
Proof.
  intros Hdim Hsize Hfit.
  set (size := Z.of_nat (length batch)) in *.
  assert (Hsz : 0 <= size) by (subst size; lia).
  set (n := Z.to_nat (kOutputDimensions * size)).
  induction s as [p b o|p b tl IH]; intros Hsum.
  - apply Forall_inv in Hsum.
    cbn [TrainerSum.propagate TrainerSum.output TrainerSum.output_sum].
    fold size. rewrite (wrap32_small size) by lia.
    rewrite (wrap64_small (kOutputDimensions * size))
      by (change (2 ^ 64) with (2 ^ 32 * 2 ^ 32); nia).
    fold n.
    set (o' := if Z.of_nat (length o) <? kOutputDimensions * size
               then resize n fzero o else o).
    assert (Hlen : length o' = Nat.max (length o) n).
    { subst o'. destruct (Z.ltb_spec (Z.of_nat (length o))
                            (kOutputDimensions * size)).
      - rewrite length_resize. lia.
      - lia. }
    split.
    + apply copy_cells_take; try assumption; fold n; lia.
    + rewrite copy_cells_length. exact Hlen.
  - pose proof (Forall_inv Hsum) as Hp.
    apply Forall_inv_tail in Hsum. destruct (IH Hsum) as [IHt IHl].
    cbn [TrainerSum.propagate TrainerSum.output TrainerSum.output_sum].
    fold size. rewrite (wrap32_small size) by lia.
    rewrite output_with_output. split.
    + rewrite <- IHt. apply add_cells_take; try assumption; fold n; lia.
    + rewrite add_cells_length. exact IHl.
Qed.

Lemma TrainerSum_propagate_sums_outputs_witness :
  take (Z.to_nat (2 * Z.of_nat (length [tt; tt])))
    (TrainerSum.output (TrainerSum.propagate 0 Z.add 2 [tt; tt] sum_trainer))
  = TrainerSum.output_sum Z.add
      (Z.to_nat (2 * Z.of_nat (length [tt; tt]))) [tt; tt] sum_trainer /\
  length (TrainerSum.output
            (TrainerSum.propagate 0 Z.add 2 [tt; tt] sum_trainer))
  = Nat.max (length (TrainerSum.output sum_trainer))
      (Z.to_nat (2 * Z.of_nat (length [tt; tt]))).
Proof.
  apply (TrainerSum_propagate_sums_outputs 0 Z.add 2 [tt; tt] sum_trainer).
  - lia.
  - simpl. lia.
  - simpl. lia.
  - repeat apply Forall_cons_2; try apply Forall_nil_2; simpl; lia.
Defined.

Example TrainerSum_propagate_run :
  TrainerSum.output (TrainerSum.propagate 0 Z.add 2 [tt; tt] sum_trainer)
  = [111; 222; 333; 444].
Proof. reflexivity. Qed.


(** ** Newbob over several checkpoints *)

(** One rejected checkpoint when [t] trials are left. *)
Lemma save_rejected (opt : Learner.Options) (st : Learner.State)
    (round : float * Z) (t : Z) :
  Learner.save_only_once opt = false ->
  PrimFloat.eqb (Learner.newbob_decay opt) 1%float = false ->
  Learner.auto_lr_drop opt = 0 ->
  Learner.latest_loss_sum st = 0%float -> Learner.latest_loss_count st = 0 ->
  match Learner.trials st with
  | Some t' => t'
  | None => Learner.newbob_num_trials opt
  end = t ->
  rejected st round ->
  Learner.save opt false (calc_loss_update (fst round) (snd round) st)
  = (t - 1 =? 0,
     {| Learner.global_learning_rate :=
          if t - 1 >? 0
          then PrimFloat.mul (Learner.global_learning_rate st)
                 (Learner.newbob_decay opt)
          else Learner.global_learning_rate st;
        Learner.best_loss := Learner.best_loss st;
        Learner.latest_loss_sum := 0%float;
        Learner.latest_loss_count := 0;
        Learner.last_lr_drop := Learner.last_lr_drop st;
        Learner.total_done := Learner.total_done st;
        Learner.best_nn_directory :=
          Some (Learner.save_numbered (Learner.dir_number st));
        Learner.dir_number := Learner.dir_number st + 1;
        Learner.trials := Some (t - 1);
        Learner.saved :=
          Learner.saved st ++ [Learner.save_numbered (Learner.dir_number st)];
        Learner.save_count := Learner.save_count st;
        Learner.stop_flag := Learner.stop_flag st;
        Learner.sr_stop_flag := Learner.sr_stop_flag st |}).
Proof.
  intros Honce Hdecay Hauto Hsum Hcount Ht [Hc Hrej].
  unfold Learner.save, calc_loss_update.
  cbn [Learner.latest_loss_count Learner.latest_loss_sum Learner.trials
       Learner.best_loss Learner.global_learning_rate Learner.dir_number
       Learner.last_lr_drop Learner.total_done Learner.saved
       Learner.save_count Learner.stop_flag Learner.sr_stop_flag
       Learner.best_nn_directory].
  rewrite Honce, Hdecay, Hauto, Hsum, Hcount, Ht.
  rewrite Z.add_0_l, (wrap64_small (snd round)) by lia.
  destruct (Z.gtb_spec (snd round) 0); [|lia].
  cbn [negb andb Z.eqb]. rewrite Hrej. rewrite andb_true_r. reflexivity.
Qed.

Lemma checkpoints_rejected (opt : Learner.Options) (rounds : list (float * Z)) :
  Learner.save_only_once opt = false ->
  PrimFloat.eqb (Learner.newbob_decay opt) 1%float = false ->
  Learner.auto_lr_drop opt = 0 ->
  forall (st : Learner.State),
  Learner.latest_loss_sum st = 0%float -> Learner.latest_loss_count st = 0 ->
  rounds <> [] ->
  match Learner.trials st with
  | Some t' => t'
  | None => Learner.newbob_num_trials opt
  end = Z.of_nat (length rounds) ->
  Forall (rejected st) rounds ->
  fst (checkpoints opt rounds st) = true /\
  (forall k, (k < length rounds)%nat ->
             fst (checkpoints opt (take k rounds) st) = false) /\
  Learner.trials (snd (checkpoints opt rounds st)) = Some 0 /\
  Learner.best_loss (snd (checkpoints opt rounds st)) = Learner.best_loss st /\
  Learner.global_learning_rate (snd (checkpoints opt rounds st))
  = Nat.iter (length rounds - 1)
      (fun rate => PrimFloat.mul rate (Learner.newbob_decay opt))
      (Learner.global_learning_rate st) /\
  Learner.saved (snd (checkpoints opt rounds st))
  = Learner.saved st
    ++ map Learner.save_numbered
         (seqZ (Learner.dir_number st) (Z.of_nat (length rounds))).
Proof.
  intros Honce Hdecay Hauto.
  induction rounds as [|[loss count] rounds IH];
    intros st Hsum Hcount Hne Ht Hrej; [congruence|].
  pose proof (Forall_inv Hrej) as Hr. apply Forall_inv_tail in Hrej.
  pose proof (save_rejected opt st (loss, count) _ Honce Hdecay Hauto
                Hsum Hcount Ht Hr) as Hsave.
  cbn [fst snd] in Hsave. cbn [checkpoints]. rewrite Hsave.
  cbn [length] in *.
  destruct rounds as [|r rounds'].
  - cbn [length]. replace (Z.of_nat 1 - 1 =? 0) with true by reflexivity.
    cbn [fst snd Learner.trials Learner.best_loss Learner.saved
         Learner.global_learning_rate Nat.iter Nat.sub].
    split; [reflexivity|]. split.
    + intros k Hk. replace k with 0%nat by lia. reflexivity.
    + repeat split.
  - set (st1 := {| Learner.global_learning_rate := _ |}) in *.
    destruct (Z.eqb_spec (Z.of_nat (S (length (r :: rounds'))) - 1) 0) as [E|_];
      [cbn [length] in E; lia|].
    destruct (IH st1) as (Hconv & Hpre & Htr & Hbest & Hrate & Hsaved);
      try reflexivity; try discriminate.
    { subst st1. cbn [Learner.trials length]. cbn [length]. lia. }
    { eapply Forall_impl; [exact Hrej|]. intros x [Hx1 Hx2].
      split; [exact Hx1|]. subst st1. cbn [Learner.best_loss]. exact Hx2. }
    split; [exact Hconv|]. split.
    + intros k Hk. destruct k as [|k]; [reflexivity|].
      cbn [take checkpoints]. rewrite Hsave.
      destruct (Z.eqb_spec (Z.of_nat (S (length (r :: rounds'))) - 1) 0) as [E|_];
        [cbn [length] in E; lia|].
      apply Hpre. cbn [length] in *. lia.
    + split; [exact Htr|]. split; [rewrite Hbest; reflexivity|]. split.
      * rewrite Hrate. subst st1. cbn [Learner.global_learning_rate].
        destruct (Z.gtb_spec (Z.of_nat (S (length (r :: rounds'))) - 1) 0);
          [|cbn [length] in *; lia].
        cbn [length]. replace (S (S (length rounds')) - 1)%nat
          with (S (S (length rounds') - 1)) by lia.
        rewrite Nat.iter_succ_r. reflexivity.
      * rewrite Hsaved. subst st1. cbn [Learner.saved Learner.dir_number].
        rewrite <- app_assoc. f_equal.
        rewrite (seqZ_cons (Learner.dir_number st)) by lia.
        cbn [map app]. f_equal. f_equal. f_equal; lia.
Qed.

(** X16. Newbob ends the training after [newbob_num_trials] rejected
    checkpoints in a row: with newbob scheduling enabled and
    [auto_lr_drop] off, when the validation loss of each of the first
    [newbob_num_trials] periodic checkpoints fails to improve on the best
    loss, [save] reports convergence at the last of them and not before;
    by then the learning rate has been multiplied by the decay factor
    [newbob_num_trials - 1] times, the best loss is unchanged, and the
    checkpoints were saved under consecutive directory numbers. *)
Theorem newbob_converges_after_rejected_trials (opt : Learner.Options)
    (st : Learner.State) (rounds : list (float * Z)) :
  Learner.save_only_once opt = false ->
  PrimFloat.eqb (Learner.newbob_decay opt) 1%float = false ->
  Learner.auto_lr_drop opt = 0 ->
  Learner.latest_loss_sum st = 0%float -> Learner.latest_loss_count st = 0 ->
  Learner.trials st = None ->
  1 <= Learner.newbob_num_trials opt ->
  Z.of_nat (length rounds) = Learner.newbob_num_trials opt ->
  Forall (rejected st) rounds ->
  fst (checkpoints opt rounds st) = true /\
  (forall k, (k < length rounds)%nat ->
             fst (checkpoints opt (take k rounds) st) = false) /\
  Learner.trials (snd (checkpoints opt rounds st)) = Some 0 /\
  Learner.best_loss (snd (checkpoints opt rounds st)) = Learner.best_loss st /\
  Learner.global_learning_rate (snd (checkpoints opt rounds st))
  = Nat.iter (length rounds - 1)
      (fun rate => PrimFloat.mul rate (Learner.newbob_decay opt))
      (Learner.global_learning_rate st) /\
  Learner.saved (snd (checkpoints opt rounds st))
  = Learner.saved st
    ++ map Learner.save_numbered
         (seqZ (Learner.dir_number st) (Z.of_nat (length rounds))).
Proof.
  intros Honce Hdecay Hauto Hsum Hcount Htr HT Hlen Hrej.
  apply checkpoints_rejected; try assumption.
  - intros ->. simpl in Hlen. lia.
  - rewrite Htr. lia.
Qed.

Lemma newbob_converges_after_rejected_trials_witness :
  let rounds := [(2%float, 2); (3%float, 2); (1%float, 2)] in
  fst (checkpoints (newbob_options 3 0) rounds learner_fresh) = true /\
  (forall k, (k < length rounds)%nat ->
             fst (checkpoints (newbob_options 3 0) (take k rounds) learner_fresh)
             = false) /\
  Learner.trials (snd (checkpoints (newbob_options 3 0) rounds learner_fresh))
  = Some 0 /\
  Learner.best_loss (snd (checkpoints (newbob_options 3 0) rounds learner_fresh))
  = Learner.best_loss learner_fresh /\
  Learner.global_learning_rate
    (snd (checkpoints (newbob_options 3 0) rounds learner_fresh))
  = Nat.iter (length rounds - 1)
      (fun rate => PrimFloat.mul rate
                     (Learner.newbob_decay (newbob_options 3 0)))
      (Learner.global_learning_rate learner_fresh) /\
  Learner.saved (snd (checkpoints (newbob_options 3 0) rounds learner_fresh))
  = Learner.saved learner_fresh
    ++ map Learner.save_numbered
         (seqZ (Learner.dir_number learner_fresh) (Z.of_nat (length rounds))).
Proof.
  apply (newbob_converges_after_rejected_trials (newbob_options 3 0)
           learner_fresh [(2%float, 2); (3%float, 2); (1%float, 2)]);
    try reflexivity.
  - simpl. lia.
  - repeat apply Forall_cons_2; try apply Forall_nil_2;
      (split; [simpl; lia | reflexivity]).
Defined.

(** The run of the witness: three rejected checkpoints, the learning rate
    halved twice. *)
Example newbob_three_trials_run :
  let r := checkpoints (newbob_options 3 0)
             [(2%float, 2); (3%float, 2); (1%float, 2)] learner_fresh in
  fst r = true /\
  Learner.global_learning_rate (snd r) = 0.25%float /\
  Learner.saved (snd r)
  = [Learner.save_numbered 0; Learner.save_numbered 1; Learner.save_numbered 2].
Proof. vm_compute. repeat split. Qed.


(** ** The plies of the random moves *)

Lemma swap_lookup_ne {T} (i j q : nat) (buf : list T) :
  q <> i -> q <> j -> Algo.swap i j buf !! q = buf !! q.
Proof.
  intros Hi Hj. unfold Algo.swap.
  destruct (buf !! i); [|reflexivity]. destruct (buf !! j); [|reflexivity].
  rewrite !list_lookup_insert_ne by congruence. reflexivity.
Qed.

Lemma swap_lookup_l {T} (i j : nat) (buf : list T) (x y : T) :
  buf !! i = Some x -> buf !! j = Some y -> Algo.swap i j buf !! i = Some y.
Proof.
  intros Hi Hj. unfold Algo.swap. rewrite Hi, Hj.
  apply list_lookup_insert_eq. rewrite length_insert.
  eapply lookup_lt_Some, Hi.
Qed.

Lemma count_flags_insert (flags : list bool) (p : nat) :
  flags !! p = Some false ->
  count_flags (<[p := true]> flags) = S (count_flags flags).
Proof.
  unfold count_flags. revert p.
  induction flags as [|b flags IH]; intros p Hp; [discriminate|].
  destruct p as [|p]; simpl in *.
  - injection Hp as ->. reflexivity.
  - destruct b; simpl; rewrite (IH p Hp); reflexivity.
Qed.

Lemma count_flags_replicate (n : nat) : count_flags (replicate n false) = 0%nat.
Proof. unfold count_flags. induction n as [|n IH]; simpl; [reflexivity | exact IH]. Qed.

(** The state of the loop of [generate_random_move_flags] after [k]
    iterations: [k] flags are set, each at one of the first [k] entries of
    the partly shuffled array. *)
Lemma flag_loop_invariant (a0 : list Z) (prng0 : PRNG.t) (flags0 : list bool)
    (k : nat) :
  NoDup a0 -> (k <= length a0)%nat -> Z.of_nat (length a0) < 2 ^ 64 ->
  Forall (fun p => 0 <= p < Z.of_nat (length flags0)) a0 ->
  (forall q, flags0 !! q <> Some true) ->
  count_flags flags0 = 0%nat ->
  exists a prng flags,
    fold_left (flag_step (Z.of_nat (length a0))) (seqZ 0 (Z.of_nat k))
      (a0, prng0, flags0) = (a, prng, flags) /\
    Permutation a a0 /\ length flags = length flags0 /\
    count_flags flags = k /\
    (forall q, flags !! q = Some true ->
               exists j, (j < k)%nat /\ a !! j = Some (Z.of_nat q)).
Proof.
  intros Hnd Hk Hsize Hrange Hclear Hzero. induction k as [|k IH].
  - exists a0, prng0, flags0. rewrite seqZ_nil by lia.
    split; [reflexivity|]. split; [reflexivity|]. split; [reflexivity|].
    split; [exact Hzero|]. intros q Hq. exfalso. exact (Hclear q Hq).
  - destruct (IH ltac:(lia)) as (a & prng & flags & E & Hperm & Hlen & Hcnt & Hset).
    rewrite seqZ_S, fold_left_app, E. cbn [fold_left]. rewrite Z.add_0_l.
    unfold flag_step, Algo.shuffle_step.
    pose proof (shuffle_index_in_range (Z.of_nat (length a0)) (Z.of_nat k)
                  prng ltac:(lia) Hsize) as Hj.
    destruct (PRNG.rand (wrap64 (Z.of_nat (length a0) - Z.of_nat k)) prng)
      as [r prng'] eqn:Er. cbn [fst] in Hj.
    rewrite Nat2Z.id.
    set (j := Z.to_nat (wrap64 (r + Z.of_nat k))).
    assert (Hla : length a = length a0) by (apply Permutation_length, Hperm).
    destruct (lookup_lt_is_Some_2 a k ltac:(lia)) as [x Hx].
    destruct (lookup_lt_is_Some_2 a j ltac:(lia)) as [y Hy].
    rewrite (swap_lookup_l k j a x y Hx Hy).
    assert (Hnda : NoDup a).
    { rewrite Hperm. exact Hnd. }
    assert (Hyr : 0 <= y < Z.of_nat (length flags0)).
    { rewrite Forall_forall in Hrange. apply Hrange.
      rewrite <- Hperm. eapply list_elem_of_lookup_2, Hy. }
    assert (Hfresh : flags !! Z.to_nat y = Some false).
    { destruct (lookup_lt_is_Some_2 flags (Z.to_nat y) ltac:(lia)) as [b Hb].
      destruct b; [|exact Hb]. exfalso.
      destruct (Hset _ Hb) as (j' & Hj' & Hat).
      rewrite Z2Nat.id in Hat by lia.
      pose proof (NoDup_lookup a j' j y Hnda Hat Hy). lia. }
    eexists _, _, _. split; [reflexivity|]. split.
    { etransitivity; [apply swap_Permutation | exact Hperm]. }
    split; [rewrite length_insert; exact Hlen|]. split.
    { rewrite count_flags_insert by exact Hfresh. rewrite Hcnt. reflexivity. }
    intros q Hq. destruct (decide (q = Z.to_nat y)) as [->|Hne].
    + exists k. split; [lia|]. rewrite (swap_lookup_l k j a x y Hx Hy).
      rewrite Z2Nat.id by lia. reflexivity.
    + rewrite list_lookup_insert_ne in Hq by congruence.
      destruct (Hset q Hq) as (j' & Hj' & Hat).
      exists j'. split; [lia|]. rewrite swap_lookup_ne by lia. exact Hat.
Qed.

(** X17. [generate_random_move_flags] marks the plies of the random moves
    as its comment promises: the flag vector has
    [random_move_maxply + random_move_count] entries, exactly
    [min(random_move_count, number of plies in the window)] of them are
    set (no ply is drawn twice), and every set flag lies in the window
    from [max(random_move_minply - 1, 0)] up to, not including,
    [random_move_maxply]. *)
Theorem generate_random_move_flags_count
    (random_move_minply random_move_maxply random_move_count : Z)
    (prng : PRNG.t) :
  0 <= random_move_maxply -> 0 <= random_move_count ->
  random_move_maxply + random_move_count < 2 ^ 31 ->
  let first := Z.max (random_move_minply - 1) 0 in
  let random_move_flag :=
    fst (generate_random_move_flags random_move_minply random_move_maxply
           random_move_count prng) in
  Z.of_nat (length random_move_flag)
  = random_move_maxply + random_move_count /\
  Z.of_nat (count_flags random_move_flag)
  = Z.min random_move_count (Z.max 0 (random_move_maxply - first)) /\
  (forall ply, random_move_flag !! ply = Some true ->
               first <= Z.of_nat ply < random_move_maxply).
Proof.
  intros Hmax Hcount Hint first random_move_flag.
  subst random_move_flag. unfold generate_random_move_flags. fold first.
  set (a0 := seqZ first (random_move_maxply - first)).
  assert (Hlen0 : Z.of_nat (length a0) = Z.max 0 (random_move_maxply - first)).
  { subst a0. rewrite length_seqZ. lia. }
  assert (Hfirst : 0 <= first) by (subst first; lia).
  rewrite (wrap64_small random_move_maxply) by lia.
  rewrite (wrap64_small (random_move_maxply + random_move_count)) by lia.
  rewrite to_int_small by lia.
  set (flags0 := replicate (Z.to_nat (random_move_maxply + random_move_count))
                   false).
  set (n := Z.min random_move_count (Z.of_nat (length a0))).
  assert (Hn : 0 <= n <= Z.of_nat (length a0)) by (subst n; lia).
  destruct (flag_loop_invariant a0 prng flags0 (Z.to_nat n))
    as (a & prng' & flags & E & Hperm & Hlen & Hcnt & Hset).
  - subst a0. apply NoDup_seqZ.
  - lia.
  - lia.
  - apply Forall_forall. intros p Hp. subst a0 flags0.
    apply elem_of_seqZ in Hp. rewrite length_replicate. lia.
  - intros q Hq. subst flags0. apply lookup_replicate in Hq as [Hq _].
    discriminate Hq.
  - apply count_flags_replicate.
  - unfold indices.
    replace (seqZ 0 n) with (seqZ 0 (Z.of_nat (Z.to_nat n)))
      by (rewrite Z2Nat.id by lia; reflexivity).
    rewrite E.
    cbn [fst]. split; [|split].
    + rewrite Hlen. subst flags0. rewrite length_replicate. lia.
    + rewrite Hcnt. subst n. lia.
    + intros ply Hply. destruct (Hset ply Hply) as (j & _ & Hat).
      assert (Hin : Z.of_nat ply ∈ a0).
      { rewrite <- Hperm. eapply list_elem_of_lookup_2, Hat. }
      subst a0. apply elem_of_seqZ in Hin. lia.
Qed.

Lemma generate_random_move_flags_count_witness :
  let first := Z.max (3 - 1) 0 in
  let random_move_flag :=
    fst (generate_random_move_flags 3 10 4 88172645463325252) in
  Z.of_nat (length random_move_flag) = 10 + 4 /\
  Z.of_nat (count_flags random_move_flag) = Z.min 4 (Z.max 0 (10 - first)) /\
  (forall ply, random_move_flag !! ply = Some true ->
               first <= Z.of_nat ply < 10).
Proof.
  apply (generate_random_move_flags_count 3 10 4 88172645463325252); lia.
Defined.

Example generate_random_move_flags_run :
  fst (generate_random_move_flags 3 10 4 88172645463325252)
  = [false; false; false; false; true; true; false; false; true; true;
     false; false; false; false].
Proof. vm_compute. reflexivity. Qed.


(** ** The random move of a multi-PV search *)

(** A loop that leaves at the first index that satisfies [cond]. *)
Lemma first_match_loop (cond : Z -> bool) (n : nat) :
  match fold_left
          (fun found i =>
             match found with
             | Some _ => found
             | None => if cond i then Some i else None
             end)
          (seqZ 1 (Z.of_nat n)) None with
  | Some i => 1 <= i < 1 + Z.of_nat n /\ cond i = true /\
              forall j, 1 <= j < i -> cond j = false
  | None => forall j, 1 <= j < 1 + Z.of_nat n -> cond j = false
  end.
Proof.
  induction n as [|n IH].
  - rewrite seqZ_nil by lia. simpl. intros j Hj. lia.
  - rewrite seqZ_S, fold_left_app. cbn [fold_left].
    destruct (fold_left _ (seqZ 1 (Z.of_nat n)) None) as [i|].
    + destruct IH as (Hi & Hc & Hb). repeat split; try assumption; lia.
    + destruct (cond (1 + Z.of_nat n)) eqn:Hc.
      * repeat split; [lia | lia | exact Hc|]. intros j Hj. apply IH. lia.
      * intros j Hj. destruct (Z.eq_dec j (1 + Z.of_nat n)) as [->|Hne];
          [exact Hc | apply IH; lia].
Qed.

(** X18. The random move of a multi-PV search is one of the good moves:
    when the root-move list is not empty and [random_multi_pv] is not 0,
    [choose_random_move] draws an index inside the root-move list, among
    the first [random_multi_pv] root moves, and every root move it can
    draw is the best one or has a score at most [random_multi_pv_diff]
    below the score of the best; the candidates end at the first root
    move that is further below. *)
Theorem choose_multi_pv_within_diff (scores : list Z)
    (random_multi_pv random_multi_pv_diff : Z) (prng : PRNG.t) :
  scores <> [] -> wrap64 random_multi_pv <> 0 ->
  let s := multi_pv_candidates scores random_multi_pv random_multi_pv_diff in
  let index :=
    fst (choose_multi_pv scores random_multi_pv random_multi_pv_diff prng) in
  1 <= s <= Z.of_nat (length scores) /\ s <= wrap64 random_multi_pv /\
  0 <= index < s /\
  (forall i, 1 <= i < s ->
             nth 0 scores 0 <= nth (Z.to_nat i) scores 0 + random_multi_pv_diff) /\
  (s < Z.min (Z.of_nat (length scores)) (wrap64 random_multi_pv) ->
   nth 0 scores 0 > nth (Z.to_nat s) scores 0 + random_multi_pv_diff).
Proof.
  intros Hne Hpv s index.
  assert (Hlen : 1 <= Z.of_nat (length scores)).
  { destruct scores; [congruence | simpl; lia]. }
  assert (Hw : 0 <= wrap64 random_multi_pv < 2 ^ 64).
  { unfold wrap64. apply Z.mod_pos_bound. lia. }
  set (s0 := Z.min (Z.of_nat (length scores)) (wrap64 random_multi_pv)).
  assert (Hs0 : 1 <= s0) by (subst s0; lia).
  pose proof (first_match_loop
                (fun i => nth 0 scores 0
                          >? nth (Z.to_nat i) scores 0 + random_multi_pv_diff)
                (Z.to_nat (s0 - 1))) as Hloop.
  rewrite Z2Nat.id in Hloop by lia.
  assert (Hs : 1 <= s <= s0 /\
               (forall i, 1 <= i < s ->
                  nth 0 scores 0
                  <= nth (Z.to_nat i) scores 0 + random_multi_pv_diff) /\
               (s < s0 ->
                nth 0 scores 0
                > nth (Z.to_nat s) scores 0 + random_multi_pv_diff)).
  { subst s. unfold multi_pv_candidates. fold s0.
    destruct (fold_left _ (seqZ 1 (s0 - 1)) None) as [i|]; cbn [from_option id].
    - destruct Hloop as (Hi & Hc & Hb). split; [lia|]. split.
      + intros j Hj. specialize (Hb j ltac:(lia)). cbv beta in Hb.
        destruct (Z.gtb_spec (nth 0 scores 0)
                    (nth (Z.to_nat j) scores 0 + random_multi_pv_diff));
          [discriminate | lia].
      + intros _. cbv beta in Hc.
        destruct (Z.gtb_spec (nth 0 scores 0)
                    (nth (Z.to_nat i) scores 0 + random_multi_pv_diff));
          [lia | discriminate].
    - split; [lia|]. split; [|lia].
      intros j Hj. specialize (Hloop j ltac:(lia)). cbv beta in Hloop.
      destruct (Z.gtb_spec (nth 0 scores 0)
                  (nth (Z.to_nat j) scores 0 + random_multi_pv_diff));
        [discriminate | lia]. }
  destruct Hs as (Hrange & Hgood & Hcut).
  split; [subst s0; lia|]. split; [subst s0; lia|]. split.
  - subst index. unfold choose_multi_pv. apply rand_below. fold s. lia.
  - split; [exact Hgood | exact Hcut].
Qed.

Lemma choose_multi_pv_within_diff_witness :
  let s := multi_pv_candidates [120; 100; 95; 40; 30] 4 30 in
  let index := fst (choose_multi_pv [120; 100; 95; 40; 30] 4 30 88172645463325252) in
  1 <= s <= Z.of_nat (length [120; 100; 95; 40; 30]) /\ s <= wrap64 4 /\
  0 <= index < s /\
  (forall i, 1 <= i < s ->
             nth 0 [120; 100; 95; 40; 30] 0
             <= nth (Z.to_nat i) [120; 100; 95; 40; 30] 0 + 30) /\
  (s < Z.min (Z.of_nat (length [120; 100; 95; 40; 30])) (wrap64 4) ->
   nth 0 [120; 100; 95; 40; 30] 0 > nth (Z.to_nat s) [120; 100; 95; 40; 30] 0 + 30).
Proof.
  apply (choose_multi_pv_within_diff [120; 100; 95; 40; 30] 4 30
           88172645463325252).
  - discriminate.
  - discriminate.
Defined.

Example multi_pv_candidates_run :
  multi_pv_candidates [120; 100; 95; 40; 30] 4 30 = 3 /\
  multi_pv_candidates [120; 100; 95; 40; 30] (-1) 100 = 5.
Proof. split; reflexivity. Qed.


(** ** The sample writer *)

Section SfenWriterProperties.
Context {PSV : Type}.

Local Abbreviation content := (from_option (@id (list PSV)) []).

Lemma concat_append_to_current_file (buf : list PSV) (fs : list (list PSV)) :
  concat (SfenWriter.append_to_current_file buf fs) = concat fs ++ buf.
Proof using Type.
  unfold SfenWriter.append_to_current_file. destruct fs as [|f fs].
  - simpl. rewrite app_nil_r. reflexivity.
  - assert (Hne : f :: fs <> []) by discriminate.
    generalize dependent (f :: fs). clear f fs. intros l Hne.
    rewrite concat_app. cbn [concat]. rewrite app_nil_r, app_assoc. f_equal.
    transitivity (concat (removelast l ++ [List.last l []])).
    + rewrite concat_app. cbn [concat]. rewrite app_nil_r. reflexivity.
    + f_equal. symmetry. apply app_removelast_last. exact Hne.
Qed.

(** A writer whose process is running and whose save interval is not 0. *)
Local Abbreviation running w :=
  (SfenWriter.died w = false /\ SfenWriter.save_every w <> 0).

(** Writing a buffer touches neither the buffers of the threads, the pool
    nor the save interval. *)
Lemma write_buffer_frame (w : SfenWriter.t PSV) (buf : list PSV) :
  SfenWriter.sfen_buffers (SfenWriter.write_buffer w buf)
  = SfenWriter.sfen_buffers w /\
  SfenWriter.sfen_buffers_pool (SfenWriter.write_buffer w buf)
  = SfenWriter.sfen_buffers_pool w /\
  SfenWriter.save_every (SfenWriter.write_buffer w buf)
  = SfenWriter.save_every w.
Proof using Type.
  unfold SfenWriter.write_buffer.
  destruct (SfenWriter.died w); [repeat split|].
  destruct (_ >=? _); [destruct (_ =? _)|]; repeat split.
Qed.

Lemma write_buffers_frame (pool : list (list PSV)) (w : SfenWriter.t PSV) :
  SfenWriter.sfen_buffers (fold_left SfenWriter.write_buffer pool w)
  = SfenWriter.sfen_buffers w /\
  SfenWriter.sfen_buffers_pool (fold_left SfenWriter.write_buffer pool w)
  = SfenWriter.sfen_buffers_pool w /\
  SfenWriter.save_every (fold_left SfenWriter.write_buffer pool w)
  = SfenWriter.save_every w.
Proof using Type.
  revert w. induction pool as [|buf pool IH]; intros w; [repeat split|].
  cbn [fold_left]. destruct (IH (SfenWriter.write_buffer w buf)) as (Hb & Hp & He).
  destruct (write_buffer_frame w buf) as (Hb' & Hp' & He').
  rewrite Hb, Hp, He, Hb', Hp', He'. repeat split.
Qed.

(** With a save interval other than 0 the division succeeds: the buffer
    reaches the files and the process goes on. *)
Lemma write_buffer_running (w : SfenWriter.t PSV) (buf : list PSV) :
  running w ->
  SfenWriter.died (SfenWriter.write_buffer w buf) = false /\
  concat (SfenWriter.files (SfenWriter.write_buffer w buf))
  = concat (SfenWriter.files w) ++ buf.
Proof using Type.
  intros [Halive Hevery]. unfold SfenWriter.write_buffer. rewrite Halive.
  destruct (_ >=? _).
  - destruct (Z.eqb_spec (SfenWriter.save_every w) 0) as [Hz|_]; [contradiction|].
    cbn [SfenWriter.died SfenWriter.files]. split; [reflexivity|].
    rewrite concat_app. cbn [concat]. rewrite !app_nil_r.
    apply concat_append_to_current_file.
  - cbn [SfenWriter.died SfenWriter.files]. split; [reflexivity|].
    apply concat_append_to_current_file.
Qed.

Lemma write_buffers_fold (pool : list (list PSV)) (w : SfenWriter.t PSV) :
  running w ->
  SfenWriter.died (fold_left SfenWriter.write_buffer pool w) = false /\
  concat (SfenWriter.files (fold_left SfenWriter.write_buffer pool w))
  = concat (SfenWriter.files w) ++ concat pool.
Proof using Type.
  revert w. induction pool as [|buf pool IH]; intros w Hw.
  - simpl. rewrite app_nil_r. split; [apply Hw | reflexivity].
  - cbn [fold_left].
    destruct (write_buffer_running w buf Hw) as [Halive Hfiles].
    destruct (write_buffer_frame w buf) as (_ & _ & Hevery).
    destruct (IH (SfenWriter.write_buffer w buf)) as [Hd Hf].
    { split; [exact Halive|]. rewrite Hevery. apply Hw. }
    split; [exact Hd|]. rewrite Hf, Hfiles. cbn [concat].
    rewrite app_assoc. reflexivity.
Qed.

(** A pass of the writer thread empties the pool and leaves the buffers of
    the threads alone, also when the process dies in it. *)
Lemma worker_pass_frame (w : SfenWriter.t PSV) :
  SfenWriter.sfen_buffers (SfenWriter.file_write_worker_pass w)
  = SfenWriter.sfen_buffers w /\
  SfenWriter.sfen_buffers_pool (SfenWriter.file_write_worker_pass w) = [] /\
  SfenWriter.save_every (SfenWriter.file_write_worker_pass w)
  = SfenWriter.save_every w.
Proof using Type.
  unfold SfenWriter.file_write_worker_pass.
  apply (write_buffers_frame (SfenWriter.sfen_buffers_pool w)
           (SfenWriter.with_buffers (SfenWriter.sfen_buffers w) [] w)).
Qed.

Lemma worker_pass_stored (w : SfenWriter.t PSV) :
  running w ->
  SfenWriter.died (SfenWriter.file_write_worker_pass w) = false /\
  SfenWriter.stored (SfenWriter.file_write_worker_pass w) = SfenWriter.stored w.
Proof using Type.
  intros Hw. destruct (worker_pass_frame w) as (Hb & Hp & _).
  unfold SfenWriter.stored, SfenWriter.buffered. rewrite Hb, Hp.
  unfold SfenWriter.file_write_worker_pass.
  destruct (write_buffers_fold (SfenWriter.sfen_buffers_pool w)
              (SfenWriter.with_buffers (SfenWriter.sfen_buffers w) [] w) Hw)
    as (Hd & Hf).
  split; [exact Hd|]. rewrite Hf.
  cbn [SfenWriter.with_buffers SfenWriter.files concat app].
  rewrite <- app_assoc. reflexivity.
Qed.

(** Replacing the buffer of one thread. *)
Lemma buffered_insert (l : list (option (list PSV))) (i : nat)
    (old new : option (list PSV)) :
  l !! i = Some old ->
  content old ++ concat (map content (<[i := new]> l))
  ≡ₚ content new ++ concat (map content l).
Proof using Type.
  revert i. induction l as [|b l IH]; intros i Hi; [discriminate|].
  destruct i as [|i]; simpl in *.
  - injection Hi as ->. rewrite !app_assoc.
    apply Permutation_app_tail, Permutation_app_comm.
  - rewrite !app_assoc.
    rewrite (Permutation_app_comm (content old) (content b)).
    rewrite (Permutation_app_comm (content new) (content b)).
    rewrite <- !app_assoc. apply Permutation_app_head. apply IH, Hi.
Qed.

(** [write] and [finalize] leave the save interval and the process
    alone. *)
Lemma write_frame (thread_id : nat) (psv : PSV) (w : SfenWriter.t PSV) :
  SfenWriter.died (SfenWriter.write thread_id psv w) = SfenWriter.died w /\
  SfenWriter.save_every (SfenWriter.write thread_id psv w)
  = SfenWriter.save_every w.
Proof using Type.
  unfold SfenWriter.write.
  destruct (SfenWriter.sfen_buffers w !! thread_id); [|split; reflexivity].
  destruct (_ >=? _); split; reflexivity.
Qed.

Lemma finalize_frame (thread_id : nat) (w : SfenWriter.t PSV) :
  SfenWriter.died (SfenWriter.finalize thread_id w) = SfenWriter.died w /\
  SfenWriter.save_every (SfenWriter.finalize thread_id w)
  = SfenWriter.save_every w.
Proof using Type.
  unfold SfenWriter.finalize.
  destruct (SfenWriter.sfen_buffers w !! thread_id) as [[buf|]|];
    [|split; reflexivity..].
  destruct (negb _); split; reflexivity.
Qed.

Lemma step_running (w : SfenWriter.t PSV) (e : SfenWriter.Event PSV) :
  running w -> running (SfenWriter.step w e).
Proof using Type.
  intros [Halive Hevery]. unfold SfenWriter.step. rewrite Halive.
  destruct e as [thread_id psv|thread_id|].
  - destruct (write_frame thread_id psv w) as [-> ->]. split; assumption.
  - destruct (finalize_frame thread_id w) as [-> ->]. split; assumption.
  - destruct (worker_pass_stored w (conj Halive Hevery)) as [Hd _].
    destruct (worker_pass_frame w) as (_ & _ & ->). split; assumption.
Qed.

Lemma run_running (events : list (SfenWriter.Event PSV))
    (w : SfenWriter.t PSV) :
  running w -> running (SfenWriter.run events w).
Proof using Type.
  revert w. induction events as [|e events IH]; intros w Hw; [exact Hw|].
  apply (IH (SfenWriter.step w e)), step_running, Hw.
Qed.

Lemma step_stored (w : SfenWriter.t PSV) (e : SfenWriter.Event PSV) :
  running w ->
  SfenWriter.stored (SfenWriter.step w e)
  ≡ₚ SfenWriter.stored w
     ++ SfenWriter.written (length (SfenWriter.sfen_buffers w)) [e] /\
  length (SfenWriter.sfen_buffers (SfenWriter.step w e))
  = length (SfenWriter.sfen_buffers w).
Proof using Type.
  intros Hw. unfold SfenWriter.step. rewrite (proj1 Hw).
  destruct e as [thread_id psv|thread_id|]; cbn [SfenWriter.written].
  - unfold SfenWriter.write.
    destruct (SfenWriter.sfen_buffers w !! thread_id) as [old|] eqn:Hold.
    + pose proof (lookup_lt_Some _ _ _ Hold) as Hlt.
      destruct (Nat.ltb_spec thread_id (length (SfenWriter.sfen_buffers w)));
        [|lia].
      destruct (_ >=? _).
      * split; [|cbn; apply length_insert].
        unfold SfenWriter.stored, SfenWriter.buffered. cbn.
        pose proof (buffered_insert _ _ _ None Hold) as Hperm. cbn in Hperm.
        rewrite concat_app. cbn [concat]. rewrite app_nil_r.
        rewrite <- Hperm. rewrite <- !app_assoc.
        do 3 apply Permutation_app_head. apply Permutation_app_comm.
      * split; [|cbn; apply length_insert].
        unfold SfenWriter.stored, SfenWriter.buffered. cbn.
        pose proof (buffered_insert _ _ _ (Some (content old ++ [psv])) Hold)
          as Hperm. cbn [from_option id] in Hperm.
        rewrite <- app_assoc in Hperm.
        apply Permutation_app_inv_l in Hperm. rewrite Hperm.
        rewrite <- !app_assoc. apply Permutation_app_head.
        apply Permutation_app_head.
        change (psv :: concat (map content (SfenWriter.sfen_buffers w)))
          with ([psv] ++ concat (map content (SfenWriter.sfen_buffers w))).
        apply Permutation_app_comm.
    + apply lookup_ge_None in Hold.
      destruct (Nat.ltb_spec thread_id (length (SfenWriter.sfen_buffers w)));
        [lia|].
      rewrite app_nil_r. split; reflexivity.
  - rewrite app_nil_r. unfold SfenWriter.finalize.
    destruct (SfenWriter.sfen_buffers w !! thread_id) as [[buf|]|] eqn:Hold;
      [|split; reflexivity..].
    destruct (negb _); [|split; reflexivity].
    split; [|cbn; apply length_insert].
    unfold SfenWriter.stored, SfenWriter.buffered. cbn.
    pose proof (buffered_insert _ _ _ None Hold) as Hperm. cbn in Hperm.
    rewrite concat_app. cbn [concat]. rewrite app_nil_r.
    rewrite <- Hperm. rewrite <- !app_assoc. reflexivity.
  - rewrite app_nil_r. destruct (worker_pass_stored w Hw) as (_ & Hs).
    destruct (worker_pass_frame w) as (Hb & _ & _).
    rewrite Hs, Hb. split; reflexivity.
Qed.

Lemma written_app (n : nat) (l1 l2 : list (SfenWriter.Event PSV)) :
  SfenWriter.written n (l1 ++ l2)
  = SfenWriter.written n l1 ++ SfenWriter.written n l2.
Proof using Type.
  induction l1 as [|[thread_id psv|thread_id|] l1 IH]; simpl;
    [reflexivity | | exact IH | exact IH].
  destruct (thread_id <? n)%nat; [rewrite IH; reflexivity | exact IH].
Qed.

Lemma run_stored (events : list (SfenWriter.Event PSV)) (w : SfenWriter.t PSV) :
  running w ->
  SfenWriter.stored (SfenWriter.run events w)
  ≡ₚ SfenWriter.stored w
     ++ SfenWriter.written (length (SfenWriter.sfen_buffers w)) events /\
  length (SfenWriter.sfen_buffers (SfenWriter.run events w))
  = length (SfenWriter.sfen_buffers w).
Proof using Type.
  revert w. induction events as [|e events IH]; intros w Hw.
  - simpl. rewrite app_nil_r. split; reflexivity.
  - change (e :: events) with ([e] ++ events). rewrite written_app.
    cbn [SfenWriter.run app fold_left].
    destruct (step_stored w e Hw) as [Hs Hl].
    destruct (IH (SfenWriter.step w e) (step_running w e Hw)) as [IHs IHl].
    unfold SfenWriter.run in IHs, IHl. rewrite IHs, IHl, Hl, Hs.
    rewrite <- app_assoc. split; reflexivity.
Qed.

(** After [finalize] the buffer of the thread holds no record, and the
    other buffers are as before. *)
Lemma finalize_empties (i j : nat) (w : SfenWriter.t PSV) :
  (i = j \/ (forall ob, SfenWriter.sfen_buffers w !! j = Some ob ->
                        content ob = [])) ->
  forall ob, SfenWriter.sfen_buffers (SfenWriter.finalize i w) !! j = Some ob ->
             content ob = [].
Proof using Type.
  intros Hij ob. unfold SfenWriter.finalize.
  destruct (SfenWriter.sfen_buffers w !! i) as [[buf|]|] eqn:Hi.
  - destruct (Nat.eqb_spec (length buf) 0) as [Hz|Hnz]; cbn [negb].
    + intros Hj. destruct Hij as [->|Hj']; [|apply Hj', Hj].
      rewrite Hi in Hj. injection Hj as <-. simpl.
      destruct buf; [reflexivity | discriminate].
    + cbn. destruct (decide (i = j)) as [->|Hne].
      * rewrite list_lookup_insert_eq by (eapply lookup_lt_Some, Hi).
        intros [= <-]. reflexivity.
      * rewrite list_lookup_insert_ne by exact Hne.
        destruct Hij as [->|Hj']; [congruence | apply Hj'].
  - intros Hj. destruct Hij as [->|Hj']; [|apply Hj', Hj].
    rewrite Hi in Hj. injection Hj as <-. reflexivity.
  - intros Hj. destruct Hij as [->|Hj']; [|apply Hj', Hj].
    rewrite Hi in Hj. discriminate.
Qed.

Lemma finalize_all_empties (steps : list nat) (w : SfenWriter.t PSV) (j : nat) :
  SfenWriter.died w = false ->
  (j ∈ steps \/ (forall ob, SfenWriter.sfen_buffers w !! j = Some ob ->
                            content ob = [])) ->
  forall ob,
    SfenWriter.sfen_buffers
      (fold_left SfenWriter.step (map SfenWriter.ev_finalize steps) w) !! j
    = Some ob ->
    content ob = [].
Proof using Type.
  revert w. induction steps as [|i steps IH]; intros w Halive Hj.
  - destruct Hj as [Hj|Hj]; [inversion Hj | exact Hj].
  - cbn [map fold_left]. unfold SfenWriter.step at 2. rewrite Halive.
    apply IH; [rewrite (proj1 (finalize_frame i w)); exact Halive|].
    destruct Hj as [Hj|Hj].
    + apply elem_of_cons in Hj as [->|Hj]; [|left; exact Hj].
      right. apply finalize_empties. left. reflexivity.
    + right. apply finalize_empties. right. exact Hj.
Qed.

Lemma concat_all_empty (l : list (option (list PSV))) :
  (forall j ob, l !! j = Some ob -> content ob = []) ->
  concat (map content l) = [].
Proof using Type.
  induction l as [|b l IH]; intros H; [reflexivity|].
  simpl. rewrite (H 0%nat b eq_refl). simpl. apply IH.
  intros j ob Hj. apply (H (S j)). exact Hj.
Qed.

(** X19. With a save interval other than 0 the sample writer neither
    loses nor duplicates a record: in every run of the generator threads
    and the writer thread the process stays alive, and the records held in
    the output files, in the pool and in the threads' buffers are together
    exactly the records passed to [write] so far; and when every thread
    has called [finalize] and the writer thread has made its last pass,
    the pool and the buffers are empty and the output files hold exactly
    the records written. *)
Theorem SfenWriter_keeps_every_record (thread_num : nat) (save_every : Z)
    (events : list (SfenWriter.Event PSV)) :
  0 < save_every ->
  let w := SfenWriter.run events (SfenWriter.construct thread_num save_every) in
  let w' := SfenWriter.run (SfenWriter.shutdown thread_num) w in
  SfenWriter.died w' = false /\
  SfenWriter.stored w ≡ₚ SfenWriter.written thread_num events /\
  SfenWriter.sfen_buffers_pool w' = [] /\
  SfenWriter.buffered w' = [] /\
  concat (SfenWriter.files w') ≡ₚ SfenWriter.written thread_num events.
Proof using Type.
  intros Hevery w w'.
  assert (H0 : running (SfenWriter.construct (PSV:=PSV) thread_num save_every)).
  { split; [reflexivity|]. cbn. lia. }
  assert (Hw : running w) by (apply run_running, H0).
  assert (Hw'run : running w') by (apply run_running, Hw).
  split; [apply Hw'run|].
  destruct (run_stored events (SfenWriter.construct thread_num save_every) H0)
    as [Hs Hl]. fold w in Hs, Hl.
  assert (Hn : length (SfenWriter.sfen_buffers w) = thread_num).
  { rewrite Hl. cbn. apply length_replicate. }
  assert (Hstored : SfenWriter.stored w ≡ₚ SfenWriter.written thread_num events).
  { rewrite Hs. cbn [SfenWriter.construct SfenWriter.sfen_buffers].
    rewrite length_replicate.
    replace (SfenWriter.stored (SfenWriter.construct thread_num save_every))
      with (@nil PSV); [reflexivity|].
    unfold SfenWriter.stored, SfenWriter.buffered. cbn.
    symmetry. apply concat_all_empty. intros j ob Hj.
    apply lookup_replicate in Hj as [-> _]. reflexivity. }
  split; [exact Hstored|].
  set (w1 := fold_left SfenWriter.step
               (map SfenWriter.ev_finalize (seq 0 thread_num)) w).
  assert (Hw1 : running w1) by (apply (run_running _ w), Hw).
  assert (Hw' : w' = SfenWriter.file_write_worker_pass w1).
  { subst w'. unfold SfenWriter.run, SfenWriter.shutdown.
    rewrite fold_left_app. fold w1. cbn [fold_left].
    unfold SfenWriter.step. rewrite (proj1 Hw1). reflexivity. }
  destruct (worker_pass_frame w1) as (Hb1 & Hp1 & _).
  assert (Hbuf : SfenWriter.buffered w' = []).
  { rewrite Hw'. unfold SfenWriter.buffered. rewrite Hb1.
    apply concat_all_empty. intros j ob Hj.
    assert (Hjlt : (j < thread_num)%nat).
    { pose proof (lookup_lt_Some _ _ _ Hj) as Hlt.
      destruct (run_stored (map SfenWriter.ev_finalize (seq 0 thread_num)) w Hw)
        as [_ Hlen]. unfold SfenWriter.run in Hlen. fold w1 in Hlen. lia. }
    subst w1. eapply finalize_all_empties; [apply Hw| |exact Hj].
    left. apply elem_of_seq. lia. }
  split; [rewrite Hw'; exact Hp1|]. split; [exact Hbuf|].
  destruct (run_stored (SfenWriter.shutdown thread_num) w Hw) as [Hs' _].
  fold w' in Hs'.
  assert (Hquiet : SfenWriter.written (length (SfenWriter.sfen_buffers w))
                     (SfenWriter.shutdown thread_num) = @nil PSV).
  { unfold SfenWriter.shutdown. rewrite written_app. cbn.
    rewrite app_nil_r. generalize (seq 0 thread_num) as l.
    induction l as [|i l IH]; [reflexivity | exact IH]. }
  rewrite Hquiet, app_nil_r in Hs'. rewrite <- Hstored, <- Hs'.
  assert (Hpool : SfenWriter.sfen_buffers_pool w' = []).
  { rewrite Hw'. exact Hp1. }
  unfold SfenWriter.stored. rewrite Hbuf, Hpool.
  cbn [concat]. rewrite !app_nil_r. reflexivity.
Qed.

Lemma step_bounded (w : SfenWriter.t PSV) (e : SfenWriter.Event PSV) :
  buffers_bounded w -> buffers_bounded (SfenWriter.step w e).
Proof using Type.
  intros [Hb Hp]. unfold SfenWriter.step.
  destruct (SfenWriter.died w); [split; assumption|].
  destruct e as [thread_id psv|thread_id|].
  - unfold SfenWriter.write.
    destruct (SfenWriter.sfen_buffers w !! thread_id) as [old|] eqn:Hold;
      [|split; assumption].
    assert (Hlen : Z.of_nat (length (content old ++ [psv]))
                   <= SfenWriter.SFEN_WRITE_SIZE
                   /\ 0 < Z.of_nat (length (content old ++ [psv]))).
    { rewrite length_app. cbn [length].
      rewrite Forall_forall in Hb.
      specialize (Hb old (list_elem_of_lookup_2 _ _ _ Hold)).
      destruct old as [buf|]; cbn; unfold SfenWriter.SFEN_WRITE_SIZE in *; lia. }
    destruct (Z.geb_spec (Z.of_nat (length (content old ++ [psv])))
                SfenWriter.SFEN_WRITE_SIZE) as [Hfull|Hroom].
    + split; cbn.
      * apply Forall_insert; [exact Hb | exact I].
      * apply Forall_app. split; [exact Hp|].
        apply Forall_cons_2; [lia | apply Forall_nil_2].
    + split; cbn; [|exact Hp]. apply Forall_insert; [exact Hb | lia].
  - unfold SfenWriter.finalize.
    destruct (SfenWriter.sfen_buffers w !! thread_id) as [[buf|]|] eqn:Hold;
      [|split; assumption..].
    destruct (negb _); [|split; assumption].
    split; cbn.
    + apply Forall_insert; [exact Hb | exact I].
    + apply Forall_app. split; [exact Hp|].
      apply Forall_cons_2; [|apply Forall_nil_2].
      rewrite Forall_forall in Hb.
      specialize (Hb _ (list_elem_of_lookup_2 _ _ _ Hold)). cbn in Hb. lia.
  - destruct (worker_pass_frame w) as (Hbuf & Hpool & _).
    split; [rewrite Hbuf; exact Hb | rewrite Hpool; constructor].
Qed.

(** X20. No buffer of the sample writer grows beyond the flush size: in
    every run, a thread's buffer is either absent or holds at least one
    and fewer than [SFEN_WRITE_SIZE] records (it is handed to the pool by
    the [write] that fills it), and every buffer waiting in the pool holds
    at most [SFEN_WRITE_SIZE] records. *)
Theorem SfenWriter_buffers_bounded (thread_num : nat) (save_every : Z)
    (events : list (SfenWriter.Event PSV)) :
  let w := SfenWriter.run events (SfenWriter.construct thread_num save_every) in
  Forall (fun ob => match ob with
                    | Some buf => 0 < Z.of_nat (length buf)
                                  < SfenWriter.SFEN_WRITE_SIZE
                    | None => True
                    end) (SfenWriter.sfen_buffers w) /\
  Forall (fun buf => 0 < Z.of_nat (length buf) <= SfenWriter.SFEN_WRITE_SIZE)
         (SfenWriter.sfen_buffers_pool w).
Proof using Type.
  cbv zeta. unfold SfenWriter.run.
  assert (H0 : buffers_bounded (SfenWriter.construct (PSV:=PSV) thread_num save_every)).
  { split; cbn; [|constructor]. apply Forall_replicate. exact I. }
  revert H0. generalize (SfenWriter.construct (PSV:=PSV) thread_num save_every) as w.
  induction events as [|e events IH]; intros w Hw; [exact Hw|].
  cbn [fold_left]. apply IH, step_bounded, Hw.
Qed.

End SfenWriterProperties.

Lemma SfenWriter_keeps_every_record_witness :
  let w := SfenWriter.run sample_writes (SfenWriter.construct 2 3) in
  let w' := SfenWriter.run (SfenWriter.shutdown 2) w in
  SfenWriter.died w' = false /\
  SfenWriter.stored w ≡ₚ SfenWriter.written 2 sample_writes /\
  SfenWriter.sfen_buffers_pool w' = [] /\
  SfenWriter.buffered w' = [] /\
  concat (SfenWriter.files w') ≡ₚ SfenWriter.written 2 sample_writes.
Proof.
  apply (SfenWriter_keeps_every_record 2 3 sample_writes). lia.
Defined.

(** Two threads, a file change after every three records. *)
Example SfenWriter_run :
  let w := SfenWriter.run (sample_writes ++ SfenWriter.shutdown 2)
             (SfenWriter.construct 2 3) in
  SfenWriter.files w = [[1; 3; 2; 4]; []] /\
  SfenWriter.sfen_write_count w = 4 /\ SfenWriter.died w = false.
Proof. vm_compute. repeat split; reflexivity. Qed.

(** The same run with a save interval of 0: the writer thread writes the
    first buffer it took from the pool and dies of the division; the
    records of the second buffer and those in the buffers of the threads
    never reach a file. *)
Example SfenWriter_dies_without_save_interval :
  let w := SfenWriter.run
             ([SfenWriter.ev_write 0 1; SfenWriter.ev_write 1 2;
               SfenWriter.ev_finalize 0; SfenWriter.ev_finalize 1;
               SfenWriter.ev_write 0 3; SfenWriter.ev_worker_pass;
               SfenWriter.ev_write 1 4]
              ++ SfenWriter.shutdown 2)
             (SfenWriter.construct 2 0) in
  SfenWriter.died w = true /\ SfenWriter.files w = [[1]] /\
  SfenWriter.stored w = [1; 3].
Proof. vm_compute. repeat split; reflexivity. Qed.


(** ** The sample reader *)

Lemma shuffle_block_Permutation {T} (no_shuffle : bool) (sfens : list T)
    (prng : PRNG.t) :
  Permutation (fst (shuffle_block no_shuffle sfens prng)) sfens /\
  (no_shuffle = true -> fst (shuffle_block no_shuffle sfens prng) = sfens).
Proof.
  unfold shuffle_block. destruct no_shuffle; simpl.
  - split; reflexivity.
  - split; [|discriminate]. unfold Algo.shuffle.
    apply (shuffle_loop_Permutation _ _ (sfens, prng)).
Qed.

Lemma split_block_prefix {PSV : Type} (sfens : list PSV) (m : nat) :
  Z.of_nat m * SfenReader.THREAD_BUFFER_SIZE < 2 ^ 64 ->
  concat (map (fun i =>
                 take (Z.to_nat SfenReader.THREAD_BUFFER_SIZE)
                   (drop (Z.to_nat (wrap64 (i * SfenReader.THREAD_BUFFER_SIZE)))
                      sfens))
              (seqZ 0 (Z.of_nat m)))
  = take (m * Z.to_nat SfenReader.THREAD_BUFFER_SIZE) sfens.
Proof.
  unfold SfenReader.THREAD_BUFFER_SIZE. induction m as [|m IH]; intros Hfit.
  - rewrite seqZ_nil by lia. reflexivity.
  - rewrite seqZ_S, map_app, concat_app, IH by lia.
    cbn [map concat]. rewrite app_nil_r, Z.add_0_l.
    rewrite wrap64_small by lia.
    replace (Z.to_nat (Z.of_nat m * (10 * 1000)))
      with (m * Z.to_nat (10 * 1000))%nat by lia.
    rewrite take_take_drop. f_equal. lia.
Qed.

Lemma split_block_spec {PSV : Type} (SFEN_READ_SIZE k : Z) (sfens : list PSV) :
  0 <= k -> SFEN_READ_SIZE = k * SfenReader.THREAD_BUFFER_SIZE ->
  SFEN_READ_SIZE < 2 ^ 64 -> Z.of_nat (length sfens) = SFEN_READ_SIZE ->
  concat (SfenReader.split_block SFEN_READ_SIZE sfens) = sfens /\
  Forall (fun buf => Z.of_nat (length buf) = SfenReader.THREAD_BUFFER_SIZE)
    (SfenReader.split_block SFEN_READ_SIZE sfens) /\
  Z.of_nat (length (SfenReader.split_block SFEN_READ_SIZE sfens)) = k.
Proof.
  intros Hk HS Hfit Hlen. unfold SfenReader.split_block, indices.
  assert (Hdiv : SFEN_READ_SIZE / SfenReader.THREAD_BUFFER_SIZE = k).
  { rewrite HS. apply Z.div_mul. discriminate. }
  rewrite Hdiv.
  assert (HT : SfenReader.THREAD_BUFFER_SIZE = 10000) by reflexivity.
  split; [|split].
  - rewrite <- (Z2Nat.id k) by lia.
    rewrite (split_block_prefix sfens (Z.to_nat k)) by lia.
    apply take_ge. nia.
  - apply Forall_map, Forall_forall. intros i Hi. apply elem_of_seqZ in Hi.
    cbv beta. rewrite wrap64_small by nia.
    rewrite length_take, length_drop. nia.
  - rewrite length_map, length_seqZ. lia.
Qed.

Lemma file_read_worker_loop_spec {PSV : Type} (SFEN_READ_SIZE k : Z)
    (no_shuffle : bool) (fuel : nat) :
  0 < k -> SFEN_READ_SIZE = k * SfenReader.THREAD_BUFFER_SIZE ->
  forall (stream : list PSV) (prng : PRNG.t) (pool : list (list PSV)),
  (length stream <= fuel)%nat -> Z.of_nat (length stream) < 2 ^ 64 ->
  exists new,
    fst (SfenReader.file_read_worker_loop SFEN_READ_SIZE fuel no_shuffle
           stream prng pool) = pool ++ new /\
    Forall (fun buf => Z.of_nat (length buf) = SfenReader.THREAD_BUFFER_SIZE)
      new /\
    Z.of_nat (length new)
    = Z.of_nat (length stream) / SFEN_READ_SIZE * k /\
    concat new
    ≡ₚ take (Z.to_nat (Z.of_nat (length stream) / SFEN_READ_SIZE
                       * SFEN_READ_SIZE)) stream /\
    (no_shuffle = true ->
     concat new
     = take (Z.to_nat (Z.of_nat (length stream) / SFEN_READ_SIZE
                       * SFEN_READ_SIZE)) stream).
Proof.
  intros Hk HS.
  assert (HSpos : 0 < SFEN_READ_SIZE).
  { rewrite HS. unfold SfenReader.THREAD_BUFFER_SIZE. lia. }
  induction fuel as [|fuel IH]; intros stream prng pool Hfuel Hfit.
  - exists []. destruct stream; [|simpl in Hfuel; lia].
    cbn. rewrite app_nil_r, Z.div_0_l by lia.
    repeat split; constructor.
  - cbn [SfenReader.file_read_worker_loop].
    destruct (Z.ltb_spec (Z.of_nat (length stream)) SFEN_READ_SIZE)
      as [Hshort|Hfull].
    + exists []. rewrite app_nil_r, Z.div_small by lia. cbn.
      repeat split; constructor.
    + set (block := take (Z.to_nat SFEN_READ_SIZE) stream).
      set (rest := drop (Z.to_nat SFEN_READ_SIZE) stream).
      destruct (shuffle_block_Permutation no_shuffle block prng)
        as [Hperm Hsame].
      destruct (shuffle_block no_shuffle block prng) as [sfens prng'] eqn:Esh.
      cbn [fst] in Hperm, Hsame.
      assert (Hblock : Z.of_nat (length block) = SFEN_READ_SIZE).
      { subst block. rewrite length_take. lia. }
      assert (Hsfens : Z.of_nat (length sfens) = SFEN_READ_SIZE).
      { rewrite (Permutation_length Hperm). exact Hblock. }
      assert (Hrest : Z.of_nat (length rest)
                      = Z.of_nat (length stream) - SFEN_READ_SIZE).
      { subst rest. rewrite length_drop. lia. }
      destruct (split_block_spec SFEN_READ_SIZE k sfens ltac:(lia) HS
                  ltac:(lia) Hsfens) as (Hcat & Hall & Hnum).
      destruct (IH rest prng' (pool ++ SfenReader.split_block SFEN_READ_SIZE sfens))
        as (new & E & Hnew & Hcount & Hp & Hs); [lia | lia |].
      assert (Hq : Z.of_nat (length rest) / SFEN_READ_SIZE
                   = Z.of_nat (length stream) / SFEN_READ_SIZE - 1).
      { rewrite Hrest.
        replace (Z.of_nat (length stream) - SFEN_READ_SIZE)
          with (Z.of_nat (length stream) + (-1) * SFEN_READ_SIZE) by lia.
        rewrite Z.div_add by lia. lia. }
      assert (Hq1 : 1 <= Z.of_nat (length stream) / SFEN_READ_SIZE).
      { apply Z.div_le_lower_bound; lia. }
      assert (Htake : take (Z.to_nat (Z.of_nat (length stream) / SFEN_READ_SIZE
                                      * SFEN_READ_SIZE)) stream
                      = block ++ take (Z.to_nat (Z.of_nat (length rest)
                                                 / SFEN_READ_SIZE
                                                 * SFEN_READ_SIZE)) rest).
      { subst block rest. rewrite take_take_drop. f_equal. rewrite Hq. nia. }
      exists (SfenReader.split_block SFEN_READ_SIZE sfens ++ new).
      rewrite E, <- app_assoc. split; [reflexivity|]. split.
      { apply Forall_app. split; assumption. }
      split.
      { rewrite length_app, Nat2Z.inj_add, Hnum, Hcount, Hq. lia. }
      rewrite concat_app, Hcat, Htake. split.
      * rewrite Hperm, Hp. reflexivity.
      * intros Hno. rewrite (Hsame Hno), (Hs Hno). reflexivity.
Qed.

(** X21. The file worker of the reader hands out whole blocks only: with
    [SFEN_READ_SIZE] a positive multiple of [THREAD_BUFFER_SIZE], every
    buffer it puts into the pool holds exactly [THREAD_BUFFER_SIZE]
    records, and together the buffers hold the records of the first
    [n / SFEN_READ_SIZE] blocks of the input (the files taken from the
    back of [filenames]), each once: shuffled within a block, in the order
    of the files if [no_shuffle] is set.  The records after the last whole
    block, up to [SFEN_READ_SIZE - 1] of them, are read and dropped. *)
Theorem file_read_worker_delivers_whole_blocks {PSV : Type}
    (SFEN_READ_SIZE k : Z) (no_shuffle : bool) (files : list (list PSV))
    (prng : PRNG.t) :
  0 < k -> SFEN_READ_SIZE = k * SfenReader.THREAD_BUFFER_SIZE ->
  Z.of_nat (length (concat (rev files))) < 2 ^ 64 ->
  let stream := concat (rev files) in
  let blocks := Z.of_nat (length stream) / SFEN_READ_SIZE in
  let pool :=
    fst (SfenReader.file_read_worker SFEN_READ_SIZE no_shuffle files prng) in
  Forall (fun buf => Z.of_nat (length buf) = SfenReader.THREAD_BUFFER_SIZE)
    pool /\
  Z.of_nat (length pool) = blocks * k /\
  concat pool ≡ₚ take (Z.to_nat (blocks * SFEN_READ_SIZE)) stream /\
  (no_shuffle = true ->
   concat pool = take (Z.to_nat (blocks * SFEN_READ_SIZE)) stream).
Proof.
  intros Hk HS Hfit stream blocks pool.
  destruct (file_read_worker_loop_spec SFEN_READ_SIZE k no_shuffle
              (length stream) Hk HS stream prng [] ltac:(lia) Hfit)
    as (new & E & Hall & Hnum & Hp & Hs).
  subst pool. unfold SfenReader.file_read_worker. fold stream.
  rewrite E. cbn [app]. repeat split; assumption.
Qed.

Lemma file_read_worker_delivers_whole_blocks_witness :
  let stream := concat (rev sample_files) in
  let blocks := Z.of_nat (length stream) / 10000 in
  let pool := fst (SfenReader.file_read_worker 10000 true sample_files 1) in
  Forall (fun buf => Z.of_nat (length buf) = SfenReader.THREAD_BUFFER_SIZE)
    pool /\
  Z.of_nat (length pool) = blocks * 1 /\
  concat pool ≡ₚ take (Z.to_nat (blocks * 10000)) stream /\
  (true = true -> concat pool = take (Z.to_nat (blocks * 10000)) stream).
Proof.
  apply (file_read_worker_delivers_whole_blocks 10000 1 true sample_files 1).
  - lia.
  - reflexivity.
  - vm_compute. reflexivity.
Defined.

(** The five records after the whole block of the sample files are not
    delivered. *)
Example file_read_worker_drops_tail :
  Z.of_nat (length (concat (rev sample_files))) = 10005 /\
  Z.of_nat
    (length (concat (fst (SfenReader.file_read_worker 10000 true
                            sample_files 1))))
  = 10000.
Proof. vm_compute. split; reflexivity. Qed.

Lemma take_back_held {PSV : Type} (thread_id : nat) (r : SfenReader.t PSV) :
  match fst (SfenReader.take_back thread_id r) with
  | SfenReader.Got ps => [ps]
  | _ => []
  end ++ SfenReader.held (snd (SfenReader.take_back thread_id r))
  ≡ₚ SfenReader.held r.
Proof.
  unfold SfenReader.take_back.
  destruct (SfenReader.packed_sfens r !! thread_id) as [[thread_ps|]|] eqn:Hb;
    [|reflexivity..].
  destruct thread_ps as [|x l] using rev_ind; [reflexivity|]. clear IHl.
  rewrite map_app. cbn [map]. rewrite last_last, removelast_last.
  cbn [fst snd]. unfold SfenReader.held.
  cbn [SfenReader.packed_sfens SfenReader.packed_sfens_pool].
  pose proof (buffered_insert (SfenReader.packed_sfens r) thread_id
                (Some (l ++ [x]))
                (if (length l =? 0)%nat then None else Some l) Hb) as Hperm.
  assert (Hnew : from_option id []
                   (if (length l =? 0)%nat then None else Some l) = l).
  { destruct l; reflexivity. }
  rewrite Hnew in Hperm. cbn [from_option id] in Hperm.
  rewrite <- app_assoc in Hperm. apply Permutation_app_inv_l in Hperm.
  rewrite <- Hperm.
  rewrite (Permutation_app_comm [x]), <- !app_assoc.
  apply Permutation_app_head.
  rewrite (Permutation_app_comm [x]). reflexivity.
Qed.

Lemma read_to_thread_buffer_held {PSV : Type} (thread_id : nat)
    (r : SfenReader.t PSV) :
  (thread_id < length (SfenReader.packed_sfens r))%nat ->
  match fst (SfenReader.read_to_thread_buffer thread_id r) with
  | SfenReader.Got ps => [ps]
  | _ => []
  end ++ SfenReader.held (snd (SfenReader.read_to_thread_buffer thread_id r))
  ≡ₚ SfenReader.held r /\
  length (SfenReader.packed_sfens
            (snd (SfenReader.read_to_thread_buffer thread_id r)))
  = length (SfenReader.packed_sfens r).
Proof.
  intros Hid.
  assert (Hlen : forall r' : SfenReader.t PSV,
             length (SfenReader.packed_sfens
                       (snd (SfenReader.take_back thread_id r')))
             = length (SfenReader.packed_sfens r')).
  { intros r'. unfold SfenReader.take_back.
    destruct (SfenReader.packed_sfens r' !! thread_id) as [[thread_ps|]|];
      [|reflexivity..].
    destruct (List.last (map Some thread_ps) None); [|reflexivity].
    cbn. apply length_insert. }
  unfold SfenReader.read_to_thread_buffer.
  destruct (lookup_lt_is_Some_2 _ _ Hid) as [old Hold]. rewrite Hold.
  set (empty := match old with
                | Some thread_ps => (length thread_ps =? 0)%nat
                | None => true
                end).
  destruct empty eqn:Hempty; [|split; [apply take_back_held | apply Hlen]].
  assert (Hcontent : from_option id [] old = []).
  { subst empty. destruct old as [[|x l]|]; [reflexivity | discriminate |
                                             reflexivity]. }
  unfold SfenReader.read_to_thread_buffer_impl.
  destruct (SfenReader.packed_sfens_pool r) as [|front pool] eqn:Hpool.
  - destruct (SfenReader.end_of_files r); split; reflexivity.
  - set (r1 := {| SfenReader.packed_sfens := _ |}).
    split; [|rewrite Hlen; subst r1; cbn; apply length_insert].
    rewrite take_back_held. subst r1. unfold SfenReader.held.
    cbn [SfenReader.packed_sfens SfenReader.packed_sfens_pool].
    rewrite Hpool. cbn [concat].
    pose proof (buffered_insert (SfenReader.packed_sfens r) thread_id old
                  (Some front) Hold) as Hperm.
    rewrite Hcontent in Hperm. cbn [app from_option id] in Hperm.
    rewrite Hperm. rewrite !app_assoc.
    apply Permutation_app_tail. apply Permutation_app_comm.
Qed.

(** X22. Handing the records out to the learner threads loses and
    duplicates nothing: whatever the order in which the threads call
    [read_to_thread_buffer], the records they obtain together with the
    records still held in the pool and in the threads' buffers are the
    records held before, each once; and a thread whose buffer is not empty
    is always given a record. *)
Theorem read_to_thread_buffer_keeps_every_record {PSV : Type}
    (thread_ids : list nat) (r : SfenReader.t PSV) :
  Forall (fun thread_id => (thread_id < length (SfenReader.packed_sfens r))%nat)
    thread_ids ->
  fst (SfenReader.read_all thread_ids r)
  ++ SfenReader.held (snd (SfenReader.read_all thread_ids r))
  ≡ₚ SfenReader.held r /\
  (forall thread_id thread_ps ps,
     SfenReader.packed_sfens r !! thread_id = Some (Some (thread_ps ++ [ps])) ->
     fst (SfenReader.read_to_thread_buffer thread_id r) = SfenReader.Got ps).
Proof.
  intros Hids. split.
  - revert r Hids. induction thread_ids as [|thread_id thread_ids IH];
      intros r Hids; [reflexivity|].
    pose proof (Forall_inv Hids) as Hid. apply Forall_inv_tail in Hids.
    destruct (read_to_thread_buffer_held thread_id r Hid) as [Hstep Hlen].
    cbn [SfenReader.read_all].
    destruct (SfenReader.read_to_thread_buffer thread_id r) as [result r1].
    cbn [fst snd] in Hstep, Hlen.
    specialize (IH r1). rewrite Hlen in IH. specialize (IH Hids).
    destruct (SfenReader.read_all thread_ids r1) as [got r2].
    cbn [fst snd] in *. rewrite <- Hstep, <- IH.
    destruct result; cbn [app]; reflexivity.
  - intros thread_id thread_ps ps Hb.
    unfold SfenReader.read_to_thread_buffer. rewrite Hb.
    rewrite length_app. cbn [length].
    destruct (Nat.eqb_spec (length thread_ps + 1) 0); [lia|].
    unfold SfenReader.take_back. rewrite Hb, map_app. cbn [map].
    rewrite last_last. reflexivity.
Qed.

Lemma read_to_thread_buffer_keeps_every_record_witness :
  fst (SfenReader.read_all [0; 1; 1; 0; 1; 1; 0]%nat sample_reader)
  ++ SfenReader.held (snd (SfenReader.read_all [0; 1; 1; 0; 1; 1; 0]%nat
                             sample_reader))
  ≡ₚ SfenReader.held sample_reader /\
  (forall thread_id thread_ps ps,
     SfenReader.packed_sfens sample_reader !! thread_id
     = Some (Some (thread_ps ++ [ps])) ->
     fst (SfenReader.read_to_thread_buffer thread_id sample_reader)
     = SfenReader.Got ps).
Proof.
  apply (read_to_thread_buffer_keeps_every_record
           [0; 1; 1; 0; 1; 1; 0]%nat sample_reader).
  repeat apply Forall_cons_2; try apply Forall_nil_2; simpl; lia.
Defined.

(** The calls of the witness: each buffer is handed out from its back, the
    fourth call of thread 1 fails since the pool is empty and the files
    are at their end, although thread 0 had a record left. *)
Example read_all_run :
  fst (SfenReader.read_all [0; 1; 1; 0; 1; 1; 0]%nat sample_reader)
  = [2; 5; 4; 1; 3] /\
  fst (SfenReader.read_to_thread_buffer 1
         (snd (SfenReader.read_all [0; 1; 1; 0; 1]%nat sample_reader)))
  = SfenReader.Failed.
Proof. split; reflexivity. Qed.


(** ** The shuffle command *)

Lemma concat_insert_perm {A : Type} (l : list (list A)) (i : nat)
    (old new : list A) :
  l !! i = Some old ->
  old ++ concat (<[i := new]> l) ≡ₚ new ++ concat l.
Proof.
  revert i. induction l as [|b l IH]; intros i Hi; [discriminate|].
  destruct i as [|i]; simpl in *.
  - injection Hi as ->. rewrite !app_assoc.
    apply Permutation_app_tail, Permutation_app_comm.
  - rewrite !app_assoc.
    rewrite (Permutation_app_comm old b), (Permutation_app_comm new b).
    rewrite <- !app_assoc. apply Permutation_app_head. apply IH, Hi.
Qed.

Lemma sumZ_alter (f : Z -> Z) (counts : list Z) (i : nat) (c : Z) :
  counts !! i = Some c -> sumZ (alter f i counts) = sumZ counts - c + f c.
Proof.
  unfold sumZ. revert i.
  induction counts as [|x counts IH]; intros i Hi; [discriminate|].
  destruct i as [|i]; simpl in *.
  - injection Hi as ->. lia.
  - specialize (IH i Hi).
    change (list_alter f i counts) with (alter f i counts). lia.
Qed.

Lemma sumZ_lookup_le (counts : list Z) (i : nat) (c : Z) :
  Forall (fun c => 0 <= c) counts -> counts !! i = Some c -> c <= sumZ counts.
Proof.
  unfold sumZ. revert i.
  induction counts as [|x counts IH]; intros i Hc Hi; [discriminate|].
  pose proof (Forall_inv Hc) as Hx. cbv beta in Hx.
  apply Forall_inv_tail in Hc.
  pose proof (sumZ_nonneg counts Hc) as Hs. unfold sumZ in Hs.
  destruct i as [|i]; simpl in *.
  - injection Hi as ->. lia.
  - specialize (IH i Hc Hi). lia.
Qed.

Lemma sumZ_lengths {A : Type} (l : list (list A)) :
  sumZ (map (fun s => Z.of_nat (length s)) l) = Z.of_nat (length (concat l)).
Proof.
  unfold sumZ. induction l as [|s l IH]; simpl; [reflexivity|].
  rewrite IH, length_app. lia.
Qed.

Lemma total_sfen_count_sum (counts : list Z) (total : Z) :
  Forall (fun c => 0 <= c) counts -> 0 <= total ->
  total + sumZ counts < 2 ^ 64 ->
  fold_left (fun total c => wrap64 (total + c)) counts total
  = total + sumZ counts.
Proof.
  revert total. induction counts as [|c counts IH]; intros total Hc Ht Hfit.
  - simpl. lia.
  - change (sumZ (c :: counts)) with (c + sumZ counts) in *.
    cbn [fold_left].
    pose proof (Forall_inv Hc) as Hc0. cbv beta in Hc0.
    apply Forall_inv_tail in Hc.
    pose proof (sumZ_nonneg counts Hc) as Hs.
    rewrite (wrap64_small (total + c)) by lia.
    rewrite IH by (try assumption; lia). lia.
Qed.

(** The inner loop of [shuffle_write] stops inside the vector, at a file
    that has records left. *)
Lemma pick_file_spec (counts : list Z) (r : Z) (k : nat) :
  Forall (fun c => 0 <= c) counts -> 0 <= r < sumZ counts -> r < 2 ^ 64 ->
  exists i c,
    Shuffle.pick_file counts r k = Some (k + i)%nat /\
    counts !! i = Some c /\ 0 < c.
Proof.
  revert r k. induction counts as [|c counts IH]; intros r k Hc Hr Hfit;
    [simpl in Hr; lia|].
  change (sumZ (c :: counts)) with (c + sumZ counts) in *.
  cbn [Shuffle.pick_file].
  pose proof (Forall_inv Hc) as Hc0. cbv beta in Hc0.
    apply Forall_inv_tail in Hc.
  pose proof (sumZ_nonneg counts Hc) as Hs.
  destruct (Z.leb_spec c r) as [Hle|Hgt].
  - rewrite (wrap64_small (r - c)) by lia.
    destruct (IH (r - c) (S k) Hc ltac:(lia) ltac:(lia)) as (i & c' & E & Hi & Hpos).
    exists (S i), c'. split; [rewrite E; f_equal; lia|]. split; assumption.
  - exists 0%nat, c. split; [f_equal; lia|]. split; [reflexivity | lia].
Qed.

Lemma shuffle_write_step_spec {PSV : Type} (st : Shuffle.State PSV) :
  counts_match st -> Shuffle.sfen_count_left st <> 0 ->
  exists st',
    Shuffle.shuffle_write_step st = Some st' /\ counts_match st' /\
    Shuffle.sfen_count_left st' = Shuffle.sfen_count_left st - 1 /\
    Shuffle.output st' ++ concat (Shuffle.sfen_file_streams st')
    ≡ₚ Shuffle.output st ++ concat (Shuffle.sfen_file_streams st).
Proof.
  intros (Hc & Hl & Hfit) Hne.
  assert (Hnn : Forall (fun c => 0 <= c) (Shuffle.sfen_count_in_file st)).
  { rewrite Hc. apply Forall_map, Forall_forall. intros s _. simpl. lia. }
  pose proof (sumZ_nonneg _ Hnn) as Hsum.
  unfold Shuffle.shuffle_write_step.
  pose proof (rand_below (Shuffle.sfen_count_left st) (Shuffle.prng st)
                ltac:(lia)) as Hr.
  destruct (PRNG.rand (Shuffle.sfen_count_left st) (Shuffle.prng st))
    as [r prng'] eqn:Er. cbn [fst] in Hr.
  destruct (pick_file_spec (Shuffle.sfen_count_in_file st) r 0 Hnn
              ltac:(lia) ltac:(lia)) as (i & c & E & Hi & Hpos).
  rewrite E. cbn [Nat.add].
  assert (Hs : exists s, Shuffle.sfen_file_streams st !! i = Some s
                         /\ Z.of_nat (length s) = c).
  { rewrite Hc, list_lookup_fmap in Hi.
    destruct (Shuffle.sfen_file_streams st !! i) as [s|]; [|discriminate].
    exists s. split; [reflexivity|]. simpl in Hi. congruence. }
  destruct Hs as (s & Hs & Hlen). rewrite Hs.
  pose proof (sumZ_lookup_le _ _ _ Hnn Hi) as Hcle.
  destruct s as [|psv rest]; [simpl in Hlen; lia|].
  assert (Hrest : Z.of_nat (length rest) = c - 1).
  { cbn [length] in Hlen. lia. }
  eexists. split; [reflexivity|].
  cbn [Shuffle.sfen_file_streams Shuffle.sfen_count_in_file
       Shuffle.sfen_count_left Shuffle.output].
  assert (Hcounts : alter (fun c => wrap64 (c - 1)) i
                      (Shuffle.sfen_count_in_file st)
                    = map (fun s => Z.of_nat (length s))
                        (<[i := rest]> (Shuffle.sfen_file_streams st))).
  { rewrite Hc. apply list_eq. intros j.
    rewrite list_lookup_alter, !list_lookup_fmap.
    destruct (decide (i = j)) as [<-|Hij].
    - rewrite list_lookup_insert_eq by (eapply lookup_lt_Some, Hs).
      rewrite Hs.
      change (Some (wrap64 (Z.of_nat (length (psv :: rest)) - 1))
              = Some (Z.of_nat (length rest))).
      f_equal. rewrite Hlen, Hrest. apply wrap64_small. lia.
    - rewrite list_lookup_insert_ne by exact Hij. reflexivity. }
  assert (Hleft : wrap64 (Shuffle.sfen_count_left st - 1)
                  = Shuffle.sfen_count_left st - 1).
  { apply wrap64_small. lia. }
  rewrite Hleft. unfold counts_match.
  cbn [Shuffle.sfen_file_streams Shuffle.sfen_count_in_file
       Shuffle.sfen_count_left Shuffle.output].
  split; [|split; [reflexivity|]].
  - split; [exact Hcounts|]. split; [|lia].
    rewrite Hl, (sumZ_alter _ _ _ _ Hi).
    rewrite wrap64_small by lia. lia.
  - rewrite <- app_assoc. apply Permutation_app_head.
    pose proof (concat_insert_perm _ _ _ rest Hs) as Hperm.
    apply (Permutation_app_inv_l rest). rewrite <- Hperm. cbn [app].
    symmetry. apply Permutation_middle.
Qed.

Lemma shuffle_write_loop_spec {PSV : Type} (n : nat) :
  forall (fuel : nat) (st : Shuffle.State PSV),
  counts_match st -> Shuffle.sfen_count_left st = Z.of_nat n ->
  (n <= fuel)%nat ->
  exists st',
    Shuffle.shuffle_write_loop fuel st = Some st' /\
    Shuffle.output st'
    ≡ₚ Shuffle.output st ++ concat (Shuffle.sfen_file_streams st).
Proof.
  induction n as [|n IH]; intros fuel st Hm Hleft Hfuel.
  - exists st. destruct fuel; cbn [Shuffle.shuffle_write_loop];
      rewrite Hleft; cbn [Z.of_nat Z.eqb]; (split; [reflexivity|]).
    + destruct Hm as (Hc & Hl & _). rewrite Hleft in Hl.
      assert (Hz : Z.of_nat (length (concat (Shuffle.sfen_file_streams st))) = 0).
      { rewrite <- sumZ_lengths, <- Hc. simpl in Hl. lia. }
      destruct (concat (Shuffle.sfen_file_streams st));
        [rewrite app_nil_r; reflexivity | simpl in Hz; lia].
    + destruct Hm as (Hc & Hl & _). rewrite Hleft in Hl.
      assert (Hz : Z.of_nat (length (concat (Shuffle.sfen_file_streams st))) = 0).
      { rewrite <- sumZ_lengths, <- Hc. simpl in Hl. lia. }
      destruct (concat (Shuffle.sfen_file_streams st));
        [rewrite app_nil_r; reflexivity | simpl in Hz; lia].
  - destruct fuel as [|fuel]; [lia|]. cbn [Shuffle.shuffle_write_loop].
    destruct (Z.eqb_spec (Shuffle.sfen_count_left st) 0); [lia|].
    destruct (shuffle_write_step_spec st Hm ltac:(lia))
      as (st1 & E & Hm1 & Hl1 & Hp1).
    rewrite E.
    destruct (IH fuel st1 Hm1 ltac:(lia) ltac:(lia)) as (st' & E' & Hp').
    exists st'. split; [exact E'|]. rewrite Hp'. exact Hp1.
Qed.

Lemma shuffle_write_spec {PSV : Type} (generator : PRNG.t)
    (streams : list (list PSV)) :
  Z.of_nat (length (concat streams)) < 2 ^ 64 ->
  exists out generator',
    Shuffle.shuffle_write generator streams
      (map (fun s => Z.of_nat (length s)) streams) = Some (out, generator') /\
    out ≡ₚ concat streams.
Proof.
  intros Hfit. unfold Shuffle.shuffle_write.
  set (counts := map (fun s => Z.of_nat (length s)) streams).
  assert (Hnn : Forall (fun c => 0 <= c) counts).
  { subst counts. apply Forall_map, Forall_forall. intros s _. simpl. lia. }
  assert (Hsum : sumZ counts = Z.of_nat (length (concat streams))).
  { subst counts. apply sumZ_lengths. }
  rewrite (total_sfen_count_sum counts 0 Hnn) by lia. rewrite Z.add_0_l.
  destruct (shuffle_write_loop_spec (length (concat streams))
              (Z.to_nat (sumZ counts))
              {| Shuffle.sfen_file_streams := streams;
                 Shuffle.sfen_count_in_file := counts;
                 Shuffle.sfen_count_left := sumZ counts;
                 Shuffle.prng := generator;
                 Shuffle.output := [] |})
    as (st' & E & Hp).
  - split; [reflexivity|]. split; [reflexivity|]. cbn. lia.
  - cbn. exact Hsum.
  - lia.
  - rewrite E. exists (Shuffle.output st'), (Shuffle.prng st').
    split; [reflexivity|]. exact Hp.
Qed.

(** X23. The second pass of the shuffle command merges its input files
    completely: when the counts passed to [shuffle_write] are the numbers
    of records of the streams, the search for the file a random number
    points to never runs off the end of the count vector, the loop ends,
    and the output file holds every record of every stream exactly
    once. *)
Theorem shuffle_write_merges_all_records {PSV : Type} (generator : PRNG.t)
    (streams : list (list PSV)) (counts : list Z) :
  counts = map (fun s => Z.of_nat (length s)) streams ->
  Z.of_nat (length (concat streams)) < 2 ^ 64 ->
  exists out generator',
    Shuffle.shuffle_write generator streams counts = Some (out, generator') /\
    out ≡ₚ concat streams /\ length out = length (concat streams).
Proof.
  intros -> Hfit.
  destruct (shuffle_write_spec generator streams Hfit) as (out & g & E & Hp).
  exists out, g. split; [exact E|]. split; [exact Hp|].
  apply Permutation_length, Hp.
Qed.

Lemma shuffle_write_merges_all_records_witness :
  exists out generator',
    Shuffle.shuffle_write 88172645463325252 [[1; 2; 3]; [4; 5; 6]] [3; 3]
    = Some (out, generator') /\
    out ≡ₚ concat [[1; 2; 3]; [4; 5; 6]] /\
    length out = length (concat [[1; 2; 3]; [4; 5; 6]]).
Proof.
  apply (shuffle_write_merges_all_records 88172645463325252
           [[1; 2; 3]; [4; 5; 6]] [3; 3]).
  - reflexivity.
  - simpl. lia.
Defined.

Example shuffle_write_run :
  Shuffle.shuffle_write 88172645463325252 [[1; 2; 3]; [4; 5; 6]] [3; 3]
  = Some ([4; 5; 1; 6; 2; 3], 8464507941366001569).
Proof. vm_compute. reflexivity. Qed.

Lemma shuffle_Permutation {T} (l : list T) (generator : PRNG.t) :
  Permutation (fst (Algo.shuffle l generator)) l.
Proof. unfold Algo.shuffle. apply (shuffle_loop_Permutation _ _ (l, generator)). Qed.

Lemma take_S_insert {A : Type} (l : list A) (n : nat) (x : A) :
  (n < length l)%nat -> take (S n) (<[n := x]> l) = take n l ++ [x].
Proof.
  intros Hn. erewrite take_S_r by (apply list_lookup_insert_eq; exact Hn).
  rewrite take_insert_ge by lia. reflexivity.
Qed.

Lemma read_record_invariant {PSV : Type} (buffer_size : Z)
    (p : Shuffle.Pass PSV) (done pending : list PSV) (psv : PSV) :
  0 < buffer_size < 2 ^ 64 ->
  pass_invariant buffer_size p done pending ->
  exists done' pending',
    done' ++ pending' = done ++ pending ++ [psv] /\
    pass_invariant buffer_size (Shuffle.read_record buffer_size p psv)
      done' pending'.
Proof.
  intros Hbs (Hlen & Hm & Hlt & Htake & Hdone & Hcount & Hfull).
  unfold Shuffle.read_record.
  cbn [Shuffle.buf Shuffle.buf_write_marker Shuffle.tmp_files Shuffle.a_count
       Shuffle.pass_prng].
  rewrite (wrap64_small (Shuffle.buf_write_marker p + 1)) by lia.
  rewrite Hm, Nat2Z.id.
  assert (Htake1 : take (S (length pending))
                     (<[length pending := psv]> (Shuffle.buf p))
                   = pending ++ [psv]).
  { rewrite take_S_insert by lia. rewrite Htake. reflexivity. }
  destruct (Z.eqb_spec (Z.of_nat (length pending) + 1) buffer_size) as [Hfullb|Hroom].
  - unfold Shuffle.write_buffer.
    cbn [Shuffle.buf Shuffle.buf_write_marker Shuffle.tmp_files Shuffle.a_count
         Shuffle.pass_prng].
    pose proof (shuffle_Permutation (<[length pending := psv]> (Shuffle.buf p))
                  (Shuffle.pass_prng p)) as Hperm.
    destruct (Algo.shuffle (<[length pending := psv]> (Shuffle.buf p))
                (Shuffle.pass_prng p)) as [shuffled prng'].
    cbn [fst] in Hperm.
    assert (Hbuf1 : <[length pending := psv]> (Shuffle.buf p) = pending ++ [psv]).
    { rewrite <- Htake1. symmetry. apply take_ge. rewrite length_insert. lia. }
    rewrite Hbuf1 in Hperm.
    assert (Hls : Z.of_nat (length shuffled) = buffer_size).
    { rewrite (Permutation_length Hperm), length_app. cbn [length]. lia. }
    exists (done ++ pending ++ [psv]), [].
    split; [rewrite app_nil_r; reflexivity|].
    unfold pass_invariant.
    cbn [Shuffle.buf Shuffle.buf_write_marker Shuffle.tmp_files Shuffle.a_count
         Shuffle.pass_prng length take].
    rewrite (take_ge shuffled (Z.to_nat buffer_size)) by lia.
    split; [exact Hls|]. split; [reflexivity|]. split; [lia|].
    split; [reflexivity|]. split.
    { rewrite concat_app. cbn [concat]. rewrite app_nil_r, Hdone, Hperm.
      reflexivity. }
    split.
    { rewrite map_app, Hcount. cbn [map]. rewrite Hls. reflexivity. }
    rewrite !length_app. cbn [length]. lia.
  - exists done, (pending ++ [psv]).
    split; [reflexivity|]. unfold pass_invariant.
    cbn [Shuffle.buf Shuffle.buf_write_marker Shuffle.tmp_files Shuffle.a_count
         Shuffle.pass_prng].
    rewrite length_insert, length_app. cbn [length].
    replace (length pending + 1)%nat with (S (length pending)) by lia.
    split; [exact Hlen|]. split; [lia|]. split; [lia|].
    split; [exact Htake1|]. split; [exact Hdone|]. split; assumption.
Qed.

Lemma first_pass_invariant {PSV : Type} (buffer_size : Z)
    (records : list PSV) :
  0 < buffer_size < 2 ^ 64 ->
  forall (p : Shuffle.Pass PSV) (done pending : list PSV),
  pass_invariant buffer_size p done pending ->
  exists done' pending',
    done' ++ pending' = done ++ pending ++ records /\
    pass_invariant buffer_size
      (fold_left (Shuffle.read_record buffer_size) records p) done' pending'.
Proof.
  intros Hbs. induction records as [|psv records IH]; intros p done pending Hinv.
  - exists done, pending. rewrite app_nil_r. split; [reflexivity | exact Hinv].
  - destruct (read_record_invariant buffer_size p done pending psv Hbs Hinv)
      as (done1 & pending1 & E1 & Hinv1).
    destruct (IH _ _ _ Hinv1) as (done' & pending' & E & Hinv').
    exists done', pending'. split; [|exact Hinv'].
    cbn [fold_left]. rewrite E, app_assoc, E1, <- !app_assoc. reflexivity.
Qed.

(** X24. The shuffle command writes as many records as it reads, and when
    the number of records is a multiple of [buffer_size] the output file
    holds exactly the records of the input files, each once.  (When the
    last buffer is not full, [write_buffer] still shuffles the whole
    buffer before it writes the first [size] entries, so records of the
    previous buffer can take the place of new ones: see the example
    below.) *)
Theorem shuffle_files_full_buffers {PSV : Type} (zero : PSV)
    (files : list (list PSV)) (buffer_size : Z) (generator : PRNG.t) :
  0 < buffer_size < 2 ^ 64 ->
  Z.of_nat (length (concat files)) < 2 ^ 64 ->
  exists out generator',
    Shuffle.shuffle_files zero files buffer_size generator
    = Some (out, generator') /\
    length out = length (concat files) /\
    (Z.of_nat (length (concat files)) mod buffer_size = 0 ->
     out ≡ₚ concat files).
Proof.
  intros Hbs Hfit. unfold Shuffle.shuffle_files.
  destruct (first_pass_invariant buffer_size (concat files) Hbs
              {| Shuffle.buf := replicate (Z.to_nat buffer_size) zero;
                 Shuffle.buf_write_marker := 0;
                 Shuffle.tmp_files := [];
                 Shuffle.a_count := [];
                 Shuffle.pass_prng := generator |} [] [])
    as (done & pending & E & Hinv).
  { unfold pass_invariant. cbn. rewrite length_replicate.
    repeat split; try reflexivity; lia. }
  cbn [app] in E.
  set (p := fold_left (Shuffle.read_record buffer_size) (concat files) _) in *.
  destruct Hinv as (Hlen & Hm & Hlt & Htake & Hdone & Hcount & Hfull).
  assert (Htotal : Z.of_nat (length (concat files))
                   = Z.of_nat (length done) + Z.of_nat (length pending)).
  { rewrite <- E, length_app. lia. }
  destruct (Z.eqb_spec (Shuffle.buf_write_marker p) 0) as [Hz|Hnz];
    cbn [negb].
  - assert (Hp : pending = []).
    { destruct pending; [reflexivity | rewrite Hm in Hz; simpl in Hz; lia]. }
    subst pending. rewrite app_nil_r in E. subst done.
    rewrite Hcount.
    destruct (shuffle_write_spec (Shuffle.pass_prng p) (Shuffle.tmp_files p))
      as (out & g & Eout & Hperm).
    { rewrite (Permutation_length Hdone). exact Hfit. }
    exists out, g. split; [exact Eout|]. split.
    + rewrite (Permutation_length Hperm). apply Permutation_length, Hdone.
    + intros _. rewrite Hperm. exact Hdone.
  - unfold Shuffle.write_buffer.
    pose proof (shuffle_Permutation (Shuffle.buf p) (Shuffle.pass_prng p))
      as Hsh.
    destruct (Algo.shuffle (Shuffle.buf p) (Shuffle.pass_prng p))
      as [shuffled prng'].
    cbn [fst] in Hsh.
    cbn [Shuffle.tmp_files Shuffle.a_count Shuffle.pass_prng].
    assert (Hlast : Z.of_nat (length (take (Z.to_nat (Shuffle.buf_write_marker p))
                                        shuffled))
                    = Shuffle.buf_write_marker p).
    { rewrite length_take, (Permutation_length Hsh). lia. }
    assert (Hcount' : Shuffle.a_count p ++ [Shuffle.buf_write_marker p]
                      = map (fun s => Z.of_nat (length s))
                          (Shuffle.tmp_files p
                           ++ [take (Z.to_nat (Shuffle.buf_write_marker p))
                                 shuffled])).
    { rewrite map_app, Hcount. cbn [map]. rewrite Hlast. reflexivity. }
    rewrite Hcount'.
    assert (Hsize : Z.of_nat (length (concat
                       (Shuffle.tmp_files p
                        ++ [take (Z.to_nat (Shuffle.buf_write_marker p))
                              shuffled])))
                    = Z.of_nat (length (concat files))).
    { rewrite concat_app, length_app. cbn [concat]. rewrite app_nil_r.
      rewrite (Permutation_length Hdone). lia. }
    destruct (shuffle_write_spec prng'
                (Shuffle.tmp_files p
                 ++ [take (Z.to_nat (Shuffle.buf_write_marker p)) shuffled]))
      as (out & g & Eout & Hperm); [lia|].
    exists out, g. split; [exact Eout|]. split.
    + rewrite (Permutation_length Hperm). lia.
    + intros Hmod. exfalso. apply Hnz.
      rewrite Htotal, Hfull, <- Hm in Hmod.
      rewrite Z.add_comm, Z.mul_comm, Z.mod_add in Hmod by lia.
      rewrite Z.mod_small in Hmod by lia. exact Hmod.
Qed.

Lemma shuffle_files_full_buffers_witness :
  exists out generator',
    Shuffle.shuffle_files 0 [[1; 2; 3]; [4; 5; 6]] 3 88172645463325252
    = Some (out, generator') /\
    length out = length (concat [[1; 2; 3]; [4; 5; 6]]) /\
    (Z.of_nat (length (concat [[1; 2; 3]; [4; 5; 6]])) mod 3 = 0 ->
     out ≡ₚ concat [[1; 2; 3]; [4; 5; 6]]).
Proof.
  apply (shuffle_files_full_buffers 0 [[1; 2; 3]; [4; 5; 6]] 3
           88172645463325252).
  - lia.
  - simpl. lia.
Defined.

(** Seven records with a buffer of three: the last buffer holds one new
    record, 7, beside the records 4 and 6 of the buffer before.  The whole
    buffer is shuffled and its first entry written: record 4 is written a
    second time and record 7 is lost. *)
Example shuffle_files_partial_buffer :
  fst <$> Shuffle.shuffle_files 0 [[1; 2; 3]; [4; 5; 6; 7]] 3 88172645463325252
  = Some [3; 6; 1; 4; 2; 4; 5].
Proof. vm_compute. reflexivity. Qed.


(** ** The shuffle stays inside the vector *)

(** X25. [Algo::shuffle] never indexes outside the vector: at step [i] of
    a vector of [size] elements the second index of the swap,
    [prng.rand(size - i) + i], lies in [i, size) whatever the state of the
    generator, so both elements exist and the swap exchanges them. *)
Theorem Algo_shuffle_swaps_inside_vector {T : Type} (buf : list T) (i : Z)
    (s : PRNG.t) :
  0 <= i < Z.of_nat (length buf) -> Z.of_nat (length buf) < 2 ^ 64 ->
  let size := Z.of_nat (length buf) in
  let j := wrap64 (fst (PRNG.rand (wrap64 (size - i)) s) + i) in
  i <= j < size /\
  exists x y,
    buf !! Z.to_nat i = Some x /\ buf !! Z.to_nat j = Some y /\
    fst (Algo.shuffle_step size (buf, s) i)
    = <[Z.to_nat i := y]> (<[Z.to_nat j := x]> buf).
Proof.
  intros Hi Hsize size j.
  pose proof (shuffle_index_in_range size i s Hi Hsize) as Hj. fold j in Hj.
  split; [exact Hj|].
  destruct (lookup_lt_is_Some_2 buf (Z.to_nat i) ltac:(lia)) as [x Hx].
  destruct (lookup_lt_is_Some_2 buf (Z.to_nat j) ltac:(lia)) as [y Hy].
  exists x, y. split; [exact Hx|]. split; [exact Hy|].
  unfold Algo.shuffle_step. subst j.
  destruct (PRNG.rand (wrap64 (size - i)) s) as [r s']. cbn [fst] in *.
  unfold Algo.swap. rewrite Hx, Hy. reflexivity.
Qed.

Lemma Algo_shuffle_swaps_inside_vector_witness :
  let size := Z.of_nat (length [10; 20; 30; 40; 50]) in
  let j := wrap64 (fst (PRNG.rand (wrap64 (size - 2)) 88172645463325252) + 2) in
  2 <= j < size /\
  exists x y,
    [10; 20; 30; 40; 50] !! Z.to_nat 2 = Some x /\
    [10; 20; 30; 40; 50] !! Z.to_nat j = Some y /\
    fst (Algo.shuffle_step size ([10; 20; 30; 40; 50], 88172645463325252) 2)
    = <[Z.to_nat 2 := y]> (<[Z.to_nat j := x]> [10; 20; 30; 40; 50]).
Proof.
  apply (Algo_shuffle_swaps_inside_vector [10; 20; 30; 40; 50] 2
           88172645463325252); simpl; lia.
Defined.


(** ** The table of position keys of [thread_worker] *)

(** Stores of other threads leave the key [K] in its slot unless one of
    them puts another key there. *)
Lemma store_keys_keeps (keys : list Z) (K : Z) :
  forall hash,
    hash (hash_index K) = K ->
    store_keys keys hash (hash_index K) = K
    \/ exists other,
         In other keys /\ hash_index other = hash_index K /\ other <> K.
Proof.
  induction keys as [|w keys IH]; intros hash HK; [left; exact HK|].
  change (store_keys (w :: keys) hash)
    with (store_keys keys (replace_key hash w)).
  destruct (Z.eq_dec (hash_index w) (hash_index K)) as [Hs|Hs].
  - destruct (Z.eq_dec w K) as [->|Hw].
    + destruct (IH (replace_key hash K)) as [H|(o & Ho & H)].
      * unfold replace_key. rewrite Z.eqb_refl. reflexivity.
      * left; exact H.
      * right. exists o. split; [right; exact Ho | exact H].
    + right. exists w. split; [left; reflexivity|]. split; assumption.
  - destruct (IH (replace_key hash w)) as [H|(o & Ho & H)].
    + unfold replace_key.
      destruct (Z.eqb_spec (hash_index K) (hash_index w)); [congruence|].
      exact HK.
    + left; exact H.
    + right. exists o. split; [right; exact Ho | exact H].
Qed.

Lemma record_game_shared_app (m : Z) (g1 g2 : list SharedPly) :
  forall ply st,
    record_game_shared m ply (g1 ++ g2) st
    = record_game_shared m (ply + Z.of_nat (length g1)) g2
        (record_game_shared m ply g1 st).
Proof.
  induction g1 as [|d g1 IH]; intros ply st.
  - cbn [app record_game_shared length]. f_equal. lia.
  - cbn [app record_game_shared length]. rewrite IH. f_equal. lia.
Qed.

Lemma record_ply_shared_late (m ply : Z) (p : SharedPly)
    (buf : list Gensfen.PackedSfenValue) (hash : Z -> Z) :
  m - 1 <= ply ->
  record_ply_shared m ply p (buf, hash)
  = (buf ++ (if is_recorded p hash then [packed ply (ply_data p)] else []),
     table_after p hash).
Proof.
  intros Hm. unfold record_ply_shared, table_after, is_recorded, table_read.
  destruct (Z.ltb_spec ply (m - 1)); [lia|].
  destruct (Gensfen.ply_key (ply_data p) =? _); cbn [negb];
    [rewrite app_nil_r|]; reflexivity.
Qed.

(** Before [write_minply] the buffer stays empty. *)
Lemma record_game_shared_early (m : Z) (g : list SharedPly) :
  forall ply hash,
    ply + Z.of_nat (length g) <= m - 1 ->
    exists hash', record_game_shared m ply g ([], hash) = ([], hash').
Proof.
  induction g as [|d g IH]; intros ply hash Hm; [exists hash; reflexivity|].
  cbn [length] in Hm. cbn [record_game_shared]. unfold record_ply_shared.
  destruct (Z.ltb_spec ply (m - 1)); [|lia]. apply IH. lia.
Qed.

Lemma record_game_shared_late_buf (m : Z) (g : list SharedPly) :
  forall ply buf hash,
    m - 1 <= ply ->
    record_game_shared m ply g (buf, hash)
    = (buf ++ fst (record_game_shared m ply g ([], hash)),
       snd (record_game_shared m ply g ([], hash))).
Proof.
  induction g as [|d g IH]; intros ply buf hash Hm.
  - cbn [record_game_shared fst snd]. rewrite app_nil_r. reflexivity.
  - cbn [record_game_shared]. rewrite !record_ply_shared_late by lia.
    rewrite (IH (ply + 1) (buf ++ _)) by lia.
    rewrite (IH (ply + 1) ([] ++ _)) by lia.
    cbn [fst snd app]. rewrite <- app_assoc. reflexivity.
Qed.

Lemma record_game_shared_late_cons (m ply : Z) (p : SharedPly)
    (g : list SharedPly) (hash : Z -> Z) :
  m - 1 <= ply ->
  fst (record_game_shared m ply (p :: g) ([], hash))
  = (if is_recorded p hash then [packed ply (ply_data p)] else [])
    ++ fst (record_game_shared m (ply + 1) g ([], table_after p hash)).
Proof.
  intros Hm. cbn [record_game_shared]. rewrite record_ply_shared_late by lia.
  rewrite record_game_shared_late_buf by lia. reflexivity.
Qed.

Lemma recorded_at_app (x : Z) (l1 l2 : list Gensfen.PackedSfenValue) :
  recorded_at x (l1 ++ l2) <-> recorded_at x l1 \/ recorded_at x l2.
Proof. unfold recorded_at. rewrite List.map_app. apply in_app_iff. Qed.

(** The record of the ply itself, if any, is the only one with its ply. *)
Lemma recorded_at_own (x ply : Z) (p : SharedPly) (hash : Z -> Z) :
  recorded_at x (if is_recorded p hash then [packed ply (ply_data p)] else [])
  <-> x = ply /\ is_recorded p hash = true.
Proof.
  destruct (is_recorded p hash); unfold recorded_at; cbn; split.
  - intros [H|[]]. split; [symmetry; exact H | reflexivity].
  - intros [-> _]. left; reflexivity.
  - intros [].
  - intros [_ H]. discriminate.
Qed.

Lemma recorded_bound (m : Z) (g : list SharedPly) :
  forall ply hash x,
    m - 1 <= ply ->
    recorded_at x (fst (record_game_shared m ply g ([], hash))) ->
    ply <= x < ply + Z.of_nat (length g).
Proof.
  induction g as [|d g IH]; intros ply hash x Hm Hx; [destruct Hx|].
  rewrite record_game_shared_late_cons in Hx by lia.
  cbn [length]. rewrite Nat2Z.inj_succ.
  apply recorded_at_app in Hx. destruct Hx as [Hx|Hx].
  - apply recorded_at_own in Hx. lia.
  - apply IH in Hx; lia.
Qed.

(** A later ply in the buffer is in the part of the buffer the later plies
    made. *)
Lemma recorded_later (m ply : Z) (p : SharedPly) (g : list SharedPly)
    (hash : Z -> Z) (k : nat) :
  m - 1 <= ply ->
  recorded_at (ply + Z.of_nat (S k))
    (fst (record_game_shared m ply (p :: g) ([], hash)))
  <-> recorded_at (ply + 1 + Z.of_nat k)
        (fst (record_game_shared m (ply + 1) g ([], table_after p hash))).
Proof.
  intros Hm. rewrite record_game_shared_late_cons by lia.
  rewrite recorded_at_app, recorded_at_own.
  replace (ply + Z.of_nat (S k)) with (ply + 1 + Z.of_nat k) by lia.
  split; [intros [[H _]|H]; [lia | exact H] | intros H; right; exact H].
Qed.

Lemma recorded_first (m ply : Z) (p : SharedPly) (g : list SharedPly)
    (hash : Z -> Z) :
  m - 1 <= ply ->
  recorded_at (ply + Z.of_nat 0)
    (fst (record_game_shared m ply (p :: g) ([], hash)))
  <-> is_recorded p hash = true.
Proof.
  intros Hm. rewrite record_game_shared_late_cons by lia.
  rewrite recorded_at_app, recorded_at_own. split.
  - intros [[_ H]|H]; [exact H|]. apply recorded_bound in H; lia.
  - intros H. left. split; [cbn; lia | exact H].
Qed.

Lemma slot_taken_shift (p : SharedPly) (g : list SharedPly) (i j : nat)
    (K : Z) :
  slot_taken_by_other_thread g i j K ->
  slot_taken_by_other_thread (p :: g) (S i) (S j) K.
Proof.
  intros (k & pk & o & Hk & Hg & Ho & Hs & Hd).
  exists (S k), pk, o. split; [lia|]. split; [exact Hg|].
  split; [|split; assumption].
  destruct Ho as [Ho|[Hlt Ho]]; [left; exact Ho | right; split; [lia | exact Ho]].
Qed.

Lemma slot_taken_earlier (g : list SharedPly) (i i' j : nat) (K : Z) :
  (i' <= i)%nat ->
  slot_taken_by_other_thread g i j K -> slot_taken_by_other_thread g i' j K.
Proof.
  intros Hi (k & pk & o & Hk & H). exists k, pk, o. split; [lia | exact H].
Qed.

Lemma slot_taken_drop (e : nat) (g : list SharedPly) (i j : nat) (K : Z) :
  slot_taken_by_other_thread (drop e g) i j K ->
  slot_taken_by_other_thread g (e + i) (e + j) K.
Proof.
  intros (k & pk & o & Hk & Hg & Ho & Hs & Hd).
  exists (e + k)%nat, pk, o. split; [lia|].
  split; [rewrite <- lookup_drop; exact Hg|]. split; [|split; assumption].
  destruct Ho as [Ho|[Hlt Ho]]; [left; exact Ho | right; split; [lia | exact Ho]].
Qed.

(** Once the table holds the key [K] in its slot (stored by the ply [p]
    before [g]), a later position with the key [K] is recorded only after
    another key has taken the slot. *)
Lemma recorded_again_after (m : Z) (g : list SharedPly) :
  forall ply hash K p j pj,
    m - 1 <= ply -> hash (hash_index K) = K ->
    g !! j = Some pj -> Gensfen.ply_key (ply_data pj) = K ->
    recorded_at (ply + Z.of_nat j)
      (fst (record_game_shared m ply g ([], hash))) ->
    (exists k pk,
       (k < j)%nat /\ g !! k = Some pk /\
       recorded_at (ply + Z.of_nat k)
         (fst (record_game_shared m ply g ([], hash))) /\
       hash_index (Gensfen.ply_key (ply_data pk)) = hash_index K /\
       Gensfen.ply_key (ply_data pk) <> K)
    \/ slot_taken_by_other_thread (p :: g) 0 (S j) K.
Proof.
  induction g as [|q g IH]; intros ply hash K p j pj Hm HK Hj Hkey Hrec.
  - rewrite lookup_nil in Hj. discriminate.
  - destruct (store_keys_keeps (stored_before_read q) K hash HK)
      as [Hseen|(o & Ho & Hs & Hd)].
    2:{ right. exists 1%nat, q, o. split; [lia|]. split; [reflexivity|].
        split; [left; exact Ho|]. split; assumption. }
    fold (table_read q hash) in Hseen.
    destruct j as [|j].
    + (* the position itself: the table still holds its key *)
      cbn in Hj. injection Hj as ->.
      apply recorded_first in Hrec; [|exact Hm].
      unfold is_recorded in Hrec. rewrite Hkey, Hseen, Z.eqb_refl in Hrec.
      discriminate.
    + cbn in Hj. apply recorded_later in Hrec; [|exact Hm].
      destruct (store_keys_keeps (stored_before_write q) K _ Hseen)
        as [Hlater|(o & Ho & Hs & Hd)].
      2:{ right. exists 1%nat, q, o. split; [lia|]. split; [reflexivity|].
          split; [right; split; [lia | exact Ho]|]. split; assumption. }
      assert (Hnext :
        table_after q hash (hash_index K) = K
        \/ is_recorded q hash = true
           /\ hash_index (Gensfen.ply_key (ply_data q)) = hash_index K
           /\ Gensfen.ply_key (ply_data q) <> K).
      { unfold table_after. destruct (is_recorded q hash) eqn:Hq;
          [|left; exact Hlater].
        destruct (Z.eq_dec (hash_index (Gensfen.ply_key (ply_data q)))
                    (hash_index K)) as [Hs|Hs].
        - right. split; [reflexivity|]. split; [exact Hs|]. intros HqK.
          unfold is_recorded in Hq. rewrite HqK, Hseen, Z.eqb_refl in Hq.
          discriminate.
        - left. unfold replace_key.
          destruct (Z.eqb_spec (hash_index K)
                      (hash_index (Gensfen.ply_key (ply_data q))));
            [congruence | exact Hlater]. }
      destruct Hnext as [Hnext|(Hq & Hs & Hd)].
      2:{ left. exists 0%nat, q. split; [lia|]. split; [reflexivity|].
          split; [apply recorded_first; assumption|]. split; assumption. }
      destruct (IH (ply + 1) (table_after q hash) K q j pj ltac:(lia) Hnext
                  Hj Hkey Hrec)
        as [(k & pk & Hk & Hgk & Hrk & Hs & Hd)|Htaken].
      * left. exists (S k), pk. split; [lia|]. split; [exact Hgk|].
        split; [apply recorded_later; assumption|]. split; assumption.
      * right. apply (slot_taken_earlier _ 1); [lia|].
        apply slot_taken_shift. exact Htaken.
Qed.

Lemma recorded_twice_late (m : Z) (g : list SharedPly) :
  forall ply hash i j pi pj,
    m - 1 <= ply -> (i < j)%nat ->
    g !! i = Some pi -> g !! j = Some pj ->
    Gensfen.ply_key (ply_data pi) = Gensfen.ply_key (ply_data pj) ->
    recorded_at (ply + Z.of_nat i)
      (fst (record_game_shared m ply g ([], hash))) ->
    recorded_at (ply + Z.of_nat j)
      (fst (record_game_shared m ply g ([], hash))) ->
    (exists k pk,
       (i < k < j)%nat /\ g !! k = Some pk /\
       recorded_at (ply + Z.of_nat k)
         (fst (record_game_shared m ply g ([], hash))) /\
       hash_index (Gensfen.ply_key (ply_data pk))
       = hash_index (Gensfen.ply_key (ply_data pi)) /\
       Gensfen.ply_key (ply_data pk) <> Gensfen.ply_key (ply_data pi))
    \/ slot_taken_by_other_thread g i j (Gensfen.ply_key (ply_data pi)).
Proof.
  induction g as [|p g IH]; intros ply hash i j pi pj Hm Hij Hi Hj Hkey Hri Hrj.
  - rewrite lookup_nil in Hi. discriminate.
  - destruct j as [|j]; [lia|]. cbn in Hj.
    apply recorded_later in Hrj; [|exact Hm].
    destruct i as [|i].
    + cbn in Hi. injection Hi as ->.
      apply recorded_first in Hri; [|exact Hm].
      assert (HK : table_after pi hash
                     (hash_index (Gensfen.ply_key (ply_data pi)))
                   = Gensfen.ply_key (ply_data pi)).
      { unfold table_after. rewrite Hri. unfold replace_key.
        rewrite Z.eqb_refl. reflexivity. }
      destruct (recorded_again_after m g (ply + 1) (table_after pi hash)
                  (Gensfen.ply_key (ply_data pi)) pi j pj ltac:(lia) HK Hj
                  (eq_sym Hkey) Hrj)
        as [(k & pk & Hk & Hgk & Hrk & Hs & Hd)|Htaken].
      * left. exists (S k), pk. split; [lia|]. split; [exact Hgk|].
        split; [apply recorded_later; assumption|]. split; assumption.
      * right. exact Htaken.
    + cbn in Hi. apply recorded_later in Hri; [|exact Hm].
      destruct (IH (ply + 1) (table_after p hash) i j pi pj ltac:(lia)
                  ltac:(lia) Hi Hj Hkey Hri Hrj)
        as [(k & pk & Hk & Hgk & Hrk & Hs & Hd)|Htaken].
      * left. exists (S k), pk. split; [lia|]. split; [exact Hgk|].
        split; [apply recorded_later; assumption|]. split; assumption.
      * right. apply slot_taken_shift. exact Htaken.
Qed.

(** The plies before [write_minply - 1] leave the buffer empty: the game
    is recorded from the first later ply on, with the table as the other
    threads have left it. *)
Lemma record_game_shared_skips_early (m ply : Z) (g : list SharedPly)
    (hash : Z -> Z) :
  let e := Z.to_nat (m - 1 - ply) in
  fst (record_game_shared m ply g ([], hash)) = []
  \/ (e < length g)%nat /\ m - 1 <= ply + Z.of_nat e /\
     exists hash',
       record_game_shared m ply g ([], hash)
       = record_game_shared m (ply + Z.of_nat e) (drop e g) ([], hash').
Proof.
  intros e. assert (He : e = Z.to_nat (m - 1 - ply)) by reflexivity.
  clearbody e. destruct (Nat.le_gt_cases (length g) e) as [Hle|Hgt].
  - left. destruct g as [|d g]; [reflexivity|].
    destruct (record_game_shared_early m (d :: g) ply hash) as [hash' ->];
      [cbn [length] in *; lia | reflexivity].
  - right. split; [exact Hgt|]. split; [lia|].
    destruct (Z.le_gt_cases (m - 1) ply) as [Hlate|Hearly].
    { exists hash. replace e with 0%nat by lia. rewrite drop_0. f_equal. lia. }
    assert (Hsplit :
      record_game_shared m ply g ([], hash)
      = record_game_shared m (ply + Z.of_nat e) (drop e g)
          (record_game_shared m ply (take e g) ([], hash))).
    { rewrite <- (take_drop e g) at 1. rewrite record_game_shared_app.
      rewrite length_take, Nat.min_l by lia. reflexivity. }
    destruct (record_game_shared_early m (take e g) ply hash)
      as [hash' Hskipped].
    { rewrite length_take, Nat.min_l by lia. lia. }
    exists hash'. rewrite Hsplit, Hskipped. reflexivity.
Qed.

(** X26. The table of position keys keeps a position from being recorded
    twice in a game unless its slot was taken in between: if the positions
    at two plies of the game of a thread have the same key and both are in
    the buffer, then between them the slot of the key received another
    key, either from a position of this game that was recorded, or from
    another worker thread: the table is shared by the threads and has one
    key per slot. *)
Theorem record_game_repetition_needs_collision (write_minply ply : Z)
    (game : list SharedPly) (hash : Z -> Z) (i j : nat) (pi pj : SharedPly) :
  (i < j)%nat -> game !! i = Some pi -> game !! j = Some pj ->
  Gensfen.ply_key (ply_data pi) = Gensfen.ply_key (ply_data pj) ->
  let a_psv := fst (record_game_shared write_minply ply game ([], hash)) in
  recorded_at (ply + Z.of_nat i) a_psv ->
  recorded_at (ply + Z.of_nat j) a_psv ->
  (exists k pk,
     (i < k < j)%nat /\ game !! k = Some pk /\
     recorded_at (ply + Z.of_nat k) a_psv /\
     hash_index (Gensfen.ply_key (ply_data pk))
     = hash_index (Gensfen.ply_key (ply_data pi)) /\
     Gensfen.ply_key (ply_data pk) <> Gensfen.ply_key (ply_data pi))
  \/ slot_taken_by_other_thread game i j (Gensfen.ply_key (ply_data pi)).
Proof.
  intros Hij Hi Hj Hkey a_psv Hri Hrj. subst a_psv.
  destruct (record_game_shared_skips_early write_minply ply game hash)
    as [Hearly|(He & Hm & hash' & Hlate)].
  { rewrite Hearly in Hri. destruct Hri. }
  set (e := Z.to_nat (write_minply - 1 - ply)) in *.
  rewrite Hlate in Hri, Hrj |- *.
  pose proof (recorded_bound _ _ _ _ _ Hm Hri) as Hbi.
  pose proof (recorded_bound _ _ _ _ _ Hm Hrj) as Hbj.
  assert (Hie : i = (e + (i - e))%nat) by lia.
  assert (Hje : j = (e + (j - e))%nat) by lia.
  rewrite Hie in Hi. rewrite Hje in Hj. rewrite <- lookup_drop in Hi, Hj.
  replace (ply + Z.of_nat i) with (ply + Z.of_nat e + Z.of_nat (i - e)) in Hri
    by lia.
  replace (ply + Z.of_nat j) with (ply + Z.of_nat e + Z.of_nat (j - e)) in Hrj
    by lia.
  destruct (recorded_twice_late write_minply (drop e game) (ply + Z.of_nat e)
              hash' (i - e) (j - e) pi pj Hm ltac:(lia) Hi Hj Hkey Hri Hrj)
    as [(k & pk & Hk & Hgk & Hrk & Hs & Hd)|Htaken].
  - left. exists (e + k)%nat, pk. split; [lia|].
    split; [rewrite <- lookup_drop; exact Hgk|].
    split; [|split; assumption].
    replace (ply + Z.of_nat (e + k)) with (ply + Z.of_nat e + Z.of_nat k)
      by lia.
    exact Hrk.
  - right. rewrite Hie, Hje. apply slot_taken_drop. exact Htaken.
Qed.

Lemma record_game_repetition_needs_collision_witness :
  (exists k pk,
     (0 < k < 2)%nat /\ disturbed_game !! k = Some pk /\
     recorded_at (0 + Z.of_nat k)
       (fst (record_game_shared 1 0 disturbed_game ([], fun _ => 0))) /\
     hash_index (Gensfen.ply_key (ply_data pk))
     = hash_index (Gensfen.ply_key (ply_data (undisturbed (ply_with_key 5)))) /\
     Gensfen.ply_key (ply_data pk)
     <> Gensfen.ply_key (ply_data (undisturbed (ply_with_key 5))))
  \/ slot_taken_by_other_thread disturbed_game 0 2
       (Gensfen.ply_key (ply_data (undisturbed (ply_with_key 5)))).
Proof.
  apply (record_game_repetition_needs_collision 1 0 disturbed_game
           (fun _ => 0) 0 2 (undisturbed (ply_with_key 5))
           {| stored_before_read := [5 + Gensfen.GENSFEN_HASH_SIZE];
              stored_before_write := []; ply_data := ply_with_key 5 |}).
  - lia.
  - reflexivity.
  - reflexivity.
  - reflexivity.
  - vm_compute. left. reflexivity.
  - vm_compute. right. right. left. reflexivity.
Defined.

(** When no other thread stores a key during the game, the shared table
    behaves as the table of [Gensfen.record_game]. *)
Lemma record_game_shared_undisturbed (m : Z) (game : list Gensfen.PlyData) :
  forall ply st,
    record_game_shared m ply (map undisturbed game) st
    = Gensfen.record_game m ply game st.
Proof.
  induction game as [|d game IH]; intros ply st; [reflexivity|].
  cbn [map record_game_shared Gensfen.record_game]. rewrite IH.
  reflexivity.
Qed.

(** The plies in the buffer: in [disturbed_game] the repetition is
    recorded because another thread took the slot, in [colliding_game]
    because a position of the game did; in [repeating_game] nothing
    takes the slot and the repetition is left out. *)
Example record_game_collision_run :
  map Gensfen.gamePly
    (fst (record_game_shared 1 0 disturbed_game ([], fun _ => 0)))
  = [0; 1; 2] /\
  map Gensfen.gamePly
    (fst (Gensfen.record_game 1 0 colliding_game ([], fun _ => 0)))
  = [0; 1; 2] /\
  map Gensfen.gamePly repeating_game_buffer = [0; 1; 2; 3; 5].
Proof. repeat split; vm_compute; reflexivity. Qed.
